(** * GOTM entrainment notebooks: configuration batches and the Price (1979) curve

    The repository consists of Jupyter notebooks that drive the GOTM ocean
    turbulence model through the [gotmtool] package:

    - [run_Entrainment.ipynb], [run_Entrainment-KC04.ipynb] and the
      OSMOSIS-Winter-KC04 run notebook build one configuration per turbulence
      closure variant by mutating a nested dictionary [cfg], append a
      [copy.deepcopy] of it to the list [cfgs] together with a label in
      [labels], and hand both lists to [m.run_batch];
    - [plot_Entrainment-KC04-MY.ipynb] loads the output of each case into the
      dictionary [dataset] and plots the mixed layer depth against the scaling
      of Price (1979).

    The notebooks are embedded as follows.  Python objects live in a store
    (dictionaries and lists are mutable and referred to by address, so that
    aliasing and [copy.deepcopy] mean something); statements are computations
    in a state-and-exception monad, and a cell that starts with [%%time]
    shows the exception of its body and returns; floating point numbers are
    binary64 ([PrimFloat]) and time stamps 64 bit integers; the closed-form
    curve is written over an interface of arithmetic operations and read in
    binary64, where each operation rounds to nearest. *)

From Stdlib Require Import ZArith Ascii Floats Reals Lra Lia.
From stdpp Require Import base option list gmap strings pretty.

Open Scope Z_scope.

(** ** Exceptions and results *)

(** What the notebooks subscript a container with: a string or an
    integer. *)
Inductive subscript :=
| Key (k : string)
| Index (i : Z).

Coercion Key : string >-> subscript.

Global Instance subscript_eq_dec : EqDecision subscript.
Proof. solve_decision. Defined.

(** [at["a"; "b"; 0]] is the chain of subscripts [['a']['b'][0]]. *)
Notation "'at[' x ; .. ; y ]" :=
  (@cons subscript x .. (@cons subscript y (@nil subscript)) ..)
  (at level 0, format "at[ x ;  .. ;  y ]").
Notation "'at[' x ]" := (@cons subscript x (@nil subscript))
  (at level 0, format "at[ x ]").

(** The exceptions the embedded statements can raise.  [ExternalError] stands
    for whatever a call into [gotmtool], [os] or the simulator raises. *)
Inductive exn :=
| KeyError (k : subscript)
| IndexError
| TypeError
| ValueError
| NameError (name : string)
| RecursionError
| SystemError
| ExternalError (msg : string).

Inductive result (A : Type) :=
| Ok (a : A)
| Raise (e : exn).
Arguments Ok {A} a.
Arguments Raise {A} e.

Definition result_bind {A B} (r : result A) (f : A → result B) : result B :=
  match r with
  | Ok a => f a
  | Raise e => Raise e
  end.

Definition is_Ok {A} (r : result A) : Prop := ∃ a, r = Ok a.

(** ** ['{:.Nf}'.format(x)] *)

(** Python formats a float with a fixed number of decimals by rounding the
    exact binary value to the nearest multiple of [10^-N], ties to even. *)
Definition round_half_even (num den : Z) : Z :=
  let q := num / den in
  let r := num mod den in
  match 2 * r ?= den with
  | Lt => q
  | Gt => q + 1
  | Eq => if Z.even q then q else q + 1
  end.

Definition zero_pad (width : nat) (s : string) : string :=
  String.string_of_list_ascii (replicate (width - String.length s) "0"%char) +:+ s.

(** The digits of [q / 10^prec] with [prec] decimals, for [0 ≤ q]. *)
Definition fixed_digits (prec : nat) (q : Z) : string :=
  let p10 := 10 ^ Z.of_nat prec in
  pretty (q / p10) +:+
  match prec with
  | O => ""
  | S _ => "." +:+ zero_pad prec (pretty (q mod p10))
  end.

Definition format_f (prec : nat) (x : float) : string :=
  match Prim2SF x with
  | S754_nan => "nan"
  | S754_infinity s => if s then "-inf" else "inf"
  | S754_zero s => (if s then "-" else "") +:+ fixed_digits prec 0
  | S754_finite s m e =>
      let p10 := 10 ^ Z.of_nat prec in
      let q := if 0 <=? e then Z.pos m * 2 ^ e * p10
               else round_half_even (Z.pos m * p10) (2 ^ (- e)) in
      (if s then "-" else "") +:+ fixed_digits prec q
  end.

(** [os.path.join(a, b)] on POSIX paths. *)
Definition starts_with_slash (s : string) : bool :=
  match s with
  | String c _ => bool_decide (c = "/"%char)
  | EmptyString => false
  end.

Fixpoint ends_with_slash (s : string) : bool :=
  match s with
  | EmptyString => false
  | String c EmptyString => bool_decide (c = "/"%char)
  | String _ r => ends_with_slash r
  end.

Definition path_join (a b : string) : string :=
  if starts_with_slash b then b
  else if bool_decide (a = "") || ends_with_slash a then a +:+ b
  else a +:+ "/" +:+ b.

(** ** The store *)

Abbreviation loc := nat.

(** A value is a scalar or the address of a dictionary or list. *)
Inductive val :=
| VNone
| VBool (b : bool)
| VInt (z : Z)
| VFloat (x : float)
| VStr (s : string)
| VRef (l : loc).

(** Dictionaries keep their items in insertion order, as Python's do; a
    key is a string, as in a YAML configuration, or an integer. *)
Inductive obj :=
| ODict (items : list (subscript * val))
| OList (elems : list val).

Abbreviation heap := (list obj).

Fixpoint dict_get {K V} `{EqDecision K} (k : K) (d : list (K * V)) : option V :=
  match d with
  | [] => None
  | (k', v) :: r => if decide (k = k') then Some v else dict_get k r
  end.

(** [d[k] = v]: overwrite in place, or add at the end. *)
Fixpoint dict_set (k : subscript) (v : val) (d : list (subscript * val))
  : list (subscript * val) :=
  match d with
  | [] => [(k, v)]
  | (k', v') :: r =>
      if decide (k = k') then (k, v) :: r else (k', v') :: dict_set k v r
  end.

(** Python's reading of a list index: negative indices count from the end. *)
Definition py_index (i : Z) (n : nat) : option nat :=
  if (0 <=? i) && (i <? Z.of_nat n) then Some (Z.to_nat i)
  else if (i <? 0) && (- Z.of_nat n <=? i) then Some (Z.to_nat (i + Z.of_nat n))
  else None.

Definition list_getitem {A} (l : list A) (i : Z) : option A :=
  py_index i (length l) ≫= λ n, l !! n.

(** [s[i]] on a string: the character at the index, a string of length
    one.  A string is the list of its characters. *)
Definition str_getitem (s : string) (i : Z) : option string :=
  (λ c, String c EmptyString) <$> list_getitem (String.list_ascii_of_string s) i.

(** [container[s]]: a dictionary is looked up at the key, whether a string
    or an integer; a list and a string take an integer index; the other
    values cannot be subscripted. *)
Definition getitem (h : heap) (container : val) (s : subscript) : result val :=
  match container with
  | VRef l =>
      match h !! l with
      | Some (ODict d) =>
          match dict_get s d with
          | Some v => Ok v
          | None => Raise (KeyError s)
          end
      | Some (OList vs) =>
          match s with
          | Index i =>
              match list_getitem vs i with
              | Some v => Ok v
              | None => Raise IndexError
              end
          | Key _ => Raise TypeError
          end
      | None => Raise SystemError
      end
  | VStr str =>
      match s with
      | Index i =>
          match str_getitem str i with
          | Some c => Ok (VStr c)
          | None => Raise IndexError
          end
      | Key _ => Raise TypeError
      end
  | _ => Raise TypeError
  end.

(** [container[s] = v]: a dictionary stores the value under the key, a list
    at an index in range; a string and the other scalars support no item
    assignment. *)
Definition setitem (h : heap) (container : val) (s : subscript) (v : val)
  : result heap :=
  match container with
  | VRef l =>
      match h !! l with
      | Some (ODict d) => Ok (<[l := ODict (dict_set s v d)]> h)
      | Some (OList vs) =>
          match s with
          | Index i =>
              match py_index i (length vs) with
              | Some n => Ok (<[l := OList (<[n := v]> vs)]> h)
              | None => Raise IndexError
              end
          | Key _ => Raise TypeError
          end
      | None => Raise SystemError
      end
  | _ => Raise TypeError
  end.

(** [root[s1][s2]...[sn]] *)
Fixpoint getpath (h : heap) (root : val) (path : list subscript) : result val :=
  match path with
  | [] => Ok root
  | s :: rest => result_bind (getitem h root s) (λ v, getpath h v rest)
  end.

Global Instance result_mret : MRet result := @Ok.
Global Instance result_mbind : MBind result := λ A B f r, result_bind r f.

(** ** Statements *)

(** A statement transforms the variables of the notebook (a state of type
    [S]) or raises.  The notebooks contain no [try], so the first exception
    ends a sequence of statements; the one handler is that of the cell
    magic [%%time] of the run notebooks ([time_magic] below). *)
Definition stx (S A : Type) : Type := S → result (A * S).

Global Instance stx_ret {S} : MRet (stx S) := λ A a σ, Ok (a, σ).
Global Instance stx_bind {S} : MBind (stx S) := λ A B f m σ,
  match m σ with
  | Ok (a, σ') => f a σ'
  | Raise e => Raise e
  end.

(** [for x in xs: body] *)
Fixpoint for_each {S A} (xs : list A) (body : A → stx S unit) : stx S unit :=
  match xs with
  | [] => mret tt
  | x :: r => body x ;; for_each r body
  end.

(** [enumerate(xs)] *)
Definition enumerate {A} (xs : list A) : list (Z * A) :=
  zip (Z.of_nat <$> seq 0 (length xs)) xs.

(** ** Literals and YAML documents *)

(** A value written out in full: what a literal such as [{}], [[{}]] or
    ['tke'] denotes, and what loading a YAML file yields. *)
#[warnings="-register-all"]
Inductive pyvalue :=
| PNone
| PBool (b : bool)
| PInt (z : Z)
| PFloat (x : float)
| PStr (s : string)
| PDict (items : list (subscript * pyvalue))
| PList (elems : list pyvalue).

Definition alloc_items (rec : pyvalue → heap → val * heap) :=
  fix go (its : list (subscript * pyvalue)) (acc : list (subscript * val)) (h : heap)
    : list (subscript * val) * heap :=
    match its with
    | [] => (acc, h)
    | (k, t) :: r => let '(v, h') := rec t h in go r (dict_set k v acc) h'
    end.

Definition alloc_elems (rec : pyvalue → heap → val * heap) :=
  fix go (es : list pyvalue) (h : heap) : list val * heap :=
    match es with
    | [] => ([], h)
    | t :: r =>
        let '(v, h') := rec t h in
        let '(vs, h'') := go r h' in
        (v :: vs, h'')
    end.

(** Evaluating a literal builds its inner objects first and puts every new
    object at a fresh address, the end of the store. *)
Fixpoint alloc (t : pyvalue) (h : heap) : val * heap :=
  match t with
  | PNone => (VNone, h)
  | PBool b => (VBool b, h)
  | PInt z => (VInt z, h)
  | PFloat x => (VFloat x, h)
  | PStr s => (VStr s, h)
  | PDict items =>
      let '(d, h1) := alloc_items alloc items [] h in
      (VRef (length h1), h1 ++ [ODict d])
  | PList elems =>
      let '(vs, h1) := alloc_elems alloc elems h in
      (VRef (length h1), h1 ++ [OList vs])
  end.

(** ** [copy.deepcopy] *)

(** [copy.deepcopy(x)] returns atomic values as they are and rebuilds
    dictionaries and lists; the memo maps every object already copied to its
    copy, so that sharing and cycles inside [x] are reproduced in the copy.
    The new object is registered in the memo before its contents are copied
    ([y = {}; memo[id(x)] = y; for key, value in x.items(): ...]). *)
Definition copy_vals
    (rec : gmap loc loc → heap → val → result (val * gmap loc loc * heap)) :=
  fix go (vs : list val) (memo : gmap loc loc) (h : heap)
    : result (list val * gmap loc loc * heap) :=
    match vs with
    | [] => Ok ([], memo, h)
    | v :: r =>
        '(v', memo1, h1) ← rec memo h v;
        '(r', memo2, h2) ← go r memo1 h1;
        Ok (v' :: r', memo2, h2)
    end.

Fixpoint deepcopy_rec (fuel : nat) (memo : gmap loc loc) (h : heap) (v : val)
  : result (val * gmap loc loc * heap) :=
  match v with
  | VRef l =>
      match memo !! l with
      | Some l' => Ok (VRef l', memo, h)
      | None =>
          match fuel with
          | O => Raise RecursionError
          | S fuel' =>
              let l' := length h in
              match h !! l with
              | None => Raise SystemError
              | Some (ODict d) =>
                  '(vs, memo', h') ←
                    copy_vals (deepcopy_rec fuel') d.*2
                      (<[l := l']> memo) (h ++ [ODict []]);
                  Ok (VRef l', memo', <[l' := ODict (zip d.*1 vs)]> h')
              | Some (OList es) =>
                  '(vs, memo', h') ←
                    copy_vals (deepcopy_rec fuel') es
                      (<[l := l']> memo) (h ++ [OList []]);
                  Ok (VRef l', memo', <[l' := OList vs]> h')
              end
          end
      end
  | _ => Ok (v, memo, h)
  end.

(** Every nested call of the copy registers a new object of the original
    store in the memo, so the nesting is never deeper than the store is
    large. *)
Definition deepcopy (h : heap) (v : val) : result (val * heap) :=
  '(v', _, h') ← deepcopy_rec (S (length h)) ∅ h v;
  Ok (v', h').

(** ** Reachability and well-formed stores *)

Definition refs_of (o : obj) : list val :=
  match o with
  | ODict d => d.*2
  | OList es => es
  end.

(** [reach h v l]: the object at [l] is part of the value [v] in store [h]. *)
Inductive reach (h : heap) (v : val) : loc → Prop :=
| reach_root l : v = VRef l → reach h v l
| reach_step l o l' :
    reach h v l → h !! l = Some o → VRef l' ∈ refs_of o → reach h v l'.

Definition wf_val (h : heap) (v : val) : Prop :=
  ∀ l, v = VRef l → (l < length h)%nat.

Definition wf_heap (h : heap) : Prop :=
  ∀ l o, h !! l = Some o → Forall (wf_val h) (refs_of o).

(** The value [v] is left as it is between two stores. *)
Definition unchanged (h h' : heap) (v : val) : Prop :=
  ∀ l, reach h v l → h' !! l = h !! l.

(** ** The run notebooks *)

(** [os.path.dirname] on POSIX paths: everything before the last slash,
    without trailing slashes unless it consists of slashes only. *)
Fixpoint drop_trailing_slashes_rev (r : list ascii) : list ascii :=
  match r with
  | c :: r' => if decide (c = "/"%char) then drop_trailing_slashes_rev r' else r
  | [] => []
  end.

Fixpoint drop_last_component_rev (r : list ascii) : list ascii :=
  match r with
  | c :: r' => if decide (c = "/"%char) then r else drop_last_component_rev r'
  | [] => []
  end.

Definition dirname (p : string) : string :=
  let head := drop_last_component_rev (reverse (String.list_ascii_of_string p)) in
  let stripped := drop_trailing_slashes_rev head in
  String.string_of_list_ascii (reverse (match stripped with [] => head | _ => stripped end)).

Record Simulation := { sim_path : string }.

(** What [gotmtool] and the simulator behind it do is not part of the
    notebooks: each call either returns or raises. *)
Record gotmtool := {
  (** [Model(name=..., environ=...)]: reads the environment file and returns
      the dictionary [m.environ] *)
  Model_new : string → string → result (list (string * string));
  (** [m.build()] *)
  Model_build : result unit;
  (** [m.init_config()]: the default configuration, a loaded YAML document *)
  Model_init_config : result pyvalue;
  (** [m.run_batch(configs=..., labels=..., nproc=...)] *)
  Model_run_batch : heap → list val → list string → Z → result (list Simulation);
}.

(** The calls a notebook makes into [gotmtool], in order. *)
Inductive call :=
| CallModel (name environ : string)
| CallBuild
| CallInitConfig
| CallRunBatch (configs : list val) (labels : list string) (nproc : Z).

Module Run.

(** The variables of a run notebook.  [cfgs] and [labels] are only ever
    appended to and passed on, so they are kept as lists of the state; the
    configurations themselves live in the store. *)
Record state := {
  store : heap;
  environ : list (string * string);
  cfg : val;
  cfgs : list val;
  labels : list string;
  sims : option (list Simulation);
  (** the calls made into [gotmtool], and the tracebacks shown *)
  calls : list call;
  shown : list exn;
}.

Definition initial : state :=
  {| store := []; environ := []; cfg := VNone; cfgs := []; labels := [];
     sims := None; calls := []; shown := [] |}.

Definition set_store (h : heap) (σ : state) : state :=
  {| store := h; environ := environ σ; cfg := cfg σ; cfgs := cfgs σ;
     labels := labels σ; sims := sims σ; calls := calls σ;
     shown := shown σ |}.
Definition set_environ (e : list (string * string)) (σ : state) : state :=
  {| store := store σ; environ := e; cfg := cfg σ; cfgs := cfgs σ;
     labels := labels σ; sims := sims σ; calls := calls σ;
     shown := shown σ |}.
Definition set_cfg (c : val) (σ : state) : state :=
  {| store := store σ; environ := environ σ; cfg := c; cfgs := cfgs σ;
     labels := labels σ; sims := sims σ; calls := calls σ;
     shown := shown σ |}.
Definition set_cfgs (cs : list val) (σ : state) : state :=
  {| store := store σ; environ := environ σ; cfg := cfg σ; cfgs := cs;
     labels := labels σ; sims := sims σ; calls := calls σ;
     shown := shown σ |}.
Definition set_labels (ls : list string) (σ : state) : state :=
  {| store := store σ; environ := environ σ; cfg := cfg σ; cfgs := cfgs σ;
     labels := ls; sims := sims σ; calls := calls σ;
     shown := shown σ |}.
Definition set_sims (s : list Simulation) (σ : state) : state :=
  {| store := store σ; environ := environ σ; cfg := cfg σ; cfgs := cfgs σ;
     labels := labels σ; sims := Some s; calls := calls σ;
     shown := shown σ |}.
Definition log (c : call) (σ : state) : state :=
  {| store := store σ; environ := environ σ; cfg := cfg σ; cfgs := cfgs σ;
     labels := labels σ; sims := sims σ; calls := calls σ ++ [c];
     shown := shown σ |}.

Definition show_traceback (e : exn) (σ : state) : state :=
  {| store := store σ; environ := environ σ; cfg := cfg σ; cfgs := cfgs σ;
     labels := labels σ; sims := sims σ; calls := calls σ;
     shown := shown σ ++ [e] |}.

Abbreviation M := (stx state).

Definition split_last {A} (l : list A) : option (list A * A) :=
  match reverse l with
  | [] => None
  | x :: r => Some (reverse r, x)
  end.

(** [cfg[s1]...[sn][k] = rhs]: the right-hand side is evaluated first, then
    the subscripts from left to right, then the item is stored. *)
Definition cfg_setitem (path : list subscript) (k : subscript) (rhs : pyvalue)
  : M unit := λ σ,
  let '(v, h1) := alloc rhs (store σ) in
  container ← getpath h1 (cfg σ) path;
  h2 ← setitem h1 container k v;
  Ok (tt, set_store h2 σ).

Definition cfg_set (target : list subscript) (rhs : pyvalue) : M unit :=
  match split_last target with
  | Some (path, k) => cfg_setitem path k rhs
  | None => λ _, Raise TypeError
  end.

(** [cfgs.append(copy.deepcopy(cfg))] *)
Definition cfgs_append_deepcopy : M unit := λ σ,
  '(c, h') ← deepcopy (store σ) (cfg σ);
  Ok (tt, set_cfgs (cfgs σ ++ [c]) (set_store h' σ)).

(** [labels.append(s)] *)
Definition labels_append (s : string) : M unit := λ σ,
  Ok (tt, set_labels (labels σ ++ [s]) σ).

(** [cfgs = []] and [labels = []] *)
Definition cfgs_reset : M unit := λ σ, Ok (tt, set_cfgs [] σ).
Definition labels_reset : M unit := λ σ, Ok (tt, set_labels [] σ).

(** [m.environ[k]] *)
Definition environ_get (k : string) : M string := λ σ,
  match dict_get k (environ σ) with
  | Some v => Ok (v, σ)
  | None => Raise (KeyError k)
  end.

(** A call that is made and recorded whether it returns or raises: its
    outcome, and the state it leaves. *)
Definition attempt (A : Type) : Type := state → result A * state.

(** [%%time] at the top of a cell.  IPython's cell magic runs the body of
    the cell inside [try: ... except: self.shell.showtraceback(); return],
    so an exception of the body is shown and ends the cell, not the run:
    the cells after it are executed. *)
Definition time_magic (body : attempt unit) : M unit := λ σ,
  match body σ with
  | (Ok _, σ') => Ok (tt, σ')
  | (Raise e, σ') => Ok (tt, show_traceback e σ')
  end.

Section calls.
Variable G : gotmtool.

(** [m = Model(name=..., environ=...)] *)
Definition Model (name env_file : string) : M unit := λ σ,
  e ← Model_new G name env_file;
  Ok (tt, set_environ e (log (CallModel name env_file) σ)).

(** [m.build()] *)
Definition build : attempt unit := λ σ,
  (Model_build G, log CallBuild σ).

(** [cfg = m.init_config()] *)
Definition init_config : M unit := λ σ,
  t ← Model_init_config G;
  let '(c, h) := alloc t (store σ) in
  Ok (tt, set_cfg c (set_store h (log CallInitConfig σ))).

(** [sims = m.run_batch(configs=cfgs, labels=labels, nproc=n)]: [sims] is
    bound when the call returns. *)
Definition run_batch (nproc : Z) : attempt unit := λ σ,
  let σ1 := log (CallRunBatch (cfgs σ) (labels σ) nproc) σ in
  match Model_run_batch G (store σ) (cfgs σ) (labels σ) nproc with
  | Ok s => (Ok tt, set_sims s σ1)
  | Raise e => (Raise e, σ1)
  end.
End calls.


(** *** [run_Entrainment.ipynb] *)
Module Entrainment.
Section notebook.
Variable G : gotmtool.

Definition cell2 : M unit :=
  Model G "Entrainment" "../gotmtool/.gotm_env.yaml".

Definition cell4 : M unit := time_magic (build G).

Definition cell5 : M unit := init_config G.

Definition title : string := "Shear-driven Entrainment".
Definition nlev : Z := 100.

Definition cell6 : M unit :=
  (* setup *)
  cfg_set at["title"] (PStr title) ;;
  cfg_set at["location"; "name"] (PStr "equator") ;;
  cfg_set at["location"; "latitude"] (PFloat 0.0) ;;
  cfg_set at["location"; "longitude"] (PFloat 0.0) ;;
  cfg_set at["location"; "depth"] (PFloat 30.0) ;;
  cfg_set at["time"; "start"] (PStr "2005-01-01 00:00:00") ;;
  cfg_set at["time"; "stop"] (PStr "2005-01-01 06:00:00") ;;
  cfg_set at["time"; "dt"] (PInt 10) ;;
  cfg_set at["grid"; "nlev"] (PInt nlev) ;;
  (* output *)
  cfg_set at["output"] (PDict []) ;;
  cfg_set at["output"; "gotm_out"] (PDict []) ;;
  cfg_set at["output"; "gotm_out"; "use"] (PBool true) ;;
  cfg_set at["output"; "gotm_out"; "title"] (PStr title) ;;
  cfg_set at["output"; "gotm_out"; "time_unit"] (PStr "dt") ;;
  cfg_set at["output"; "gotm_out"; "time_step"] (PInt 90) ;;
  cfg_set at["output"; "gotm_out"; "variables"] (PList [PDict []]) ;;
  cfg_set at["output"; "gotm_out"; "variables"; Index 0; "source"]
    (PStr "*") ;;
  cfg_set at["output"; "gotm_out"; "k1_stop"] (PInt (nlev + 1)) ;;
  cfg_set at["output"; "gotm_out"; "k_stop"] (PInt nlev) ;;
  (* forcing *)
  cfg_set at["temperature"; "method"] (PStr "buoyancy") ;;
  cfg_set at["temperature"; "two_layer"; "t_s"] (PFloat 20.0) ;;
  cfg_set at["temperature"; "NN"] (PFloat 1e-4) ;;
  cfg_set at["salinity"; "method"] (PStr "constant") ;;
  cfg_set at["salinity"; "constant_value"] (PFloat 20.0) ;;
  cfg_set at["surface"; "fluxes"; "method"] (PStr "off") ;;
  cfg_set at["surface"; "fluxes"; "heat"; "method"] (PStr "constant") ;;
  cfg_set at["surface"; "fluxes"; "heat"; "constant_value"] (PFloat (-1.0e-12)) ;;
  cfg_set at["surface"; "fluxes"; "tx"; "method"] (PStr "constant") ;;
  cfg_set at["surface"; "fluxes"; "tx"; "constant_value"] (PFloat 1.027e-1) ;;
  cfg_set at["surface"; "fluxes"; "ty"; "method"] (PStr "constant") ;;
  cfg_set at["surface"; "fluxes"; "ty"; "constant_value"] (PFloat 0.0) ;;
  cfg_set at["waves"; "stokes_drift"; "us"; "method"] (PStr "exponential") ;;
  cfg_set at["waves"; "stokes_drift"; "vs"; "method"] (PStr "exponential") ;;
  cfg_set at["waves"; "stokes_drift"; "dusdz"; "method"] (PStr "us") ;;
  cfg_set at["waves"; "stokes_drift"; "dvsdz"; "method"] (PStr "vs") ;;
  cfg_set at["waves"; "stokes_drift"; "exponential"; "us0"; "method"] (PStr "constant") ;;
  cfg_set at["waves"; "stokes_drift"; "exponential"; "us0"; "constant_value"] (PFloat 0.2) ;;
  cfg_set at["waves"; "stokes_drift"; "exponential"; "vs0"; "method"] (PStr "constant") ;;
  cfg_set at["waves"; "stokes_drift"; "exponential"; "vs0"; "constant_value"] (PFloat 0.0) ;;
  cfg_set at["waves"; "stokes_drift"; "exponential"; "ds"; "method"] (PStr "constant") ;;
  cfg_set at["waves"; "stokes_drift"; "exponential"; "ds"; "constant_value"] (PFloat 5.0) ;;
  (* EOS *)
  cfg_set at["eq_state"; "method"] (PStr "unesco") ;;
  cfg_set at["eq_state"; "form"] (PStr "full-pot").

Definition cell7 : M unit :=
  cfgs_reset ;;
  labels_reset.

Definition cell8 : M unit :=
  (* configure GLS-C01A *)
  cfg_set at["turbulence"; "turb_method"] (PStr "second_order") ;;
  cfg_set at["turbulence"; "tke_method"] (PStr "tke") ;;
  cfg_set at["turbulence"; "len_scale_method"] (PStr "gls") ;;
  cfg_set at["turbulence"; "scnd"; "method"] (PStr "weak_eq_kb_eq") ;;
  cfg_set at["turbulence"; "scnd"; "scnd_coeff"] (PStr "canuto-a") ;;
  cfg_set at["turbulence"; "turb_param"; "length_lim"] (PStr "false") ;;
  cfg_set at["turbulence"; "turb_param"; "compute_c3"] (PStr "true") ;;
  cfg_set at["turbulence"; "turb_param"; "Ri_st"] (PFloat 0.2) ;;
  cfg_set at["turbulence"; "generic"; "gen_m"] (PFloat 1.5) ;;
  cfg_set at["turbulence"; "generic"; "gen_n"] (PFloat (-1.0)) ;;
  cfg_set at["turbulence"; "generic"; "gen_p"] (PFloat 3.0) ;;
  cfg_set at["turbulence"; "generic"; "cpsi1"] (PFloat 1.44) ;;
  cfg_set at["turbulence"; "generic"; "cpsi2"] (PFloat 1.92) ;;
  cfg_set at["turbulence"; "generic"; "cpsi3minus"] (PFloat (-0.63)) ;;
  cfg_set at["turbulence"; "generic"; "cpsi3plus"] (PFloat 1.0) ;;
  cfg_set at["turbulence"; "generic"; "sig_kpsi"] (PFloat 1.0) ;;
  cfg_set at["turbulence"; "generic"; "sig_psi"] (PFloat 1.3) ;;
  cfgs_append_deepcopy ;;
  labels_append "GLS-C01A" ;;
  cfg_set at["turbulence"; "turb_method"] (PStr "cvmix") ;;
  cfg_set at["cvmix"; "surface_layer"; "kpp"; "langmuir_method"] (PStr "none") ;;
  cfgs_append_deepcopy ;;
  labels_append "KPP-CVMix" ;;
  cfg_set at["cvmix"; "surface_layer"; "kpp"; "langmuir_method"] (PStr "lwf16") ;;
  cfgs_append_deepcopy ;;
  labels_append "KPPLT-VR12" ;;
  cfg_set at["cvmix"; "surface_layer"; "kpp"; "langmuir_method"] (PStr "lf17") ;;
  cfgs_append_deepcopy ;;
  labels_append "KPPLT-LF17".

Definition cell9 : M unit := time_magic (run_batch G 4).

(** The cells that assemble the batch, the notebook up to the call of
    [run_batch], and the notebook run from top to bottom. *)
Definition assemble : M unit := cell6 ;; cell7 ;; cell8.
Definition prepare : M unit := cell2 ;; cell4 ;; cell5 ;; assemble.
Definition notebook : M unit := prepare ;; cell9.
End notebook.
End Entrainment.


(** *** [run_Entrainment-KC04.ipynb] *)
Module EntrainmentKC04.
Section notebook.
Variable G : gotmtool.

Definition cell2 : M unit :=
  Model G "Entrainment-KC04" "../gotmtool/.gotm_env.yaml".

Definition cell4 : M unit := time_magic (build G).

Definition cell5 : M unit := init_config G.

Definition title : string := "Shear-driven Entrainment".
Definition nlev : Z := 100.

Definition cell6 : M unit :=
  (* setup *)
  cfg_set at["title"] (PStr title) ;;
  cfg_set at["location"; "name"] (PStr "equator") ;;
  cfg_set at["location"; "latitude"] (PFloat 0.0) ;;
  cfg_set at["location"; "longitude"] (PFloat 0.0) ;;
  cfg_set at["location"; "depth"] (PFloat 30.0) ;;
  cfg_set at["time"; "start"] (PStr "2005-01-01 00:00:00") ;;
  cfg_set at["time"; "stop"] (PStr "2005-01-01 06:00:00") ;;
  cfg_set at["time"; "dt"] (PInt 10) ;;
  cfg_set at["grid"; "nlev"] (PInt nlev) ;;
  (* output *)
  cfg_set at["output"] (PDict []) ;;
  cfg_set at["output"; "gotm_out"] (PDict []) ;;
  cfg_set at["output"; "gotm_out"; "use"] (PBool true) ;;
  cfg_set at["output"; "gotm_out"; "title"] (PStr title) ;;
  cfg_set at["output"; "gotm_out"; "time_unit"] (PStr "dt") ;;
  cfg_set at["output"; "gotm_out"; "time_step"] (PInt 90) ;;
  cfg_set at["output"; "gotm_out"; "variables"] (PList [PDict []]) ;;
  cfg_set at["output"; "gotm_out"; "variables"; Index 0; "source"]
    (PStr "*") ;;
  cfg_set at["output"; "gotm_out"; "k1_stop"] (PInt (nlev + 1)) ;;
  cfg_set at["output"; "gotm_out"; "k_stop"] (PInt nlev) ;;
  (* forcing *)
  cfg_set at["temperature"; "method"] (PStr "buoyancy") ;;
  cfg_set at["temperature"; "two_layer"; "t_s"] (PFloat 20.0) ;;
  cfg_set at["temperature"; "NN"] (PFloat 1e-4) ;;
  cfg_set at["salinity"; "method"] (PStr "constant") ;;
  cfg_set at["salinity"; "constant_value"] (PFloat 20.0) ;;
  cfg_set at["surface"; "fluxes"; "method"] (PStr "off") ;;
  cfg_set at["surface"; "fluxes"; "heat"; "method"] (PStr "constant") ;;
  cfg_set at["surface"; "fluxes"; "heat"; "constant_value"] (PFloat (-1.0e-12)) ;;
  cfg_set at["surface"; "fluxes"; "tx"; "method"] (PStr "constant") ;;
  cfg_set at["surface"; "fluxes"; "tx"; "constant_value"] (PFloat 1.027e-1) ;;
  cfg_set at["surface"; "fluxes"; "ty"; "method"] (PStr "constant") ;;
  cfg_set at["surface"; "fluxes"; "ty"; "constant_value"] (PFloat 0.0) ;;
  cfg_set at["waves"; "stokes_drift"; "us"; "method"] (PStr "exponential") ;;
  cfg_set at["waves"; "stokes_drift"; "vs"; "method"] (PStr "exponential") ;;
  cfg_set at["waves"; "stokes_drift"; "dusdz"; "method"] (PStr "us") ;;
  cfg_set at["waves"; "stokes_drift"; "dvsdz"; "method"] (PStr "vs") ;;
  cfg_set at["waves"; "stokes_drift"; "exponential"; "us0"; "method"] (PStr "constant") ;;
  cfg_set at["waves"; "stokes_drift"; "exponential"; "us0"; "constant_value"] (PFloat 0.2) ;;
  cfg_set at["waves"; "stokes_drift"; "exponential"; "vs0"; "method"] (PStr "constant") ;;
  cfg_set at["waves"; "stokes_drift"; "exponential"; "vs0"; "constant_value"] (PFloat 0.0) ;;
  cfg_set at["waves"; "stokes_drift"; "exponential"; "ds"; "method"] (PStr "constant") ;;
  cfg_set at["waves"; "stokes_drift"; "exponential"; "ds"; "constant_value"] (PFloat 5.0) ;;
  (* EOS *)
  cfg_set at["eq_state"; "method"] (PStr "unesco") ;;
  cfg_set at["eq_state"; "form"] (PStr "full-pot").

Definition cell7 : M unit :=
  cfgs_reset ;;
  labels_reset.

Definition e6list : list float := [1.0; 4.0; 6.0; 7.0]%float.
Definition c4list : list float := [0.15; 0.3; 0.555; 1.2]%float.

Definition cell8 : M unit :=
  (* configure KC04-MY *)
  cfg_set at["turbulence"; "turb_method"] (PStr "second_order") ;;
  cfg_set at["turbulence"; "tke_method"] (PStr "mellor_yamada") ;;
  cfg_set at["turbulence"; "len_scale_method"] (PStr "mellor_yamada") ;;
  cfg_set at["turbulence"; "scnd"; "method"] (PStr "quasi_eq") ;;
  cfg_set at["turbulence"; "scnd"; "scnd_coeff"] (PStr "kantha_clayson") ;;
  cfg_set at["turbulence"; "turb_param"; "length_lim"] (PStr "false") ;;
  cfg_set at["turbulence"; "turb_param"; "compute_c3"] (PStr "true") ;;
  cfg_set at["turbulence"; "turb_param"; "Ri_st"] (PFloat 0.2) ;;
  cfg_set at["turbulence"; "turb_param"; "compute_kappa"] (PStr "true") ;;
  for_each e6list (λ e6,
    cfg_set at["turbulence"; "my"; "e6"] (PFloat e6) ;;
    cfgs_append_deepcopy ;;
    labels_append ("KC04-MY-e6-" +:+ format_f 1 e6)) ;;
  (* configure KC04-k-omega *)
  cfg_set at["turbulence"; "turb_method"] (PStr "second_order") ;;
  cfg_set at["turbulence"; "tke_method"] (PStr "tke") ;;
  cfg_set at["turbulence"; "len_scale_method"] (PStr "gls") ;;
  cfg_set at["turbulence"; "scnd"; "method"] (PStr "quasi_eq") ;;
  cfg_set at["turbulence"; "scnd"; "scnd_coeff"] (PStr "kantha_clayson") ;;
  cfg_set at["turbulence"; "turb_param"; "length_lim"] (PStr "false") ;;
  cfg_set at["turbulence"; "turb_param"; "compute_c3"] (PStr "true") ;;
  cfg_set at["turbulence"; "turb_param"; "Ri_st"] (PFloat 0.2) ;;
  cfg_set at["turbulence"; "turb_param"; "compute_kappa"] (PStr "true") ;;
  cfg_set at["turbulence"; "generic"; "gen_m"] (PFloat 0.5) ;;
  cfg_set at["turbulence"; "generic"; "gen_n"] (PFloat (-1.0)) ;;
  cfg_set at["turbulence"; "generic"; "gen_p"] (PFloat (-1.0)) ;;
  cfg_set at["turbulence"; "generic"; "cpsi1"] (PFloat 0.55) ;;
  cfg_set at["turbulence"; "generic"; "cpsi2"] (PFloat 0.833) ;;
  cfg_set at["turbulence"; "generic"; "cpsi3minus"] (PFloat 0.0) ;;
  cfg_set at["turbulence"; "generic"; "cpsi3plus"] (PFloat 0.0) ;;
  cfg_set at["turbulence"; "generic"; "sig_kpsi"] (PFloat 2.0) ;;
  cfg_set at["turbulence"; "generic"; "sig_psi"] (PFloat 2.0) ;;
  cfg_set at["turbulence"; "generic"; "gen_d"] (PFloat (-1.087)) ;;
  cfg_set at["turbulence"; "generic"; "gen_alpha"] (PFloat (-4.97)) ;;
  cfg_set at["turbulence"; "generic"; "gen_l"] (PFloat 0.09) ;;
  for_each c4list (λ c4,
    cfg_set at["turbulence"; "generic"; "cpsi4"] (PFloat c4) ;;
    cfgs_append_deepcopy ;;
    labels_append ("KC04-k-omega-c4-" +:+ format_f 3 c4)).

Definition cell9 : M unit :=
  (* turn off Stokes drift *)
  cfg_set at["waves"; "stokes_drift"; "us"; "method"] (PStr "off") ;;
  cfg_set at["waves"; "stokes_drift"; "vs"; "method"] (PStr "off") ;;
  cfg_set at["waves"; "stokes_drift"; "dusdz"; "method"] (PStr "off") ;;
  cfg_set at["waves"; "stokes_drift"; "dvsdz"; "method"] (PStr "off") ;;
  (* configure KC04-MY without Stokes drift *)
  cfg_set at["turbulence"; "turb_method"] (PStr "second_order") ;;
  cfg_set at["turbulence"; "tke_method"] (PStr "mellor_yamada") ;;
  cfg_set at["turbulence"; "len_scale_method"] (PStr "mellor_yamada") ;;
  cfg_set at["turbulence"; "scnd"; "method"] (PStr "quasi_eq") ;;
  cfg_set at["turbulence"; "scnd"; "scnd_coeff"] (PStr "kantha_clayson") ;;
  cfg_set at["turbulence"; "turb_param"; "length_lim"] (PStr "false") ;;
  cfg_set at["turbulence"; "turb_param"; "compute_c3"] (PStr "true") ;;
  cfg_set at["turbulence"; "turb_param"; "Ri_st"] (PFloat 0.2) ;;
  cfg_set at["turbulence"; "turb_param"; "compute_kappa"] (PStr "true") ;;
  cfg_set at["turbulence"; "my"; "e6"] (PFloat 4.0) ;;
  cfgs_append_deepcopy ;;
  labels_append "KC04-MY-NS" ;;
  (* configure KC04-k-omega without Stokes drift *)
  cfg_set at["turbulence"; "turb_method"] (PStr "second_order") ;;
  cfg_set at["turbulence"; "tke_method"] (PStr "tke") ;;
  cfg_set at["turbulence"; "len_scale_method"] (PStr "gls") ;;
  cfg_set at["turbulence"; "scnd"; "method"] (PStr "quasi_eq") ;;
  cfg_set at["turbulence"; "scnd"; "scnd_coeff"] (PStr "kantha_clayson") ;;
  cfg_set at["turbulence"; "turb_param"; "length_lim"] (PStr "false") ;;
  cfg_set at["turbulence"; "turb_param"; "compute_c3"] (PStr "true") ;;
  cfg_set at["turbulence"; "turb_param"; "Ri_st"] (PFloat 0.2) ;;
  cfg_set at["turbulence"; "turb_param"; "compute_kappa"] (PStr "true") ;;
  cfg_set at["turbulence"; "generic"; "gen_m"] (PFloat 0.5) ;;
  cfg_set at["turbulence"; "generic"; "gen_n"] (PFloat (-1.0)) ;;
  cfg_set at["turbulence"; "generic"; "gen_p"] (PFloat (-1.0)) ;;
  cfg_set at["turbulence"; "generic"; "cpsi1"] (PFloat 0.55) ;;
  cfg_set at["turbulence"; "generic"; "cpsi2"] (PFloat 0.833) ;;
  cfg_set at["turbulence"; "generic"; "cpsi3minus"] (PFloat 0.0) ;;
  cfg_set at["turbulence"; "generic"; "cpsi3plus"] (PFloat 0.0) ;;
  cfg_set at["turbulence"; "generic"; "sig_kpsi"] (PFloat 2.0) ;;
  cfg_set at["turbulence"; "generic"; "sig_psi"] (PFloat 2.0) ;;
  cfg_set at["turbulence"; "generic"; "gen_d"] (PFloat (-1.087)) ;;
  cfg_set at["turbulence"; "generic"; "gen_alpha"] (PFloat (-4.97)) ;;
  cfg_set at["turbulence"; "generic"; "gen_l"] (PFloat 0.09) ;;
  cfg_set at["turbulence"; "generic"; "cpsi4"] (PFloat 0.15) ;;
  cfgs_append_deepcopy ;;
  labels_append "KC04-k-omega-NS".

Definition cell10 : M unit := time_magic (run_batch G 4).

Definition assemble : M unit := cell6 ;; cell7 ;; cell8 ;; cell9.
Definition prepare : M unit := cell2 ;; cell4 ;; cell5 ;; assemble.
Definition notebook : M unit := prepare ;; cell10.
End notebook.
End EntrainmentKC04.

(** *** The OSMOSIS-Winter-KC04 run notebook *)
Module OsmosisWinterKC04.
Section notebook.
Variable G : gotmtool.

Definition cell2 : M unit :=
  Model G "OSMOSIS-Winter-KC04" "../gotmtool/.gotm_env.yaml".

Definition cell4 : M unit := time_magic (build G).

Definition cell5 : M unit := init_config G.

Definition title : string := "OSMOSIS - Winter".
Definition nlev : Z := 200.

Definition cell6 : M unit :=
  (* setup *)
  cfg_set at["title"] (PStr title) ;;
  cfg_set at["location"; "name"] (PStr "OSMOSIS") ;;
  cfg_set at["location"; "latitude"] (PFloat 48.7) ;;
  cfg_set at["location"; "longitude"] (PFloat (-16.2)) ;;
  cfg_set at["location"; "depth"] (PFloat 200.0) ;;
  cfg_set at["time"; "start"] (PStr "2012-09-22 00:00:00") ;;
  cfg_set at["time"; "stop"] (PStr "2012-12-05 03:00:00") ;;
  cfg_set at["time"; "dt"] (PFloat 60.0) ;;
  cfg_set at["grid"; "nlev"] (PInt nlev) ;;
  (* output *)
  cfg_set at["output"] (PDict []) ;;
  cfg_set at["output"; "gotm_out"] (PDict []) ;;
  cfg_set at["output"; "gotm_out"; "use"] (PBool true) ;;
  cfg_set at["output"; "gotm_out"; "title"] (PStr title) ;;
  cfg_set at["output"; "gotm_out"; "k1_stop"] (PInt (nlev + 1)) ;;
  cfg_set at["output"; "gotm_out"; "k_stop"] (PInt nlev) ;;
  cfg_set at["output"; "gotm_out"; "time_unit"] (PStr "hour") ;;
  cfg_set at["output"; "gotm_out"; "time_step"] (PInt 3) ;;
  cfg_set at["output"; "gotm_out"; "variables"] (PList [PDict []]) ;;
  cfg_set at["output"; "gotm_out"; "variables"; Index 0; "source"]
    (PStr "*") ;;
  (* forcing *)
  gotmdir_data ← environ_get "gotmdir_data";
  let datadir := dirname (dirname gotmdir_data) +:+ "/OSMOSIS-Winter" in
  cfg_set at["temperature"; "method"] (PStr "file") ;;
  cfg_set at["temperature"; "file"] (PStr (datadir +:+ "/t_prof.dat")) ;;
  cfg_set at["salinity"; "method"] (PStr "file") ;;
  cfg_set at["salinity"; "file"] (PStr (datadir +:+ "/s_prof.dat")) ;;
  cfg_set at["surface"; "fluxes"; "heat"; "method"] (PStr "file") ;;
  cfg_set at["surface"; "fluxes"; "heat"; "file"] (PStr (datadir +:+ "/heat_flux.dat")) ;;
  cfg_set at["surface"; "fluxes"; "tx"; "method"] (PStr "file") ;;
  cfg_set at["surface"; "fluxes"; "tx"; "file"] (PStr (datadir +:+ "/momentum_flux.dat")) ;;
  cfg_set at["surface"; "fluxes"; "tx"; "column"] (PInt 1) ;;
  cfg_set at["surface"; "fluxes"; "ty"; "method"] (PStr "file") ;;
  cfg_set at["surface"; "fluxes"; "ty"; "file"] (PStr (datadir +:+ "/momentum_flux.dat")) ;;
  cfg_set at["surface"; "fluxes"; "ty"; "column"] (PInt 2) ;;
  cfg_set at["surface"; "swr"; "method"] (PStr "file") ;;
  cfg_set at["surface"; "swr"; "file"] (PStr (datadir +:+ "/swr.dat")) ;;
  cfg_set at["surface"; "precip"; "method"] (PStr "file") ;;
  cfg_set at["surface"; "precip"; "file"] (PStr (datadir +:+ "/pme.dat")) ;;
  cfg_set at["waves"; "stokes_drift"; "us"; "method"] (PStr "exponential") ;;
  cfg_set at["waves"; "stokes_drift"; "vs"; "method"] (PStr "exponential") ;;
  cfg_set at["waves"; "stokes_drift"; "dusdz"; "method"] (PStr "us") ;;
  cfg_set at["waves"; "stokes_drift"; "dvsdz"; "method"] (PStr "vs") ;;
  cfg_set at["waves"; "stokes_drift"; "exponential"; "us0"; "method"] (PStr "file") ;;
  cfg_set at["waves"; "stokes_drift"; "exponential"; "us0"; "file"] (PStr (datadir +:+ "/stokes_drift.dat")) ;;
  cfg_set at["waves"; "stokes_drift"; "exponential"; "us0"; "column"] (PInt 1) ;;
  cfg_set at["waves"; "stokes_drift"; "exponential"; "vs0"; "method"] (PStr "file") ;;
  cfg_set at["waves"; "stokes_drift"; "exponential"; "vs0"; "file"] (PStr (datadir +:+ "/stokes_drift.dat")) ;;
  cfg_set at["waves"; "stokes_drift"; "exponential"; "vs0"; "column"] (PInt 2) ;;
  cfg_set at["waves"; "stokes_drift"; "exponential"; "ds"; "method"] (PStr "file") ;;
  cfg_set at["waves"; "stokes_drift"; "exponential"; "ds"; "file"] (PStr (datadir +:+ "/stokes_drift.dat")) ;;
  cfg_set at["waves"; "stokes_drift"; "exponential"; "ds"; "column"] (PInt 3) ;;
  (* water type *)
  cfg_set at["light_extinction"; "method"] (PStr "custom") ;;
  cfg_set at["light_extinction"; "A"; "method"] (PStr "constant") ;;
  cfg_set at["light_extinction"; "A"; "constant_value"] (PFloat 0.57) ;;
  cfg_set at["light_extinction"; "g1"; "method"] (PStr "constant") ;;
  cfg_set at["light_extinction"; "g1"; "constant_value"] (PFloat 0.5) ;;
  cfg_set at["light_extinction"; "g2"; "method"] (PStr "constant") ;;
  cfg_set at["light_extinction"; "g2"; "constant_value"] (PFloat 13.4) ;;
  (* EOS -- use linear *)
  cfg_set at["eq_state"; "form"] (PStr "linear_custom") ;;
  cfg_set at["eq_state"; "linear"; "T0"] (PFloat 10.0) ;;
  cfg_set at["eq_state"; "linear"; "S0"] (PFloat 35.0) ;;
  cfg_set at["eq_state"; "linear"; "dtr0"] (PFloat (-0.17)) ;;
  cfg_set at["eq_state"; "linear"; "dsr0"] (PFloat 0.78) ;;
  (* damping on velocity: relaxation to zero with a 5-day decay time *)
  cfg_set at["velocities"; "relax"; "tau"] (PFloat 432000.0).

Definition cell7 : M unit :=
  cfgs_reset ;;
  labels_reset.

Definition configure_KC04_MY : M unit :=
  cfg_set at["turbulence"; "turb_method"] (PStr "second_order") ;;
  cfg_set at["turbulence"; "tke_method"] (PStr "mellor_yamada") ;;
  cfg_set at["turbulence"; "len_scale_method"] (PStr "mellor_yamada") ;;
  cfg_set at["turbulence"; "scnd"; "method"] (PStr "quasi_eq") ;;
  cfg_set at["turbulence"; "scnd"; "scnd_coeff"] (PStr "kantha_clayson") ;;
  cfg_set at["turbulence"; "turb_param"; "length_lim"] (PStr "false") ;;
  cfg_set at["turbulence"; "turb_param"; "compute_c3"] (PStr "true") ;;
  cfg_set at["turbulence"; "turb_param"; "Ri_st"] (PFloat 0.2) ;;
  cfg_set at["turbulence"; "turb_param"; "compute_kappa"] (PStr "true") ;;
  cfg_set at["turbulence"; "my"; "e6"] (PFloat 4.0).

Definition configure_KC04_k_omega : M unit :=
  cfg_set at["turbulence"; "turb_method"] (PStr "second_order") ;;
  cfg_set at["turbulence"; "tke_method"] (PStr "tke") ;;
  cfg_set at["turbulence"; "len_scale_method"] (PStr "gls") ;;
  cfg_set at["turbulence"; "scnd"; "method"] (PStr "quasi_eq") ;;
  cfg_set at["turbulence"; "scnd"; "scnd_coeff"] (PStr "kantha_clayson") ;;
  cfg_set at["turbulence"; "turb_param"; "length_lim"] (PStr "false") ;;
  cfg_set at["turbulence"; "turb_param"; "compute_c3"] (PStr "true") ;;
  cfg_set at["turbulence"; "turb_param"; "Ri_st"] (PFloat 0.2) ;;
  cfg_set at["turbulence"; "turb_param"; "compute_kappa"] (PStr "true") ;;
  cfg_set at["turbulence"; "generic"; "gen_m"] (PFloat 0.5) ;;
  cfg_set at["turbulence"; "generic"; "gen_n"] (PFloat (-1.0)) ;;
  cfg_set at["turbulence"; "generic"; "gen_p"] (PFloat (-1.0)) ;;
  cfg_set at["turbulence"; "generic"; "cpsi1"] (PFloat 0.55) ;;
  cfg_set at["turbulence"; "generic"; "cpsi2"] (PFloat 0.833) ;;
  cfg_set at["turbulence"; "generic"; "cpsi3minus"] (PFloat 0.0) ;;
  cfg_set at["turbulence"; "generic"; "cpsi3plus"] (PFloat 0.0) ;;
  cfg_set at["turbulence"; "generic"; "sig_kpsi"] (PFloat 2.0) ;;
  cfg_set at["turbulence"; "generic"; "sig_psi"] (PFloat 2.0) ;;
  cfg_set at["turbulence"; "generic"; "gen_d"] (PFloat (-1.087)) ;;
  cfg_set at["turbulence"; "generic"; "gen_alpha"] (PFloat (-4.97)) ;;
  cfg_set at["turbulence"; "generic"; "gen_l"] (PFloat 0.09) ;;
  cfg_set at["turbulence"; "generic"; "cpsi4"] (PFloat 0.15).

Definition cell8 : M unit :=
  configure_KC04_MY ;;
  cfgs_append_deepcopy ;;
  labels_append "KC04-MY".

Definition cell9 : M unit :=
  configure_KC04_k_omega ;;
  cfgs_append_deepcopy ;;
  labels_append "KC04-k-omega".

Definition cell10 : M unit :=
  cfg_set at["waves"; "stokes_drift"; "us"; "method"] (PStr "off") ;;
  cfg_set at["waves"; "stokes_drift"; "vs"; "method"] (PStr "off") ;;
  cfg_set at["waves"; "stokes_drift"; "dusdz"; "method"] (PStr "off") ;;
  cfg_set at["waves"; "stokes_drift"; "dvsdz"; "method"] (PStr "off").

Definition cell11 : M unit :=
  configure_KC04_MY ;;
  cfgs_append_deepcopy ;;
  labels_append "KC04-MY-NS".

Definition cell12 : M unit :=
  configure_KC04_k_omega ;;
  cfgs_append_deepcopy ;;
  labels_append "KC04-k-omega-NS".

Definition cell13 : M unit := time_magic (run_batch G 2).

Definition assemble : M unit :=
  cell6 ;; cell7 ;; cell8 ;; cell9 ;; cell10 ;; cell11 ;; cell12.
Definition prepare : M unit := cell2 ;; cell4 ;; cell5 ;; assemble.
Definition notebook : M unit := prepare ;; cell13.
End notebook.
End OsmosisWinterKC04.


(** The three run notebooks, with the name each gives its model, the number
    of processes it asks for, and the labels of its batch. *)
Inductive notebook_id :=
| Entrainment_ipynb
| EntrainmentKC04_ipynb
| OsmosisWinterKC04_ipynb.

Definition notebook (nb : notebook_id) (G : gotmtool) : M unit :=
  match nb with
  | Entrainment_ipynb => Entrainment.notebook G
  | EntrainmentKC04_ipynb => EntrainmentKC04.notebook G
  | OsmosisWinterKC04_ipynb => OsmosisWinterKC04.notebook G
  end.

(** The notebook up to the call of [run_batch]. *)
Definition before_run_batch (nb : notebook_id) (G : gotmtool) : M unit :=
  match nb with
  | Entrainment_ipynb => Entrainment.prepare G
  | EntrainmentKC04_ipynb => EntrainmentKC04.prepare G
  | OsmosisWinterKC04_ipynb => OsmosisWinterKC04.prepare G
  end.

Definition model_name (nb : notebook_id) : string :=
  match nb with
  | Entrainment_ipynb => "Entrainment"
  | EntrainmentKC04_ipynb => "Entrainment-KC04"
  | OsmosisWinterKC04_ipynb => "OSMOSIS-Winter-KC04"
  end.

Definition environ_file : string := "../gotmtool/.gotm_env.yaml".

Definition nproc (nb : notebook_id) : Z :=
  match nb with
  | Entrainment_ipynb => 4
  | EntrainmentKC04_ipynb => 4
  | OsmosisWinterKC04_ipynb => 2
  end.

Definition batch_labels (nb : notebook_id) : list string :=
  match nb with
  | Entrainment_ipynb => ["GLS-C01A"; "KPP-CVMix"; "KPPLT-VR12"; "KPPLT-LF17"]
  | EntrainmentKC04_ipynb =>
      ["KC04-MY-e6-1.0"; "KC04-MY-e6-4.0"; "KC04-MY-e6-6.0"; "KC04-MY-e6-7.0";
       "KC04-k-omega-c4-0.150"; "KC04-k-omega-c4-0.300";
       "KC04-k-omega-c4-0.555"; "KC04-k-omega-c4-1.200";
       "KC04-MY-NS"; "KC04-k-omega-NS"]
  | OsmosisWinterKC04_ipynb =>
      ["KC04-MY"; "KC04-k-omega"; "KC04-MY-NS"; "KC04-k-omega-NS"]
  end.

End Run.

(** ** Arithmetic *)

(** The operations on the floating point numbers of an output file that
    the plot notebook uses.  NumPy evaluates them in the type of the data,
    binary64 for the output of GOTM. *)
Class Num (T : Type) := {
  (** the decimal literal [m / 10^e] *)
  num_dec : Z → nat → T;
  (** conversion of an integer *)
  num_of_Z : Z → T;
  num_mul : T → T → T;
  num_div : T → T → T;
  num_sqrt : T → T;
  (** not a number *)
  num_nan : T;
  (** [np.isfinite] *)
  num_finite : T → bool;
}.

Declare Scope num_scope.
Delimit Scope num_scope with num.
Infix "*" := num_mul : num_scope.
Infix "/" := num_div : num_scope.

(** Conversion of an integer to binary64: the nearest number of the
    format, ties to even. *)
Definition float_of_Z (z : Z) : float :=
  SF2Prim (binary_normalize prec emax z 0 false).

(** Binary64: a decimal literal denotes the double nearest to it, which is
    the correctly rounded quotient when numerator and denominator are
    exact. *)
Global Instance float_num : Num float := {|
  num_dec m e := PrimFloat.div (float_of_Z m) (float_of_Z (10 ^ Z.of_nat e));
  num_of_Z := float_of_Z;
  num_mul := PrimFloat.mul;
  num_div := PrimFloat.div;
  num_sqrt := PrimFloat.sqrt;
  num_nan := PrimFloat.nan;
  num_finite := PrimFloat.is_finite;
|}.

(** ** The plot notebook, [plot_Entrainment-KC04-MY.ipynb] *)

(** [np.linspace(start, stop, num)] for [num ≥ 2]: [start + i * step] with
    [step = (stop - start) / (num - 1)], the last sample set to [stop]. *)
Definition linspace (start stop : float) (num : nat) : list float :=
  let step := PrimFloat.div (PrimFloat.sub stop start)
                (float_of_Z (Z.of_nat (num - 1))) in
  let y := (λ i, PrimFloat.add (PrimFloat.mul (float_of_Z (Z.of_nat i)) step) start)
             <$> seq 0 num in
  <[(num - 1)%nat := stop]> y.

(** [datetime64[ns]] and [timedelta64[ns]] hold a count of nanoseconds in
    64 bits, two's complement; the least value is NaT, not a time.  An
    integer stands for the 64 bit value it is congruent to. *)
Definition int64 (z : Z) : Z := (z + 2 ^ 63) mod 2 ^ 64 - 2 ^ 63.
Definition NaT : Z := - 2 ^ 63.

(** [a - b] on two [datetime64[ns]]: NaT when one of them is, else the
    difference in 64 bits. *)
Definition datetime64_sub (a b : Z) : Z :=
  if (int64 a =? NaT) || (int64 b =? NaT) then NaT else int64 (a - b).

(** The output of one run, as [load_data] returns it: [NN] has the
    dimensions (time, z, lat, lon), [u_taus] the dimensions (time, lat, lon),
    and [time] holds the output times in nanoseconds since the epoch
    ([datetime64[ns]]). *)
Record Dataset (T : Type) := {
  NN : list (list (list (list T)));
  u_taus : list (list (list T));
  time : list Z;
}.
Arguments NN {T} _.
Arguments u_taus {T} _.
Arguments time {T} _.

(** [xr.DataArray(values, dims=['time'], coords={'time': ...}, attrs=...)] *)
Record DataArray (T : Type) := {
  values : list T;
  coords_time : list Z;
  attrs : list (string * string);
}.
Arguments values {T} _.
Arguments coords_time {T} _.
Arguments attrs {T} _.

(** A colour argument: a named colour or the colormap at a fraction. *)
Inductive color :=
| Named (name : string)
| Rainbow (frac : float).

(** The calls into [matplotlib] that draw data. *)
Inductive plot_call (T : Type) :=
| PltPlot (x y : list T) (label : string)
| PltScatter (x y : list T) (c : color) (marker label : string)
| PltXlim (lo hi : T)
| PltSavefig (figname : string).
Arguments PltPlot {T} x y label.
Arguments PltScatter {T} x y c marker label.
Arguments PltXlim {T} lo hi.
Arguments PltSavefig {T} figname.

(** What the plot notebook calls outside itself. *)
Record plot_env (T : Type) := {
  (** [os.path.islink(path)] *)
  os_path_islink : string → bool;
  (** [os.symlink(src, dst)] *)
  os_symlink : string → string → result unit;
  (** [Simulation(path=...).load_data()] *)
  load_data : Simulation → result (Dataset T);
  (** [get_bld_maxNN(NN)]: the mixed layer depth of each output time *)
  get_bld_maxNN : list (list T) → result (list T);
}.
Arguments os_path_islink {T} _ _.
Arguments os_symlink {T} _ _ _.
Arguments load_data {T} _ _.
Arguments get_bld_maxNN {T} _ _.

Module Plot.
Section notebook.
Context {T : Type} `{Num T}.
Variable E : plot_env T.

Record state := {
  casenames : list string;
  labels : gmap string string;
  colors : gmap string color;
  markers : gmap string string;
  nkpp : Z;
  sims : gmap string Simulation;
  dataset : gmap string (Dataset T);
  (** [sec] and [mld_p79] are bound by the fifth cell *)
  sec : option (list T);
  mld_p79 : option (DataArray T);
  figure : list (plot_call T);
}.

Definition initial : state :=
  {| casenames := []; labels := ∅; colors := ∅; markers := ∅; nkpp := 0;
     sims := ∅; dataset := ∅; sec := None; mld_p79 := None; figure := [] |}.

Definition set_casenames (x : list string) (σ : state) : state :=
  {| casenames := x; labels := labels σ; colors := colors σ;
     markers := markers σ; nkpp := nkpp σ; sims := sims σ;
     dataset := dataset σ; sec := sec σ; mld_p79 := mld_p79 σ;
     figure := figure σ |}.
Definition set_labels (x : gmap string string) (σ : state) : state :=
  {| casenames := casenames σ; labels := x; colors := colors σ;
     markers := markers σ; nkpp := nkpp σ; sims := sims σ;
     dataset := dataset σ; sec := sec σ; mld_p79 := mld_p79 σ;
     figure := figure σ |}.
Definition set_colors (x : gmap string color) (σ : state) : state :=
  {| casenames := casenames σ; labels := labels σ; colors := x;
     markers := markers σ; nkpp := nkpp σ; sims := sims σ;
     dataset := dataset σ; sec := sec σ; mld_p79 := mld_p79 σ;
     figure := figure σ |}.
Definition set_markers (x : gmap string string) (σ : state) : state :=
  {| casenames := casenames σ; labels := labels σ; colors := colors σ;
     markers := x; nkpp := nkpp σ; sims := sims σ;
     dataset := dataset σ; sec := sec σ; mld_p79 := mld_p79 σ;
     figure := figure σ |}.
Definition set_nkpp (x : Z) (σ : state) : state :=
  {| casenames := casenames σ; labels := labels σ; colors := colors σ;
     markers := markers σ; nkpp := x; sims := sims σ;
     dataset := dataset σ; sec := sec σ; mld_p79 := mld_p79 σ;
     figure := figure σ |}.
Definition set_sims (x : gmap string Simulation) (σ : state) : state :=
  {| casenames := casenames σ; labels := labels σ; colors := colors σ;
     markers := markers σ; nkpp := nkpp σ; sims := x;
     dataset := dataset σ; sec := sec σ; mld_p79 := mld_p79 σ;
     figure := figure σ |}.
Definition set_dataset (x : gmap string (Dataset T)) (σ : state) : state :=
  {| casenames := casenames σ; labels := labels σ; colors := colors σ;
     markers := markers σ; nkpp := nkpp σ; sims := sims σ;
     dataset := x; sec := sec σ; mld_p79 := mld_p79 σ;
     figure := figure σ |}.
Definition set_sec (x : list T) (σ : state) : state :=
  {| casenames := casenames σ; labels := labels σ; colors := colors σ;
     markers := markers σ; nkpp := nkpp σ; sims := sims σ;
     dataset := dataset σ; sec := Some x; mld_p79 := mld_p79 σ;
     figure := figure σ |}.
Definition set_mld_p79 (x : DataArray T) (σ : state) : state :=
  {| casenames := casenames σ; labels := labels σ; colors := colors σ;
     markers := markers σ; nkpp := nkpp σ; sims := sims σ;
     dataset := dataset σ; sec := sec σ; mld_p79 := Some x;
     figure := figure σ |}.
Definition draw (c : plot_call T) (σ : state) : state :=
  {| casenames := casenames σ; labels := labels σ; colors := colors σ;
     markers := markers σ; nkpp := nkpp σ; sims := sims σ;
     dataset := dataset σ; sec := sec σ; mld_p79 := mld_p79 σ;
     figure := figure σ ++ [c] |}.

Abbreviation M := (stx state).

Definition modify (f : state → state) : M unit := λ σ, Ok (tt, f σ).
Definition read {A} (f : state → A) : M A := λ σ, Ok (f σ, σ).
Definition lift {A} (r : result A) : M A := λ σ,
  match r with
  | Ok a => Ok (a, σ)
  | Raise e => Raise e
  end.

(** [l[i]] on a list, [d[k]] on a dictionary *)
Definition index {A} (l : list A) (i : Z) : result A :=
  match list_getitem l i with
  | Some x => Ok x
  | None => Raise IndexError
  end.
(** [a[i, j, k]] and [a[i, j, k, l]] on arrays of three and four
    dimensions *)
Definition index3 {A} (a : list (list (list A))) (i j k : Z) : result A :=
  index a i ≫= λ x, index x j ≫= λ y, index y k.
Definition index4 {A} (a : list (list (list (list A)))) (i j k l : Z)
  : result A :=
  index a i ≫= λ x, index3 x j k l.
Definition lookup_key {A} (d : gmap string A) (k : string) : result A :=
  match d !! k with
  | Some x => Ok x
  | None => Raise (KeyError k)
  end.

Definition e6list : list float := [1.0; 4.0; 6.0; 7.0]%float.
Definition title : string := "KC04-MY".
Definition casedir : string := "../gotm/run/Entrainment-KC04".
Definition casedir0 : string := "../Entrainment".
Definition save_fig : bool := true.

(** The loop [for i, e6 in enumerate(e6list)] of the second cell. *)
Definition cell2_body (ifrac : list float) (ie : Z * float) : M unit :=
  let '(i, e6) := ie in
  modify (λ σ, set_casenames
                 (casenames σ ++ ["KC04-MY-e6-" +:+ format_f 1 e6]) σ) ;;
  n ← read nkpp;
  cs ← read casenames;
  k ← lift (index cs (i + n));
  modify (λ σ, set_labels (<[k := "$e_6$=" +:+ format_f 1 e6]> (labels σ)) σ) ;;
  cs ← read casenames;
  k ← lift (index cs (i + n));
  f ← lift (index ifrac i);
  modify (λ σ, set_colors (<[k := Rainbow f]> (colors σ)) σ) ;;
  cs ← read casenames;
  k ← lift (index cs (i + n));
  modify (λ σ, set_markers (<[k := "o"]> (markers σ)) σ).

Definition cell2_loop (ifrac : list float) (xs : list (Z * float)) : M unit :=
  for_each xs (cell2_body ifrac).

(** The part of the second cell that builds the case names and the
    dictionaries of labels, colours and markers. *)
Definition cell2_styles : M unit :=
  modify (set_casenames ["KPP-CVMix"; "KPPLT-LF17"]) ;;
  modify (set_labels (<["KPPLT-LF17" := "KPPLT-LF17"]>
                        (<["KPP-CVMix" := "KPP-CVMix"]> ∅))) ;;
  modify (set_colors (<["KPPLT-LF17" := Named "gray"]>
                        (<["KPP-CVMix" := Named "k"]> ∅))) ;;
  modify (set_markers (<["KPPLT-LF17" := "x"]> (<["KPP-CVMix" := "x"]> ∅))) ;;
  cs ← read casenames;
  modify (set_nkpp (Z.of_nat (length cs))) ;;
  cell2_loop (linspace 0 1 (length e6list)) (enumerate e6list) ;;
  modify (λ σ, set_casenames (casenames σ ++ ["KC04-MY-NS"]) σ) ;;
  cs ← read casenames;
  k ← lift (index cs (-1));
  modify (λ σ, set_labels (<[k := "w/o Stokes"]> (labels σ)) σ) ;;
  cs ← read casenames;
  k ← lift (index cs (-1));
  modify (λ σ, set_colors (<[k := Named "k"]> (colors σ)) σ) ;;
  cs ← read casenames;
  k ← lift (index cs (-1));
  modify (λ σ, set_markers (<[k := "o"]> (markers σ)) σ).

(** The end of the second cell: the two KPP cases are linked into the
    directory of the KC04 runs. *)
Definition cell2_links : M unit :=
  for_each ["KPP-CVMix"; "KPPLT-LF17"] (λ cn,
    if os_path_islink E (path_join casedir cn) then mret tt
    else lift (os_symlink E (path_join casedir0 cn) (path_join casedir cn))).

Definition cell2 : M unit := cell2_styles ;; cell2_links.

(** The load loop. *)
Definition simulation_of (case : string) : Simulation :=
  {| sim_path := casedir +:+ "/" +:+ case |}.

Definition cell4_body (case : string) : M unit :=
  let sim := simulation_of case in
  modify (λ σ, set_sims (<[case := sim]> (sims σ)) σ) ;;
  d ← lift (load_data E sim);
  modify (λ σ, set_dataset (<[case := d]> (dataset σ)) σ).

Definition cell4 : M unit :=
  modify (set_sims ∅) ;;
  modify (set_dataset ∅) ;;
  cs ← read casenames;
  for_each cs cell4_body.

(** [np.sqrt(np.sqrt(2.*0.6))*ustar*np.sqrt(sec/N0)], elementwise in [sec] *)
Definition mld_val (ustar N0 : T) (sec : list T) : list T :=
  (λ s, (num_sqrt (num_sqrt (num_dec 2 0 * num_dec 6 1)) * ustar
         * num_sqrt (s / N0))%num) <$> sec.

(** [d / np.timedelta64(1, 's')] on a [timedelta64[ns]]: NaN for NaT, else
    the quotient of the two counts of nanoseconds, converted to floating
    point. *)
Definition timedelta64_seconds (d : Z) : T :=
  if d =? NaT then num_nan else (num_of_Z d / num_of_Z (10 ^ 9))%num.

(** [((time - time[0]) / np.timedelta64(1, 's')).values] *)
Definition seconds_since (t0 : Z) (time : list Z) : list T :=
  (λ t, timedelta64_seconds (datetime64_sub t t0)) <$> time.

(** The prediction of Price (1979). *)
Definition cell5 : M unit :=
  cs ← read casenames;
  case0 ← lift (index cs 0);
  ds ← read dataset;
  data0 ← lift (lookup_key ds case0);
  nn ← lift (index4 (NN data0) 2 (-1) 0 0);
  let N0 := num_sqrt nn in
  ustar ← lift (index3 (u_taus data0) (-1) 0 0);
  t0 ← lift (index (time data0) 0);
  let sec := seconds_since t0 (time data0) in
  modify (set_sec sec) ;;
  modify (set_mld_p79
            {| values := mld_val ustar N0 sec;
               coords_time := time data0;
               attrs := [("long_name", "mixed layer depth (Price 1979)");
                         ("units", "m")] |}).

(** A variable that a cell reads before any cell has bound it. *)
Definition bound {A} (name : string) (x : option A) : M A :=
  lift (match x with Some a => Ok a | None => Raise (NameError name) end).

(** [plt.plot(x, y, ...)] and [plt.scatter(x, y, ...)] want as many [y] as
    [x]; [plt.xlim([lo, hi])] wants finite limits. *)
Definition plt_plot (x y : list T) (label : string) : M unit :=
  if decide (length x = length y) then modify (draw (PltPlot x y label))
  else lift (Raise ValueError).

Definition plt_scatter (x y : list T) (c : color) (marker label : string)
  : M unit :=
  if decide (length x = length y) then modify (draw (PltScatter x y c marker label))
  else lift (Raise ValueError).

Definition plt_xlim (lo hi : T) : M unit :=
  if num_finite lo && num_finite hi then modify (draw (PltXlim lo hi))
  else lift (Raise ValueError).

(** The figure. *)
Definition cell6_body (hours : list T) (case : string) : M unit :=
  ds ← read dataset;
  data ← lift (lookup_key ds case);
  nn ← lift (mapM (mapM (λ row, index row 0 ≫= λ c, index c 0)) (NN data));
  mld ← lift (get_bld_maxNN E nn);
  c ← (σ ← read colors; lift (lookup_key σ case));
  m ← (σ ← read markers; lift (lookup_key σ case));
  l ← (σ ← read labels; lift (lookup_key σ case));
  plt_scatter hours mld c m l.

Definition cell6 : M unit :=
  s ← read sec;
  s ← bound "sec" s;
  let hours := (λ x, (x / num_dec 3600 0)%num) <$> s in
  p ← read mld_p79;
  p ← bound "mld_p79" p;
  plt_plot hours (values p) "P79" ;;
  cs ← read casenames;
  for_each cs (cell6_body hours) ;;
  lo ← lift (index hours 0);
  hi ← lift (index hours (-1));
  plt_xlim lo hi ;;
  if save_fig then modify (draw (PltSavefig "entrainment_ts_kc04-my.pdf"))
  else mret tt.

Definition notebook : M unit := cell2 ;; cell4 ;; cell5 ;; cell6.
End notebook.
End Plot.

(** ** A sample environment *)

(** A cut-down default configuration: the sections of [gotm.yaml] that the
    notebooks write to, and collaborators that always return.  They serve
    to run the notebooks on an example. *)
Module Sample.
Definition input : pyvalue :=
  PDict [(Key "method", PStr "off"); (Key "constant_value", PFloat 0.0);
         (Key "file", PStr ""); (Key "column", PInt 1)].

Definition config : pyvalue :=
  PDict [
    (Key "version", PInt 6);
    (Key "title", PStr "GOTM simulation");
    (Key "location", PDict [(Key "name", PStr "GOTM site"); (Key "latitude", PFloat 0.0);
                        (Key "longitude", PFloat 0.0); (Key "depth", PFloat 100.0)]);
    (Key "time", PDict [(Key "start", PStr "2017-01-01 00:00:00");
                    (Key "stop", PStr "2018-01-01 00:00:00");
                    (Key "dt", PFloat 3600.0)]);
    (Key "grid", PDict [(Key "nlev", PInt 100)]);
    (Key "temperature", PDict [(Key "method", PStr "off");
                           (Key "two_layer", PDict [(Key "t_s", PFloat 0.0)])]);
    (Key "salinity", PDict [(Key "method", PStr "off")]);
    (Key "surface", PDict [(Key "fluxes", PDict [(Key "method", PStr "off");
                                         (Key "heat", input); (Key "tx", input);
                                         (Key "ty", input)]);
                       (Key "swr", input); (Key "precip", input)]);
    (Key "waves", PDict [(Key "stokes_drift",
                      PDict [(Key "us", input); (Key "vs", input); (Key "dusdz", input);
                             (Key "dvsdz", input);
                             (Key "exponential",
                              PDict [(Key "us0", input); (Key "vs0", input);
                                     (Key "ds", input)])])]);
    (Key "light_extinction", PDict [(Key "method", PStr "jerlov-i"); (Key "A", input);
                                (Key "g1", input); (Key "g2", input)]);
    (Key "turbulence", PDict [(Key "turb_method", PStr "second_order");
                          (Key "scnd", PDict []); (Key "turb_param", PDict []);
                          (Key "generic", PDict []); (Key "my", PDict [])]);
    (Key "cvmix", PDict [(Key "surface_layer",
                      PDict [(Key "kpp", PDict [(Key "langmuir_method", PStr "none")])])]);
    (Key "velocities", PDict [(Key "relax", PDict [(Key "tau", PFloat 1e15)])]);
    (Key "eq_state", PDict [(Key "method", PStr "full_teos-10"); (Key "form", PStr "full");
                        (Key "linear", PDict [])])
  ].

Definition tool : gotmtool := {|
  Model_new := λ _ _, Ok [("gotmdir_data", "/home/user/gotm/data")];
  Model_build := Ok tt;
  Model_init_config := Ok config;
  Model_run_batch := λ _ _ labels _, Ok ((λ l, {| sim_path := l |}) <$> labels);
|}.

(** The state a run notebook ends in, when it returns. *)
Definition final (nb : Run.notebook_id) : Run.state :=
  match Run.notebook nb tool Run.initial with
  | Ok (_, σ) => σ
  | Raise _ => Run.initial
  end.

(** The state after [cfg = m.init_config()], then after a first
    [cfgs.append(copy.deepcopy(cfg))], then after selecting another
    scheme. *)
Definition configured : Run.state :=
  match Run.init_config tool Run.initial with
  | Ok (_, σ) => σ
  | Raise _ => Run.initial
  end.

Definition copied : Run.state :=
  match Run.cfgs_append_deepcopy configured with
  | Ok (_, σ) => σ
  | Raise _ => Run.initial
  end.

Definition later : list (list subscript * pyvalue) :=
  [(at["turbulence"; "turb_method"], PStr "cvmix");
   (at["cvmix"; "surface_layer"; "kpp"; "langmuir_method"], PStr "lf17");
   (at["output"], PDict [])].

Definition changed : Run.state :=
  match for_each later (λ a, Run.cfg_set a.1 a.2) copied with
  | Ok (_, σ) => σ
  | Raise _ => Run.initial
  end.
(** The output of a run with three output times, and an environment of
    the plot notebook in which every case loads it. *)
Definition output : Dataset float :=
  {| NN := [ [[[1e-4]]; [[1e-4]]]; [[[1e-4]]; [[1e-4]]]; [[[1e-4]]; [[2e-4]]] ]%float;
     u_taus := [ [[0.01]]; [[0.01]]; [[0.0101]] ]%float;
     time := [1104537600000000000; 1104538500000000000; 1104539400000000000] |}.

Definition plot_tool : plot_env float := {|
  os_path_islink := λ _, false;
  os_symlink := λ _ _, Ok tt;
  load_data := λ _, Ok output;
  get_bld_maxNN := λ nn, Ok ((λ _, 1.5%float) <$> nn);
|}.

(** The plot notebook before the load loop, after it, and at the figure
    cell. *)
Definition styled : @Plot.state float :=
  match Plot.cell2 plot_tool Plot.initial with
  | Ok (_, σ) => σ
  | Raise _ => Plot.initial
  end.

Definition loaded : @Plot.state float :=
  match Plot.cell4 plot_tool styled with
  | Ok (_, σ) => σ
  | Raise _ => Plot.initial
  end.

Definition at_figure : @Plot.state float :=
  match Plot.cell5 loaded with
  | Ok (_, σ) => σ
  | Raise _ => Plot.initial
  end.
(** An output with [NN = 1], [ustar = 1] and two times one second apart,
    loaded for the first case. *)
Definition unit_output : Dataset float :=
  {| NN := [ [[[1]]]; [[[1]]]; [[[1]]] ]%float;
     u_taus := [ [[1]] ]%float;
     time := [0; 1000000000] |}.

Definition unit_loaded : @Plot.state float :=
  Plot.set_dataset (<["KPP-CVMix" := unit_output]> ∅)
    (Plot.set_casenames ["KPP-CVMix"] Plot.initial).

(** Collaborators that fail: the simulator exits with an error in
    [run_batch], and the output of the third case cannot be loaded. *)
Definition failing_tool : gotmtool := {|
  Model_new := Model_new tool;
  Model_build := Model_build tool;
  Model_init_config := Model_init_config tool;
  Model_run_batch := λ _ _ _ _, Raise (ExternalError "gotm: exit status 1");
|}.

Definition prepared : Run.state :=
  match Run.before_run_batch Run.Entrainment_ipynb failing_tool Run.initial with
  | Ok (_, σ) => σ
  | Raise _ => Run.initial
  end.

(** A model that cannot be built, and one whose default configuration
    cannot be written. *)
Definition unbuilt_tool : gotmtool := {|
  Model_new := Model_new tool;
  Model_build := Raise (ExternalError "make: exit status 2");
  Model_init_config := Model_init_config tool;
  Model_run_batch := Model_run_batch tool;
|}.

Definition unconfigured_tool : gotmtool := {|
  Model_new := Model_new tool;
  Model_build := Model_build tool;
  Model_init_config := Raise (ExternalError "gotm: exit status 1");
  Model_run_batch := Model_run_batch tool;
|}.

(** The state [run_Entrainment.ipynb] ends in when the model cannot be
    built. *)
Definition unbuilt : Run.state :=
  match Run.notebook Run.Entrainment_ipynb unbuilt_tool Run.initial with
  | Ok (_, σ) => σ
  | Raise _ => Run.initial
  end.

Definition failing_plot_tool : plot_env float := {|
  os_path_islink := os_path_islink plot_tool;
  os_symlink := os_symlink plot_tool;
  load_data := λ sim,
    if decide (sim_path sim = "../gotm/run/Entrainment-KC04/KC04-MY-e6-1.0")
    then Raise (ExternalError "gotm_out.nc: no such file")
    else Ok output;
  get_bld_maxNN := get_bld_maxNN plot_tool;
|}.
End Sample.

(** ** The scaling law and the batch, as the specification words them *)

(** The scaling of Price (1979) as the notebook states it:
    [h_m(t) = (2 R_v)^(1/4) u_* (t / N_0)^(1/2)] with [R_v = 0.6]. *)
Definition price1979 (ustar N0 t : R) : R :=
  (Rpower (2 * (6 / 10)) (1 / 4) * ustar * R_sqrt.sqrt (t / N0))%R.

(** ** The recorded runs *)

(** The notebook files keep what each cell left on the streams when the
    notebook was last run.  The log of the GOTM executable, as the three
    cells [cfg = m.init_config()] have it on standard error; the records
    differ in the time of the start and in the run directory only. *)
Definition gotm_log (started dir : string) : list string :=
  [" ------------------------------------------------------------------------";
   " GOTM started on " +:+ started;
   " ------------------------------------------------------------------------";
   "    initialize_gotm";
   " ------------------------------------------------------------------------";
   "        Reading configuration from: gotm.yaml";
   "        configuring modules ....";
   "    init_airsea_yaml";
   "        done";
   "    init_observations_yaml";
   "    init_stokes_drift_yaml";
   "        done";
   "    init_turbulence_yaml";
   "        done.";
   "    init_cvmix_yaml";
   "        done.";
   "    init_meanflow_yaml";
   "        done";
   "    init_eqstate_yaml";
   "        done.";
   " Your configuration has been written to "
     +:+ "/home/qingli/work/gotm/A2022_SMCLT_in_GOTM/gotm/run/" +:+ dir
     +:+ "/gotm.yaml.";
   "STOP 0"].

(** The standard error recorded for the cell of a call into [gotmtool].
    The cells of [Model], [build] and [run_batch] have a record of
    standard output only. *)
Definition recorded_stderr (nb : Run.notebook_id) (c : call) : list string :=
  match c with
  | CallInitConfig =>
      match nb with
      | Run.Entrainment_ipynb => gotm_log "2022/06/26 at 15:41:26" "Entrainment"
      | Run.EntrainmentKC04_ipynb =>
          gotm_log "2022/06/27 at 10:12:54" "Entrainment-KC04"
      | Run.OsmosisWinterKC04_ipynb =>
          gotm_log "2022/06/26 at 17:14:40" "OSMOSIS-Winter-KC04"
      end
  | _ => []
  end.

(** The line with which the GOTM executable starts. *)
Definition gotm_started (line : string) : bool :=
  String.prefix " GOTM started on " line.

(** ** Invariants of the store *)

Definition is_ref (v : val) : Prop := ∃ l, v = VRef l.

(** A reference in [v] points into the region [n ≤ l < m]. *)
Definition fresh_val (n m : nat) (v : val) : Prop :=
  ∀ l, v = VRef l → (n ≤ l < m)%nat.

(** [h'] keeps every object of [h] as it is and adds objects that refer to
    added objects only. *)
Record grows (h h' : heap) : Prop := {
  grows_length : (length h ≤ length h')%nat;
  grows_old : ∀ l, (l < length h)%nat → h' !! l = h !! l;
  grows_new : ∀ l o, (length h ≤ l)%nat → h' !! l = Some o →
                Forall (fresh_val (length h) (length h')) (refs_of o);
}.

(** No entry of the batch shares an object with the working configuration
    or with another entry. *)
Definition isolated (h : heap) (root : val) (entries : list val) : Prop :=
  (∀ c l, c ∈ entries → reach h c l → ¬ reach h root l) ∧
  (∀ i j ci cj l, i ≠ j → entries !! i = Some ci → entries !! j = Some cj →
     reach h ci l → ¬ reach h cj l).

Definition inv (σ : Run.state) : Prop :=
  wf_heap (Run.store σ) ∧
  wf_val (Run.store σ) (Run.cfg σ) ∧
  Forall (wf_val (Run.store σ)) (Run.cfgs σ) ∧
  isolated (Run.store σ) (Run.cfg σ) (Run.cfgs σ).

(** The state of the copy in progress: the memo points into the region of
    the copies, which starts at [n0], and that region refers to itself
    only. *)
Definition copy_state (n0 : nat) (memo : gmap loc loc) (h : heap) : Prop :=
  (n0 ≤ length h)%nat ∧
  (∀ l l', memo !! l = Some l' → (n0 ≤ l' < length h)%nat) ∧
  (∀ l o, (n0 ≤ l)%nat → h !! l = Some o →
     Forall (fresh_val n0 (length h)) (refs_of o)).

(** What evaluating a literal does to the store. *)
Definition alloc_ok (t : pyvalue) : Prop :=
  ∀ h v h', alloc t h = (v, h') →
    grows h h' ∧ fresh_val (length h) (length h') v.

(** What a step of the copy does to the store and the memo. *)
Definition copy_post (n0 : nat) (h : heap) (memo' : gmap loc loc) (h' : heap) : Prop :=
  copy_state n0 memo' h' ∧ take n0 h' = take n0 h ∧ (length h ≤ length h')%nat.

Definition copy_ok (n0 : nat)
    (rec : gmap loc loc → heap → val → result (val * gmap loc loc * heap)) : Prop :=
  ∀ memo h v v' memo' h',
    copy_state n0 memo h → rec memo h v = Ok (v', memo', h') →
    copy_post n0 h memo' h' ∧ fresh_val n0 (length h') v' ∧ (is_ref v → is_ref v').

(** The objects of the original store, below [n0], that the copy has not
    reached yet. *)
Definition unseen (n0 : nat) (memo : gmap loc loc) : nat :=
  size (set_seq 0 n0 ∖ dom memo : gset nat).

(** The original, below [n0], refers to itself only. *)
Definition copy_source (n0 : nat) (h : heap) : Prop :=
  (n0 ≤ length h)%nat ∧
  ∀ l o, (l < n0)%nat → h !! l = Some o → Forall (fresh_val 0 n0) (refs_of o).

(** A step of the copy returns when the fuel covers the objects not yet
    reached. *)
Definition copy_returns (n0 fuel : nat)
    (rec : gmap loc loc → heap → val → result (val * gmap loc loc * heap)) : Prop :=
  ∀ memo h v,
    copy_source n0 h → fresh_val 0 n0 v → (unseen n0 memo ≤ fuel)%nat →
    ∃ v' memo' h',
      rec memo h v = Ok (v', memo', h') ∧ dom memo ⊆ dom memo' ∧
      take n0 h' = take n0 h ∧ (length h ≤ length h')%nat.

(** The variables other than the store and the batch. *)
Definition same_vars (σ σ' : Run.state) : Prop :=
  Run.cfg σ' = Run.cfg σ ∧ Run.labels σ' = Run.labels σ ∧
  Run.calls σ' = Run.calls σ ∧ Run.environ σ' = Run.environ σ ∧
  Run.sims σ' = Run.sims σ.

(** The batch so far: [n] configurations, the labels [ls], and the calls
    [cs] made into [gotmtool]. *)
Definition batch0 (n : nat) (ls : list string) (cs : list call) (σ : Run.state) : Prop :=
  inv σ ∧ Forall is_ref (Run.cfgs σ) ∧ length (Run.cfgs σ) = n ∧
  Run.labels σ = ls ∧ Run.calls σ = cs.

(** The same once [cfg] is known to be a dictionary. *)
Definition batch (n : nat) (ls : list string) (cs : list call) (σ : Run.state) : Prop :=
  batch0 n ls cs σ ∧ is_ref (Run.cfg σ).

(** ** Assertions on the plot notebook *)

Section plot_assertions.
Context {T : Type}.
Implicit Types σ : @Plot.state T.

(** Every case has a label, a colour and a marker, and nothing else
    has. *)
Definition styled σ : Prop :=
  dom (Plot.labels σ) = list_to_set (Plot.casenames σ) ∧
  dom (Plot.colors σ) = list_to_set (Plot.casenames σ) ∧
  dom (Plot.markers σ) = list_to_set (Plot.casenames σ).

(** One round of the loop adds a case and its label, colour and
    marker. *)
Definition add_case (name label : string) (c : color) (marker : string) σ :=
  Plot.set_markers (<[name := marker]> (Plot.markers σ))
    (Plot.set_colors (<[name := c]> (Plot.colors σ))
       (Plot.set_labels (<[name := label]> (Plot.labels σ))
          (Plot.set_casenames (Plot.casenames σ ++ [name]) σ))).

(** The case names and their styles after the second cell. *)
Definition all_cases : list string :=
  ["KPP-CVMix"; "KPPLT-LF17"; "KC04-MY-e6-1.0"; "KC04-MY-e6-4.0";
   "KC04-MY-e6-6.0"; "KC04-MY-e6-7.0"; "KC04-MY-NS"].

(** The variables that hold the case names and their styles, and the
    statements that leave them alone. *)
Definition styles_of σ :=
  (Plot.casenames σ, Plot.labels σ, Plot.colors σ, Plot.markers σ).

Definition keeps_styles {A} (m : stx (@Plot.state T) A) : Prop :=
  ∀ σ a σ', m σ = Ok (a, σ') → styles_of σ' = styles_of σ.
End plot_assertions.

(** ** Classes of binary64 values *)

(** The values of binary64 that compare [>= 0] (both zeros do), and those
    that are neither infinite nor NaN. *)
Definition sf_nonneg (x : spec_float) : bool :=
  match x with
  | S754_zero _ | S754_finite false _ _ | S754_infinity false => true
  | _ => false
  end.

Definition sf_finite (x : spec_float) : bool :=
  match x with
  | S754_zero _ | S754_finite _ _ _ => true
  | _ => false
  end.

Definition sf_pos (x : spec_float) : bool :=
  match x with
  | S754_finite false _ _ | S754_infinity false => true
  | _ => false
  end.

(** The real number that a finite value of binary64 stands for. *)
Definition SF2R (x : spec_float) : R :=
  match x with
  | S754_finite s m e => (IZR (if s then Z.neg m else Z.pos m) * powerRZ 2 e)%R
  | _ => 0%R
  end.

Definition float_val (x : float) : R := SF2R (Prim2SF x).

(** ** Rounding in a binary format *)

(** Powers of two. *)
Definition b2 (e : Z) : R := powerRZ 2 e.

(** [located x m e l]: the real [x] lies in [[m·2^e, (m+1)·2^e)], at the
    place [l] says: on [m·2^e], below, on or above the middle. *)
Definition located (x : R) (m e : Z) (l : location) : Prop :=
  match l with
  | loc_Exact => x = (IZR m * b2 e)%R
  | loc_Inexact Lt => (IZR m * b2 e < x < (IZR m + / 2) * b2 e)%R
  | loc_Inexact Eq => x = ((IZR m + / 2) * b2 e)%R
  | loc_Inexact Gt => ((IZR m + / 2) * b2 e < x < (IZR m + 1) * b2 e)%R
  end.

(** [placed x k m l]: the number [x] of magnitude [k] (it is below [2^k],
    and not below [2^(k-1)] unless [k] is in the subnormal range) is at
    [m], [l] on the grid of the format. *)
Definition placed (prec emax : Z) (x : R) (k m : Z) (l : location) : Prop :=
  located x m (SpecFloat.fexp prec emax k) l ∧ 0 ≤ m ∧ (0 <= x < b2 k)%R ∧
  ((b2 (k - 1) <= x)%R ∨ k ≤ SpecFloat.emin prec emax).

(** The value a rounding returns, from the mantissa and the exponent it
    ends with. *)
Definition round_result (prec emax : Z) (m e : Z) : spec_float :=
  match m with
  | Z0 => S754_zero false
  | Z.pos p => if e <=? emax - prec then S754_finite false p e else S754_infinity false
  | Z.neg _ => S754_nan
  end.

(** What a rounding is given: a mantissa, an exponent not above that of
    the format, and the location of the number. *)
Definition rounding_input (prec emax : Z) (x : R) (m e : Z) (l : location) : Prop :=
  0 ≤ m ∧ located x m e l ∧ e ≤ SpecFloat.fexp prec emax (Zdigits2 m + e).


(** ** Assertions on the figure *)

Section plot_figure_assertions.
Context {T : Type} `{Num T}.
Variable E : plot_env T.
Implicit Types σ : @Plot.state T.

(** [NN[:,:,0,0]]: the profile of every output time at the one horizontal
    point. *)
Definition column (a : list (list (list (list T)))) : result (list (list T)) :=
  mapM (mapM (λ row, Plot.index row 0 ≫= λ c, Plot.index c 0)) a.

(** The mixed layer depth diagnosed from the output of a case. *)
Definition diagnosed (d : Dataset T) (mld : list T) : Prop :=
  ∃ nn, column (NN d) = Ok nn ∧ get_bld_maxNN E nn = Ok mld.

(** [call] is the scatter plot that the figure loop draws for [case] in
    state [σ]: the depth diagnosed for the case, one value per hour. *)
Definition scatter_of σ (hours : list T) (case : string) (call : plot_call T)
  : Prop :=
  ∃ data mld c m l,
    Plot.dataset σ !! case = Some data ∧ diagnosed data mld ∧
    length hours = length mld ∧
    Plot.colors σ !! case = Some c ∧ Plot.markers σ !! case = Some m ∧
    Plot.labels σ !! case = Some l ∧
    call = PltScatter hours mld c m l.

(** The variables other than the figure. *)
Definition variables_of σ :=
  (styles_of σ, Plot.nkpp σ, Plot.sims σ, Plot.dataset σ, Plot.sec σ,
   Plot.mld_p79 σ).
End plot_figure_assertions.

(** Colour, marker and label of the seven cases, in the order of
    [casenames]. *)
Definition style_table : list (color * string * string) :=
  [(Named "k", "x", "KPP-CVMix"); (Named "gray", "x", "KPPLT-LF17");
   (Rainbow 0, "o", "$e_6$=1.0");
   (Rainbow 0x1.5555555555555p-2, "o", "$e_6$=4.0");
   (Rainbow 0x1.5555555555555p-1, "o", "$e_6$=6.0");
   (Rainbow 1, "o", "$e_6$=7.0"); (Named "k", "o", "w/o Stokes")].

(** The sample plot notebook run from top to bottom. *)
Definition sample_plotted : @Plot.state float :=
  match Plot.notebook Sample.plot_tool Plot.initial with
  | Ok (_, σ) => σ
  | Raise _ => Plot.initial
  end.


(** ** Configurations as trees *)

(** A configuration that came from a YAML file and was only ever assigned
    literals is a tree: no object is shared.  On trees the statements of
    the notebooks have a functional reading, given here; the properties
    part shows that the store follows it. *)

(** [d[k] = v] on an association list of any values. *)
Fixpoint assoc_set {V} (k : subscript) (v : V) (d : list (subscript * V))
  : list (subscript * V) :=
  match d with
  | [] => [(k, v)]
  | (k', v') :: r =>
      if decide (k = k') then (k, v) :: r else (k', v') :: assoc_set k v r
  end.

(** The position of a key. *)
Fixpoint key_index (k : subscript) (keys : list subscript) : option nat :=
  match keys with
  | [] => None
  | k' :: r => if decide (k = k') then Some 0%nat else S <$> key_index k r
  end.

(** What the store holds for a literal: a key written twice keeps its
    first position and its last value. *)
Definition normalize_items (rec : pyvalue → pyvalue) :=
  fix go (its : list (subscript * pyvalue)) (acc : list (subscript * pyvalue))
    : list (subscript * pyvalue) :=
    match its with
    | [] => acc
    | (k, t) :: r => go r (assoc_set k (rec t) acc)
    end.

Fixpoint normalize (t : pyvalue) : pyvalue :=
  match t with
  | PDict items => PDict (normalize_items normalize items [])
  | PList elems => PList (normalize <$> elems)
  | _ => t
  end.

Definition scalar_of (t : pyvalue) : option val :=
  match t with
  | PNone => Some VNone
  | PBool b => Some (VBool b)
  | PInt z => Some (VInt z)
  | PFloat x => Some (VFloat x)
  | PStr s => Some (VStr s)
  | PDict _ | PList _ => None
  end.

Definition children (t : pyvalue) : list pyvalue :=
  match t with
  | PDict items => items.*2
  | PList elems => elems
  | _ => []
  end.

(** The object [o] is a dictionary with the keys of [t], or a list like
    [t]. *)
Definition shape (t : pyvalue) (o : obj) : Prop :=
  match t, o with
  | PDict items, ODict d => d.*1 = items.*1
  | PList _, OList _ => True
  | _, _ => False
  end.

(** [repr h t v fp]: in store [h] the value [v] is the tree [t], and [fp]
    is the set of its objects, each used once. *)
Inductive repr (h : heap) : pyvalue → val → gset loc → Prop :=
| repr_scalar t v : scalar_of t = Some v → repr h t v ∅
| repr_ref t l o fp :
    h !! l = Some o → shape t o → repr_all h (children t) (refs_of o) fp →
    l ∉ fp → repr h t (VRef l) ({[l]} ∪ fp)
with repr_all (h : heap) : list pyvalue → list val → gset loc → Prop :=
| repr_nil : repr_all h [] [] ∅
| repr_cons t v ts vs fp1 fp2 :
    repr h t v fp1 → repr_all h ts vs fp2 → fp1 ## fp2 →
    repr_all h (t :: ts) (v :: vs) (fp1 ∪ fp2).

Scheme repr_mut_ind := Minimality for repr Sort Prop
  with repr_all_mut_ind := Minimality for repr_all Sort Prop.
Combined Scheme repr_mutual from repr_mut_ind, repr_all_mut_ind.

(** [t[s]] *)
Definition tree_getitem (t : pyvalue) (s : subscript) : result pyvalue :=
  match t with
  | PDict items =>
      match dict_get s items with
      | Some c => Ok c
      | None => Raise (KeyError s)
      end
  | PList elems =>
      match s with
      | Index i =>
          match list_getitem elems i with
          | Some c => Ok c
          | None => Raise IndexError
          end
      | Key _ => Raise TypeError
      end
  | PStr str =>
      match s with
      | Index i =>
          match str_getitem str i with
          | Some c => Ok (PStr c)
          | None => Raise IndexError
          end
      | Key _ => Raise TypeError
      end
  | _ => Raise TypeError
  end.

(** [t[s] = c], as a new tree *)
Definition tree_setitem (t : pyvalue) (s : subscript) (c : pyvalue)
  : result pyvalue :=
  match t with
  | PDict items => Ok (PDict (assoc_set s c items))
  | PList elems =>
      match s with
      | Index i =>
          match py_index i (length elems) with
          | Some n => Ok (PList (<[n := c]> elems))
          | None => Raise IndexError
          end
      | Key _ => Raise TypeError
      end
  | _ => Raise TypeError
  end.

(** [t[s1]...[sn]] *)
Fixpoint tree_get (t : pyvalue) (path : list subscript) : result pyvalue :=
  match path with
  | [] => Ok t
  | s :: rest => result_bind (tree_getitem t s) (λ c, tree_get c rest)
  end.

(** [t[s1]...[sn][k] = rhs], as a new tree *)
Fixpoint tree_assign (t : pyvalue) (path : list subscript) (k : subscript)
    (rhs : pyvalue) : result pyvalue :=
  match path with
  | [] => tree_setitem t k rhs
  | s :: rest =>
      result_bind (tree_getitem t s) (λ c,
      result_bind (tree_assign c rest k rhs) (λ c', tree_setitem t s c'))
  end.

(** Evaluating the literal [t] gives its tree, made of new objects. *)
Definition alloc_repr_at (t : pyvalue) : Prop :=
  ∀ h v h', alloc t h = (v, h') →
    ∃ fp, repr h' (normalize t) v fp ∧ ∀ l, l ∈ fp → (length h ≤ l < length h')%nat.

(** What a step of the copy gives for a tree of the original store [h]:
    the same tree, made of objects added to the store. *)
Definition copies_tree {A B} (R : heap → A → B → gset loc → Prop)
    (run : gmap loc loc → heap → result (B * gmap loc loc * heap))
    (h : heap) (t : A) (fp : gset loc) : Prop :=
  ∀ memo h1 v' memo' h1',
    (∀ l, l ∈ fp → h1 !! l = h !! l) → dom memo ## fp →
    run memo h1 = Ok (v', memo', h1') →
    ∃ fp', R h1' t v' fp' ∧
           (∀ l, l ∈ fp' → (length h1 ≤ l < length h1')%nat) ∧
           (∀ l, (l < length h1)%nat → h1' !! l = h1 !! l) ∧
           (length h1 ≤ length h1')%nat ∧ dom memo' = dom memo ∪ fp.

(** The copy of a tree returns: every nested call is for an object of the
    tree that has not been copied yet. *)
Definition copy_tree_returns {B}
    (run : nat → gmap loc loc → heap → result (B * gmap loc loc * heap))
    (h : heap) (fp : gset loc) : Prop :=
  ∀ fuel memo h1,
    (∀ l, l ∈ fp → h1 !! l = h !! l) → dom memo ## fp → (size fp < fuel)%nat →
    is_Ok (run fuel memo h1).

(** ** Assignments followed on a tree *)

(** [t[s1]...[sn] = rhs], as a new tree *)
Definition tree_store (t : pyvalue) (target : list subscript) (rhs : pyvalue)
  : result pyvalue :=
  match Run.split_last target with
  | Some (path, k) => tree_assign t path k rhs
  | None => Raise TypeError
  end.

(** What is known of the outcome of reading [t[q]] for a chain of
    subscripts [q]: the outcome itself, whether it is a dictionary, or
    nothing. *)
Inductive known :=
| Known (r : result pyvalue)
| DictIff (b : bool)
| Unknown.

(** The outcome of a reading is a dictionary. *)
Definition is_dict (r : result pyvalue) : bool :=
  match r with
  | Ok (PDict _) => true
  | _ => false
  end.

(** What is known of [t[q]] holds of the tree [t]. *)
Definition agrees (t : pyvalue) (q : list subscript) (a : known) : Prop :=
  match a with
  | Known r => tree_get t q = r
  | DictIff b => is_dict (tree_get t q) = b
  | Unknown => True
  end.

(** What is known of [t[q]] after [t[target] = rhs] has returned: the
    assignment is to [q] itself or to a part of it, to a component of
    [t[q]], or to another key of a dictionary on the way, which leaves
    [t[q]] as it is. *)
Fixpoint after_store (q target : list subscript) (rhs : pyvalue) (a : known)
  : known :=
  match target with
  | [] => Unknown
  | k :: target' =>
      match q with
      | [] =>
          match a with
          | Known (Ok sub) => Known (tree_store sub target rhs)
          | DictIff b => DictIff b
          | _ => Unknown
          end
      | s :: q' =>
          if decide (s = k) then
            match target' with
            | [] => Known (tree_get rhs q')
            | _ => after_store q' target' rhs a
            end
          else
            match s, k with
            | Key _, Key _ => a
            | _, _ => Unknown
            end
      end
  end.

(** Two chains of subscripts part at a dictionary: after a common
    beginning they go on with different keys. *)
Definition diverge (q target : list subscript) : Prop :=
  ∃ p a b r1 r2, q = p ++ Key a :: r1 ∧ target = p ++ Key b :: r2 ∧ a ≠ b.

(** ** Assertions on the run notebooks *)

(** [c[q]] is, in store [h], the value written [t]. *)
Definition reads (h : heap) (c : val) (q : list subscript) (t : pyvalue) : Prop :=
  ∃ v fp, getpath h c q = Ok v ∧ repr h t v fp.

(** The same where a value is stated, and nothing where none is. *)
Definition reads_if (h : heap) (c : val) (q : list subscript) (o : option pyvalue)
  : Prop :=
  match o with
  | Some t => reads h c q t
  | None => True
  end.

(** The value that is known to be read, if one is. *)
Definition stated (a : known) : option pyvalue :=
  match a with
  | Known (Ok t) => Some t
  | _ => None
  end.

(** What is known of the variables of a run notebook at the chains of
    subscripts [Q]: [cfg] is a tree, of which [cur] is known; once [cfgs]
    was reset, its entries are trees of their own, of which [es] is known;
    once [labels] was reset, it is [ls]. *)
Definition tracked (Q : list (list subscript)) (cur : list known)
    (es : option (list (list known))) (ls : option (list string)) (σ : Run.state)
  : Prop :=
  (∀ l, ls = Some l → Run.labels σ = l) ∧
  ∃ t fp, repr (Run.store σ) t (Run.cfg σ) fp ∧ Forall2 (agrees t) Q cur ∧
    ∀ e, es = Some e →
      ∃ ts fps, repr_all (Run.store σ) ts (Run.cfgs σ) fps ∧ fp ## fps ∧
                Forall2 (λ t a, Forall2 (agrees t) Q a) ts e.

(** The environment a model is created with, when it is created. *)
Definition environ_of (G : gotmtool) (name env_file : string)
  : list (string * string) :=
  match Model_new G name env_file with
  | Ok e => e
  | Raise _ => []
  end.

(** An assertion on a state whose [m.environ] is [e]. *)
Definition with_environ (e : list (string * string)) (φ : Prop)
    (P : Run.state → Prop) (σ : Run.state) : Prop :=
  Run.environ σ = e ∧ φ ∧ P σ.

(** A statement that leaves [m.environ] as it is. *)
Definition keeps_environ {A} (m : Run.M A) : Prop :=
  ∀ σ a σ', m σ = Ok (a, σ') → Run.environ σ' = Run.environ σ.

(** ** The batches, as the notebooks set them *)

(** The settings that tell the four entries of the batch of
    [run_Entrainment.ipynb] apart, and their values in the entries; [None]
    where the notebook leaves the value [init_config] gave. *)
Definition entrainment_settings : list (list subscript) :=
  [at["turbulence"; "turb_method"];
   at["turbulence"; "tke_method"];
   at["turbulence"; "len_scale_method"];
   at["cvmix"; "surface_layer"; "kpp"; "langmuir_method"]].

Definition entrainment_table : list (list (option pyvalue)) :=
  [[Some (PStr "second_order"); Some (PStr "tke"); Some (PStr "gls"); None];
   [Some (PStr "cvmix"); Some (PStr "tke"); Some (PStr "gls"); Some (PStr "none")];
   [Some (PStr "cvmix"); Some (PStr "tke"); Some (PStr "gls"); Some (PStr "lwf16")];
   [Some (PStr "cvmix"); Some (PStr "tke"); Some (PStr "gls"); Some (PStr "lf17")]].

(** The same for the batches of [run_Entrainment-KC04.ipynb] (ten entries)
    and of the OSMOSIS notebook (four entries). *)
Definition kc04_settings : list (list subscript) :=
  [at["turbulence"; "tke_method"];
   at["turbulence"; "len_scale_method"];
   at["turbulence"; "my"; "e6"];
   at["turbulence"; "generic"; "cpsi4"];
   at["waves"; "stokes_drift"; "us"; "method"];
   at["waves"; "stokes_drift"; "dusdz"; "method"]].

(** The row of an entry with the Mellor-Yamada scheme, and of one with
    the k-omega scheme. *)
Definition kc04_my (e6 : float) (cpsi4 : option float) (us dusdz : string)
  : list (option pyvalue) :=
  [Some (PStr "mellor_yamada"); Some (PStr "mellor_yamada"); Some (PFloat e6);
   PFloat <$> cpsi4; Some (PStr us); Some (PStr dusdz)].

Definition kc04_k_omega (e6 c4 : float) (us dusdz : string)
  : list (option pyvalue) :=
  [Some (PStr "tke"); Some (PStr "gls"); Some (PFloat e6);
   Some (PFloat c4); Some (PStr us); Some (PStr dusdz)].

Definition kc04_table : list (list (option pyvalue)) :=
  [kc04_my 1.0 None "exponential" "us";
   kc04_my 4.0 None "exponential" "us";
   kc04_my 6.0 None "exponential" "us";
   kc04_my 7.0 None "exponential" "us";
   kc04_k_omega 7.0 0.15 "exponential" "us";
   kc04_k_omega 7.0 0.3 "exponential" "us";
   kc04_k_omega 7.0 0.555 "exponential" "us";
   kc04_k_omega 7.0 1.2 "exponential" "us";
   kc04_my 4.0 (Some 1.2%float) "off" "off";
   kc04_k_omega 4.0 0.15 "off" "off"].

Definition osmosis_table : list (list (option pyvalue)) :=
  [kc04_my 4.0 None "exponential" "us";
   kc04_k_omega 4.0 0.15 "exponential" "us";
   kc04_my 4.0 (Some 0.15%float) "off" "off";
   kc04_k_omega 4.0 0.15 "off" "off"].

(** The section [output] that cell 6 of a run notebook builds. *)
Definition output_section (nb : Run.notebook_id) : pyvalue :=
  let variables := PList [PDict [(Key "source", PStr "*")]] in
  match nb with
  | Run.Entrainment_ipynb | Run.EntrainmentKC04_ipynb =>
      PDict [(Key "gotm_out",
              PDict [(Key "use", PBool true);
                     (Key "title", PStr "Shear-driven Entrainment");
                     (Key "time_unit", PStr "dt"); (Key "time_step", PInt 90);
                     (Key "variables", variables);
                     (Key "k1_stop", PInt 101); (Key "k_stop", PInt 100)])]
  | Run.OsmosisWinterKC04_ipynb =>
      PDict [(Key "gotm_out",
              PDict [(Key "use", PBool true); (Key "title", PStr "OSMOSIS - Winter");
                     (Key "k1_stop", PInt 201); (Key "k_stop", PInt 200);
                     (Key "time_unit", PStr "hour"); (Key "time_step", PInt 3);
                     (Key "variables", variables)])]
  end.

(** The forcing files of the OSMOSIS notebook, with the columns read from
    the files that hold several series. *)
Definition osmosis_forcing : list (list subscript) :=
  [at["temperature"; "file"];
   at["salinity"; "file"];
   at["surface"; "fluxes"; "heat"; "file"];
   at["surface"; "fluxes"; "tx"; "file"];
   at["surface"; "fluxes"; "tx"; "column"];
   at["surface"; "fluxes"; "ty"; "file"];
   at["surface"; "fluxes"; "ty"; "column"];
   at["surface"; "swr"; "file"];
   at["surface"; "precip"; "file"];
   at["waves"; "stokes_drift"; "exponential"; "us0"; "file"];
   at["waves"; "stokes_drift"; "exponential"; "us0"; "column"];
   at["waves"; "stokes_drift"; "exponential"; "vs0"; "file"];
   at["waves"; "stokes_drift"; "exponential"; "vs0"; "column"];
   at["waves"; "stokes_drift"; "exponential"; "ds"; "file"];
   at["waves"; "stokes_drift"; "exponential"; "ds"; "column"]].

Definition osmosis_files (datadir : string) : list pyvalue :=
  [PStr (datadir +:+ "/t_prof.dat");
   PStr (datadir +:+ "/s_prof.dat");
   PStr (datadir +:+ "/heat_flux.dat");
   PStr (datadir +:+ "/momentum_flux.dat"); PInt 1;
   PStr (datadir +:+ "/momentum_flux.dat"); PInt 2;
   PStr (datadir +:+ "/swr.dat");
   PStr (datadir +:+ "/pme.dat");
   PStr (datadir +:+ "/stokes_drift.dat"); PInt 1;
   PStr (datadir +:+ "/stokes_drift.dat"); PInt 2;
   PStr (datadir +:+ "/stokes_drift.dat"); PInt 3].


(** ** Running through *)

(** A statement that returns from every state in [P], into [Q]. *)
Definition returns {S A} (P : S → Prop) (m : stx S A) (Q : A → S → Prop) : Prop :=
  ∀ σ, P σ → ∃ a σ', m σ = Ok (a, σ') ∧ Q a σ'.

(** What is known says that a dictionary is read. *)
Definition holds_dict (a : known) : bool :=
  match a with
  | DictIff true | Known (Ok (PDict _)) => true
  | _ => false
  end.

(** By what is known at [Q], the assignment [cfg[s1]...[sn][k] = ...] finds
    a dictionary at [cfg[s1]...[sn]]. *)
Definition storable (Q : list (list subscript)) (cur : list known)
    (target : list subscript) : bool :=
  match Run.split_last target with
  | Some (path, Key _) =>
      existsb (λ qa, bool_decide (qa.1 = path) && holds_dict qa.2) (zip Q cur)
  | _ => false
  end.

(** The sections of the default configuration a run notebook assigns
    into: they have to be there, as dictionaries.  The first is the
    configuration itself. *)
Definition stokes_drift_sections : list (list subscript) :=
  [at["waves"; "stokes_drift"; "us"];
   at["waves"; "stokes_drift"; "vs"];
   at["waves"; "stokes_drift"; "dusdz"];
   at["waves"; "stokes_drift"; "dvsdz"];
   at["waves"; "stokes_drift"; "exponential"; "us0"];
   at["waves"; "stokes_drift"; "exponential"; "vs0"];
   at["waves"; "stokes_drift"; "exponential"; "ds"]].

Definition sections (nb : Run.notebook_id) : list (list subscript) :=
  match nb with
  | Run.Entrainment_ipynb =>
      [[]; at["location"]; at["time"]; at["grid"];
       at["temperature"]; at["temperature"; "two_layer"]; at["salinity"];
       at["surface"; "fluxes"]; at["surface"; "fluxes"; "heat"];
       at["surface"; "fluxes"; "tx"]; at["surface"; "fluxes"; "ty"]]
      ++ stokes_drift_sections ++
      [at["eq_state"];
       at["turbulence"]; at["turbulence"; "scnd"];
       at["turbulence"; "turb_param"]; at["turbulence"; "generic"];
       at["cvmix"; "surface_layer"; "kpp"]]
  | Run.EntrainmentKC04_ipynb =>
      [[]; at["location"]; at["time"]; at["grid"];
       at["temperature"]; at["temperature"; "two_layer"]; at["salinity"];
       at["surface"; "fluxes"]; at["surface"; "fluxes"; "heat"];
       at["surface"; "fluxes"; "tx"]; at["surface"; "fluxes"; "ty"]]
      ++ stokes_drift_sections ++
      [at["eq_state"];
       at["turbulence"]; at["turbulence"; "scnd"];
       at["turbulence"; "turb_param"]; at["turbulence"; "my"];
       at["turbulence"; "generic"]]
  | Run.OsmosisWinterKC04_ipynb =>
      [[]; at["location"]; at["time"]; at["grid"];
       at["temperature"]; at["salinity"];
       at["surface"; "fluxes"; "heat"];
       at["surface"; "fluxes"; "tx"]; at["surface"; "fluxes"; "ty"];
       at["surface"; "swr"]; at["surface"; "precip"]]
      ++ stokes_drift_sections ++
      [at["light_extinction"]; at["light_extinction"; "A"];
       at["light_extinction"; "g1"]; at["light_extinction"; "g2"];
       at["eq_state"]; at["eq_state"; "linear"]; at["velocities"; "relax"];
       at["turbulence"]; at["turbulence"; "scnd"];
       at["turbulence"; "turb_param"]; at["turbulence"; "my"];
       at["turbulence"; "generic"]]
  end.

(** The dictionaries cell 6 makes itself. *)
Definition output_sections : list (list subscript) :=
  [at["output"]; at["output"; "gotm_out"];
   at["output"; "gotm_out"; "variables"; Index 0]].

(** What an assignment [cfg[s1]...[sn][k] = ...] that returned shows: for
    the chains of [Q] that are [s1, ..., sn], the dictionary was there. *)
Definition learned (Q : list (list subscript)) (cur : list known)
    (target : list subscript) : list bool :=
  match Run.split_last target with
  | Some (path, Key _) =>
      omap (λ qa, match qa.2 with
                  | DictIff b => if decide (qa.1 = path) then Some b else None
                  | _ => None
                  end) (zip Q cur)
  | _ => []
  end.

(** An assertion together with facts that were shown on the way. *)
Definition with_facts (fs : list bool) (P : Run.state → Prop) (σ : Run.state)
  : Prop :=
  Forall (λ b, b = true) fs ∧ P σ.

(** ** The steps of a batch *)

(** Two trees read the same at every chain of subscripts that parts at a
    dictionary key from each of the chains [T]. *)
Definition same_off (T : list (list subscript)) (t1 t2 : pyvalue) : Prop :=
  ∀ q, Forall (diverge q) T → tree_get t1 q = tree_get t2 q.

(** The same for two values of the store: the same value, or the same
    exception. *)
Definition reads_same_off (T : list (list subscript)) (h : heap) (c1 c2 : val)
  : Prop :=
  ∀ q, Forall (diverge q) T →
    (∀ u, reads h c1 q u ↔ reads h c2 q u) ∧
    (∀ e, getpath h c1 q = Raise e ↔ getpath h c2 q = Raise e).

(** The batch has [n] entries, each of which differs from the next at most
    under the chains of [steps] at its position, and the last of which
    differs from [cfg] at most under [pend]. *)
Definition stepped (n : nat) (pend : list (list subscript))
    (steps : list (list (list subscript))) (σ : Run.state) : Prop :=
  ∃ t fp ts fps,
    repr (Run.store σ) t (Run.cfg σ) fp ∧
    repr_all (Run.store σ) ts (Run.cfgs σ) fps ∧ fp ## fps ∧
    length ts = n ∧ length steps = pred n ∧
    (∀ tl, last ts = Some tl → same_off pend tl t) ∧
    (∀ i T a b, steps !! i = Some T → ts !! i = Some a → ts !! S i = Some b →
                same_off T a b).

(** The chains assigned between the appends of [run_Entrainment.ipynb], and
    those of the two loops of [run_Entrainment-KC04.ipynb]. *)
Definition langmuir_method : list subscript :=
  at["cvmix"; "surface_layer"; "kpp"; "langmuir_method"].

Definition entrainment_steps : list (list (list subscript)) :=
  [[langmuir_method; at["turbulence"; "turb_method"]];
   [langmuir_method];
   [langmuir_method]].

Definition kc04_sweeps : list (nat * list subscript) :=
  [(0%nat, at["turbulence"; "my"; "e6"]);
   (1%nat, at["turbulence"; "my"; "e6"]);
   (2%nat, at["turbulence"; "my"; "e6"]);
   (4%nat, at["turbulence"; "generic"; "cpsi4"]);
   (5%nat, at["turbulence"; "generic"; "cpsi4"]);
   (6%nat, at["turbulence"; "generic"; "cpsi4"])].

(** ** More samples *)

(** The sample after [cfg['turbulence']['turb_method'] = 'cvmix']. *)
Definition sample_cvmix : Run.state :=
  match Run.cfg_set at["turbulence"; "turb_method"] (PStr "cvmix")
          Sample.configured with
  | Ok (_, σ) => σ
  | Raise _ => Run.initial
  end.

(** A [gotmtool] whose default configuration has no section [location]. *)
Definition bare_tool : gotmtool := {|
  Model_new := λ _ _, Ok [];
  Model_build := Ok tt;
  Model_init_config := Ok (PDict [(Key "title", PStr "")]);
  Model_run_batch := λ _ _ _ _, Ok [];
|}.

(** Hoare triples of statements that return. *)
Definition triple {S A} (P : S → Prop) (m : stx S A) (Q : A → S → Prop) : Prop :=
  ∀ σ a σ', P σ → m σ = Ok (a, σ') → Q a σ'.

(** * Properties *)

(** ** Formatting *)

Example format_e6 :
  format_f 1 <$> [1.0; 4.0; 6.0; 7.0]%float = ["1.0"; "4.0"; "6.0"; "7.0"].
Proof. vm_compute. reflexivity. Qed.

Example format_c4 :
  format_f 3 <$> [0.15; 0.3; 0.555; 1.2]%float
  = ["0.150"; "0.300"; "0.555"; "1.200"].
Proof. vm_compute. reflexivity. Qed.

Example format_ties_to_even :
  format_f 1 <$> [0.25; 0.75; 0.35; -0.05]%float = ["0.2"; "0.8"; "0.3"; "-0.1"].
Proof. vm_compute. reflexivity. Qed.

(** ** Statements *)

Lemma bind_Ok {S A B} (m : stx S A) (f : A → stx S B) σ b σ' :
  (m ≫= f) σ = Ok (b, σ') ↔ ∃ a σ1, m σ = Ok (a, σ1) ∧ f a σ1 = Ok (b, σ').
Proof.
  unfold mbind, stx_bind. split.
  - destruct (m σ) as [[a σ1]|e]; [eauto|discriminate].
  - intros (a & σ1 & -> & Hf). exact Hf.
Qed.

Lemma bind_step {S A B} (m : stx S A) (f : A → stx S B) σ a σ1 :
  m σ = Ok (a, σ1) → (m ≫= f) σ = f a σ1.
Proof. unfold mbind, stx_bind. by intros ->. Qed.

Lemma bind_Raise {S A B} (m : stx S A) (f : A → stx S B) σ e :
  m σ = Raise e → (m ≫= f) σ = Raise e.
Proof. unfold mbind, stx_bind. by intros ->. Qed.

Lemma triple_bind {S A B} (P : S → Prop) (Q : A → S → Prop) (R : B → S → Prop)
    (m : stx S A) (f : A → stx S B) :
  triple P m Q → (∀ a, triple (Q a) (f a) R) → triple P (m ≫= f) R.
Proof.
  intros Hm Hf σ b σ' HP (a & σ1 & H1 & H2)%bind_Ok.
  eapply Hf; [|exact H2]. eapply Hm; eauto.
Qed.

Lemma triple_ret {S A} (P : S → Prop) (a : A) :
  triple P (mret a) (λ _, P).
Proof. intros σ a' σ' HP Heq. injection Heq as _ <-. exact HP. Qed.

Lemma triple_weaken {S A} (P P' : S → Prop) (Q Q' : A → S → Prop) (m : stx S A) :
  triple P' m Q' → (∀ σ, P σ → P' σ) → (∀ a σ, Q' a σ → Q a σ) → triple P m Q.
Proof. intros Hm HP HQ σ a σ' Hσ Hr. eapply HQ, Hm; eauto. Qed.

Lemma triple_for_each {S A} (P : S → Prop) (xs : list A) (body : A → stx S unit) :
  (∀ x, x ∈ xs → triple P (body x) (λ _, P)) →
  triple P (for_each xs body) (λ _, P).
Proof.
  induction xs as [|x xs IH]; intros Hbody; simpl.
  - apply triple_ret.
  - eapply triple_bind.
    + apply Hbody. left.
    + intros []. apply IH. intros y Hy. apply Hbody. by right.
Qed.

(** ** The store *)

Lemma fresh_val_weaken n m n' m' v :
  (n' ≤ n)%nat → (m ≤ m')%nat → fresh_val n m v → fresh_val n' m' v.
Proof. intros Hn Hm Hv l ->. specialize (Hv l eq_refl). lia. Qed.

Lemma Forall_fresh_val_weaken n m n' m' vs :
  (n' ≤ n)%nat → (m ≤ m')%nat →
  Forall (fresh_val n m) vs → Forall (fresh_val n' m') vs.
Proof.
  intros Hn Hm Hvs. eapply Forall_impl; [done|].
  intros v. by apply fresh_val_weaken.
Qed.

Lemma dict_set_values k v (d : list (subscript * val)) v' :
  v' ∈ (dict_set k v d).*2 → v' = v ∨ v' ∈ d.*2.
Proof.
  induction d as [|[k0 v0] d IH]; simpl.
  - intros ->%list_elem_of_singleton. by left.
  - case_decide; simpl.
    + intros [->|Hin]%elem_of_cons; [by left|]. right. by right.
    + intros [->|Hin]%elem_of_cons; [right; by left|].
      destruct (IH Hin) as [->|?]; [by left|]. right. by right.
Qed.

Lemma list_insert_values (vs : list val) n v v' :
  v' ∈ <[n := v]> vs → v' = v ∨ v' ∈ vs.
Proof.
  intros (i & Hi)%list_elem_of_lookup.
  destruct (decide (n = i)) as [->|Hne].
  - destruct (decide (i < length vs)%nat).
    + rewrite list_lookup_insert_eq in Hi by done. left. congruence.
    + rewrite list_insert_ge in Hi by lia. right. by eapply list_elem_of_lookup_2.
  - rewrite list_lookup_insert_ne in Hi by done. right.
    by eapply list_elem_of_lookup_2.
Qed.

Lemma grows_refl h : grows h h.
Proof.
  split; [done|done|]. intros l o Hl Ho. apply lookup_lt_Some in Ho. lia.
Qed.

Lemma grows_trans h h1 h2 : grows h h1 → grows h1 h2 → grows h h2.
Proof.
  intros [L1 O1 N1] [L2 O2 N2]. split.
  - lia.
  - intros l Hl. rewrite O2 by lia. by apply O1.
  - intros l o Hl Ho. destruct (decide (l < length h1)%nat).
    + rewrite O2 in Ho by done.
      eapply Forall_fresh_val_weaken; [| |by eapply N1]; lia.
    + eapply Forall_fresh_val_weaken; [| |eapply N2; [|done]]; lia.
Qed.

(** Putting one more object at the end of the store. *)
Lemma grows_snoc h h1 o :
  grows h h1 →
  Forall (fresh_val (length h) (S (length h1))) (refs_of o) →
  grows h (h1 ++ [o]).
Proof.
  intros [L O N] Ho. split.
  - rewrite length_app. lia.
  - intros l Hl. rewrite lookup_app_l by lia. by apply O.
  - intros l o' Hl Hlook. rewrite length_app. simpl.
    replace (length h1 + 1)%nat with (S (length h1)) by lia.
    destruct (decide (l < length h1)%nat).
    + rewrite lookup_app_l in Hlook by done.
      eapply Forall_fresh_val_weaken; [| |by eapply N]; lia.
    + apply lookup_lt_Some in Hlook as Hlt. rewrite length_app in Hlt. simpl in Hlt.
      assert (l = length h1) as -> by lia.
      rewrite list_lookup_middle in Hlook by done. by injection Hlook as <-.
Qed.

Lemma grows_wf_heap h h' : wf_heap h → grows h h' → wf_heap h'.
Proof.
  intros Hwf [L O N] l o Ho. destruct (decide (l < length h)%nat).
  - rewrite O in Ho by done. eapply Forall_impl; [by eapply Hwf|].
    intros v Hv l' ->. specialize (Hv l' eq_refl). simpl in *. lia.
  - eapply Forall_impl; [eapply N; [|done]; lia|].
    intros v Hv l' ->. specialize (Hv l' eq_refl). lia.
Qed.

Lemma grows_wf_val h h' v : grows h h' → wf_val h v → wf_val h' v.
Proof. intros [L _ _] Hv l ->. specialize (Hv l eq_refl). lia. Qed.

Lemma fresh_wf_val n h v : fresh_val n (length h) v → wf_val h v.
Proof. intros Hv l ->. specialize (Hv l eq_refl). lia. Qed.

(** *** Reachability *)

Lemma reach_is_ref h v l : reach h v l → is_ref v.
Proof. induction 1 as [l ->|]; [by eexists|done]. Qed.

Lemma reach_trans h v l l' : reach h v l → reach h (VRef l) l' → reach h v l'.
Proof.
  intros Hv. induction 1 as [l0 [= <-]|l0 o l1 Hreach IH Ho Hin].
  - exact Hv.
  - by eapply reach_step.
Qed.

Lemma reach_lt h v l : wf_heap h → wf_val h v → reach h v l → (l < length h)%nat.
Proof.
  intros Hwf Hv. induction 1 as [l ->|l o l' Hreach IH Ho Hin].
  - by apply Hv.
  - specialize (Hwf l o Ho). rewrite Forall_forall in Hwf.
    by apply (Hwf _ Hin).
Qed.

Lemma unchanged_reach h h' v l : unchanged h h' v → reach h v l → reach h' v l.
Proof.
  intros Hun. induction 1 as [l ->|l o l' Hreach IH Ho Hin].
  - by constructor.
  - eapply reach_step; [by apply IH| |done].
    rewrite Hun; [done|]. done.
Qed.

Lemma unchanged_reach_inv h h' v l : unchanged h h' v → reach h' v l → reach h v l.
Proof.
  intros Hun. induction 1 as [l ->|l o l' Hreach IH Ho Hin].
  - by constructor.
  - eapply reach_step; [done| |done].
    rewrite <- Hun; done.
Qed.

Lemma unchanged_trans h1 h2 h3 v :
  unchanged h1 h2 v → unchanged h2 h3 v → unchanged h1 h3 v.
Proof.
  intros H12 H23 l Hl. rewrite H23; [by apply H12|].
  by eapply unchanged_reach.
Qed.

Lemma grows_unchanged h h' v : wf_heap h → wf_val h v → grows h h' → unchanged h h' v.
Proof.
  intros Hwf Hv [L O N] l Hl. apply O. by eapply reach_lt.
Qed.

(** What is reachable from a value of the added region lies in it. *)
Lemma grows_reach_fresh h h' v l :
  grows h h' → fresh_val (length h) (length h') v → reach h' v l →
  (length h ≤ l < length h')%nat.
Proof.
  intros [L O N] Hv. induction 1 as [l ->|l0 o l' Hreach IH Ho Hin].
  - by apply Hv.
  - specialize (N l0 o (proj1 IH) Ho).
    rewrite Forall_forall in N. exact (N _ Hin _ eq_refl).
Qed.

(** *** Literals *)

Section pyvalue_induction.
Variable P : pyvalue → Prop.
Hypothesis HNone : P PNone.
Hypothesis HBool : ∀ b, P (PBool b).
Hypothesis HInt : ∀ z, P (PInt z).
Hypothesis HFloat : ∀ x, P (PFloat x).
Hypothesis HStr : ∀ s, P (PStr s).
Hypothesis HDict : ∀ items, Forall (λ kt, P kt.2) items → P (PDict items).
Hypothesis HList : ∀ elems, Forall P elems → P (PList elems).

Fixpoint pyvalue_nested_ind (t : pyvalue) : P t :=
  match t with
  | PNone => HNone
  | PBool b => HBool b
  | PInt z => HInt z
  | PFloat x => HFloat x
  | PStr s => HStr s
  | PDict items =>
      HDict items
        ((fix go (its : list (subscript * pyvalue)) : Forall (λ kt, P kt.2) its :=
            match its with
            | [] => @List.Forall_nil _ (λ kt, P kt.2)
            | (k, t') :: r =>
                @List.Forall_cons _ (λ kt, P kt.2) (k, t') r
                  (pyvalue_nested_ind t') (go r)
            end) items)
  | PList elems =>
      HList elems
        ((fix go (es : list pyvalue) : Forall P es :=
            match es with
            | [] => @List.Forall_nil _ P
            | t' :: r => @List.Forall_cons _ P t' r (pyvalue_nested_ind t') (go r)
            end) elems)
  end.
End pyvalue_induction.

Lemma alloc_items_ok its :
  Forall (λ kt, alloc_ok kt.2) its →
  ∀ acc h d h' n0,
    alloc_items alloc its acc h = (d, h') →
    (n0 ≤ length h)%nat →
    Forall (fresh_val n0 (length h)) acc.*2 →
    grows h h' ∧ Forall (fresh_val n0 (length h')) d.*2.
Proof.
  induction 1 as [|[k t] its Ht Hits IH]; intros acc h d h' n0 Heq Hn Hacc;
    simpl in Heq.
  - injection Heq as <- <-. split; [apply grows_refl|done].
  - destruct (alloc t h) as [v h1] eqn:Hal.
    destruct (Ht _ _ _ Hal) as [Hg Hv]. simpl in *.
    destruct (IH _ _ _ _ n0 Heq) as [Hg' Hd].
    + pose proof (grows_length _ _ Hg). lia.
    + rewrite Forall_forall. intros v' [->|Hin]%dict_set_values.
      * eapply fresh_val_weaken; [| |done]; lia.
      * rewrite Forall_forall in Hacc.
        eapply fresh_val_weaken; [| |by apply Hacc]; [lia|].
        by apply grows_length.
    + split; [by eapply grows_trans|done].
Qed.

Lemma alloc_elems_ok es :
  Forall alloc_ok es →
  ∀ h vs h',
    alloc_elems alloc es h = (vs, h') →
    grows h h' ∧ Forall (fresh_val (length h) (length h')) vs.
Proof.
  induction 1 as [|t es Ht Hes IH]; intros h vs h' Heq; simpl in Heq.
  - injection Heq as <- <-. split; [apply grows_refl|done].
  - destruct (alloc t h) as [v h1] eqn:Hal.
    destruct (alloc_elems alloc es h1) as [vs' h2] eqn:Hes'.
    injection Heq as <- <-.
    destruct (Ht _ _ _ Hal) as [Hg Hv].
    destruct (IH _ _ _ Hes') as [Hg' Hvs].
    pose proof (grows_length _ _ Hg). pose proof (grows_length _ _ Hg').
    split; [by eapply grows_trans|]. constructor.
    + eapply fresh_val_weaken; [| |done]; lia.
    + eapply Forall_fresh_val_weaken; [| |done]; lia.
Qed.

Lemma alloc_grows t : alloc_ok t.
Proof.
  induction t as [| | | | |items IH|elems IH] using pyvalue_nested_ind;
    intros h v h' Heq; simpl in Heq;
    try (injection Heq as <- <-; split; [apply grows_refl|by intros l]).
  - destruct (alloc_items alloc items [] h) as [d h1] eqn:Hits.
    injection Heq as <- <-.
    destruct (alloc_items_ok _ IH _ _ _ _ (length h) Hits) as [Hg Hd]; [done|done|].
    pose proof (grows_length _ _ Hg).
    split.
    + apply grows_snoc; [done|]. simpl.
      eapply Forall_fresh_val_weaken; [| |done]; lia.
    + intros l [= <-]. rewrite length_app. simpl. lia.
  - destruct (alloc_elems alloc elems h) as [vs h1] eqn:Hes.
    injection Heq as <- <-.
    destruct (alloc_elems_ok _ IH _ _ _ Hes) as [Hg Hd].
    pose proof (grows_length _ _ Hg).
    split.
    + apply grows_snoc; [done|]. simpl.
      eapply Forall_fresh_val_weaken; [| |done]; lia.
    + intros l [= <-]. rewrite length_app. simpl. lia.
Qed.

(** *** [copy.deepcopy] *)

Lemma copy_vals_ok n0 rec :
  copy_ok n0 rec →
  ∀ vs memo h vs' memo' h',
    copy_state n0 memo h → copy_vals rec vs memo h = Ok (vs', memo', h') →
    copy_post n0 h memo' h' ∧ Forall (fresh_val n0 (length h')) vs'.
Proof.
  intros Hrec. induction vs as [|v vs IH]; intros memo h vs' memo' h' Hst Heq;
    simpl in Heq.
  - injection Heq as <- <- <-. split; [split; [done|split; [done|lia]]|done].
  - destruct (rec memo h v) as [[[v1 memo1] h1]|] eqn:Hv; simpl in Heq; [|done].
    destruct (copy_vals rec vs memo1 h1) as [[[vs2 memo2] h2]|] eqn:Hvs;
      simpl in Heq; [|done].
    injection Heq as <- <- <-.
    destruct (Hrec _ _ _ _ _ _ Hst Hv) as ((Hst1 & Htake1 & Hlen1) & Hv1 & _).
    destruct (IH _ _ _ _ _ Hst1 Hvs) as ((Hst2 & Htake2 & Hlen2) & Hvs2).
    split; [split; [done|split; [congruence|lia]]|].
    constructor; [|done]. eapply fresh_val_weaken; [| |done]; lia.
Qed.

Lemma copy_state_register n0 memo h l o :
  refs_of o = [] → copy_state n0 memo h →
  copy_state n0 (<[l := length h]> memo) (h ++ [o]).
Proof.
  intros Ho (Hn & Hmemo & Hclosed). unfold copy_state. rewrite length_app. simpl.
  split; [lia|split].
  - intros l0 l' [[-> <-]|[_ Hl]]%lookup_insert_Some; [lia|].
    specialize (Hmemo _ _ Hl). lia.
  - intros l0 o' Hl0 Hlook. destruct (decide (l0 < length h)%nat).
    + rewrite lookup_app_l in Hlook by done.
      eapply Forall_fresh_val_weaken; [| |by eapply Hclosed]; lia.
    + apply lookup_lt_Some in Hlook as Hlt. rewrite length_app in Hlt.
      simpl in Hlt. assert (l0 = length h) as -> by lia.
      rewrite list_lookup_middle in Hlook by done. injection Hlook as <-.
      by rewrite Ho.
Qed.

Lemma copy_state_fill n0 memo h l o :
  (n0 ≤ l)%nat → Forall (fresh_val n0 (length h)) (refs_of o) →
  copy_state n0 memo h → copy_state n0 memo (<[l := o]> h).
Proof.
  intros Hl Ho (Hn & Hmemo & Hclosed). unfold copy_state. rewrite length_insert.
  split; [done|split; [done|]].
  intros l0 o' Hl0 [[-> [<- _]]|[_ Hlook]]%list_lookup_insert_Some; [done|].
  by eapply Hclosed.
Qed.

Lemma zip_values_subset {A B} (ks : list A) (vs : list B) v :
  v ∈ (zip ks vs).*2 → v ∈ vs.
Proof.
  intros ([k v'] & -> & Hin)%list_elem_of_fmap. by eapply elem_of_zip_r.
Qed.

Lemma deepcopy_rec_ok n0 fuel : copy_ok n0 (deepcopy_rec fuel).
Proof.
  induction fuel as [|fuel IH]; intros memo h v v' memo' h' Hst Heq;
    (destruct v as [| | | | |l];
     [ injection Heq as <- <- <-;
       (split; [split; [done|split; [done|lia]]|split; [by intros ?|done]]) ..
     | ]);
    simpl in Heq;
    (destruct (memo !! l) as [l'|] eqn:Hmemo;
     [ injection Heq as <- <- <-;
       split; [split; [done|split; [done|lia]]|split; [|by eexists]];
       intros ? [= <-]; by apply (proj1 (proj2 Hst) l) |]).
  - done.
  - destruct (h !! l) as [[d|es]|] eqn:Hobj; [| |done].
    + destruct (copy_vals (deepcopy_rec fuel) d.*2 (<[l:=length h]> memo)
                  (h ++ [ODict []])) as [[[vs memo1] h1]|] eqn:Hvs;
        simpl in Heq; [|done].
      injection Heq as <- <- <-.
      destruct (copy_vals_ok _ _ IH _ _ _ _ _ _
                  (copy_state_register n0 memo h l (ODict []) eq_refl Hst) Hvs)
        as ((Hst1 & Htake1 & Hlen1) & Hvs1).
      rewrite length_app in Hlen1. simpl in Hlen1. destruct Hst as (Hn & ? & ?).
      unfold copy_post. rewrite !length_insert. split; [split; [|split]|split].
      * apply copy_state_fill; [done| |done]. simpl.
        rewrite Forall_forall. intros v Hv%zip_values_subset.
        rewrite Forall_forall in Hvs1. by apply Hvs1.
      * rewrite take_insert_ge by done. rewrite Htake1.
        by rewrite take_app_le.
      * lia.
      * intros ? [= <-]. lia.
      * by eexists.
    + destruct (copy_vals (deepcopy_rec fuel) es (<[l:=length h]> memo)
                  (h ++ [OList []])) as [[[vs memo1] h1]|] eqn:Hvs;
        simpl in Heq; [|done].
      injection Heq as <- <- <-.
      destruct (copy_vals_ok _ _ IH _ _ _ _ _ _
                  (copy_state_register n0 memo h l (OList []) eq_refl Hst) Hvs)
        as ((Hst1 & Htake1 & Hlen1) & Hvs1).
      rewrite length_app in Hlen1. simpl in Hlen1. destruct Hst as (Hn & ? & ?).
      unfold copy_post. rewrite !length_insert. split; [split; [|split]|split].
      * apply copy_state_fill; [done|done|done].
      * rewrite take_insert_ge by done. rewrite Htake1.
        by rewrite take_app_le.
      * lia.
      * intros ? [= <-]. lia.
      * by eexists.
Qed.

(** The copy is made of new objects only, and the objects of the original
    stay as they are. *)
Lemma deepcopy_grows h v c h' :
  deepcopy h v = Ok (c, h') →
  grows h h' ∧ fresh_val (length h) (length h') c ∧ (is_ref v → is_ref c).
Proof.
  unfold deepcopy. intros Heq.
  destruct (deepcopy_rec (S (length h)) ∅ h v) as [[[v' memo'] h1]|] eqn:Hrec;
    simpl in Heq; [|done].
  injection Heq as <- <-.
  assert (copy_state (length h) ∅ h) as Hst.
  { split; [lia|split].
    - intros l l' Hl. by rewrite lookup_empty in Hl.
    - intros l o Hl Ho%lookup_lt_Some. lia. }
  destruct (deepcopy_rec_ok _ _ _ _ _ _ _ _ Hst Hrec)
    as (((Hn & Hmemo & Hclosed) & Htake & Hlen) & Hv & Href).
  split; [|done]. split; [done| |done].
  intros l Hl. rewrite (take_ge h) in Htake by lia.
  rewrite <- Htake. by rewrite lookup_take_lt.
Qed.

(** *** Subscripts *)

Lemma dict_get_values {V} k (d : list (subscript * V)) v :
  dict_get k d = Some v → v ∈ d.*2.
Proof.
  induction d as [|[k0 v0] d IH]; simpl; [done|].
  case_decide.
  - intros [= ->]. left.
  - intros Hget. right. by apply IH.
Qed.

Lemma list_getitem_elem_of {A} (l : list A) i x :
  list_getitem l i = Some x → x ∈ l.
Proof.
  unfold list_getitem. destruct (py_index i (length l)) as [n|]; simpl; [|done].
  apply list_elem_of_lookup_2.
Qed.

(** An object that is read from a container is an item of a dictionary or
    list; reading a string gives a string. *)
Lemma getitem_ref h c s l :
  getitem h c s = Ok (VRef l) →
  ∃ lc o, c = VRef lc ∧ h !! lc = Some o ∧ VRef l ∈ refs_of o.
Proof.
  unfold getitem. destruct c as [| | | |str|lc]; try done.
  - destruct s as [k|i]; [done|]. by destruct (str_getitem str i).
  - destruct (h !! lc) as [[d|vs]|] eqn:Hobj; [| |done].
    + destruct (dict_get s d) as [v0|] eqn:Hget; [|done]. intros [= ->].
      exists lc, (ODict d). split_and!; [done..|]. by eapply dict_get_values.
    + destruct s as [k|i]; [done|].
      destruct (list_getitem vs i) as [v0|] eqn:Hget; [|done]. intros [= ->].
      exists lc, (OList vs). split_and!; [done..|]. by eapply list_getitem_elem_of.
Qed.

Lemma getpath_reach h root path v l :
  getpath h root path = Ok v → v = VRef l → reach h root l.
Proof.
  revert root. induction path as [|s path IH]; intros root; simpl.
  - intros [= ->] ->. by constructor.
  - destruct (getitem h root s) as [w|] eqn:Hget; simpl; [|done].
    intros Hpath ->. specialize (IH _ Hpath eq_refl).
    destruct (reach_is_ref _ _ _ IH) as [lw ->].
    destruct (getitem_ref _ _ _ _ Hget) as (lc & o & -> & Ho & Hin).
    eapply reach_trans; [|done]. eapply reach_step; [by constructor|done|done].
Qed.

Lemma setitem_store h c s v h' :
  setitem h c s v = Ok h' →
  ∃ lc o o', c = VRef lc ∧ h !! lc = Some o ∧ h' = <[lc := o']> h ∧
    ∀ v', v' ∈ refs_of o' → v' = v ∨ v' ∈ refs_of o.
Proof.
  unfold setitem. destruct c as [| | | | |lc]; try done.
  destruct (h !! lc) as [[d|vs]|] eqn:Hobj; [|destruct s as [k|i]|]; try done.
  - intros [= <-]. exists lc, (ODict d), (ODict (dict_set s v d)).
    split_and!; [done..|]. simpl. apply dict_set_values.
  - destruct (py_index i (length vs)) as [n|]; [|done]. intros [= <-].
    exists lc, (OList vs), (OList (<[n := v]> vs)).
    split_and!; [done..|]. simpl. apply list_insert_values.
Qed.

Lemma wf_heap_insert h l o :
  wf_heap h → Forall (wf_val h) (refs_of o) → wf_heap (<[l := o]> h).
Proof.
  intros Hwf Ho l0 o0 [[-> [<- _]]|[_ Hlook]]%list_lookup_insert_Some.
  - eapply Forall_impl; [done|]. intros v Hv l' ->. rewrite length_insert.
    by apply Hv.
  - eapply Forall_impl; [by eapply Hwf|]. intros v Hv l' ->.
    rewrite length_insert. by apply Hv.
Qed.

(** After [h1[lc] = o'], where [o'] holds the items of [o] and the new value
    [v], whatever is reachable from [root] was reachable before or is part
    of the new value. *)
Lemma reach_after_store h h1 lc o o' v root l :
  wf_heap h → wf_val h root → grows h h1 →
  h1 !! lc = Some o → reach h1 root lc →
  (∀ v', v' ∈ refs_of o' → v' = v ∨ v' ∈ refs_of o) →
  fresh_val (length h) (length h1) v →
  reach (<[lc := o']> h1) root l →
  reach h1 root l ∨ (length h ≤ l < length h1)%nat.
Proof.
  intros Hwf Hroot Hg Ho Hlc Hsub Hv.
  assert (lc < length h)%nat as Hlt.
  { eapply reach_lt; [done..|]. eapply unchanged_reach_inv; [|done].
    by apply grows_unchanged. }
  induction 1 as [l ->|l o2 l' Hreach IH Ho2 Hin].
  - left. by constructor.
  - destruct IH as [IH|IH].
    + destruct (decide (l = lc)) as [->|Hne].
      * rewrite list_lookup_insert_eq in Ho2 by (by eapply lookup_lt_Some).
        injection Ho2 as <-.
        destruct (Hsub _ Hin) as [<-|Hold].
        -- right. exact (Hv _ eq_refl).
        -- left. by eapply reach_step.
      * rewrite list_lookup_insert_ne in Ho2 by done.
        left. by eapply reach_step.
    + rewrite list_lookup_insert_ne in Ho2 by lia.
      right. pose proof (grows_new _ _ Hg l o2 (proj1 IH) Ho2) as Hnew.
      rewrite Forall_forall in Hnew. exact (Hnew _ Hin _ eq_refl).
Qed.

(** *** Isolation *)

Lemma isolated_nil h root : isolated h root [].
Proof.
  split.
  - intros c l Hc. by apply elem_of_nil in Hc.
  - intros i j ci cj l _ Hi. by rewrite lookup_nil in Hi.
Qed.

(** Isolation only depends on what is reachable. *)
Lemma isolated_same_reach h h' root root' entries :
  (∀ c l, c ∈ entries → reach h' c l → reach h c l) →
  (∀ c l, c ∈ entries → reach h' root' l → reach h c l → reach h root l) →
  isolated h root entries → isolated h' root' entries.
Proof.
  intros Hentries Hroot [H1 H2]. split.
  - intros c l Hc Hreach Hr. eapply H1; [done|by eapply Hentries|].
    eapply Hroot; [done|done|]. by eapply Hentries.
  - intros i j ci cj l Hij Hi Hj Hri Hrj.
    eapply H2; [done|done|done| |].
    + eapply Hentries; [|done]. by eapply list_elem_of_lookup_2.
    + eapply Hentries; [|done]. by eapply list_elem_of_lookup_2.
Qed.

Lemma isolated_snoc h root entries c :
  (∀ l, reach h c l → ¬ reach h root l) →
  (∀ c' l, c' ∈ entries → reach h c l → ¬ reach h c' l) →
  isolated h root entries → isolated h root (entries ++ [c]).
Proof.
  intros Hroot Hothers [H1 H2]. split.
  - intros c' l [Hc'| ->%list_elem_of_singleton]%elem_of_app.
    + by apply H1.
    + apply Hroot.
  - intros i j ci cj l Hij Hi Hj Hri Hrj.
    apply lookup_app_Some in Hi as [Hi|[Hi1 Hi2]];
      apply lookup_app_Some in Hj as [Hj|[Hj1 Hj2]].
    + by eapply H2.
    + apply list_lookup_singleton_Some in Hj2 as [_ <-].
      apply (Hothers ci l); [|exact Hrj|exact Hri].
      by eapply list_elem_of_lookup_2.
    + apply list_lookup_singleton_Some in Hi2 as [_ <-].
      apply (Hothers cj l); [|exact Hri|exact Hrj].
      by eapply list_elem_of_lookup_2.
    + apply list_lookup_singleton_Some in Hi2 as [Hi2 _].
      apply list_lookup_singleton_Some in Hj2 as [Hj2 _]. lia.
Qed.

(** ** Statements of the run notebooks *)

Import Run.

Lemma cfg_setitem_spec path k rhs σ σ' :
  inv σ → cfg_setitem path k rhs σ = Ok (tt, σ') →
  inv σ' ∧ is_ref (cfg σ') ∧ same_vars σ σ' ∧ cfgs σ' = cfgs σ ∧
  ∀ c, c ∈ cfgs σ → unchanged (store σ) (store σ') c.
Proof.
  intros (Hwf & Hcfg & Hcfgs & Hiso) Heq. unfold cfg_setitem in Heq.
  destruct (alloc rhs (store σ)) as [v h1] eqn:Hal.
  destruct (alloc_grows rhs _ _ _ Hal) as [Hg Hv].
  destruct (getpath h1 (cfg σ) path) as [container|] eqn:Hpath; simpl in Heq; [|done].
  destruct (setitem h1 container k v) as [h2|] eqn:Hset; simpl in Heq; [|done].
  injection Heq as <-.
  destruct (setitem_store _ _ _ _ _ Hset) as (lc & o & o' & -> & Ho & -> & Hsub).
  pose proof (getpath_reach _ _ _ _ _ Hpath eq_refl) as Hlc.
  pose proof (grows_unchanged _ _ _ Hwf Hcfg Hg) as Hun_cfg.
  assert (reach (store σ) (cfg σ) lc) as Hlc0 by by eapply unchanged_reach_inv.
  assert (∀ c, c ∈ cfgs σ → unchanged (store σ) (<[lc:=o']> h1) c) as Hun.
  { intros c Hc l Hl. rewrite Forall_forall in Hcfgs.
    pose proof (reach_lt _ _ _ Hwf (Hcfgs _ Hc) Hl).
    rewrite list_lookup_insert_ne; [by apply grows_old|].
    intros <-. by eapply (proj1 Hiso). }
  pose proof (grows_wf_heap _ _ Hwf Hg) as Hwf1.
  simpl. split; [|split; [by eapply reach_is_ref|done]].
  split; [|split; [|split]]; simpl.
  - apply wf_heap_insert; [done|]. rewrite Forall_forall. intros v' Hv'.
    destruct (Hsub _ Hv') as [->|Hold].
    + by eapply fresh_wf_val.
    + specialize (Hwf1 _ _ Ho). rewrite Forall_forall in Hwf1. by apply Hwf1.
  - intros l Hl. rewrite length_insert. by eapply grows_wf_val.
  - eapply Forall_impl; [done|]. intros c Hc l Hl. rewrite length_insert.
    by eapply grows_wf_val.
  - eapply isolated_same_reach; [| |done].
    + intros c l Hc. apply unchanged_reach_inv. by apply Hun.
    + intros c l Hc Hroot Hreach. rewrite Forall_forall in Hcfgs.
      pose proof (reach_lt _ _ _ Hwf (Hcfgs _ Hc) Hreach).
      destruct (reach_after_store _ _ _ _ _ _ _ _ Hwf Hcfg Hg Ho Hlc Hsub Hv Hroot)
        as [Hold|Hnew]; [|lia].
      by eapply unchanged_reach_inv.
Qed.

Lemma cfg_set_spec target rhs σ σ' :
  inv σ → cfg_set target rhs σ = Ok (tt, σ') →
  inv σ' ∧ is_ref (cfg σ') ∧ same_vars σ σ' ∧ cfgs σ' = cfgs σ ∧
  ∀ c, c ∈ cfgs σ → unchanged (store σ) (store σ') c.
Proof.
  unfold cfg_set. destruct (split_last target) as [[path k]|]; [|done].
  apply cfg_setitem_spec.
Qed.

(** *** [copy.deepcopy] returns *)

Lemma unseen_mono n0 (memo memo' : gmap loc loc) :
  dom memo ⊆ dom memo' → (unseen n0 memo' ≤ unseen n0 memo)%nat.
Proof. intros Hsub. apply subseteq_size. set_solver. Qed.

Lemma unseen_register n0 (memo : gmap loc loc) l l' :
  (l < n0)%nat → memo !! l = None →
  (unseen n0 (<[l := l']> memo) < unseen n0 memo)%nat.
Proof.
  intros Hl Hmemo. apply subset_size. rewrite dom_insert_L.
  apply not_elem_of_dom in Hmemo.
  assert (l ∈ (set_seq 0 n0 : gset nat)) by (apply elem_of_set_seq; lia).
  set_solver.
Qed.

Lemma copy_source_keep n0 h h' :
  copy_source n0 h → take n0 h' = take n0 h → (length h ≤ length h')%nat →
  copy_source n0 h'.
Proof.
  intros [Hn Hsrc] Htake Hlen. split; [lia|]. intros l o Hl Ho.
  apply (Hsrc l o Hl). by rewrite <- (lookup_take_lt h n0 l), <- Htake, lookup_take_lt.
Qed.

Lemma copy_vals_returns n0 fuel rec :
  copy_returns n0 fuel rec →
  ∀ vs memo h,
    copy_source n0 h → Forall (fresh_val 0 n0) vs → (unseen n0 memo ≤ fuel)%nat →
    ∃ vs' memo' h',
      copy_vals rec vs memo h = Ok (vs', memo', h') ∧ dom memo ⊆ dom memo' ∧
      take n0 h' = take n0 h ∧ (length h ≤ length h')%nat.
Proof.
  intros Hrec. induction vs as [|v vs IH]; intros memo h Hsrc Hvs Hfuel; simpl.
  - by exists [], memo, h.
  - apply Forall_cons in Hvs as [Hv Hvs].
    destruct (Hrec memo h v Hsrc Hv Hfuel) as (v' & memo1 & h1 & -> & Hm1 & Ht1 & Hl1).
    destruct (IH memo1 h1) as (vs' & memo2 & h2 & Hgo & Hm2 & Ht2 & Hl2).
    { by eapply copy_source_keep. }
    { done. }
    { pose proof (unseen_mono n0 _ _ Hm1). lia. }
    simpl. rewrite Hgo. simpl. exists (v' :: vs'), memo2, h2.
    split; [done|]. split; [set_solver|]. split; [congruence|lia].
Qed.

Lemma deepcopy_rec_returns n0 fuel : copy_returns n0 fuel (deepcopy_rec fuel).
Proof.
  induction fuel as [|fuel IH]; intros memo h v Hsrc Hv Hfuel;
    (destruct v as [| | | | |l]; [by eexists _, memo, h ..|]); simpl;
    (destruct (memo !! l) as [l'|] eqn:Hmemo; [by eexists _, memo, h|]);
    pose proof (Hv l eq_refl) as [_ Hl];
    pose proof (unseen_register n0 memo l (length h) Hl Hmemo) as Hless.
  - lia.
  - destruct Hsrc as [Hn Hsrc].
    destruct (lookup_lt_is_Some_2 h l) as [o Ho]; [lia|]. rewrite Ho.
    assert (copy_source n0 (h ++ [match o with ODict _ => ODict [] | OList _ => OList [] end]))
      as Hsrc1.
    { apply (copy_source_keep n0 h); [done| |rewrite length_app; lia].
      by rewrite take_app_le. }
    pose proof (Hsrc l o Hl Ho) as Hrefs.
    destruct o as [d|es]; simpl in Hrefs.
    + destruct (copy_vals_returns n0 fuel _ IH d.*2 (<[l := length h]> memo)
                  (h ++ [ODict []]) Hsrc1 Hrefs)
        as (vs & memo1 & h1 & -> & Hm1 & Ht1 & Hl1); [lia|].
      simpl. eexists _, _, _. split; [done|].
      rewrite length_app in Hl1. simpl in Hl1.
      split; [rewrite dom_insert_L in Hm1; set_solver|]. split.
      * rewrite take_insert_ge by done. rewrite Ht1. by rewrite take_app_le.
      * rewrite length_insert. lia.
    + destruct (copy_vals_returns n0 fuel _ IH es (<[l := length h]> memo)
                  (h ++ [OList []]) Hsrc1 Hrefs)
        as (vs & memo1 & h1 & -> & Hm1 & Ht1 & Hl1); [lia|].
      simpl. eexists _, _, _. split; [done|].
      rewrite length_app in Hl1. simpl in Hl1.
      split; [rewrite dom_insert_L in Hm1; set_solver|]. split.
      * rewrite take_insert_ge by done. rewrite Ht1. by rewrite take_app_le.
      * rewrite length_insert. lia.
Qed.

(** [copy.deepcopy] returns on every value of a well-formed store. *)
Lemma deepcopy_returns h v : wf_heap h → wf_val h v → is_Ok (deepcopy h v).
Proof.
  intros Hwf Hv. unfold deepcopy.
  destruct (deepcopy_rec_returns (length h) (S (length h)) ∅ h v)
    as (v' & memo' & h' & -> & _).
  - split; [done|]. intros l o _ Ho. eapply Forall_impl; [by eapply Hwf|].
    intros w Hw l' ->. specialize (Hw l' eq_refl). lia.
  - intros l ->. specialize (Hv l eq_refl). lia.
  - unfold unseen. rewrite dom_empty_L.
    etrans; [apply subseteq_size, (subseteq_difference_l _ _ _ (reflexivity _))|].
    rewrite size_set_seq. lia.
  - by eexists.
Qed.

Lemma cfgs_append_deepcopy_spec σ σ' :
  inv σ → cfgs_append_deepcopy σ = Ok (tt, σ') →
  inv σ' ∧ same_vars σ σ' ∧
  (∃ c, cfgs σ' = cfgs σ ++ [c] ∧ (is_ref (cfg σ) → is_ref c)) ∧
  ∀ c, c ∈ cfgs σ → unchanged (store σ) (store σ') c.
Proof.
  intros (Hwf & Hcfg & Hcfgs & Hiso) Heq. unfold cfgs_append_deepcopy in Heq.
  destruct (deepcopy (store σ) (cfg σ)) as [[c h']|] eqn:Hcopy; simpl in Heq; [|done].
  injection Heq as <-.
  destruct (deepcopy_grows _ _ _ _ Hcopy) as (Hg & Hc & Href).
  assert (∀ c', c' ∈ cfgs σ → unchanged (store σ) h' c') as Hun.
  { intros c' Hc'. rewrite Forall_forall in Hcfgs. by apply grows_unchanged; auto. }
  pose proof (grows_unchanged _ _ _ Hwf Hcfg Hg) as Hun_cfg.
  simpl. split; [|split; [done|split; [by exists c|done]]].
  split; [|split; [|split]]; simpl.
  - by eapply grows_wf_heap.
  - by eapply grows_wf_val.
  - apply Forall_app. split.
    + eapply Forall_impl; [done|]. intros c' Hc'. by eapply grows_wf_val.
    + constructor; [|done]. by eapply fresh_wf_val.
  - apply isolated_snoc.
    + intros l Hl Hroot.
      pose proof (grows_reach_fresh _ _ _ _ Hg Hc Hl).
      pose proof (reach_lt _ _ _ Hwf Hcfg (unchanged_reach_inv _ _ _ _ Hun_cfg Hroot)).
      lia.
    + intros c' l Hc' Hl Hl'. rewrite Forall_forall in Hcfgs.
      pose proof (grows_reach_fresh _ _ _ _ Hg Hc Hl).
      pose proof (reach_lt _ _ _ Hwf (Hcfgs _ Hc')
                    (unchanged_reach_inv _ _ _ _ (Hun _ Hc') Hl')).
      lia.
    + eapply isolated_same_reach; [| |done].
      * intros c' l Hc'. apply unchanged_reach_inv. by apply Hun.
      * intros c' l Hc' Hroot _. by eapply unchanged_reach_inv.
Qed.

(** The append returns in every state of a run notebook. *)
Lemma cfgs_append_deepcopy_returns σ : inv σ → ∃ σ', cfgs_append_deepcopy σ = Ok (tt, σ').
Proof.
  intros (Hwf & Hcfg & _). unfold cfgs_append_deepcopy.
  destruct (deepcopy_returns _ _ Hwf Hcfg) as [[c h'] ->]. by eexists.
Qed.

Lemma init_config_spec G σ σ' :
  inv σ → init_config G σ = Ok (tt, σ') →
  inv σ' ∧ cfgs σ' = cfgs σ ∧ labels σ' = labels σ ∧
  calls σ' = calls σ ++ [CallInitConfig] ∧ environ σ' = environ σ.
Proof.
  intros (Hwf & Hcfg & Hcfgs & Hiso) Heq. unfold init_config in Heq.
  destruct (Model_init_config G) as [t|]; simpl in Heq; [|done].
  destruct (alloc t (store σ)) as [c h'] eqn:Hal.
  injection Heq as <-.
  destruct (alloc_grows t _ _ _ Hal) as [Hg Hc].
  simpl. split; [|done].
  assert (∀ c', c' ∈ cfgs σ → unchanged (store σ) h' c') as Hun.
  { intros c' Hc'. rewrite Forall_forall in Hcfgs. by apply grows_unchanged; auto. }
  split; [|split; [|split]]; simpl.
  - by eapply grows_wf_heap.
  - by eapply fresh_wf_val.
  - eapply Forall_impl; [done|]. intros c' Hc'. by eapply grows_wf_val.
  - destruct Hiso as [_ H2]. split.
    + intros c' l Hc' Hl Hroot. rewrite Forall_forall in Hcfgs.
      pose proof (grows_reach_fresh _ _ _ _ Hg Hc Hroot).
      pose proof (reach_lt _ _ _ Hwf (Hcfgs _ Hc')
                    (unchanged_reach_inv _ _ _ _ (Hun _ Hc') Hl)).
      lia.
    + intros i j ci cj l Hij Hi Hj Hri Hrj.
      eapply (H2 i j ci cj l); [done..| |].
      * eapply unchanged_reach_inv; [|done]. apply Hun.
        by eapply list_elem_of_lookup_2.
      * eapply unchanged_reach_inv; [|done]. apply Hun.
        by eapply list_elem_of_lookup_2.
Qed.

(** ** Assembling a batch *)

Lemma batch0_initial : batch0 0 [] [] initial.
Proof.
  split; [|done]. split; [|split; [|split]]; simpl.
  - intros l o Hl. by rewrite lookup_nil in Hl.
  - by intros l.
  - done.
  - apply isolated_nil.
Qed.

Lemma batch0_cfg_set n ls cs target rhs :
  triple (batch0 n ls cs) (cfg_set target rhs) (λ _, batch n ls cs).
Proof.
  intros σ [] σ' (Hinv & Hrefs & Hn & Hls & Hcs) Heq.
  destruct (cfg_set_spec _ _ _ _ Hinv Heq)
    as (Hinv' & Href & (_ & Hl & Hc & _) & Hcfgs & _).
  split; [|done]. unfold batch0. rewrite Hcfgs, Hl, Hc. done.
Qed.

Lemma batch_cfg_set n ls cs target rhs :
  triple (batch n ls cs) (cfg_set target rhs) (λ _, batch n ls cs).
Proof.
  eapply triple_weaken; [apply batch0_cfg_set|by intros σ [? _]|done].
Qed.

Lemma batch_append n ls cs :
  triple (batch n ls cs) cfgs_append_deepcopy (λ _, batch (S n) ls cs).
Proof.
  intros σ [] σ' ((Hinv & Hrefs & Hn & Hls & Hcs) & Href) Heq.
  destruct (cfgs_append_deepcopy_spec _ _ Hinv Heq)
    as (Hinv' & (Hcfg & Hl & Hc & _) & (c & Hcfgs & Hc') & _).
  split; [|by rewrite Hcfg]. unfold batch0. rewrite Hcfgs, Hl, Hc.
  split_and!; [done| |rewrite length_app; simpl; lia|done|done].
  apply Forall_app. split; [done|]. constructor; [by apply Hc'|done].
Qed.

Lemma batch_labels_append n ls cs s :
  triple (batch n ls cs) (labels_append s) (λ _, batch n (ls ++ [s]) cs).
Proof.
  intros σ [] σ' ((Hinv & Hrefs & Hn & Hls & Hcs) & Href) [= <-].
  split; [|done]. unfold batch0. simpl. by rewrite Hls.
Qed.

Lemma batch0_cfgs_reset n ls cs :
  triple (batch0 n ls cs) cfgs_reset (λ _, batch0 0 ls cs).
Proof.
  intros σ [] σ' ((Hwf & Hcfg & Hcfgs & Hiso) & Hrefs & Hn & Hls & Hcs) [= <-].
  unfold batch0, inv. simpl. split_and!; try done. apply isolated_nil.
Qed.

Lemma batch_cfgs_reset n ls cs :
  triple (batch n ls cs) cfgs_reset (λ _, batch 0 ls cs).
Proof.
  intros σ [] σ' [H0 Href] Heq. split; [by eapply batch0_cfgs_reset|].
  by injection Heq as <-.
Qed.

Lemma batch_labels_reset n ls cs :
  triple (batch n ls cs) labels_reset (λ _, batch n [] cs).
Proof.
  intros σ [] σ' ((Hinv & Hrefs & Hn & Hls & Hcs) & Href) [= <-].
  split; [|done]. by unfold batch0.
Qed.

Lemma batch_environ_get n ls cs k :
  triple (batch n ls cs) (environ_get k) (λ _, batch n ls cs).
Proof.
  intros σ v σ' Hb. unfold environ_get.
  destruct (dict_get k (environ σ)); [|done]. by intros [= _ <-].
Qed.

Section calls.
Variable G : gotmtool.

Lemma batch0_Model n ls cs name env_file :
  triple (batch0 n ls cs) (Model G name env_file)
    (λ _, batch0 n ls (cs ++ [CallModel name env_file])).
Proof.
  intros σ [] σ' (Hinv & Hrefs & Hn & Hls & Hcs). unfold Model.
  destruct (Model_new G name env_file); simpl; [|done]. intros [= <-].
  unfold batch0. simpl. by rewrite Hcs.
Qed.

Lemma batch0_build n ls cs :
  triple (batch0 n ls cs) (time_magic (build G))
    (λ _, batch0 n ls (cs ++ [CallBuild])).
Proof.
  intros σ [] σ' (Hinv & Hrefs & Hn & Hls & Hcs). unfold time_magic, build.
  destruct (Model_build G); intros [= <-]; unfold batch0; simpl; by rewrite Hcs.
Qed.

Lemma batch0_init_config n ls cs :
  triple (batch0 n ls cs) (init_config G)
    (λ _, batch0 n ls (cs ++ [CallInitConfig])).
Proof.
  intros σ [] σ' (Hinv & Hrefs & Hn & Hls & Hcs) Heq.
  destruct (init_config_spec _ _ _ Hinv Heq) as (Hinv' & Hcfgs & Hl & Hc & _).
  unfold batch0. rewrite Hcfgs, Hl, Hc, Hcs. done.
Qed.

Lemma batch_run_batch n ls cs nproc :
  triple (batch n ls cs) (time_magic (run_batch G nproc))
    (λ _ σ, batch n ls (cs ++ [CallRunBatch (cfgs σ) ls nproc]) σ).
Proof.
  intros σ [] σ' ((Hinv & Hrefs & Hn & Hls & Hcs) & Href).
  unfold time_magic, run_batch.
  destruct (Model_run_batch G _ _ _ _); intros [= <-];
    (split; [|done]); unfold batch0; simpl; by rewrite Hcs, Hls.
Qed.
End calls.

Lemma triple_for_each_cons {S A} (P Q R : S → Prop) (x : A) xs
    (body : A → stx S unit) :
  triple P (body x) (λ _, Q) → triple Q (for_each xs body) (λ _, R) →
  triple P (for_each (x :: xs) body) (λ _, R).
Proof. intros Hx Hxs. simpl. eapply triple_bind; [exact Hx|by intros []]. Qed.

Lemma triple_for_each_nil {S A} (P : S → Prop) (body : A → stx S unit) :
  triple P (for_each [] body) (λ _, P).
Proof. apply triple_ret. Qed.

(** Running a cell statement by statement. *)
Ltac run_cell :=
  cbv beta zeta;
  lazymatch goal with
  | |- triple _ (_ ≫= _) _ => eapply triple_bind; [run_cell|intros ?; run_cell]
  | |- triple _ (for_each (_ :: _) _) _ =>
      eapply triple_for_each_cons; [run_cell|run_cell]
  | |- triple _ (for_each [] _) _ => apply triple_for_each_nil
  | |- triple (batch0 _ _ _) (cfg_set _ _) _ => apply batch0_cfg_set
  | |- triple (batch _ _ _) (cfg_set _ _) _ => apply batch_cfg_set
  | |- triple _ cfgs_append_deepcopy _ => apply batch_append
  | |- triple _ (labels_append _) _ => apply batch_labels_append
  | |- triple (batch0 _ _ _) cfgs_reset _ => apply batch0_cfgs_reset
  | |- triple (batch _ _ _) cfgs_reset _ => apply batch_cfgs_reset
  | |- triple _ labels_reset _ => apply batch_labels_reset
  | |- triple _ (environ_get _) _ => apply batch_environ_get
  | |- triple _ (Model _ _ _) _ => apply batch0_Model
  | |- triple _ (time_magic (build _)) _ => apply batch0_build
  | |- triple _ (init_config _) _ => apply batch0_init_config
  | |- triple _ (time_magic (run_batch _ _)) _ => apply batch_run_batch
  end.

Lemma Entrainment_batch G :
  triple (batch0 0 [] []) (Entrainment.notebook G)
    (λ _ σ, batch 4 ["GLS-C01A"; "KPP-CVMix"; "KPPLT-VR12"; "KPPLT-LF17"]
              [CallModel "Entrainment" "../gotmtool/.gotm_env.yaml"; CallBuild;
               CallInitConfig;
               CallRunBatch (cfgs σ)
                 ["GLS-C01A"; "KPP-CVMix"; "KPPLT-VR12"; "KPPLT-LF17"] 4] σ).
Proof.
  eapply triple_weaken; [|intros σ H; exact H|intros a σ H; exact H].
  unfold Entrainment.notebook, Entrainment.prepare, Entrainment.assemble,
    Entrainment.cell2,
    Entrainment.cell4, Entrainment.cell5, Entrainment.cell6, Entrainment.cell7,
    Entrainment.cell8, Entrainment.cell9.
  run_cell.
Qed.

Lemma batch_change n ls ls' cs cs' σ :
  batch n ls cs σ → ls = ls' → cs = cs' → batch n ls' cs' σ.
Proof. by intros H <- <-. Qed.

Lemma EntrainmentKC04_batch G :
  triple (batch0 0 [] []) (EntrainmentKC04.notebook G)
    (λ _ σ, batch 10
              ["KC04-MY-e6-1.0"; "KC04-MY-e6-4.0"; "KC04-MY-e6-6.0";
               "KC04-MY-e6-7.0"; "KC04-k-omega-c4-0.150";
               "KC04-k-omega-c4-0.300"; "KC04-k-omega-c4-0.555";
               "KC04-k-omega-c4-1.200"; "KC04-MY-NS"; "KC04-k-omega-NS"]
              [CallModel "Entrainment-KC04" "../gotmtool/.gotm_env.yaml";
               CallBuild; CallInitConfig;
               CallRunBatch (cfgs σ)
                 ["KC04-MY-e6-1.0"; "KC04-MY-e6-4.0"; "KC04-MY-e6-6.0";
                  "KC04-MY-e6-7.0"; "KC04-k-omega-c4-0.150";
                  "KC04-k-omega-c4-0.300"; "KC04-k-omega-c4-0.555";
                  "KC04-k-omega-c4-1.200"; "KC04-MY-NS"; "KC04-k-omega-NS"] 4] σ).
Proof.
  eapply triple_weaken; [|intros σ H; exact H|].
  - unfold EntrainmentKC04.notebook, EntrainmentKC04.prepare,
      EntrainmentKC04.assemble,
      EntrainmentKC04.cell2, EntrainmentKC04.cell4, EntrainmentKC04.cell5,
      EntrainmentKC04.cell6, EntrainmentKC04.cell7, EntrainmentKC04.cell8,
      EntrainmentKC04.cell9, EntrainmentKC04.cell10,
      EntrainmentKC04.e6list, EntrainmentKC04.c4list.
    run_cell.
  - intros a σ H. eapply batch_change; [exact H| |].
    + vm_compute. reflexivity.
    + vm_compute. reflexivity.
Qed.

Lemma OsmosisWinterKC04_batch G :
  triple (batch0 0 [] []) (OsmosisWinterKC04.notebook G)
    (λ _ σ, batch 4 ["KC04-MY"; "KC04-k-omega"; "KC04-MY-NS"; "KC04-k-omega-NS"]
              [CallModel "OSMOSIS-Winter-KC04" "../gotmtool/.gotm_env.yaml";
               CallBuild; CallInitConfig;
               CallRunBatch (cfgs σ)
                 ["KC04-MY"; "KC04-k-omega"; "KC04-MY-NS"; "KC04-k-omega-NS"] 2] σ).
Proof.
  eapply triple_weaken; [|intros σ H; exact H|intros a σ H; exact H].
  unfold OsmosisWinterKC04.notebook, OsmosisWinterKC04.prepare,
    OsmosisWinterKC04.assemble,
    OsmosisWinterKC04.cell2, OsmosisWinterKC04.cell4, OsmosisWinterKC04.cell5,
    OsmosisWinterKC04.cell6, OsmosisWinterKC04.cell7, OsmosisWinterKC04.cell8,
    OsmosisWinterKC04.cell9, OsmosisWinterKC04.cell10, OsmosisWinterKC04.cell11,
    OsmosisWinterKC04.cell12, OsmosisWinterKC04.cell13,
    OsmosisWinterKC04.configure_KC04_MY, OsmosisWinterKC04.configure_KC04_k_omega.
  run_cell.
Qed.

(** ** The batches of the run notebooks *)

Lemma notebook_batch nb G :
  triple (batch0 0 [] []) (notebook nb G)
    (λ _ σ, batch (length (batch_labels nb)) (batch_labels nb)
              [CallModel (model_name nb) environ_file; CallBuild; CallInitConfig;
               CallRunBatch (cfgs σ) (batch_labels nb) (nproc nb)] σ).
Proof.
  destruct nb;
    [apply Entrainment_batch|apply EntrainmentKC04_batch
    |apply OsmosisWinterKC04_batch].
Qed.

(** Entries that are objects of their own are distinct. *)
Lemma isolated_NoDup h root entries :
  Forall is_ref entries → isolated h root entries → NoDup entries.
Proof.
  intros Hrefs [_ Hiso]. apply NoDup_alt. intros i j c Hi Hj.
  destruct (decide (i = j)) as [|Hne]; [done|exfalso].
  rewrite Forall_forall in Hrefs.
  destruct (Hrefs c (list_elem_of_lookup_2 _ _ _ Hi)) as [l ->].
  eapply (Hiso i j _ _ l Hne Hi Hj); by constructor.
Qed.

Lemma getitem_unchanged h h' v s :
  unchanged h h' v → getitem h' v s = getitem h v s.
Proof.
  intros Hun. destruct v as [| | | | |l]; try done. simpl.
  rewrite (Hun l); [done|]. by constructor.
Qed.

Lemma unchanged_getitem h h' v s w :
  unchanged h h' v → getitem h v s = Ok w → unchanged h h' w.
Proof.
  intros Hun Hget l Hl. apply Hun.
  destruct (reach_is_ref _ _ _ Hl) as [lw ->].
  destruct (getitem_ref _ _ _ _ Hget) as (lc & o & -> & Ho & Hin).
  eapply reach_trans; [|done]. eapply reach_step; [by constructor|done|done].
Qed.

(** Reading a value that is unchanged gives what it gave. *)
Lemma getpath_unchanged h h' v path :
  unchanged h h' v → getpath h' v path = getpath h v path.
Proof.
  revert v. induction path as [|s path IH]; intros v Hun; simpl; [done|].
  rewrite (getitem_unchanged _ _ _ _ Hun).
  destruct (getitem h v s) as [w|] eqn:Hget; simpl; [|done].
  apply IH. by eapply unchanged_getitem.
Qed.

(** Claim C3: appending [copy.deepcopy(cfg)] to [cfgs] isolates the batch
    entries from later mutations.  In every state of a run notebook
    ([inv]: the store is well formed, and no object of an entry of [cfgs]
    is reachable from [cfg] or from another entry) the append returns and
    adds one entry.  Whatever sequence [later] of nested assignments
    [cfg[k1]...[kn] = rhs] runs through afterwards, [cfgs] is the same
    list of references, every object reachable from an entry is the same
    object with the same content as right after the append, every lookup
    [c[k1]...[kn]] in an entry gives what it gave before the assignments,
    and the entries still share no object with [cfg] or with one
    another. *)
Theorem deepcopy_isolates_entries (σ : state) :
  inv σ →
  ∃ σ1,
    cfgs_append_deepcopy σ = Ok (tt, σ1) ∧
    (∃ c, cfgs σ1 = cfgs σ ++ [c]) ∧
    ∀ (later : list (list subscript * pyvalue)) (σ2 : state),
      for_each later (λ a, cfg_set a.1 a.2) σ1 = Ok (tt, σ2) →
      cfgs σ2 = cfgs σ1 ∧
      (∀ c, c ∈ cfgs σ1 → unchanged (store σ1) (store σ2) c) ∧
      (∀ c path, c ∈ cfgs σ1 →
         getpath (store σ2) c path = getpath (store σ1) c path) ∧
      isolated (store σ2) (cfg σ2) (cfgs σ2).
Proof.
  intros Hinv. destruct (cfgs_append_deepcopy_returns _ Hinv) as [σ1 Happend].
  exists σ1. split; [exact Happend|].
  destruct (cfgs_append_deepcopy_spec _ _ Hinv Happend)
    as (Hinv1 & _ & (c0 & Hc0 & _) & _).
  split; [by exists c0|]. intros later σ2 Hlater.
  pose (P := λ σ' : state,
          inv σ' ∧ cfgs σ' = cfgs σ1 ∧
          ∀ c, c ∈ cfgs σ1 → unchanged (store σ1) (store σ') c).
  assert (P σ2) as (Hinv2 & Hcfgs & Hun).
  { eapply (triple_for_each P later); [|split; [exact Hinv1|by split]|exact Hlater].
    intros [target rhs] _ τ [] τ' (Hτ & Hcs & Hunτ) Hset. simpl in Hset.
    destruct (cfg_set_spec _ _ _ _ Hτ Hset) as (Hτ' & _ & _ & Hcs' & Hun').
    split; [done|split; [congruence|]]. intros c Hc.
    eapply unchanged_trans; [by apply Hunτ|]. apply Hun'. by rewrite Hcs. }
  split; [done|split; [done|split]].
  - intros c path Hc. apply getpath_unchanged. by apply Hun.
  - rewrite Hcfgs. rewrite <- Hcfgs at 1. apply Hinv2.
Qed.

Lemma inv_initial : inv initial.
Proof. apply batch0_initial. Qed.

Lemma inv_sample_configured : inv Sample.configured.
Proof.
  eapply (init_config_spec Sample.tool initial); [apply inv_initial|].
  vm_compute. reflexivity.
Qed.

(** On the sample: the default configuration is copied, then the scheme
    of the working configuration is changed. *)
Lemma deepcopy_isolates_entries_witness :
  cfgs_append_deepcopy Sample.configured = Ok (tt, Sample.copied) ∧
  for_each Sample.later (λ a, cfg_set a.1 a.2) Sample.copied
  = Ok (tt, Sample.changed) ∧
  cfgs Sample.changed = cfgs Sample.copied ∧
  (∀ c, c ∈ cfgs Sample.copied →
     unchanged (store Sample.copied) (store Sample.changed) c) ∧
  (∀ c path, c ∈ cfgs Sample.copied →
     getpath (store Sample.changed) c path = getpath (store Sample.copied) c path) ∧
  isolated (store Sample.changed) (cfg Sample.changed) (cfgs Sample.changed).
Proof.
  assert (cfgs_append_deepcopy Sample.configured = Ok (tt, Sample.copied))
    as Happend by (vm_compute; reflexivity).
  assert (for_each Sample.later (λ a, cfg_set a.1 a.2) Sample.copied
          = Ok (tt, Sample.changed)) as Hlater by (vm_compute; reflexivity).
  split; [exact Happend|]. split; [exact Hlater|].
  destruct (deepcopy_isolates_entries Sample.configured inv_sample_configured)
    as (σ1 & H1 & _ & Hiso).
  assert (σ1 = Sample.copied) as -> by congruence.
  exact (Hiso Sample.later Sample.changed Hlater).
Defined.

(** On the sample: the entry keeps the scheme it was copied with, the
    working configuration has moved on. *)
Example sample_entry_keeps_scheme :
  (λ c, getpath (store Sample.changed) c at["turbulence"; "turb_method"])
    <$> cfg Sample.changed :: cfgs Sample.changed
  = [Ok (VStr "cvmix"); Ok (VStr "second_order")].
Proof. vm_compute. reflexivity. Qed.

(** Claim C2: the labels handed to [run_batch] are pairwise distinct.  When
    a run notebook runs through, with any [gotmtool], its list [labels] is
    the list [batch_labels] of the notebook (the four scheme names of
    [run_Entrainment.ipynb]; the ten names of [run_Entrainment-KC04.ipynb],
    eight of them produced by ['{:.1f}'] and ['{:.3f}'] on the parameter
    lists; the four names of the OSMOSIS notebook), and no string occurs
    twice in it. *)
Theorem batch_labels_distinct (nb : notebook_id) (G : gotmtool) (σ : state) :
  notebook nb G initial = Ok (tt, σ) →
  labels σ = batch_labels nb ∧ NoDup (labels σ).
Proof.
  intros Hrun.
  destruct (notebook_batch nb G _ _ _ batch0_initial Hrun)
    as ((_ & _ & _ & Hls & _) & _).
  split; [done|]. rewrite Hls.
  destruct nb; apply (bool_decide_unpack _); vm_compute; exact I.
Qed.

(** On the sample: the ten labels of [run_Entrainment-KC04.ipynb]. *)
Lemma batch_labels_distinct_witness :
  labels (Sample.final EntrainmentKC04_ipynb) = batch_labels EntrainmentKC04_ipynb ∧
  NoDup (labels (Sample.final EntrainmentKC04_ipynb)).
Proof.
  apply (batch_labels_distinct EntrainmentKC04_ipynb Sample.tool).
  vm_compute. reflexivity.
Defined.

(** The recorded run of [run_Entrainment.ipynb] started the GOTM executable
    in the cell of [init_config], which is among the calls of the notebook
    and is not the call of [run_batch]; the executable ran to its end
    there. *)
Lemma init_config_starts_gotm :
  CallInitConfig ∈ calls (Sample.final Entrainment_ipynb) ∧
  (∀ configs ls n, CallInitConfig ≠ CallRunBatch configs ls n) ∧
  Exists (λ line, gotm_started line = true)
    (recorded_stderr Entrainment_ipynb CallInitConfig) ∧
  last (recorded_stderr Entrainment_ipynb CallInitConfig) = Some "STOP 0".
Proof.
  split_and!.
  - vm_compute. do 2 right. left.
  - done.
  - apply Exists_cons_tl, Exists_cons_hd. reflexivity.
  - reflexivity.
Qed.



(** Claim C6: configurations and labels are paired one to one.  At every
    [run_batch] call of a run notebook that runs through, the list of
    configurations and the list of labels have the same length: 4 in
    [run_Entrainment.ipynb], 10 in [run_Entrainment-KC04.ipynb], 4 in the
    OSMOSIS notebook. *)
Theorem batch_lengths_agree (nb : notebook_id) (G : gotmtool) (σ : state)
    (configs : list val) (ls : list string) (n : Z) :
  notebook nb G initial = Ok (tt, σ) →
  CallRunBatch configs ls n ∈ calls σ →
  length configs = length ls ∧
  length configs = match nb with
                   | Entrainment_ipynb => 4
                   | EntrainmentKC04_ipynb => 10
                   | OsmosisWinterKC04_ipynb => 4
                   end%nat.
Proof.
  intros Hrun Hcall.
  destruct (notebook_batch nb G _ _ _ batch0_initial Hrun)
    as (((_ & _ & _ & Hiso) & Hrefs & Hn & Hls & Hcs) & _).
  rewrite Hcs in Hcall.
  repeat (apply elem_of_cons in Hcall as [Hcall|Hcall]; [discriminate Hcall|]).
  apply list_elem_of_singleton in Hcall. injection Hcall as -> -> ->.
  rewrite Hn. by destruct nb.
Qed.

(** On the sample: ten configurations and ten labels. *)
Lemma batch_lengths_agree_witness :
  let σ := Sample.final EntrainmentKC04_ipynb in
  length (cfgs σ) = length (labels σ) ∧ length (cfgs σ) = 10%nat.
Proof.
  apply (batch_lengths_agree EntrainmentKC04_ipynb Sample.tool
           (Sample.final EntrainmentKC04_ipynb) _ _ 4).
  - vm_compute. reflexivity.
  - vm_compute. do 3 right. left.
Defined.

(** ** The plot notebook *)

Lemma py_index_nat (a n : nat) : (a < n)%nat → py_index (Z.of_nat a) n = Some a.
Proof.
  intros Ha. unfold py_index.
  rewrite (proj2 (Z.leb_le 0 (Z.of_nat a))) by lia.
  rewrite (proj2 (Z.ltb_lt (Z.of_nat a) (Z.of_nat n))) by lia.
  simpl. by rewrite Nat2Z.id.
Qed.

Lemma py_index_last (n : nat) : py_index (-1) (S n) = Some n.
Proof.
  unfold py_index. simpl.
  rewrite (proj2 (Z.leb_le (- Z.of_nat (S n)) (-1))) by lia.
  f_equal. lia.
Qed.

Lemma index_lookup {A} (l : list A) (i : nat) x :
  l !! i = Some x → Plot.index l (Z.of_nat i) = Ok x.
Proof.
  intros Hl. unfold Plot.index, list_getitem.
  rewrite py_index_nat by (by eapply lookup_lt_Some). simpl. by rewrite Hl.
Qed.

Lemma index_snoc {A} (l : list A) x i :
  i = Z.of_nat (length l) → Plot.index (l ++ [x]) i = Ok x.
Proof. intros ->. apply index_lookup. by rewrite list_lookup_middle. Qed.

Lemma index_last {A} (l : list A) x : Plot.index (l ++ [x]) (-1) = Ok x.
Proof.
  unfold Plot.index, list_getitem. rewrite length_app. simpl.
  replace (length l + 1)%nat with (S (length l)) by lia.
  rewrite py_index_last. simpl. by rewrite list_lookup_middle.
Qed.

Section plot_facts.
Context {T : Type} `{Num T}.
Implicit Types σ : @Plot.state T.

Lemma styled_add_case name label c marker σ :
  styled σ → styled (add_case name label c marker σ).
Proof.
  intros (Hl & Hc & Hm). unfold styled, add_case. simpl.
  rewrite !dom_insert_L, Hl, Hc, Hm, list_to_set_app_L. simpl.
  clear. split_and!; set_solver.
Qed.

Lemma cell2_body_spec ifrac (k : nat) e6 f σ :
  Plot.nkpp σ + Z.of_nat k = Z.of_nat (length (Plot.casenames σ)) →
  ifrac !! k = Some f →
  Plot.cell2_body ifrac (Z.of_nat k, e6) σ
  = Ok (tt, add_case ("KC04-MY-e6-" +:+ format_f 1 e6)
              ("$e_6$=" +:+ format_f 1 e6) (Rainbow f) "o" σ).
Proof.
  intros Hk Hf.
  assert (Z.of_nat k + Plot.nkpp σ = Z.of_nat (length (Plot.casenames σ)))
    as Hi by lia.
  unfold Plot.cell2_body, mbind, stx_bind, Plot.modify, Plot.read, Plot.lift.
  simpl. rewrite (index_snoc _ _ _ Hi). simpl.
  rewrite (index_snoc _ _ _ Hi). simpl.
  rewrite (index_lookup _ _ _ Hf). simpl.
  rewrite (index_snoc _ _ _ Hi). reflexivity.
Qed.

Lemma cell2_loop_spec ifrac es k σ :
  Plot.nkpp σ + Z.of_nat k = Z.of_nat (length (Plot.casenames σ)) →
  (k + length es ≤ length ifrac)%nat →
  styled σ →
  ∃ σ', Plot.cell2_loop ifrac (zip (Z.of_nat <$> seq k (length es)) es) σ
          = Ok (tt, σ') ∧
        Plot.casenames σ' =
          Plot.casenames σ ++ ((λ e6, "KC04-MY-e6-" +:+ format_f 1 e6) <$> es) ∧
        styled σ' ∧ Plot.nkpp σ' = Plot.nkpp σ.
Proof.
  revert k σ. induction es as [|e6 es IH]; intros k σ Hk Hfrac Hst.
  - exists σ. simpl. by rewrite app_nil_r.
  - simpl in Hfrac. destruct (lookup_lt_is_Some_2 ifrac k) as [f Hf]; [lia|].
    pose (σ1 := add_case ("KC04-MY-e6-" +:+ format_f 1 e6)
                  ("$e_6$=" +:+ format_f 1 e6) (Rainbow f) "o" σ).
    destruct (IH (S k) σ1) as (σ' & Hrun & Hcs & Hst' & Hn).
    + unfold σ1, add_case. simpl. rewrite length_app. simpl. lia.
    + lia.
    + by apply styled_add_case.
    + exists σ'. split; [|split; [|done]].
      * unfold Plot.cell2_loop in *. simpl.
        apply bind_Ok. exists tt, σ1. split; [|exact Hrun].
        by apply cell2_body_spec.
      * rewrite Hcs. unfold σ1, add_case. simpl. by rewrite <- app_assoc.
Qed.

Lemma cell2_styles_spec σ :
  ∃ σ', Plot.cell2_styles σ = Ok (tt, σ') ∧
        Plot.casenames σ' = all_cases ∧ styled σ'.
Proof.
  pose (σ0 := Plot.set_nkpp 2
                (Plot.set_markers (<["KPPLT-LF17" := "x"]> (<["KPP-CVMix" := "x"]> ∅))
                (Plot.set_colors (<["KPPLT-LF17" := Named "gray"]>
                                    (<["KPP-CVMix" := Named "k"]> ∅))
                (Plot.set_labels (<["KPPLT-LF17" := "KPPLT-LF17"]>
                                    (<["KPP-CVMix" := "KPP-CVMix"]> ∅))
                (Plot.set_casenames ["KPP-CVMix"; "KPPLT-LF17"] σ))))).
  destruct (cell2_loop_spec (linspace 0 1 (length Plot.e6list)) Plot.e6list 0 σ0)
    as (σ1 & Hloop & Hcs & Hst & Hn).
  - reflexivity.
  - vm_compute. lia.
  - unfold styled, σ0.
    cbn [Plot.labels Plot.colors Plot.markers Plot.casenames Plot.set_nkpp
         Plot.set_markers Plot.set_colors Plot.set_labels Plot.set_casenames].
    rewrite !dom_insert_L, !dom_empty_L.
    cbn [list_to_set foldr]. clear.
    generalize "KPPLT-LF17" "KPP-CVMix". intros a b. split_and!; set_solver.
  - pose (σ2 := add_case "KC04-MY-NS" "w/o Stokes" (Named "k") "o" σ1).
    exists σ2. split; [|split].
    + unfold Plot.cell2_styles.
      do 6 (apply bind_Ok; eexists _, _; split; [reflexivity|cbv beta]).
      apply bind_Ok. exists tt, σ1. split; [exact Hloop|].
      apply bind_Ok; eexists _, _; split; [reflexivity|cbv beta].
      do 3 (apply bind_Ok; eexists _, _; split; [reflexivity|cbv beta];
            apply bind_Ok; eexists _, _; split;
              [unfold Plot.lift; cbn [Plot.casenames Plot.set_casenames
                 Plot.set_labels Plot.set_colors];
               rewrite index_last; reflexivity|cbv beta];
            try (apply bind_Ok; eexists _, _; split; [reflexivity|cbv beta])).
      reflexivity.
    + unfold σ2, add_case. cbn [Plot.casenames Plot.set_casenames
        Plot.set_labels Plot.set_colors Plot.set_markers].
      rewrite Hcs. reflexivity.
    + by apply styled_add_case.
Qed.

(** *** What the later cells leave alone *)

Lemma keeps_styles_bind {A B} (m : stx (@Plot.state T) A)
    (f : A → stx (@Plot.state T) B) :
  keeps_styles m → (∀ a, keeps_styles (f a)) → keeps_styles (m ≫= f).
Proof.
  intros Hm Hf σ b σ' (a & σ1 & H1 & H2)%bind_Ok.
  rewrite (Hf _ _ _ _ H2). by eapply Hm.
Qed.

Lemma keeps_styles_modify (f : @Plot.state T → @Plot.state T) :
  (∀ σ, styles_of (f σ) = styles_of σ) → keeps_styles (Plot.modify f).
Proof. intros Hf σ [] σ' [= <-]. apply Hf. Qed.

Lemma keeps_styles_read {A} (f : @Plot.state T → A) : keeps_styles (Plot.read f).
Proof. by intros σ a σ' [= _ <-]. Qed.

Lemma keeps_styles_lift {A} (r : result A) :
  keeps_styles (T := T) (Plot.lift r).
Proof. intros σ a σ'. unfold Plot.lift. destruct r; [|done]. by intros [= _ <-]. Qed.

Lemma keeps_styles_ret {A} (a : A) : keeps_styles (T := T) (mret a).
Proof. by intros σ a' σ' [= _ <-]. Qed.

Lemma keeps_styles_for_each {A} (xs : list A) (body : A → stx (@Plot.state T) unit) :
  (∀ x, keeps_styles (body x)) → keeps_styles (for_each xs body).
Proof.
  intros Hbody. induction xs as [|x xs IH]; simpl.
  - apply keeps_styles_ret.
  - apply keeps_styles_bind; [apply Hbody|by intros _].
Qed.

Lemma keeps_styles_plt_plot (x y : list T) label :
  keeps_styles (Plot.plt_plot x y label).
Proof.
  unfold Plot.plt_plot. case_decide;
    [apply keeps_styles_modify; by intros ?|apply keeps_styles_lift].
Qed.

Lemma keeps_styles_plt_scatter (x y : list T) c marker label :
  keeps_styles (Plot.plt_scatter x y c marker label).
Proof.
  unfold Plot.plt_scatter. case_decide;
    [apply keeps_styles_modify; by intros ?|apply keeps_styles_lift].
Qed.

Lemma keeps_styles_plt_xlim (lo hi : T) : keeps_styles (Plot.plt_xlim lo hi).
Proof.
  unfold Plot.plt_xlim. destruct (_ && _);
    [apply keeps_styles_modify; by intros ?|apply keeps_styles_lift].
Qed.

Ltac keeps :=
  repeat first
    [ apply keeps_styles_bind; [|intros ?]
    | apply keeps_styles_for_each; intros ?
    | apply keeps_styles_modify; by intros ?
    | apply keeps_styles_read
    | apply keeps_styles_lift
    | apply keeps_styles_plt_plot
    | apply keeps_styles_plt_scatter
    | apply keeps_styles_plt_xlim
    | apply keeps_styles_ret ].

Variable E : plot_env T.

Lemma keeps_styles_cell2_links : keeps_styles (Plot.cell2_links E).
Proof.
  unfold Plot.cell2_links. apply keeps_styles_for_each. intros cn.
  destruct (os_path_islink E _); keeps.
Qed.

Lemma keeps_styles_cell4 : keeps_styles (Plot.cell4 E).
Proof. unfold Plot.cell4, Plot.cell4_body. keeps. Qed.

Lemma keeps_styles_cell5 : keeps_styles Plot.cell5.
Proof. unfold Plot.cell5. keeps. Qed.

Lemma keeps_styles_cell6_body hours case : keeps_styles (Plot.cell6_body E hours case).
Proof. unfold Plot.cell6_body. keeps. Qed.

(** *** The load loop *)

Lemma cell4_body_Ok case σ σ' :
  Plot.cell4_body E case σ = Ok (tt, σ') →
  ∃ d, load_data E (Plot.simulation_of case) = Ok d ∧
       σ' = Plot.set_dataset (<[case := d]> (Plot.dataset σ))
              (Plot.set_sims (<[case := Plot.simulation_of case]> (Plot.sims σ)) σ).
Proof.
  unfold Plot.cell4_body, mbind, stx_bind, Plot.modify, Plot.lift.
  destruct (load_data E (Plot.simulation_of case)) as [d|]; [|done].
  intros [= <-]. by exists d.
Qed.

Lemma cell4_loop_Ok cs σ σ' :
  for_each cs (Plot.cell4_body E) σ = Ok (tt, σ') →
  dom (Plot.dataset σ') = dom (Plot.dataset σ) ∪ list_to_set cs ∧
  (∀ case, case ∈ cs →
     ∃ d, Plot.dataset σ' !! case = Some d ∧
          load_data E (Plot.simulation_of case) = Ok d) ∧
  (∀ case, case ∉ cs → Plot.dataset σ' !! case = Plot.dataset σ !! case).
Proof.
  revert σ. induction cs as [|c cs IH]; intros σ; simpl.
  - intros [= <-]. split_and!.
    + by rewrite (right_id_L ∅ (∪)).
    + intros case Hcase. by apply elem_of_nil in Hcase.
    + done.
  - intros (a & σ1 & Hbody & Hrest)%bind_Ok. destruct a.
    destruct (cell4_body_Ok _ _ _ Hbody) as (d & Hd & ->).
    destruct (IH _ Hrest) as (Hdom & Hin & Hout).
    cbn [Plot.dataset Plot.set_dataset Plot.set_sims] in Hdom, Hout.
    split_and!.
    + rewrite Hdom, dom_insert_L. clear. set_solver.
    + intros case Hcase. destruct (decide (case ∈ cs)) as [Hcs|Hcs].
      * by apply Hin.
      * apply elem_of_cons in Hcase as [->|Hcase]; [|done].
        exists d. split; [|done]. rewrite (Hout _ Hcs).
        apply lookup_insert_eq.
    + intros case Hcase. apply not_elem_of_cons in Hcase as [Hne Hcs].
      rewrite (Hout _ Hcs). by apply lookup_insert_ne.
Qed.

(** The loop returns when every case can be loaded. *)
Lemma cell4_loop_returns cs σ :
  (∀ case, case ∈ cs → is_Ok (load_data E (Plot.simulation_of case))) →
  is_Ok (for_each cs (Plot.cell4_body E) σ).
Proof.
  revert σ. induction cs as [|c cs IH]; intros σ Hload; simpl.
  - by eexists.
  - destruct (Hload c) as [d Hd]; [left|].
    destruct (IH (Plot.set_dataset (<[c := d]> (Plot.dataset σ))
                    (Plot.set_sims (<[c := Plot.simulation_of c]> (Plot.sims σ)) σ)))
      as [[[] σ'] Hrest].
    { intros case Hcase. apply Hload. by right. }
    exists (tt, σ'). apply bind_Ok. eexists tt, _. split; [|exact Hrest].
    unfold Plot.cell4_body, mbind, stx_bind, Plot.modify, Plot.lift.
    by rewrite Hd.
Qed.

Lemma cell4_eq :
  Plot.cell4 E =
  (Plot.modify (Plot.set_sims ∅) ;; Plot.modify (Plot.set_dataset ∅) ;;
   cs ← Plot.read Plot.casenames; for_each cs (Plot.cell4_body E)).
Proof. reflexivity. Qed.

(** Claim C8: the datasets after the load loop.  When the load cell runs
    through, [casenames] is as before, the keys of [dataset] are exactly
    the entries of [casenames], and for each case [dataset[case]] is what
    [load_data] returns for the simulation at the path
    [casedir + '/' + case]. *)
Theorem dataset_after_load_loop (σ σ' : @Plot.state T) :
  Plot.cell4 E σ = Ok (tt, σ') →
  Plot.casenames σ' = Plot.casenames σ ∧
  dom (Plot.dataset σ') = list_to_set (Plot.casenames σ) ∧
  ∀ case, case ∈ Plot.casenames σ →
    ∃ d, Plot.dataset σ' !! case = Some d ∧
         load_data E {| sim_path := Plot.casedir +:+ "/" +:+ case |} = Ok d.
Proof.
  intros Hrun. pose proof (keeps_styles_cell4 _ _ _ Hrun) as Hst.
  rewrite cell4_eq in Hrun.
  apply bind_Ok in Hrun as ([] & σ1 & [= <-] & Hrun).
  apply bind_Ok in Hrun as ([] & σ2 & [= <-] & Hrun).
  apply bind_Ok in Hrun as (cs & σ3 & [= <- <-] & Hrun).
  destruct (cell4_loop_Ok _ _ _ Hrun) as (Hdom & Hin & _).
  cbn [Plot.casenames Plot.dataset Plot.set_dataset Plot.set_sims] in *.
  split_and!.
  - by injection Hst.
  - rewrite Hdom, dom_empty_L. by rewrite (left_id_L ∅ (∪)).
  - exact Hin.
Qed.

Lemma cell2_eq : Plot.cell2 E = (Plot.cell2_styles ;; Plot.cell2_links E).
Proof. reflexivity. Qed.

(** The styles at the figure cell are those the second cell built. *)
Lemma figure_styles (σ0 σ : @Plot.state T) :
  (Plot.cell2 E ;; Plot.cell4 E ;; Plot.cell5) σ0 = Ok (tt, σ) →
  ∃ σ1, Plot.cell2_styles σ0 = Ok (tt, σ1) ∧ styles_of σ = styles_of σ1.
Proof.
  intros Hrun.
  apply bind_Ok in Hrun as ([] & σ2 & H2 & Hrun).
  apply bind_Ok in Hrun as ([] & σ4 & H4 & H5).
  rewrite cell2_eq in H2.
  apply bind_Ok in H2 as ([] & σ1 & H1 & Hlinks).
  exists σ1. split; [exact H1|].
  rewrite (keeps_styles_cell5 _ _ _ H5), (keeps_styles_cell4 _ _ _ H4).
  exact (keeps_styles_cell2_links _ _ _ Hlinks).
Qed.

(** *** The figure loop *)

(** Claim C9: the lookups of the figure loop are total.  In the state in
    which the figure cell starts (the cells before it have run through),
    [casenames] is the list the second cell built and the key sets of
    [labels], [colors] and [markers] each equal the set of its entries.
    The rounds of the figure loop leave the three dictionaries as they
    are: in the state at the start of the loop, and in the state after any
    rounds of it, the lookups [colors[case]], [markers[case]] and
    [labels[case]] return a value for every case of [casenames], so no
    round fails in them. *)
Theorem style_lookups_total (σ0 σ : @Plot.state T) :
  (Plot.cell2 E ;; Plot.cell4 E ;; Plot.cell5) σ0 = Ok (tt, σ) →
  Plot.casenames σ = all_cases ∧
  dom (Plot.labels σ) = list_to_set (Plot.casenames σ) ∧
  dom (Plot.colors σ) = list_to_set (Plot.casenames σ) ∧
  dom (Plot.markers σ) = list_to_set (Plot.casenames σ) ∧
  ∀ hours rounds σ',
    for_each rounds (Plot.cell6_body E hours) σ = Ok (tt, σ') →
    ∀ case, case ∈ Plot.casenames σ →
      is_Ok (Plot.lookup_key (Plot.colors σ') case) ∧
      is_Ok (Plot.lookup_key (Plot.markers σ') case) ∧
      is_Ok (Plot.lookup_key (Plot.labels σ') case).
Proof.
  intros Hrun. destruct (figure_styles _ _ Hrun) as (σ1 & H1 & Hk).
  destruct (cell2_styles_spec σ0) as (σ1' & H1' & Hcs & Hl & Hc & Hm).
  rewrite H1 in H1'. injection H1' as <-.
  injection Hk as Ecs El Ec Em.
  rewrite <- Ecs, <- El in Hl. rewrite <- Ecs, <- Ec in Hc.
  rewrite <- Ecs, <- Em in Hm. rewrite <- Ecs in Hcs.
  split; [exact Hcs|]. split; [exact Hl|]. split; [exact Hc|].
  split; [exact Hm|].
  intros hours rounds σ' Hloop case Hcase%(elem_of_list_to_set (C := gset string)).
  assert (styles_of σ' = styles_of σ) as Hkeep.
  { eapply (keeps_styles_for_each rounds); [|exact Hloop].
    intros c. apply keeps_styles_cell6_body. }
  injection Hkeep as _ -> -> ->. unfold Plot.lookup_key.
  assert (is_Some (Plot.colors σ !! case) ∧ is_Some (Plot.markers σ !! case) ∧
          is_Some (Plot.labels σ !! case)) as ([? ->] & [? ->] & [? ->]).
  { rewrite <- !elem_of_dom. by rewrite Hc, Hm, Hl. }
  split; [eexists; reflexivity|split; eexists; reflexivity].
Qed.
End plot_facts.

(** ** The prediction of Price (1979) *)

Lemma sqrt_sqrt_Rpower (x : R) :
  (0 < x)%R → R_sqrt.sqrt (R_sqrt.sqrt x) = Rpower x (1 / 4).
Proof.
  intros Hx. rewrite <- (Rpower_sqrt x Hx).
  rewrite <- Rpower_sqrt by apply exp_pos.
  rewrite Rpower_mult. f_equal. lra.
Qed.

(** In binary64 the factor is the double [0x1.0bf047ce88932p+0], about
    1.0466351393921056, and the three factors are multiplied from the
    left. *)
Lemma mld_val_binary64 (ustar N0 : float) (sec : list float) :
  Plot.mld_val ustar N0 sec
  = (λ s, 0x1.0bf047ce88932p+0 * ustar * PrimFloat.sqrt (s / N0))%float <$> sec.
Proof. reflexivity. Qed.

Example mld_val_binary64_sample :
  Plot.mld_val 0.01%float (PrimFloat.sqrt 1e-4) [0; 900; 1800]%float
  = [0; 3.139905418176317; 4.440496826953712]%float.
Proof. vm_compute. reflexivity. Qed.

(** The factor as a real number: a multiple of [2^-52]. *)
Lemma price_factor_val :
  float_val 0x1.0bf047ce88932p+0 = (4713625623759154 / 4503599627370496)%R.
Proof.
  unfold float_val.
  replace (Prim2SF 0x1.0bf047ce88932p+0)
    with (S754_finite false 4713625623759154 (-52)) by (vm_compute; reflexivity).
  unfold SF2R. change (powerRZ 2 (-52)) with (/ 2 ^ 52)%R. lra.
Qed.

Lemma fourth_root_pow (x : R) :
  (0 <= x)%R → (R_sqrt.sqrt (R_sqrt.sqrt x) ^ 4 = x)%R.
Proof.
  intros Hx. set (y := R_sqrt.sqrt (R_sqrt.sqrt x)).
  replace (y ^ 4)%R with ((y * y) * (y * y))%R by ring. unfold y.
  rewrite sqrt_sqrt by apply sqrt_pos. by rewrite sqrt_sqrt.
Qed.

(** The factor is not [(2*0.6)^(1/4)], whose fourth power is no multiple of
    a power of two, but the number of binary64 nearest to it: the two are
    less than [2^-53] apart, half the distance of the factor to its
    neighbours. *)
Lemma price_factor_near :
  float_val 0x1.0bf047ce88932p+0 ≠ Rpower (2 * (6 / 10)) (1 / 4) ∧
  (Rabs (float_val 0x1.0bf047ce88932p+0 - Rpower (2 * (6 / 10)) (1 / 4))
   < / 2 ^ 53)%R.
Proof.
  rewrite price_factor_val, <- sqrt_sqrt_Rpower by lra.
  pose proof (fourth_root_pow (2 * (6 / 10)) ltac:(lra)) as Hy.
  set (y := R_sqrt.sqrt (R_sqrt.sqrt (2 * (6 / 10)))) in *.
  assert (0 <= y)%R as Hy0 by apply sqrt_pos.
  split.
  - intros Heq. rewrite <- Heq in Hy. lra.
  - apply Rabs_def1.
    + destruct (Rlt_or_le (9427251247518307 / 9007199254740992) y) as [H|H]; [lra|].
      exfalso. pose proof (pow_incr y _ 4 (conj Hy0 H)) as Hp. lra.
    + destruct (Rlt_or_le y (9427251247518309 / 9007199254740992)) as [H|H]; [lra|].
      exfalso.
      assert (0 <= 9427251247518309 / 9007199254740992)%R as H0 by lra.
      pose proof (pow_incr _ y 4 (conj H0 H)) as Hp. lra.
Qed.


(** Claim C1 as it is worded, with the formula over the real numbers: for
    [NN = 1], [ustar = 1] and the time one second after the first, the
    value the cell stores is [0x1.0bf047ce88932p+0], and that is not
    [(2*0.6)^(1/4) * 1 * sqrt(1 / 1)]. *)
Lemma mld_p79_binary64_rounded :
  Plot.index4 (NN Sample.unit_output) 2 (-1) 0 0 = Ok 1%float ∧
  Plot.index3 (u_taus Sample.unit_output) (-1) 0 0 = Ok 1%float ∧
  time Sample.unit_output = [0; 10 ^ 9] ∧
  ∃ σ' p v,
    Plot.cell5 Sample.unit_loaded = Ok (tt, σ') ∧ Plot.mld_p79 σ' = Some p ∧
    values p !! 1%nat = Some v ∧
    float_val v ≠ price1979 (float_val 1) (R_sqrt.sqrt (float_val 1))
                    (IZR (10 ^ 9 - 0) / IZR (10 ^ 9)).
Proof.
  split_and!; [reflexivity..|].
  eexists _, _, 0x1.0bf047ce88932p+0%float. split_and!.
  - vm_compute. reflexivity.
  - reflexivity.
  - vm_compute. reflexivity.
  - replace (float_val 1) with 1%R.
    2:{ unfold float_val. replace (Prim2SF 1) with (S754_finite false 4503599627370496 (-52))
          by (vm_compute; reflexivity).
        unfold SF2R. change (powerRZ 2 (-52)) with (/ 2 ^ 52)%R. lra. }
    unfold price1979. rewrite sqrt_1.
    replace (IZR (10 ^ 9 - 0) / IZR (10 ^ 9) / 1)%R with 1%R.
    2:{ change (10 ^ 9 - 0) with 1000000000. change (10 ^ 9) with 1000000000. lra. }
    rewrite sqrt_1, !Rmult_1_r. apply price_factor_near.
Qed.



(** On the sample: seven cases, each with the sample output. *)
Lemma dataset_after_load_loop_witness :
  Plot.casenames Sample.loaded = Plot.casenames Sample.styled ∧
  dom (Plot.dataset Sample.loaded) = list_to_set (Plot.casenames Sample.styled) ∧
  ∀ case, case ∈ Plot.casenames Sample.styled →
    ∃ d, Plot.dataset Sample.loaded !! case = Some d ∧
         load_data Sample.plot_tool {| sim_path := Plot.casedir +:+ "/" +:+ case |}
         = Ok d.
Proof.
  apply (dataset_after_load_loop Sample.plot_tool Sample.styled Sample.loaded).
  vm_compute. reflexivity.
Defined.

(** On the sample, in the state before the figure cell. *)
Lemma style_lookups_total_witness :
  Plot.casenames Sample.at_figure = all_cases ∧
  dom (Plot.labels Sample.at_figure) = list_to_set (Plot.casenames Sample.at_figure) ∧
  dom (Plot.colors Sample.at_figure) = list_to_set (Plot.casenames Sample.at_figure) ∧
  dom (Plot.markers Sample.at_figure) = list_to_set (Plot.casenames Sample.at_figure) ∧
  ∀ hours rounds σ',
    for_each rounds (Plot.cell6_body Sample.plot_tool hours) Sample.at_figure
    = Ok (tt, σ') →
    ∀ case, case ∈ Plot.casenames Sample.at_figure →
      is_Ok (Plot.lookup_key (Plot.colors σ') case) ∧
      is_Ok (Plot.lookup_key (Plot.markers σ') case) ∧
      is_Ok (Plot.lookup_key (Plot.labels σ') case).
Proof.
  apply (style_lookups_total Sample.plot_tool Plot.initial Sample.at_figure).
  vm_compute. reflexivity.
Defined.

(** On the sample the figure cell runs through: eight curves, the axis
    limits and the file. *)
Example sample_figure :
  (λ r, match r with
        | Ok (_, σ) => length (Plot.figure σ)
        | Raise _ => 0%nat
        end) (Plot.cell6 Sample.plot_tool Sample.at_figure) = 10%nat.
Proof. vm_compute. reflexivity. Qed.

(** ** Exceptions *)

Lemma notebook_eq nb G :
  notebook nb G = (before_run_batch nb G ;; time_magic (run_batch G (nproc nb))).
Proof. by destruct nb. Qed.

Lemma before_run_batch_eq nb G :
  ∃ rest : M unit,
    before_run_batch nb G
    = (Model G (model_name nb) environ_file ;; time_magic (build G) ;;
       init_config G ;; rest).
Proof. destruct nb; by eexists. Qed.

(** A cell that starts with [%%time] returns. *)
Lemma time_magic_returns (body : attempt unit) σ :
  ∃ σ', time_magic body σ = Ok (tt, σ').
Proof. unfold time_magic. destruct (body σ) as [[[]|e] σ']; by eexists. Qed.

(** A failing [Model] or [init_config] ends the run notebook with the
    exception of the call, whatever [build] did. *)
Lemma run_notebook_propagates nb G σ e :
  Model_new G (model_name nb) environ_file = Raise e ∨
  (is_Ok (Model_new G (model_name nb) environ_file) ∧
   Model_init_config G = Raise e) →
  notebook nb G σ = Raise e.
Proof.
  rewrite notebook_eq. intros [Hnew|[[env Hnew] Hinit]].
  - apply bind_Raise. destruct (before_run_batch_eq nb G) as [rest ->].
    apply bind_Raise. unfold Model. by rewrite Hnew.
  - apply bind_Raise. destruct (before_run_batch_eq nb G) as [rest ->].
    erewrite bind_step; [|unfold Model; by rewrite Hnew].
    match goal with
    | |- (_ ≫= _) ?s = _ => destruct (time_magic_returns (build G) s) as [σ4 H4]
    end.
    erewrite bind_step; [|exact H4].
    apply bind_Raise. unfold init_config. by rewrite Hinit.
Qed.

(** A failing [build] or [run_batch] ends its cell, which starts with
    [%%time], and not the notebook. *)
Lemma time_magic_Raise (body : attempt unit) σ σ' e :
  body σ = (Raise e, σ') → time_magic body σ = Ok (tt, show_traceback e σ').
Proof. intros Heq. unfold time_magic. by rewrite Heq. Qed.

Lemma run_batch_caught nb G σ σ' e :
  before_run_batch nb G σ = Ok (tt, σ') →
  Model_run_batch G (store σ') (cfgs σ') (labels σ') (nproc nb) = Raise e →
  notebook nb G σ
  = Ok (tt, show_traceback e
              (log (CallRunBatch (cfgs σ') (labels σ') (nproc nb)) σ')).
Proof.
  intros Hbefore Hrun. rewrite notebook_eq.
  erewrite bind_step; [|exact Hbefore].
  apply time_magic_Raise. unfold run_batch. by rewrite Hrun.
Qed.

Section plot_exceptions.
Context {T : Type} `{Num T}.
Variable E : plot_env T.

Lemma plot_notebook_eq :
  Plot.notebook E
  = ((Plot.cell2_styles ;; Plot.cell2_links E) ;;
     (Plot.modify (Plot.set_sims ∅) ;; Plot.modify (Plot.set_dataset ∅) ;;
      cs ← Plot.read Plot.casenames; for_each cs (Plot.cell4_body E)) ;;
     Plot.cell5 ;; Plot.cell6 E).
Proof. reflexivity. Qed.

(** The load loop stops at the first case that cannot be loaded. *)
Lemma cell4_loop_propagates cs1 case cs2 σ e :
  (∀ c, c ∈ cs1 → is_Ok (load_data E (Plot.simulation_of c))) →
  load_data E (Plot.simulation_of case) = Raise e →
  for_each (cs1 ++ case :: cs2) (Plot.cell4_body E) σ = Raise e.
Proof.
  revert σ. induction cs1 as [|c cs1 IH]; intros σ Hload Hcase; simpl.
  - apply bind_Raise.
    unfold Plot.cell4_body, mbind, stx_bind, Plot.modify, Plot.lift.
    by rewrite Hcase.
  - destruct (Hload c) as [d Hd]; [left|].
    erewrite bind_step.
    + apply IH; [|done]. intros c' Hc'. apply Hload. by right.
    + unfold Plot.cell4_body, mbind, stx_bind, Plot.modify, Plot.lift.
      by rewrite Hd.
Qed.

(** A failing [os.symlink] or [load_data] ends the plot notebook with the
    exception of the call. *)
Lemma plot_notebook_propagates (σ : @Plot.state T) e :
  ((os_path_islink E (path_join Plot.casedir "KPP-CVMix") = false ∧
    os_symlink E (path_join Plot.casedir0 "KPP-CVMix")
      (path_join Plot.casedir "KPP-CVMix") = Raise e) ∨
   (∃ σ2 cs1 case cs2,
      Plot.cell2 E σ = Ok (tt, σ2) ∧
      Plot.casenames σ2 = cs1 ++ case :: cs2 ∧
      (∀ c, c ∈ cs1 → is_Ok (load_data E (Plot.simulation_of c))) ∧
      load_data E (Plot.simulation_of case) = Raise e)) →
  Plot.notebook E σ = Raise e.
Proof.
  rewrite plot_notebook_eq.
  intros [[Hlink Hsym]|(σ2 & cs1 & case & cs2 & H2 & Hcs & Hload & Hcase)].
  - apply bind_Raise. destruct (cell2_styles_spec σ) as (σ1 & H1 & _).
    erewrite bind_step; [|exact H1].
    unfold Plot.cell2_links. simpl. apply bind_Raise.
    rewrite Hlink. unfold Plot.lift. by rewrite Hsym.
  - rewrite cell2_eq in H2. erewrite bind_step; [|exact H2].
    apply bind_Raise.
    erewrite bind_step; [|reflexivity]. erewrite bind_step; [|reflexivity].
    erewrite bind_step; [|reflexivity].
    cbn [Plot.casenames Plot.set_dataset Plot.set_sims]. rewrite Hcs.
    by apply cell4_loop_propagates.
Qed.
End plot_exceptions.


Lemma sample_prepared :
  before_run_batch Entrainment_ipynb Sample.failing_tool initial
  = Ok (tt, Sample.prepared).
Proof. vm_compute. reflexivity. Qed.

Lemma sample_run_batch_caught :
  notebook Entrainment_ipynb Sample.failing_tool initial
  = Ok (tt, show_traceback (ExternalError "gotm: exit status 1")
              (log (CallRunBatch (cfgs Sample.prepared) (labels Sample.prepared) 4)
                 Sample.prepared)).
Proof.
  exact (run_batch_caught Entrainment_ipynb Sample.failing_tool initial
           Sample.prepared _ sample_prepared eq_refl).
Qed.

Lemma sample_build_caught :
  notebook Entrainment_ipynb Sample.unbuilt_tool initial = Ok (tt, Sample.unbuilt).
Proof. vm_compute. reflexivity. Qed.

(** Claim C4 as it is worded.  With a simulator that exits with status 1
    in [run_batch], [run_Entrainment.ipynb] returns, the exception shown
    and [sims] not bound; with a [build] that fails, it returns as well,
    having gone on to [init_config] and [run_batch]. *)
Lemma time_magic_catches :
  (before_run_batch Entrainment_ipynb Sample.failing_tool initial
   = Ok (tt, Sample.prepared) ∧
   Model_run_batch Sample.failing_tool (store Sample.prepared)
     (cfgs Sample.prepared) (labels Sample.prepared) 4
   = Raise (ExternalError "gotm: exit status 1") ∧
   notebook Entrainment_ipynb Sample.failing_tool initial
   ≠ Raise (ExternalError "gotm: exit status 1") ∧
   ∃ σ, notebook Entrainment_ipynb Sample.failing_tool initial = Ok (tt, σ) ∧
        shown σ = [ExternalError "gotm: exit status 1"] ∧ sims σ = None) ∧
  (Model_build Sample.unbuilt_tool = Raise (ExternalError "make: exit status 2") ∧
   notebook Entrainment_ipynb Sample.unbuilt_tool initial
   ≠ Raise (ExternalError "make: exit status 2") ∧
   ∃ σ, notebook Entrainment_ipynb Sample.unbuilt_tool initial = Ok (tt, σ) ∧
        shown σ = [ExternalError "make: exit status 2"] ∧
        length (cfgs σ) = 4%nat ∧
        calls σ = [CallModel "Entrainment" environ_file; CallBuild; CallInitConfig;
                   CallRunBatch (cfgs σ) (labels σ) 4]).
Proof.
  split; split_and!.
  - exact sample_prepared.
  - reflexivity.
  - rewrite sample_run_batch_caught. discriminate.
  - exists (show_traceback (ExternalError "gotm: exit status 1")
              (log (CallRunBatch (cfgs Sample.prepared) (labels Sample.prepared) 4)
                 Sample.prepared)).
    split; [exact sample_run_batch_caught|]. split; vm_compute; reflexivity.
  - reflexivity.
  - rewrite sample_build_caught. discriminate.
  - exists Sample.unbuilt. split; [exact sample_build_caught|].
    split_and!; vm_compute; reflexivity.
Qed.


(** ** More on the plot notebook *)

Section plot_more.
Context {T : Type} `{Num T}.
Variable E : plot_env T.
Implicit Types σ : @Plot.state T.

Lemma bind_Raise_inv {S A B} (m : stx S A) (f : A → stx S B) (s : S) e :
  (m ≫= f) s = Raise e →
  m s = Raise e ∨ ∃ a s1, m s = Ok (a, s1) ∧ f a s1 = Raise e.
Proof.
  unfold mbind, stx_bind. destruct (m s) as [[a σ1]|e']; [|intros [= ->]; by left].
  intros Hf. right. by exists a, σ1.
Qed.

(** *** The styles *)

Lemma cell2_styles_lookups σ σ' :
  Plot.cell2_styles σ = Ok (tt, σ') →
  (λ c, (Plot.colors σ' !! c, Plot.markers σ' !! c, Plot.labels σ' !! c))
    <$> Plot.casenames σ'
  = (λ s, (Some s.1.1, Some s.1.2, Some s.2)) <$> style_table ∧
  Plot.nkpp σ' = 2 ∧
  (Plot.sims σ', Plot.dataset σ', Plot.sec σ', Plot.mld_p79 σ', Plot.figure σ')
  = (Plot.sims σ, Plot.dataset σ, Plot.sec σ, Plot.mld_p79 σ, Plot.figure σ).
Proof.
  intros Hrun.
  assert (Plot.cell2_styles σ
          = Ok (tt, match Plot.cell2_styles σ with
                    | Ok (_, s) => s
                    | Raise _ => σ
                    end)) as Hrun' by (vm_compute; reflexivity).
  assert (σ' = match Plot.cell2_styles σ with
               | Ok (_, s) => s
               | Raise _ => σ
               end) as -> by congruence.
  split; [|split]; vm_compute; reflexivity.
Qed.

(** Property X1: the styles of the plot notebook.  From any state, the
    part of the second cell that builds [casenames], [labels], [colors]
    and [markers] returns and leaves seven cases, in this order, each with
    its legend label, colour and marker: the two KPP cases as crosses in
    black and gray, the four [e6] cases as circles coloured by the
    colormap at the binary64 values of [np.linspace(0, 1, 4)], and the
    case without Stokes drift as a black circle.  The three dictionaries
    have exactly the case names as keys, [nkpp] is 2, and the other
    variables are as they were. *)
Theorem cell2_styles_table (σ : @Plot.state T) :
  ∃ σ',
    Plot.cell2_styles σ = Ok (tt, σ') ∧
    (λ c, (c, Plot.labels σ' !! c, Plot.colors σ' !! c, Plot.markers σ' !! c))
      <$> Plot.casenames σ'
    = [("KPP-CVMix", Some "KPP-CVMix", Some (Named "k"), Some "x");
       ("KPPLT-LF17", Some "KPPLT-LF17", Some (Named "gray"), Some "x");
       ("KC04-MY-e6-1.0", Some "$e_6$=1.0", Some (Rainbow 0), Some "o");
       ("KC04-MY-e6-4.0", Some "$e_6$=4.0",
          Some (Rainbow 0x1.5555555555555p-2), Some "o");
       ("KC04-MY-e6-6.0", Some "$e_6$=6.0",
          Some (Rainbow 0x1.5555555555555p-1), Some "o");
       ("KC04-MY-e6-7.0", Some "$e_6$=7.0", Some (Rainbow 1), Some "o");
       ("KC04-MY-NS", Some "w/o Stokes", Some (Named "k"), Some "o")] ∧
    dom (Plot.labels σ') = list_to_set (Plot.casenames σ') ∧
    dom (Plot.colors σ') = list_to_set (Plot.casenames σ') ∧
    dom (Plot.markers σ') = list_to_set (Plot.casenames σ') ∧
    Plot.nkpp σ' = 2 ∧
    (Plot.sims σ', Plot.dataset σ', Plot.sec σ', Plot.mld_p79 σ', Plot.figure σ')
    = (Plot.sims σ, Plot.dataset σ, Plot.sec σ, Plot.mld_p79 σ, Plot.figure σ).
Proof.
  destruct (cell2_styles_spec σ) as (σ' & Hrun & _ & Hl & Hc & Hm).
  exists σ'. split; [exact Hrun|].
  assert (Plot.cell2_styles σ
          = Ok (tt, match Plot.cell2_styles σ with
                    | Ok (_, s) => s
                    | Raise _ => σ
                    end)) as Hrun' by (vm_compute; reflexivity).
  assert (σ' = match Plot.cell2_styles σ with
               | Ok (_, s) => s
               | Raise _ => σ
               end) as Hσ by congruence.
  split; [|split; [exact Hl|split; [exact Hc|split; [exact Hm|]]]].
  - rewrite Hσ. vm_compute. reflexivity.
  - rewrite Hσ. split; vm_compute; reflexivity.
Qed.

(** *** The links *)

Lemma cell2_links_eq σ :
  Plot.cell2_links E σ
  = ((if os_path_islink E "../gotm/run/Entrainment-KC04/KPP-CVMix" then mret tt
      else Plot.lift (os_symlink E "../Entrainment/KPP-CVMix"
                        "../gotm/run/Entrainment-KC04/KPP-CVMix")) ;;
     (if os_path_islink E "../gotm/run/Entrainment-KC04/KPPLT-LF17" then mret tt
      else Plot.lift (os_symlink E "../Entrainment/KPPLT-LF17"
                        "../gotm/run/Entrainment-KC04/KPPLT-LF17")) ;;
     mret tt) σ.
Proof. reflexivity. Qed.

(** Property X2: the links of the second cell.  [os.symlink] is called for
    a case only when its path in the run directory is not a link yet.
    With both links in place the loop returns and changes nothing; when
    it returns, each call it had to make returned; and when it raises,
    the exception is that of
    [os.symlink('../Entrainment/<case>', '../gotm/run/Entrainment-KC04/<case>')]
    for a case that was not linked. *)
Theorem cell2_links_guarded σ :
  let a := "../gotm/run/Entrainment-KC04/KPP-CVMix" in
  let b := "../gotm/run/Entrainment-KC04/KPPLT-LF17" in
  (os_path_islink E a = true → os_path_islink E b = true →
   Plot.cell2_links E σ = Ok (tt, σ)) ∧
  (∀ σ', Plot.cell2_links E σ = Ok (tt, σ') →
     σ' = σ ∧
     (os_path_islink E a = false →
      os_symlink E "../Entrainment/KPP-CVMix" a = Ok tt) ∧
     (os_path_islink E b = false →
      os_symlink E "../Entrainment/KPPLT-LF17" b = Ok tt)) ∧
  (∀ e, Plot.cell2_links E σ = Raise e →
     (os_path_islink E a = false ∧
      os_symlink E "../Entrainment/KPP-CVMix" a = Raise e) ∨
     (os_path_islink E b = false ∧
      os_symlink E "../Entrainment/KPPLT-LF17" b = Raise e)).
Proof.
  intros a b. rewrite cell2_links_eq. fold a b.
  unfold mbind, stx_bind, mret, stx_ret, Plot.lift.
  destruct (os_path_islink E a), (os_path_islink E b);
    try destruct (os_symlink E "../Entrainment/KPP-CVMix" a) as [[]|e1];
    try destruct (os_symlink E "../Entrainment/KPPLT-LF17" b) as [[]|e2];
    (split; [|split]); try done;
    try (intros σ' [= <-]; split; [done|split; done]);
    try (intros e [= <-]; (by left) || (by right)).
Qed.

(** *** The load loop: the simulations *)

Lemma cell4_loop_sims_out c cs σ σ' :
  for_each cs (Plot.cell4_body E) σ = Ok (tt, σ') →
  c ∉ cs → Plot.sims σ' !! c = Plot.sims σ !! c.
Proof.
  revert σ. induction cs as [|c' cs IH]; intros σ; simpl.
  - by intros [= <-].
  - intros (a & σ1 & Hbody & Hrest)%bind_Ok [Hne Hcs]%not_elem_of_cons.
    destruct a. destruct (cell4_body_Ok _ _ _ _ Hbody) as (d & Hd & ->).
    rewrite (IH _ Hrest Hcs). cbn [Plot.sims Plot.set_dataset Plot.set_sims].
    by apply lookup_insert_ne.
Qed.

Lemma cell4_loop_sims cs σ σ' :
  for_each cs (Plot.cell4_body E) σ = Ok (tt, σ') →
  dom (Plot.sims σ') = dom (Plot.sims σ) ∪ list_to_set cs ∧
  (∀ case, case ∈ cs → Plot.sims σ' !! case = Some (Plot.simulation_of case)) ∧
  (styles_of σ', Plot.nkpp σ', Plot.sec σ', Plot.mld_p79 σ', Plot.figure σ')
  = (styles_of σ, Plot.nkpp σ, Plot.sec σ, Plot.mld_p79 σ, Plot.figure σ).
Proof.
  revert σ. induction cs as [|c cs IH]; intros σ; simpl.
  - intros [= <-]. split_and!; [|intros case Hcase; by apply elem_of_nil in Hcase|done].
    by rewrite (right_id_L ∅ (∪)).
  - intros (a & σ1 & Hbody & Hrest)%bind_Ok. destruct a.
    destruct (cell4_body_Ok _ _ _ _ Hbody) as (d & Hd & ->).
    destruct (IH _ Hrest) as (Hdom & Hin & Hrest').
    cbn [Plot.sims Plot.set_dataset Plot.set_sims] in Hdom.
    split_and!.
    + rewrite Hdom, dom_insert_L. clear. set_solver.
    + intros case Hcase. destruct (decide (case ∈ cs)) as [Hcs|Hcs]; [by apply Hin|].
      apply elem_of_cons in Hcase as [->|Hcase]; [|done].
      rewrite (cell4_loop_sims_out _ _ _ _ Hrest Hcs).
      cbn [Plot.sims Plot.set_dataset Plot.set_sims].
      apply lookup_insert_eq.
    + rewrite Hrest'. reflexivity.
Qed.

Lemma simulation_of_inj c1 c2 :
  Plot.simulation_of c1 = Plot.simulation_of c2 → c1 = c2.
Proof. unfold Plot.simulation_of. intros [= Heq]. exact Heq. Qed.

(** Property X3: the simulations of the load loop.  When the loop
    returns, [sims] has exactly the case names as keys, [sims[case]] is
    the simulation at [casedir + '/' + case], no two cases share a
    simulation, and the styles, [nkpp], [sec], [mld_p79] and the figure
    are as they were. *)
Theorem load_loop_simulations σ σ' :
  Plot.cell4 E σ = Ok (tt, σ') →
  dom (Plot.sims σ') = list_to_set (Plot.casenames σ) ∧
  (∀ case, case ∈ Plot.casenames σ →
     Plot.sims σ' !! case
     = Some {| sim_path := "../gotm/run/Entrainment-KC04/" +:+ case |}) ∧
  (∀ c1 c2 s, Plot.sims σ' !! c1 = Some s → Plot.sims σ' !! c2 = Some s → c1 = c2) ∧
  (styles_of σ', Plot.nkpp σ', Plot.sec σ', Plot.mld_p79 σ', Plot.figure σ')
  = (styles_of σ, Plot.nkpp σ, Plot.sec σ, Plot.mld_p79 σ, Plot.figure σ).
Proof.
  intros Hrun. rewrite cell4_eq in Hrun.
  apply bind_Ok in Hrun as ([] & σ1 & [= <-] & Hrun).
  apply bind_Ok in Hrun as ([] & σ2 & [= <-] & Hrun).
  apply bind_Ok in Hrun as (cs & σ3 & [= <- <-] & Hrun).
  destruct (cell4_loop_sims _ _ _ Hrun) as (Hdom & Hin & Hrest).
  cbn [Plot.casenames Plot.sims Plot.set_dataset Plot.set_sims] in *.
  assert (dom (Plot.sims σ') = list_to_set (Plot.casenames σ)) as Hdom'.
  { rewrite Hdom, dom_empty_L. by rewrite (left_id_L ∅ (∪)). }
  split_and!; [done|exact Hin| |exact Hrest].
  intros c1 c2 s H1 H2.
  assert (c1 ∈ Plot.casenames σ) as Hc1.
  { apply (elem_of_list_to_set (C := gset string)). rewrite <- Hdom'.
    by apply elem_of_dom. }
  assert (c2 ∈ Plot.casenames σ) as Hc2.
  { apply (elem_of_list_to_set (C := gset string)). rewrite <- Hdom'.
    by apply elem_of_dom. }
  rewrite (Hin _ Hc1) in H1. rewrite (Hin _ Hc2) in H2.
  apply simulation_of_inj. congruence.
Qed.

(** *** The prediction cell *)

Lemma index_raises {A} (l : list A) i e : Plot.index l i = Raise e → e = IndexError.
Proof. unfold Plot.index. destruct (list_getitem l i); [done|]. by intros [= <-]. Qed.

Lemma index3_raises {A} (a : list (list (list A))) i j k e :
  Plot.index3 a i j k = Raise e → e = IndexError.
Proof.
  unfold Plot.index3, mbind, result_mbind, result_bind.
  destruct (Plot.index a i) as [x|e1] eqn:H1; [|intros [= <-]; by eapply index_raises].
  destruct (Plot.index x j) as [y|e2] eqn:H2; [|intros [= <-]; by eapply index_raises].
  apply index_raises.
Qed.

Lemma index4_raises {A} (a : list (list (list (list A)))) i j k l e :
  Plot.index4 a i j k l = Raise e → e = IndexError.
Proof.
  unfold Plot.index4, mbind, result_mbind, result_bind.
  destruct (Plot.index a i) as [x|e1] eqn:H1; [|intros [= <-]; by eapply index_raises].
  apply index3_raises.
Qed.

Lemma index_nil {A} i : Plot.index (@nil A) i = Raise IndexError.
Proof.
  unfold Plot.index, list_getitem. by destruct (py_index i (length [])).
Qed.

Lemma index_head {A} (x : A) l : Plot.index (x :: l) 0 = Ok x.
Proof. apply (index_lookup (x :: l) 0). reflexivity. Qed.

Lemma cell5_Ok σ σ' :
  Plot.cell5 σ = Ok (tt, σ') →
  ∃ case0 data0 nn ustar t0,
    Plot.index (Plot.casenames σ) 0 = Ok case0 ∧
    Plot.dataset σ !! case0 = Some data0 ∧
    Plot.index4 (NN data0) 2 (-1) 0 0 = Ok nn ∧
    Plot.index3 (u_taus data0) (-1) 0 0 = Ok ustar ∧
    Plot.index (time data0) 0 = Ok t0 ∧
    σ' = Plot.set_mld_p79
           {| values := Plot.mld_val ustar (num_sqrt nn)
                          (Plot.seconds_since t0 (time data0));
              coords_time := time data0;
              attrs := [("long_name", "mixed layer depth (Price 1979)");
                        ("units", "m")] |}
           (Plot.set_sec (Plot.seconds_since t0 (time data0)) σ).
Proof.
  unfold Plot.cell5. unfold mbind at 1 2 3 4 5 6 7 8.
  unfold stx_bind, Plot.read, Plot.lift, Plot.modify, Plot.lookup_key.
  destruct (Plot.index (Plot.casenames σ) 0) as [case0|] eqn:Hc; [|done].
  destruct (Plot.dataset σ !! case0) as [data0|] eqn:Hd; [|done].
  destruct (Plot.index4 (NN data0) 2 (-1) 0 0) as [nn|] eqn:Hnn; [|done].
  destruct (Plot.index3 (u_taus data0) (-1) 0 0) as [ustar|] eqn:Hu; [|done].
  destruct (Plot.index (time data0) 0) as [t0|] eqn:Ht; [|done].
  intros [= <-]. by exists case0, data0, nn, ustar, t0.
Qed.

Lemma cell5_eq σ :
  Plot.cell5 σ =
  match Plot.index (Plot.casenames σ) 0 with
  | Raise e => Raise e
  | Ok case0 =>
      match Plot.dataset σ !! case0 with
      | None => Raise (KeyError case0)
      | Some data0 =>
          match Plot.index4 (NN data0) 2 (-1) 0 0 with
          | Raise e => Raise e
          | Ok nn =>
              match Plot.index3 (u_taus data0) (-1) 0 0 with
              | Raise e => Raise e
              | Ok ustar =>
                  match Plot.index (time data0) 0 with
                  | Raise e => Raise e
                  | Ok t0 =>
                      Ok (tt,
                          Plot.set_mld_p79
                            {| values := Plot.mld_val ustar (num_sqrt nn)
                                           (Plot.seconds_since t0 (time data0));
                               coords_time := time data0;
                               attrs := [("long_name", "mixed layer depth (Price 1979)");
                                         ("units", "m")] |}
                            (Plot.set_sec (Plot.seconds_since t0 (time data0)) σ))
                  end
              end
          end
      end
  end.
Proof.
  unfold Plot.cell5. unfold mbind at 1 2 3 4 5 6 7 8.
  unfold stx_bind, Plot.read, Plot.lift, Plot.modify, Plot.lookup_key.
  destruct (Plot.index (Plot.casenames σ) 0) as [case0|]; [|done].
  destruct (Plot.dataset σ !! case0) as [data0|]; [|done].
  destruct (Plot.index4 (NN data0) 2 (-1) 0 0) as [nn|]; [|done].
  destruct (Plot.index3 (u_taus data0) (-1) 0 0) as [ustar|]; [|done].
  by destruct (Plot.index (time data0) 0) as [t0|].
Qed.

Lemma index_Ok_length {A} (l : list A) (i : nat) x :
  Plot.index l (Z.of_nat i) = Ok x → (i < length l)%nat.
Proof.
  unfold Plot.index, list_getitem, py_index.
  destruct (Z.leb_spec 0 (Z.of_nat i)); [|lia].
  destruct (Z.ltb_spec (Z.of_nat i) (Z.of_nat (length l))); simpl; [lia|].
  destruct (Z.ltb_spec (Z.of_nat i) 0); [lia|]. done.
Qed.


Lemma index_Ok_lookup {A} (l : list A) (i : nat) x :
  Plot.index l (Z.of_nat i) = Ok x → l !! i = Some x.
Proof.
  intros Hx. pose proof (index_Ok_length _ _ _ Hx) as Hlen.
  destruct (lookup_lt_is_Some_2 l i Hlen) as [y Hy].
  rewrite (index_lookup _ _ _ Hy) in Hx. congruence.
Qed.

Lemma index_Ok_last {A} (l : list A) x : Plot.index l (-1) = Ok x → last l = Some x.
Proof.
  destruct l as [|y l _] using rev_ind; [by rewrite index_nil|].
  rewrite index_last. intros [= <-]. by rewrite last_snoc.
Qed.

(** *** The figure cell *)

Lemma cell6_body_Ok hours case σ σ' :
  Plot.cell6_body E hours case σ = Ok (tt, σ') →
  ∃ call, scatter_of E σ hours case call ∧ σ' = Plot.draw call σ.
Proof.
  unfold Plot.cell6_body. unfold mbind at 1 2 3 4 5 6 7 8 9 10.
  unfold stx_bind, Plot.read, Plot.lift, Plot.lookup_key.
  destruct (Plot.dataset σ !! case) as [data|] eqn:Hd; [|done].
  destruct (mapM _ (NN data)) as [nn|] eqn:Hnn; [|done].
  destruct (get_bld_maxNN E nn) as [mld|] eqn:Hmld; [|done].
  destruct (Plot.colors σ !! case) as [c|] eqn:Hc; [|done].
  destruct (Plot.markers σ !! case) as [m|] eqn:Hm; [|done].
  destruct (Plot.labels σ !! case) as [l|] eqn:Hl; [|done].
  unfold Plot.plt_scatter. case_decide as Hlen; [|done].
  intros [= <-]. eexists. split; [|reflexivity].
  exists data, mld, c, m, l. split_and!; try done. by exists nn.
Qed.

Lemma scatter_of_draw hours case call c σ :
  scatter_of E (Plot.draw c σ) hours case call → scatter_of E σ hours case call.
Proof. done. Qed.

Lemma figure_loop_Ok hours cs σ σ' :
  for_each cs (Plot.cell6_body E hours) σ = Ok (tt, σ') →
  ∃ calls, Forall2 (scatter_of E σ hours) cs calls ∧
           Plot.figure σ' = Plot.figure σ ++ calls ∧
           variables_of σ' = variables_of σ.
Proof.
  revert σ. induction cs as [|case cs IH]; intros σ; simpl.
  - intros [= <-]. exists []. by rewrite app_nil_r.
  - intros (a & σ1 & Hbody & Hrest)%bind_Ok. destruct a.
    destruct (cell6_body_Ok _ _ _ _ Hbody) as (call & Hcall & ->).
    destruct (IH _ Hrest) as (calls & Hcalls & Hfig & Hvars).
    exists (call :: calls). split_and!.
    + constructor; [done|exact Hcalls].
    + rewrite Hfig. cbn [Plot.figure Plot.draw]. by rewrite <- app_assoc.
    + rewrite Hvars. reflexivity.
Qed.

Lemma bound_Ok {A} name (x : option A) a σ σ' :
  Plot.bound name x σ = Ok (a, σ') → x = Some a ∧ σ' = σ.
Proof. unfold Plot.bound, Plot.lift. destruct x; [|done]. by intros [= -> ->]. Qed.

Lemma cell6_Ok σ σ' :
  Plot.cell6 E σ = Ok (tt, σ') →
  ∃ s p scatters lo hi,
    Plot.sec σ = Some s ∧ Plot.mld_p79 σ = Some p ∧
    let hours := (λ x, (x / num_dec 3600 0)%num) <$> s in
    length (values p) = length s ∧
    Forall2 (scatter_of E σ hours) (Plot.casenames σ) scatters ∧
    Plot.index hours 0 = Ok lo ∧ Plot.index hours (-1) = Ok hi ∧
    num_finite lo = true ∧ num_finite hi = true ∧
    Plot.figure σ' =
      Plot.figure σ ++ PltPlot hours (values p) "P79" :: scatters
        ++ [PltXlim lo hi; PltSavefig "entrainment_ts_kc04-my.pdf"] ∧
    variables_of σ' = variables_of σ.
Proof.
  intros Hrun. unfold Plot.cell6 in Hrun.
  apply bind_Ok in Hrun as (s0 & σ1 & [= <- <-] & Hrun).
  apply bind_Ok in Hrun as (s & σ1 & [Hs ->]%bound_Ok & Hrun).
  cbv zeta in Hrun. set (hours := (λ x, (x / num_dec 3600 0)%num) <$> s) in *.
  apply bind_Ok in Hrun as (p0 & σ1 & [= <- <-] & Hrun).
  apply bind_Ok in Hrun as (p & σ1 & [Hp ->]%bound_Ok & Hrun).
  apply bind_Ok in Hrun as ([] & σ1 & Hplot & Hrun).
  unfold Plot.plt_plot in Hplot. case_decide as Hlen; [|done].
  injection Hplot as <-.
  apply bind_Ok in Hrun as (cs & σ1 & [= <- <-] & Hrun).
  apply bind_Ok in Hrun as ([] & σ2 & Hloop & Hrun).
  destruct (figure_loop_Ok _ _ _ _ Hloop) as (calls & Hcalls & Hfig & Hvars).
  apply bind_Ok in Hrun as (lo & σ3 & Hlo & Hrun).
  unfold Plot.lift in Hlo.
  destruct (Plot.index _ 0) as [lo'|] eqn:Hlo' in Hlo; [|done].
  injection Hlo as <- <-.
  apply bind_Ok in Hrun as (hi & σ3 & Hhi & Hrun).
  unfold Plot.lift in Hhi.
  destruct (Plot.index _ (-1)) as [hi'|] eqn:Hhi' in Hhi; [|done].
  injection Hhi as <- <-.
  apply bind_Ok in Hrun as ([] & σ3 & Hxlim & Hrun).
  unfold Plot.plt_xlim in Hxlim.
  destruct (num_finite lo') eqn:Hflo; [|done].
  destruct (num_finite hi') eqn:Hfhi; [|done].
  injection Hxlim as <-. injection Hrun as <-.
  exists s, p, calls, lo', hi'. cbv zeta. fold hours.
  split_and!; try done.
  - unfold hours in Hlen. rewrite length_fmap in Hlen. done.
  - cbn [Plot.figure Plot.draw]. rewrite Hfig. cbn [Plot.figure Plot.draw].
    rewrite <- !app_assoc. reflexivity.
Qed.

(** Property X5: what the figure cell draws.  When it returns, [sec] and
    [mld_p79] were bound, with as many values in the one as in the other,
    and it has added to the figure, in this order, the curve P79 over
    [hours = sec/3600.], one scatter per case in the order of
    [casenames], with the depth diagnosed from the dataset of the case, a
    value per hour, and its colour, marker and label, the limits
    [hours[0]] and [hours[-1]] of the time axis, which are finite, and the
    saved file; no other variable changes.  Without [sec] the cell raises
    the [NameError] of [sec], with [sec] but without [mld_p79] that of
    [mld_p79], and with an empty [sec] it does not return. *)
Theorem figure_cell_draws σ :
  (∀ σ', Plot.cell6 E σ = Ok (tt, σ') →
     ∃ s p scatters lo hi,
       Plot.sec σ = Some s ∧ Plot.mld_p79 σ = Some p ∧
       let hours := (λ x, (x / num_dec 3600 0)%num) <$> s in
       length (values p) = length s ∧
       Forall2 (scatter_of E σ hours) (Plot.casenames σ) scatters ∧
       hours !! 0%nat = Some lo ∧ last hours = Some hi ∧
       num_finite lo = true ∧ num_finite hi = true ∧
       Plot.figure σ' =
         Plot.figure σ ++ PltPlot hours (values p) "P79" :: scatters
           ++ [PltXlim lo hi; PltSavefig "entrainment_ts_kc04-my.pdf"] ∧
       variables_of σ' = variables_of σ) ∧
  (Plot.sec σ = None → Plot.cell6 E σ = Raise (NameError "sec")) ∧
  (is_Some (Plot.sec σ) → Plot.mld_p79 σ = None →
   Plot.cell6 E σ = Raise (NameError "mld_p79")) ∧
  (Plot.sec σ = Some [] → ¬ is_Ok (Plot.cell6 E σ)).
Proof.
  split_and!.
  - intros σ' Hrun.
    destruct (cell6_Ok _ _ Hrun)
      as (s & p & scatters & lo & hi & Hs & Hp & Hlen & Hsc & Hlo & Hhi & Hflo &
          Hfhi & Hfig & Hv).
    exists s, p, scatters, lo, hi. cbv zeta. split_and!; try done.
    + apply (index_Ok_lookup _ 0). exact Hlo.
    + by apply index_Ok_last.
  - intros Hnone. unfold Plot.cell6.
    erewrite bind_step; [|reflexivity].
    apply bind_Raise. unfold Plot.bound, Plot.lift. by rewrite Hnone.
  - intros [s Hs] Hnone. unfold Plot.cell6.
    erewrite bind_step; [|reflexivity].
    erewrite bind_step; [|unfold Plot.bound, Plot.lift; rewrite Hs; reflexivity].
    cbv zeta. erewrite bind_step; [|reflexivity].
    apply bind_Raise. unfold Plot.bound, Plot.lift. by rewrite Hnone.
  - intros Hsec [[[] σ'] Hrun].
    destruct (cell6_Ok _ _ Hrun)
      as (s & p & scatters & lo & hi & Hs & _ & _ & _ & Hlo & _).
    rewrite Hsec in Hs. injection Hs as <-. simpl in Hlo.
    by rewrite index_nil in Hlo.
Qed.

(** *** The notebook from top to bottom *)

Lemma cell2_links_Ok σ σ' : Plot.cell2_links E σ = Ok (tt, σ') → σ' = σ.
Proof.
  rewrite cell2_links_eq. unfold mbind, stx_bind, mret, stx_ret, Plot.lift.
  destruct (os_path_islink E _); [|destruct (os_symlink E _ _) as [[]|]; [|done]];
    (destruct (os_path_islink E _); [|destruct (os_symlink E _ _) as [[]|]; [|done]]);
    by intros [= <-].
Qed.

Lemma scatters_table cs (table : list (color * string * string)) σ hours calls :
  (λ c, (Plot.colors σ !! c, Plot.markers σ !! c, Plot.labels σ !! c)) <$> cs
  = (λ s, (Some s.1.1, Some s.1.2, Some s.2)) <$> table →
  Forall2 (scatter_of E σ hours) cs calls →
  ∃ mlds,
    Forall2 (λ case mld, ∃ data, Plot.dataset σ !! case = Some data ∧
                                  diagnosed E data mld) cs mlds ∧
    calls = zip_with (λ mld s, PltScatter hours mld s.1.1 s.1.2 s.2) mlds table.
Proof.
  intros Htable Hcalls. revert table Htable.
  induction Hcalls as [|case call cs calls Hcall Hcalls IH]; intros table Htable.
  - by exists [].
  - destruct table as [|[[c m] l] table]; [done|]. simpl in Htable.
    injection Htable as Hc Hm Hl Htable.
    destruct (IH _ Htable) as (mlds & Hmlds & ->).
    destruct Hcall
      as (data & mld & c' & m' & l' & Hd & Hdiag & _ & Hc' & Hm' & Hl' & ->).
    exists (mld :: mlds). split.
    + constructor; [by exists data|done].
    + simpl. congruence.
Qed.

(** Property X6: the figure of the plot notebook run from top to bottom.
    When the notebook returns, the figure has gained the curve P79,
    computed from [NN[2,-1,0,0]], [u_taus[-1,0,0]] and the time axis of
    the dataset loaded for ['KPP-CVMix'], the first case; then seven
    scatters, of the seven cases in their order, each with the depth
    diagnosed from the dataset loaded from
    [../gotm/run/Entrainment-KC04/<case>] and with the style of its row
    of [style_table]; then the limits of the time axis and the saved
    file. *)
Theorem plot_notebook_figure σ0 σ :
  Plot.notebook E σ0 = Ok (tt, σ) →
  ∃ data0 nn0 ustar t0 mlds lo hi,
    load_data E {| sim_path := "../gotm/run/Entrainment-KC04/KPP-CVMix" |} = Ok data0 ∧
    Plot.index4 (NN data0) 2 (-1) 0 0 = Ok nn0 ∧
    Plot.index3 (u_taus data0) (-1) 0 0 = Ok ustar ∧
    time data0 !! 0%nat = Some t0 ∧
    let sec := Plot.seconds_since t0 (time data0) in
    let hours := (λ x, (x / num_dec 3600 0)%num) <$> sec in
    Forall2 (λ case mld,
               ∃ data, load_data E {| sim_path := "../gotm/run/Entrainment-KC04/" +:+ case |}
                       = Ok data ∧ diagnosed E data mld)
      ["KPP-CVMix"; "KPPLT-LF17"; "KC04-MY-e6-1.0"; "KC04-MY-e6-4.0";
       "KC04-MY-e6-6.0"; "KC04-MY-e6-7.0"; "KC04-MY-NS"] mlds ∧
    hours !! 0%nat = Some lo ∧ last hours = Some hi ∧
    Plot.figure σ =
      Plot.figure σ0
      ++ PltPlot hours (Plot.mld_val ustar (num_sqrt nn0) sec) "P79"
         :: zip_with (λ mld s, PltScatter hours mld s.1.1 s.1.2 s.2) mlds style_table
      ++ [PltXlim lo hi; PltSavefig "entrainment_ts_kc04-my.pdf"].
Proof.
  intros Hrun. rewrite plot_notebook_eq in Hrun.
  apply bind_Ok in Hrun as ([] & σ2 & H2 & Hrun).
  apply bind_Ok in H2 as ([] & σ1 & H1 & Hlinks).
  apply cell2_links_Ok in Hlinks as ->.
  apply bind_Ok in Hrun as ([] & σ4 & H4 & Hrun).
  rewrite <- cell4_eq in H4.
  apply bind_Ok in Hrun as ([] & σ5 & H5 & H6).
  (* the styles *)
  destruct (cell2_styles_spec σ0) as (σ1' & H1' & Hcs & _).
  rewrite H1 in H1'. injection H1' as <-.
  destruct (cell2_styles_lookups _ _ H1) as (Htable & _ & Hkeep1).
  injection Hkeep1 as _ _ _ _ Hfig1.
  (* the load loop *)
  pose proof H4 as H4'. rewrite cell4_eq in H4'.
  apply bind_Ok in H4' as ([] & τ1 & [= <-] & H4').
  apply bind_Ok in H4' as ([] & τ2 & [= <-] & H4').
  apply bind_Ok in H4' as (cs & τ3 & [= <- <-] & H4').
  destruct (cell4_loop_Ok _ _ _ _ H4') as (_ & Hin & _).
  destruct (cell4_loop_sims _ _ _ H4') as (_ & _ & Hkeep4).
  cbn [Plot.casenames Plot.set_dataset Plot.set_sims styles_of Plot.labels
       Plot.colors Plot.markers Plot.nkpp Plot.sec Plot.mld_p79 Plot.figure]
    in Hin, Hkeep4.
  injection Hkeep4 as Hcs4 Hl4 Hc4 Hm4 _ _ _ Hfig4.
  (* the prediction *)
  destruct (cell5_Ok _ _ H5) as (case0 & data0 & nn0 & ustar & t0 & Hcase0 & Hd0 &
                                   Hnn & Hu & Ht0 & ->).
  rewrite Hcs4, Hcs in Hcase0. unfold all_cases in Hcase0.
  rewrite index_head in Hcase0. injection Hcase0 as <-.
  (* the figure *)
  destruct (cell6_Ok _ _ H6)
    as (s & p & scatters & lo & hi & Hs & Hp & _ & Hsc & Hlo & Hhi & _ & _ & Hfig & _).
  cbn [Plot.mld_p79 Plot.set_mld_p79 Plot.set_sec Plot.sec Plot.casenames
       Plot.figure] in Hs, Hp, Hsc, Hlo, Hhi, Hfig.
  injection Hs as <-. injection Hp as <-. cbn [values] in Hfig.
  rewrite Hcs4, Hcs in Hsc.
  match type of Hsc with
  | Forall2 (scatter_of _ ?τ _) _ _ =>
      assert ((λ c, (Plot.colors τ !! c, Plot.markers τ !! c, Plot.labels τ !! c))
                <$> all_cases
              = (λ s, (Some s.1.1, Some s.1.2, Some s.2)) <$> style_table) as Htable5
  end.
  { cbn [Plot.colors Plot.markers Plot.labels Plot.set_mld_p79 Plot.set_sec].
    rewrite Hl4, Hc4, Hm4. rewrite <- Hcs. exact Htable. }
  destruct (scatters_table _ _ _ _ _ Htable5 Hsc) as (mlds & Hmlds & ->).
  exists data0, nn0, ustar, t0, mlds, lo, hi. cbv zeta. split_and!.
  - destruct (Hin "KPP-CVMix") as (d & Hd & Hload).
    { rewrite Hcs. left. }
    rewrite Hd0 in Hd. injection Hd as <-. exact Hload.
  - exact Hnn.
  - exact Hu.
  - apply (index_Ok_lookup _ 0). exact Ht0.
  - unfold all_cases in Hmlds. eapply Forall2_impl; [exact Hmlds|].
    intros case mld (data & Hd & Hdiag).
    cbn [Plot.dataset Plot.set_mld_p79 Plot.set_sec] in Hd.
    exists data. split; [|done].
    assert (case ∈ Plot.casenames σ1) as Hcase.
    { destruct (decide (case ∈ Plot.casenames σ1)) as [|Hnot]; [done|exfalso].
      destruct (cell4_loop_Ok _ _ _ _ H4') as (Hdom & _ & _).
      cbn [Plot.dataset Plot.set_dataset Plot.set_sims Plot.casenames] in Hdom.
      assert (case ∈ dom (Plot.dataset σ4)) as Hdomc by (by apply elem_of_dom).
      rewrite Hdom, dom_empty_L in Hdomc.
      apply Hnot. apply (elem_of_list_to_set (C := gset string)).
      clear -Hdomc. set_solver. }
    destruct (Hin _ Hcase) as (d & Hd' & Hload).
    rewrite Hd in Hd'. injection Hd' as <-. exact Hload.
  - apply (index_Ok_lookup _ 0). exact Hlo.
  - by apply index_Ok_last.
  - rewrite Hfig, Hfig4, Hfig1. reflexivity.
Qed.
End plot_more.

Lemma load_loop_simulations_witness :
  dom (Plot.sims Sample.loaded) = list_to_set (Plot.casenames Sample.styled) ∧
  (∀ case, case ∈ Plot.casenames Sample.styled →
     Plot.sims Sample.loaded !! case
     = Some {| sim_path := "../gotm/run/Entrainment-KC04/" +:+ case |}) ∧
  (∀ c1 c2 s, Plot.sims Sample.loaded !! c1 = Some s →
     Plot.sims Sample.loaded !! c2 = Some s → c1 = c2) ∧
  (styles_of Sample.loaded, Plot.nkpp Sample.loaded, Plot.sec Sample.loaded,
   Plot.mld_p79 Sample.loaded, Plot.figure Sample.loaded)
  = (styles_of Sample.styled, Plot.nkpp Sample.styled, Plot.sec Sample.styled,
     Plot.mld_p79 Sample.styled, Plot.figure Sample.styled).
Proof.
  apply (load_loop_simulations Sample.plot_tool Sample.styled Sample.loaded).
  vm_compute. reflexivity.
Defined.

Lemma plot_notebook_figure_witness :
  ∃ data0 nn0 ustar t0 mlds lo hi,
    load_data Sample.plot_tool
      {| sim_path := "../gotm/run/Entrainment-KC04/KPP-CVMix" |} = Ok data0 ∧
    Plot.index4 (NN data0) 2 (-1) 0 0 = Ok nn0 ∧
    Plot.index3 (u_taus data0) (-1) 0 0 = Ok ustar ∧
    time data0 !! 0%nat = Some t0 ∧
    let sec := Plot.seconds_since t0 (time data0) in
    let hours := (λ x, (x / num_dec 3600 0)%num) <$> sec in
    Forall2 (λ case mld,
               ∃ data, load_data Sample.plot_tool
                         {| sim_path := "../gotm/run/Entrainment-KC04/" +:+ case |}
                       = Ok data ∧ diagnosed Sample.plot_tool data mld)
      ["KPP-CVMix"; "KPPLT-LF17"; "KC04-MY-e6-1.0"; "KC04-MY-e6-4.0";
       "KC04-MY-e6-6.0"; "KC04-MY-e6-7.0"; "KC04-MY-NS"] mlds ∧
    hours !! 0%nat = Some lo ∧ last hours = Some hi ∧
    Plot.figure sample_plotted =
      Plot.figure Plot.initial
      ++ PltPlot hours (Plot.mld_val ustar (num_sqrt nn0) sec) "P79"
         :: zip_with (λ mld s, PltScatter hours mld s.1.1 s.1.2 s.2) mlds style_table
      ++ [PltXlim lo hi; PltSavefig "entrainment_ts_kc04-my.pdf"].
Proof.
  apply (plot_notebook_figure Sample.plot_tool Plot.initial sample_plotted).
  vm_compute. reflexivity.
Defined.

(** ** The curve in binary64 *)

Lemma leb_0_nonneg (x : float) : PrimFloat.leb 0 x = sf_nonneg (Prim2SF x).
Proof.
  rewrite FloatAxioms.leb_spec. change (Prim2SF 0) with (S754_zero false).
  by destruct (Prim2SF x) as [[]|[]| |[] m e].
Qed.

Lemma ltb_0_pos (x : float) : PrimFloat.ltb 0 x = sf_pos (Prim2SF x).
Proof.
  rewrite FloatAxioms.ltb_spec. change (Prim2SF 0) with (S754_zero false).
  by destruct (Prim2SF x) as [[]|[]| |[] m e].
Qed.

Lemma eqb_0_zero (x : float) :
  PrimFloat.eqb x 0 = true ↔ ∃ s, Prim2SF x = S754_zero s.
Proof.
  rewrite FloatAxioms.eqb_spec. change (Prim2SF 0) with (S754_zero false).
  destruct (Prim2SF x) as [[]|[]| |[] m e]; split; try done; eauto; by intros [? ?].
Qed.

Lemma is_finite_spec (x : float) : PrimFloat.is_finite x = sf_finite (Prim2SF x).
Proof.
  unfold is_finite, is_nan, is_infinity. rewrite !FloatAxioms.eqb_spec, FloatAxioms.abs_spec.
  change (Prim2SF infinity) with (S754_infinity false).
  destruct (Prim2SF x) as [[]|[]| |s m e]; try done.
  unfold SFeqb, SFabs, SFcompare. rewrite Z.compare_refl.
  destruct s; rewrite Pos.compare_cont_refl; reflexivity.
Qed.

(** Rounding a nonnegative significand never gives NaN and keeps the
    sign. *)
Lemma iter_pos_shr_1_nonneg p r :
  0 ≤ shr_m r → 0 ≤ shr_m (SpecFloat.iter_pos shr_1 p r).
Proof.
  revert r. induction p as [p IH|p IH|]; intros r Hr; simpl.
  - apply IH, IH. destruct r as [[|[q|q|]|q] ? ?]; simpl in *; lia.
  - by apply IH, IH.
  - destruct r as [[|[q|q|]|q] ? ?]; simpl in *; lia.
Qed.

Lemma shr_fexp_nonneg prec emax m e l :
  0 ≤ m → 0 ≤ shr_m (shr_fexp prec emax m e l).1.
Proof.
  intros Hm. unfold shr_fexp, shr.
  assert (0 ≤ shr_m (shr_record_of_loc m l)) by (by destruct l as [|[]]).
  destruct (_ - e) as [|p|p]; simpl; [done| |done].
  by apply iter_pos_shr_1_nonneg.
Qed.

Lemma binary_round_aux_sign prec emax sx mx ex lx :
  0 ≤ mx →
  match binary_round_aux prec emax sx mx ex lx with
  | S754_zero s | S754_infinity s | S754_finite s _ _ => s = sx
  | S754_nan => False
  end.
Proof.
  intros Hm. unfold binary_round_aux.
  pose proof (shr_fexp_nonneg prec emax mx ex lx Hm) as H1.
  destruct (shr_fexp prec emax mx ex lx) as [mrs' e']. simpl in H1.
  assert (0 ≤ round_nearest_even (shr_m mrs') (loc_of_shr_record mrs')) as H2.
  { unfold round_nearest_even. destruct (loc_of_shr_record mrs') as [|[]]; try done.
    - destruct (Z.even _); lia.
    - lia. }
  pose proof (shr_fexp_nonneg prec emax _ e' loc_Exact H2) as H3.
  destruct (shr_fexp prec emax _ e' loc_Exact) as [mrs'' e'']. simpl in H3.
  destruct (shr_m mrs'') as [|m|m]; [done| |lia].
  by destruct (_ <=? _).
Qed.

Lemma SFmul_nonneg x y :
  sf_nonneg x = true → sf_nonneg y = true →
  sf_finite x = true → sf_finite y = true →
  sf_nonneg (SF64mul x y) = true.
Proof.
  destruct x as [[]|[]| |[] mx ex], y as [[]|[]| |[] my ey]; try done.
  intros _ _ _ _. unfold SF64mul, SFmul. simpl xorb.
  pose proof (binary_round_aux_sign prec emax false (Z.pos (mx * my)) (ex + ey)
                loc_Exact ltac:(lia)) as Hs.
  by destruct (binary_round_aux _ _ _ _ _ _) as [[]|[]| |[] ? ?].
Qed.

Lemma SFmul_zero x s : sf_finite x = true → ∃ s', SF64mul x (S754_zero s) = S754_zero s'.
Proof. destruct x as [sx|[]| |sx mx ex]; try done; intros _; by eexists. Qed.

Lemma SFdiv_nonneg x y :
  sf_nonneg x = true → sf_pos y = true →
  sf_nonneg (SF64div x y) = true ∨ SF64div x y = S754_nan.
Proof.
  destruct x as [[]|[]| |[] mx ex], y as [[]|[]| |[] my ey]; try done;
    intros _ _; try (by left); try (by right).
  unfold SF64div, SFdiv. simpl xorb.
  destruct (SFdiv_core_binary prec emax (Z.pos mx) ex (Z.pos my) ey) as [[mz ez] lz] eqn:Hcore.
  assert (0 ≤ mz) as Hmz.
  { unfold SFdiv_core_binary in Hcore.
    match type of Hcore with context [Z.div_eucl ?a ?b] =>
      pose proof (Z_div_mod a b ltac:(lia)) as Hdm;
      assert (0 ≤ a) as Ha; [|destruct (Z.div_eucl a b) as [q r] eqn:Hqr] end.
    { destruct (_ - _ - _) as [|p|p]; [lia|apply Z.shiftl_nonneg; lia|lia]. }
    injection Hcore as <- _ _. destruct Hdm as [Hdm Hr]. nia. }
  pose proof (binary_round_aux_sign prec emax false mz ez lz Hmz) as Hs.
  left. by destruct (binary_round_aux _ _ _ _ _ _) as [[]|[]| |[] ? ?].
Qed.

Lemma SFdiv_zero s y : sf_pos y = true → ∃ s', SF64div (S754_zero s) y = S754_zero s'.
Proof. destruct y as [[]|[]| |[] my ey]; try done; intros _; by eexists. Qed.

Lemma SFsqrt_nonneg x :
  sf_nonneg x = true → sf_nonneg (SF64sqrt x) = true.
Proof.
  destruct x as [[]|[]| |[] mx ex]; try done. intros _.
  unfold SF64sqrt, SFsqrt.
  destruct (SFsqrt_core_binary prec emax (Z.pos mx) ex) as [[mz ez] lz] eqn:Hcore.
  assert (0 ≤ mz) as Hmz.
  { unfold SFsqrt_core_binary in Hcore.
    match type of Hcore with context [Z.sqrtrem ?a] =>
      assert (0 ≤ a) as Ha; [|pose proof (Z.sqrtrem_spec a Ha) as Hsq;
                               destruct (Z.sqrtrem a) as [q r] eqn:Hqr] end.
    { destruct (_ - _) as [|p|p]; [lia|apply Z.shiftl_nonneg; lia|lia]. }
    injection Hcore as <- _ _. destruct Hsq as [Hsq Hr]. nia. }
  pose proof (binary_round_aux_sign prec emax false mz ez lz Hmz) as Hs.
  by destruct (binary_round_aux _ _ _ _ _ _) as [[]|[]| |[] ? ?].
Qed.

Lemma SFmul_nonneg_or_nan x y :
  sf_nonneg x = true → sf_nonneg y = true →
  sf_nonneg (SF64mul x y) = true ∨ SF64mul x y = S754_nan.
Proof.
  destruct x as [[]|[]| |[] mx ex], y as [[]|[]| |[] my ey]; try done;
    intros _ _; try (by left); try (by right).
  left. by apply SFmul_nonneg.
Qed.

Lemma mld_val_binary64_lookup (ustar N0 : float) (sec : list float) i s :
  sec !! i = Some s →
  Plot.mld_val ustar N0 sec !! i
  = Some (0x1.0bf047ce88932p+0 * ustar * PrimFloat.sqrt (s / N0))%float.
Proof.
  intros Hs. rewrite mld_val_binary64, list_lookup_fmap, Hs. reflexivity.
Qed.



(** ** Rounding is monotone *)

(** *** Powers of two *)


Lemma b2_pos e : (0 < b2 e)%R.
Proof. apply powerRZ_lt. lra. Qed.

Lemma b2_add a b : b2 (a + b) = (b2 a * b2 b)%R.
Proof. apply powerRZ_add. lra. Qed.

Lemma b2_0 : b2 0 = 1%R.
Proof. reflexivity. Qed.

Lemma b2_1 : b2 1 = 2%R.
Proof. unfold b2. simpl. lra. Qed.

Lemma b2_succ e : b2 (e + 1) = (2 * b2 e)%R.
Proof. rewrite b2_add, b2_1. lra. Qed.

Lemma b2_nat (n : nat) : b2 (Z.of_nat n) = (2 ^ n)%R.
Proof. unfold b2. by rewrite <- pow_powerRZ. Qed.

Lemma b2_IZR n : 0 ≤ n → b2 n = IZR (2 ^ n).
Proof.
  intros Hn. rewrite <- (Z2Nat.id n) at 1 by done. rewrite b2_nat.
  rewrite <- (Z2Nat.id n) at 2 by done. by rewrite <- pow_IZR.
Qed.

Lemma b2_ge_1 n : 0 ≤ n → (1 <= b2 n)%R.
Proof.
  intros Hn. rewrite b2_IZR by done. apply IZR_le.
  pose proof (Z.pow_pos_nonneg 2 n). lia.
Qed.

Lemma b2_le a b : a ≤ b → (b2 a <= b2 b)%R.
Proof.
  intros Hab. replace b with (a + (b - a)) by lia. rewrite b2_add.
  pose proof (b2_pos a). pose proof (b2_ge_1 (b - a) ltac:(lia)). nra.
Qed.

Lemma b2_lt a b : a < b → (b2 a < b2 b)%R.
Proof.
  intros Hab. replace b with ((a + 1) + (b - a - 1)) by lia.
  rewrite b2_add, b2_succ.
  pose proof (b2_pos a). pose proof (b2_ge_1 (b - a - 1) ltac:(lia)). nra.
Qed.

Lemma b2_lt_inv a b : (b2 a < b2 b)%R → a < b.
Proof.
  intros H. destruct (Z.lt_ge_cases a b) as [|Hge]; [done|].
  pose proof (b2_le _ _ Hge). lra.
Qed.

Lemma b2_le_inv a b : (b2 a <= b2 b)%R → a ≤ b.
Proof.
  intros H. destruct (Z.le_gt_cases a b) as [|Hgt]; [done|].
  pose proof (b2_lt _ _ Hgt). lra.
Qed.

(** *** The number of digits of a mantissa *)

Lemma digits2_pos_spec p :
  2 ^ (Z.pos (digits2_pos p) - 1) ≤ Z.pos p < 2 ^ Z.pos (digits2_pos p).
Proof.
  induction p as [p IH|p IH|]; simpl digits2_pos.
  - rewrite Pos2Z.inj_succ. replace (Z.succ (Z.pos (digits2_pos p)) - 1)
      with (Z.succ (Z.pos (digits2_pos p) - 1)) by lia.
    rewrite !Z.pow_succ_r by lia. lia.
  - rewrite Pos2Z.inj_succ. replace (Z.succ (Z.pos (digits2_pos p)) - 1)
      with (Z.succ (Z.pos (digits2_pos p) - 1)) by lia.
    rewrite !Z.pow_succ_r by lia. lia.
  - simpl. lia.
Qed.

Lemma Zdigits2_spec m : 0 < m → 2 ^ (Zdigits2 m - 1) ≤ m < 2 ^ Zdigits2 m.
Proof. destruct m as [|p|p]; [lia| |lia]. intros _. apply digits2_pos_spec. Qed.

Lemma Zdigits2_pos m : 0 < m → 0 < Zdigits2 m.
Proof. destruct m; simpl; lia. Qed.

Lemma Zdigits2_unique m d : 0 < m → 2 ^ (d - 1) ≤ m < 2 ^ d → Zdigits2 m = d.
Proof.
  intros Hm [Hlo Hhi]. pose proof (Zdigits2_spec m Hm) as [Hlo' Hhi'].
  pose proof (Zdigits2_pos m Hm) as HD.
  assert (0 < d) as Hd.
  { destruct (Z.lt_ge_cases 0 d) as [|Hle]; [done|].
    assert (2 ^ d ≤ 1); [|lia].
    destruct (Z.eq_dec d 0) as [->|]; [done|]. rewrite Z.pow_neg_r; lia. }
  destruct (Z.lt_trichotomy (Zdigits2 m) d) as [Hlt|[Heq|Hgt]]; [|done|].
  - assert (2 ^ Zdigits2 m ≤ 2 ^ (d - 1)) by (apply Z.pow_le_mono_r; lia). lia.
  - assert (2 ^ d ≤ 2 ^ (Zdigits2 m - 1)) by (apply Z.pow_le_mono_r; lia). lia.
Qed.

(** In terms of real numbers. *)
Lemma Zdigits2_b2 m : 0 < m → (b2 (Zdigits2 m - 1) <= IZR m < b2 (Zdigits2 m))%R.
Proof.
  intros Hm. pose proof (Zdigits2_spec m Hm) as [Hlo Hhi].
  pose proof (Zdigits2_pos m Hm).
  rewrite !b2_IZR by lia. split; [by apply IZR_le|by apply IZR_lt].
Qed.


Lemma located_bounds x m e l :
  located x m e l → (IZR m * b2 e <= x < (IZR m + 1) * b2 e)%R.
Proof.
  pose proof (b2_pos e). destruct l as [|[]]; simpl; intros Hx; nra.
Qed.

Lemma loc_of_shr_record_of_loc m l :
  loc_of_shr_record (shr_record_of_loc m l) = l ∧ shr_m (shr_record_of_loc m l) = m.
Proof. by destruct l as [|[]]. Qed.

Lemma shr_1_spec m r s :
  0 ≤ m →
  shr_1 {| shr_m := m; shr_r := r; shr_s := s |}
  = {| shr_m := Z.div2 m; shr_r := Z.odd m; shr_s := r || s |}.
Proof. destruct m as [|[p|p|]|p]; try lia; reflexivity. Qed.

Lemma located_shr_1 x mrs e :
  0 ≤ shr_m mrs → located x (shr_m mrs) e (loc_of_shr_record mrs) →
  0 ≤ shr_m (shr_1 mrs) ∧
  located x (shr_m (shr_1 mrs)) (e + 1) (loc_of_shr_record (shr_1 mrs)).
Proof.
  destruct mrs as [m r s]. cbn [shr_m]. intros Hm Hx.
  rewrite shr_1_spec by done. cbn [shr_m].
  pose proof (Z.div2_odd m) as Hdiv.
  split; [destruct (Z.odd m); simpl in Hdiv; lia|].
  pose proof (b2_pos e) as Hw. pose proof (b2_succ e) as Hw2.
  assert (IZR m * b2 e
          = 2 * (IZR (Z.div2 m) * b2 e) + IZR (Z.b2z (Z.odd m)) * b2 e)%R as HR.
  { rewrite Hdiv at 1. rewrite plus_IZR, mult_IZR. ring. }
  clear Hdiv.
  destruct (Z.odd m), r, s; simpl in *; rewrite Hw2; nra.
Qed.

Lemma located_iter_shr_1 x p : ∀ mrs e,
  0 ≤ shr_m mrs → located x (shr_m mrs) e (loc_of_shr_record mrs) →
  0 ≤ shr_m (SpecFloat.iter_pos shr_1 p mrs) ∧
  located x (shr_m (SpecFloat.iter_pos shr_1 p mrs)) (e + Z.pos p)
    (loc_of_shr_record (SpecFloat.iter_pos shr_1 p mrs)).
Proof.
  induction p as [p IH|p IH|]; intros mrs e Hm Hx; simpl SpecFloat.iter_pos.
  - destruct (located_shr_1 _ _ _ Hm Hx) as [Hm1 Hx1].
    destruct (IH _ _ Hm1 Hx1) as [Hm2 Hx2].
    destruct (IH _ _ Hm2 Hx2) as [Hm3 Hx3].
    split; [done|]. by replace (e + Z.pos p~1) with (e + 1 + Z.pos p + Z.pos p) by lia.
  - destruct (IH _ _ Hm Hx) as [Hm2 Hx2].
    destruct (IH _ _ Hm2 Hx2) as [Hm3 Hx3].
    split; [done|]. by replace (e + Z.pos p~0) with (e + Z.pos p + Z.pos p) by lia.
  - by apply located_shr_1.
Qed.

Section rounding.
Variables prec emax : Z.
Hypothesis Hprec : 0 < prec.
Hypothesis Hemax : 3 ≤ emax + prec.

Abbreviation fexp := (SpecFloat.fexp prec emax).
Abbreviation emin := (SpecFloat.emin prec emax).

Lemma fexp_mono a b : a ≤ b → fexp a ≤ fexp b.
Proof. unfold SpecFloat.fexp. lia. Qed.

Lemma fexp_ge_emin a : emin ≤ fexp a.
Proof. unfold SpecFloat.fexp. lia. Qed.

Lemma emin_nonpos : emin ≤ 0.
Proof. unfold SpecFloat.emin. lia. Qed.

(** The right shift that brings a mantissa to the exponent of the format
    keeps the location of the number. *)
Lemma located_shr_fexp x m e l mrs' e' :
  0 ≤ m → located x m e l →
  shr_fexp prec emax m e l = (mrs', e') →
  0 ≤ shr_m mrs' ∧ located x (shr_m mrs') e' (loc_of_shr_record mrs') ∧
  e' = Z.max e (fexp (Zdigits2 m + e)).
Proof.
  intros Hm Hx. unfold shr_fexp, shr.
  destruct (loc_of_shr_record_of_loc m l) as [Hl Hrm].
  destruct (fexp (Zdigits2 m + e) - e) as [|p|p] eqn:Hn.
  - intros [= <- <-]. rewrite Hl, Hrm. split_and!; [done|done|lia].
  - intros [= <- <-].
    destruct (located_iter_shr_1 x p (shr_record_of_loc m l) e) as [H1 H2].
    + by rewrite Hrm.
    + by rewrite Hl, Hrm.
    + split_and!; [done|done|lia].
  - intros [= <- <-]. rewrite Hl, Hrm. split_and!; [done|done|lia].
Qed.

(** *** Rounding to nearest *)

Lemma round_nearest_even_cases m l :
  round_nearest_even m l = m ∨ round_nearest_even m l = m + 1.
Proof. destruct l as [|[]]; simpl; try (by left); try (by right). destruct (Z.even m); eauto. Qed.

Lemma IZR_mul_b2_lt a b e : (IZR a * b2 e < IZR b * b2 e)%R → a < b.
Proof. pose proof (b2_pos e) as Hw. intros H. apply lt_IZR. nra. Qed.

Lemma IZR_mul_b2_le a b e : a ≤ b → (IZR a * b2 e <= IZR b * b2 e)%R.
Proof. pose proof (b2_pos e) as Hw. intros H%IZR_le. nra. Qed.

(** On one grid, rounding is monotone. *)
Lemma round_nearest_even_mono x1 x2 m1 m2 e l1 l2 :
  located x1 m1 e l1 → located x2 m2 e l2 → (x1 <= x2)%R →
  round_nearest_even m1 l1 ≤ round_nearest_even m2 l2.
Proof.
  intros H1 H2 Hx.
  pose proof (located_bounds _ _ _ _ H1) as B1.
  pose proof (located_bounds _ _ _ _ H2) as B2.
  pose proof (b2_pos e) as Hw.
  assert (m1 < m2 + 1) as Hm.
  { apply (IZR_mul_b2_lt _ _ e). rewrite plus_IZR. lra. }
  destruct (round_nearest_even_cases m1 l1) as [R1|R1],
    (round_nearest_even_cases m2 l2) as [R2|R2]; try lia.
  destruct (Z.eq_dec m1 m2) as [->|]; [|lia]. exfalso.
  destruct l1 as [|[]], l2 as [|[]]; simpl in *;
    try lia; try nra; destruct (Z.even m2); lia.
Qed.


Lemma placed_of_located x m e l mrs' e' :
  0 ≤ m → located x m e l → e ≤ fexp (Zdigits2 m + e) →
  shr_fexp prec emax m e l = (mrs', e') →
  e' = fexp (Zdigits2 m + e) ∧
  placed prec emax x (Zdigits2 m + e) (shr_m mrs') (loc_of_shr_record mrs').
Proof.
  intros Hm Hx He Hshr.
  destruct (located_shr_fexp _ _ _ _ _ _ Hm Hx Hshr) as (Hm' & Hx' & He').
  assert (e' = fexp (Zdigits2 m + e)) as -> by lia.
  split; [done|]. split; [done|]. split; [done|].
  pose proof (located_bounds _ _ _ _ Hx) as [Hlo Hhi].
  pose proof (b2_pos e) as Hw.
  destruct (Z.eq_dec m 0) as [->|Hne].
  - simpl Zdigits2 in *. rewrite Z.add_0_l in *. split.
    + simpl in Hlo, Hhi. lra.
    + right. unfold SpecFloat.fexp in He. lia.
  - assert (0 < m) as Hpos by lia.
    pose proof (Zdigits2_b2 m Hpos) as [Hdl Hdh].
    pose proof (Zdigits2_spec m Hpos) as [_ Hdz].
    pose proof (Zdigits2_pos m Hpos) as Hd.
    rewrite b2_add. replace (Zdigits2 m + e - 1) with (Zdigits2 m - 1 + e) by lia.
    rewrite b2_add.
    assert (IZR m + 1 <= b2 (Zdigits2 m))%R.
    { rewrite b2_IZR by lia. rewrite <- plus_IZR. apply IZR_le. lia. }
    assert (0 < IZR m)%R by by apply IZR_lt.
    split; [split; nra|left; nra].
Qed.

Lemma placed_mantissa x k m l :
  placed prec emax x k m l →
  (k ≤ fexp k → m = 0) ∧
  (fexp k ≤ k → m + 1 ≤ 2 ^ (k - fexp k)) ∧
  (emin < k → 2 ^ (k - 1 - fexp k) ≤ m).
Proof.
  intros (Hx & Hm & [Hx0 Hxk] & Hlow).
  pose proof (located_bounds _ _ _ _ Hx) as [Hlo Hhi].
  pose proof (b2_pos (fexp k)) as Hw.
  split_and!.
  - intros Hk. pose proof (b2_le _ _ Hk).
    assert (m < 1); [|lia]. apply (IZR_mul_b2_lt _ _ (fexp k)). lra.
  - intros Hk. assert (m < 2 ^ (k - fexp k)); [|lia].
    apply (IZR_mul_b2_lt _ _ (fexp k)).
    rewrite <- b2_IZR, <- b2_add by lia. replace (k - fexp k + fexp k) with k by lia.
    lra.
  - intros Hk. destruct Hlow as [Hlow|]; [|lia].
    assert (fexp k ≤ k - 1) by (unfold SpecFloat.fexp; lia).
    assert (2 ^ (k - 1 - fexp k) < m + 1); [|lia].
    apply (IZR_mul_b2_lt _ _ (fexp k)).
    rewrite <- b2_IZR, <- b2_add by lia.
    replace (k - 1 - fexp k + fexp k) with (k - 1) by lia.
    rewrite plus_IZR. lra.
Qed.

(** Rounding is monotone, whatever the magnitudes. *)
Lemma round_value_mono x1 x2 k1 k2 m1 m2 l1 l2 :
  placed prec emax x1 k1 m1 l1 → placed prec emax x2 k2 m2 l2 → (x1 <= x2)%R →
  (IZR (round_nearest_even m1 l1) * b2 (fexp k1)
   <= IZR (round_nearest_even m2 l2) * b2 (fexp k2))%R.
Proof.
  intros P1 P2 Hx.
  pose proof (placed_mantissa _ _ _ _ P1) as (Hz1 & Hu1 & Hl1).
  pose proof (placed_mantissa _ _ _ _ P2) as (Hz2 & Hu2 & Hl2).
  destruct P1 as (L1 & Hm1 & [Hx10 Hx1k] & Hlow1).
  destruct P2 as (L2 & Hm2 & [Hx20 Hx2k] & Hlow2).
  assert (fexp k1 ≤ fexp k2) as Hle.
  { destruct Hlow1 as [Hlow1|Hk1].
    - apply fexp_mono. assert (k1 - 1 < k2); [|lia]. apply b2_lt_inv. lra.
    - unfold SpecFloat.fexp. lia. }
  destruct (Z.eq_dec (fexp k1) (fexp k2)) as [Heq|Hne].
  - rewrite Heq in L1 |- *. apply IZR_mul_b2_le.
    by eapply round_nearest_even_mono.
  - assert (fexp k1 < fexp k2) as Hlt by lia. clear Hle Hne.
    assert (k1 < k2) as Hk.
    { destruct (Z.lt_ge_cases k1 k2) as [|Hge]; [done|].
      pose proof (fexp_mono _ _ Hge). lia. }
    assert (emin < k2 ∧ fexp k2 = k2 - prec) as [Hk2 He2].
    { pose proof (fexp_ge_emin k1). unfold SpecFloat.fexp in *. lia. }
    specialize (Hl2 Hk2).
    (* both sides against 2^(k2-1) *)
    transitivity (b2 (k2 - 1)).
    + destruct (round_nearest_even_cases m1 l1) as [->| ->].
      all: destruct (Z.le_gt_cases (fexp k1) k1) as [Hc|Hc].
      all: try (specialize (Hu1 Hc)); try (rewrite (Hz1 ltac:(lia)) in * ).
      * transitivity (IZR (2 ^ (k1 - fexp k1)) * b2 (fexp k1))%R.
        { apply IZR_mul_b2_le. lia. }
        rewrite <- b2_IZR, <- b2_add by lia. apply b2_le. lia.
      * rewrite Rmult_0_l. pose proof (b2_pos (k2 - 1)). lra.
      * transitivity (IZR (2 ^ (k1 - fexp k1)) * b2 (fexp k1))%R.
        { apply IZR_mul_b2_le. lia. }
        rewrite <- b2_IZR, <- b2_add by lia. apply b2_le. lia.
      * simpl. rewrite Rmult_1_l. apply b2_le. lia.
    + transitivity (IZR m2 * b2 (fexp k2))%R.
      * transitivity (IZR (2 ^ (k2 - 1 - fexp k2)) * b2 (fexp k2))%R.
        { rewrite <- b2_IZR, <- b2_add by lia. apply b2_le. lia. }
        by apply IZR_mul_b2_le.
      * apply IZR_mul_b2_le.
        destruct (round_nearest_even_cases m2 l2) as [->| ->]; lia.
Qed.

(** *** The mantissa after rounding *)

Lemma shr_fexp_exact_0 r e :
  fexp (Zdigits2 r + e) ≤ e →
  shr_fexp prec emax r e loc_Exact
  = ({| shr_m := r; shr_r := false; shr_s := false |}, e).
Proof.
  intros Hn. unfold shr_fexp, shr. simpl shr_record_of_loc.
  destruct (fexp (Zdigits2 r + e) - e) as [|p|p] eqn:Hp; [done|lia|done].
Qed.

Lemma shr_fexp_exact_1 r e :
  0 ≤ r → fexp (Zdigits2 r + e) = e + 1 →
  shr_fexp prec emax r e loc_Exact
  = ({| shr_m := Z.div2 r; shr_r := Z.odd r; shr_s := false |}, e + 1).
Proof.
  intros Hr Hn. unfold shr_fexp, shr. simpl shr_record_of_loc.
  replace (fexp (Zdigits2 r + e) - e) with 1 by lia.
  cbn [SpecFloat.iter_pos]. by rewrite shr_1_spec.
Qed.

(** After rounding, the mantissa is brought to the exponent of the
    format again: the value stays, and the result is zero or in the form
    the format gives a number. *)
Lemma round_renormalize x k m l mrs'' e'' :
  placed prec emax x k m l →
  shr_fexp prec emax (round_nearest_even m l) (fexp k) loc_Exact = (mrs'', e'') →
  0 ≤ shr_m mrs'' ∧
  (IZR (shr_m mrs'') * b2 e'' = IZR (round_nearest_even m l) * b2 (fexp k))%R ∧
  (0 < shr_m mrs'' → fexp (Zdigits2 (shr_m mrs'') + e'') = e'').
Proof.
  intros P. pose proof (placed_mantissa _ _ _ _ P) as (Hz & Hu & Hl).
  destruct P as (_ & Hm & _ & _).
  set (r := round_nearest_even m l).
  assert (r = m ∨ r = m + 1) as Hr by apply round_nearest_even_cases.
  destruct (Z.eq_dec r 0) as [Hr0|Hr0].
  { rewrite Hr0. rewrite shr_fexp_exact_0.
    - intros [= <- <-]. simpl. split_and!; [done|done|lia].
    - simpl. unfold SpecFloat.fexp. lia. }
  assert (0 < r) as Hrpos by lia.
  destruct (Z.le_gt_cases k emin) as [Hk|Hk].
  { (* subnormal range: the mantissa is 1 *)
    assert (fexp k = emin) as Hek by (unfold SpecFloat.fexp; lia).
    assert (r = 1) as -> by (specialize (Hz ltac:(lia)); lia).
    rewrite shr_fexp_exact_0.
    - intros [= <- <-]. simpl shr_m. split_and!; [lia|done|].
      intros _. simpl Zdigits2. unfold SpecFloat.fexp in *. lia.
    - simpl Zdigits2. unfold SpecFloat.fexp in *. lia. }
  specialize (Hl Hk).
  assert (fexp k ≤ k - 1) as Hek by (unfold SpecFloat.fexp; lia).
  specialize (Hu ltac:(lia)).
  set (D := k - fexp k) in *.
  assert (1 ≤ D ≤ prec) as HD by (unfold D, SpecFloat.fexp; lia).
  replace (k - 1 - fexp k) with (D - 1) in Hl by lia.
  destruct (Z.eq_dec r (2 ^ D)) as [Hpow|Hpow].
  - (* the mantissa has one more digit *)
    assert (Zdigits2 r = D + 1) as Hd.
    { apply Zdigits2_unique; [done|]. replace (D + 1 - 1) with D by lia.
      rewrite Hpow, Z.pow_add_r by lia. lia. }
    destruct (Z.le_gt_cases emin (k - prec)) as [Hn|Hn].
    + rewrite shr_fexp_exact_1; [|lia|rewrite Hd; unfold D, SpecFloat.fexp in *; lia].
      intros [= <- <-]. simpl shr_m.
      assert (r = 2 * 2 ^ (D - 1)) as Hr2.
      { rewrite Hpow. replace D with (Z.succ (D - 1)) at 1 by lia.
        by rewrite Z.pow_succ_r by lia. }
      assert (Z.div2 r = 2 ^ (D - 1)) as Hdiv.
      { rewrite Hr2, Z.div2_div, Z.mul_comm, Z.div_mul; lia. }
      rewrite Hdiv. pose proof (Z.pow_pos_nonneg 2 (D - 1)).
      split_and!; [lia| |].
      * rewrite b2_succ, Hr2, mult_IZR. lra.
      * intros _. rewrite (Zdigits2_unique _ D); [unfold D, SpecFloat.fexp in *; lia|lia|].
        split; [lia|]. replace D with (Z.succ (D - 1)) at 2 by lia.
        rewrite Z.pow_succ_r by lia. lia.
    + rewrite shr_fexp_exact_0 by (rewrite Hd; unfold D, SpecFloat.fexp in *; lia).
      intros [= <- <-]. simpl shr_m. split_and!; [lia|done|].
      intros _. rewrite Hd. unfold D, SpecFloat.fexp in *. lia.
  - assert (Zdigits2 r = D) as Hd by (apply Zdigits2_unique; lia).
    assert (D + fexp k = k) as HDk by (unfold D; lia).
    rewrite shr_fexp_exact_0 by (rewrite Hd, HDk; lia).
    intros [= <- <-]. simpl shr_m. split_and!; [lia|done|].
    intros _. by rewrite Hd, HDk.
Qed.

(** *** Comparison of the results *)

(** A mantissa and an exponent in the form the format gives a positive
    number: the larger exponent has the larger value. *)
Lemma canonical_lt ma ea mb eb :
  0 < ma → 0 < mb →
  fexp (Zdigits2 ma + ea) = ea → fexp (Zdigits2 mb + eb) = eb →
  ea < eb → (IZR ma * b2 ea < IZR mb * b2 eb)%R.
Proof.
  intros Hma Hmb Ca Cb Hlt.
  pose proof (Zdigits2_b2 ma Hma) as [_ Hah].
  pose proof (Zdigits2_b2 mb Hmb) as [Hbl _].
  pose proof (fexp_ge_emin (Zdigits2 ma + ea)) as Hea.
  assert (Zdigits2 mb = prec) as Hdb by (unfold SpecFloat.fexp in *; lia).
  assert (Zdigits2 ma ≤ prec) as Hda by (unfold SpecFloat.fexp in *; lia).
  pose proof (b2_pos ea). pose proof (b2_pos eb).
  apply Rlt_le_trans with (b2 (Zdigits2 ma + ea)).
  { rewrite b2_add. nra. }
  apply Rle_trans with (b2 (Zdigits2 mb - 1 + eb)).
  { apply b2_le. lia. }
  rewrite b2_add. nra.
Qed.

Lemma canonical_le ma ea mb eb :
  0 < ma → 0 < mb →
  fexp (Zdigits2 ma + ea) = ea → fexp (Zdigits2 mb + eb) = eb →
  (IZR ma * b2 ea <= IZR mb * b2 eb)%R →
  ea < eb ∨ (ea = eb ∧ ma ≤ mb).
Proof.
  intros Hma Hmb Ca Cb Hle.
  destruct (Z.lt_trichotomy ea eb) as [Hlt|[Heq|Hgt]]; [by left| |].
  - right. split; [done|]. subst eb. pose proof (b2_pos ea).
    apply le_IZR. nra.
  - pose proof (canonical_lt mb eb ma ea Hmb Hma Cb Ca Hgt). lra.
Qed.


Lemma round_result_le ma ea mb eb :
  0 ≤ ma → 0 ≤ mb →
  (0 < ma → fexp (Zdigits2 ma + ea) = ea) →
  (0 < mb → fexp (Zdigits2 mb + eb) = eb) →
  (IZR ma * b2 ea <= IZR mb * b2 eb)%R →
  SFleb (round_result prec emax ma ea) (round_result prec emax mb eb) = true.
Proof.
  intros Hma Hmb Ca Cb Hle.
  pose proof (b2_pos ea). pose proof (b2_pos eb).
  destruct ma as [|pa|pa]; [|clear Hma|lia]; (destruct mb as [|pb|pb]; [|clear Hmb|lia]).
  - done.
  - simpl. by destruct (_ <=? _).
  - exfalso. assert (0 < IZR (Z.pos pa))%R by by apply IZR_lt. simpl in Hle. nra.
  - destruct (canonical_le (Z.pos pa) ea (Z.pos pb) eb eq_refl eq_refl
                (Ca eq_refl) (Cb eq_refl) Hle) as [Hlt|[-> Hm]].
    + unfold round_result.
      destruct (Z.leb_spec ea (emax - prec)), (Z.leb_spec eb (emax - prec));
        try done; [|lia].
      unfold SFleb, SFcompare. by rewrite (proj2 (Z.compare_lt_iff ea eb) Hlt).
    + unfold round_result. destruct (Z.leb_spec eb (emax - prec)); [|done].
      unfold SFleb, SFcompare. rewrite Z.compare_refl.
      change (Pos.compare_cont Eq pa pb) with (Pos.compare pa pb).
      destruct (Pos.compare_spec pa pb); try done. lia.
Qed.

Lemma binary_round_aux_result m e l :
  binary_round_aux prec emax false m e l
  = let '(mrs', e') := shr_fexp prec emax m e l in
    let '(mrs'', e'') :=
      shr_fexp prec emax
        (round_nearest_even (shr_m mrs') (loc_of_shr_record mrs')) e' loc_Exact in
    round_result prec emax (shr_m mrs'') e''.
Proof. reflexivity. Qed.


(** Rounding to nearest is monotone. *)
Lemma binary_round_aux_mono x1 x2 m1 e1 l1 m2 e2 l2 :
  rounding_input prec emax x1 m1 e1 l1 → rounding_input prec emax x2 m2 e2 l2 → (x1 <= x2)%R →
  SFleb (binary_round_aux prec emax false m1 e1 l1)
    (binary_round_aux prec emax false m2 e2 l2) = true.
Proof.
  intros (Hm1 & L1 & He1) (Hm2 & L2 & He2) Hx.
  rewrite !binary_round_aux_result.
  destruct (shr_fexp prec emax m1 e1 l1) as [mrs1 e1'] eqn:S1.
  destruct (shr_fexp prec emax m2 e2 l2) as [mrs2 e2'] eqn:S2.
  destruct (placed_of_located _ _ _ _ _ _ Hm1 L1 He1 S1) as [-> P1].
  destruct (placed_of_located _ _ _ _ _ _ Hm2 L2 He2 S2) as [-> P2].
  destruct (shr_fexp prec emax (round_nearest_even (shr_m mrs1) _) _ _)
    as [mrs1' e1''] eqn:T1.
  destruct (shr_fexp prec emax (round_nearest_even (shr_m mrs2) _) _ _)
    as [mrs2' e2''] eqn:T2.
  destruct (round_renormalize _ _ _ _ _ _ P1 T1) as (Hn1 & V1 & C1).
  destruct (round_renormalize _ _ _ _ _ _ P2 T2) as (Hn2 & V2 & C2).
  apply round_result_le; try done.
  rewrite V1, V2. by eapply round_value_mono.
Qed.

(** *** The numbers of the format *)

Lemma valid_canonical s m e :
  SpecFloat.valid_binary prec emax (S754_finite s m e) = true →
  fexp (Zdigits2 (Z.pos m) + e) = e.
Proof.
  unfold SpecFloat.valid_binary, bounded, canonical_mantissa.
  intros [H _]%andb_true_iff. by apply Z.eqb_eq in H.
Qed.

Lemma SF2R_finite m e : SF2R (S754_finite false m e) = (IZR (Z.pos m) * b2 e)%R.
Proof. reflexivity. Qed.

Lemma SF2R_pos m e : (0 < SF2R (S754_finite false m e))%R.
Proof.
  rewrite SF2R_finite. pose proof (b2_pos e).
  assert (0 < IZR (Z.pos m))%R by by apply IZR_lt. nra.
Qed.

(** The order of the format is that of the values. *)
Lemma SFleb_value a b :
  SpecFloat.valid_binary prec emax a = true → SpecFloat.valid_binary prec emax b = true →
  sf_nonneg a = true → sf_finite a = true →
  sf_nonneg b = true → sf_finite b = true →
  SFleb a b = true → (SF2R a <= SF2R b)%R.
Proof.
  intros Va Vb.
  destruct a as [sa|sa| |[] ma ea], b as [sb|sb| |[] mb eb]; try done; intros _ _ _ _.
  - intros _. pose proof (SF2R_pos mb eb). simpl SF2R at 1. lra.
  - unfold SFleb, SFcompare.
    pose proof (valid_canonical _ _ _ Va) as Ca.
    pose proof (valid_canonical _ _ _ Vb) as Cb.
    rewrite !SF2R_finite.
    destruct (Z.compare_spec ea eb) as [->|Hlt|Hgt]; [| |done].
    + change (Pos.compare_cont Eq ma mb) with (Pos.compare ma mb).
      destruct (Pos.compare_spec ma mb) as [->|Hm|Hm]; [lra| |done].
      intros _. apply IZR_mul_b2_le. lia.
    + intros _. apply Rlt_le. by apply canonical_lt.
Qed.

(** *** The exact results and their locations *)

Lemma Zdigits2_mul ma mb :
  0 < ma → 0 < mb → Zdigits2 ma + Zdigits2 mb - 1 ≤ Zdigits2 (ma * mb).
Proof.
  intros Ha Hb.
  pose proof (Zdigits2_spec ma Ha) as [Hal _].
  pose proof (Zdigits2_spec mb Hb) as [Hbl _].
  pose proof (Zdigits2_spec (ma * mb) ltac:(lia)) as [_ Hh].
  pose proof (Zdigits2_pos ma Ha). pose proof (Zdigits2_pos mb Hb).
  pose proof (Zdigits2_pos (ma * mb) ltac:(lia)).
  assert (2 ^ (Zdigits2 ma - 1 + (Zdigits2 mb - 1)) < 2 ^ Zdigits2 (ma * mb)) as Hp.
  { rewrite Z.pow_add_r by lia. nia. }
  apply Z.pow_lt_mono_r_iff in Hp; lia.
Qed.

(** The product of two numbers of the format: it is known exactly. *)
Lemma mul_rounding_input ma ea mb eb :
  fexp (Zdigits2 (Z.pos ma) + ea) = ea → fexp (Zdigits2 (Z.pos mb) + eb) = eb →
  rounding_input prec emax (IZR (Z.pos ma) * b2 ea * (IZR (Z.pos mb) * b2 eb))
    (Z.pos (ma * mb)) (ea + eb) loc_Exact.
Proof.
  intros Ca Cb. split_and!; [done| |].
  - simpl. rewrite Pos2Z.inj_mul, mult_IZR, b2_add. ring.
  - pose proof (Zdigits2_mul (Z.pos ma) (Z.pos mb) eq_refl eq_refl) as Hd.
    pose proof (Zdigits2_pos (Z.pos ma) eq_refl).
    pose proof (Zdigits2_pos (Z.pos mb) eq_refl).
    rewrite Pos2Z.inj_mul. unfold SpecFloat.fexp, SpecFloat.emin in *. lia.
Qed.

Lemma new_location_spec nb k :
  0 < nb → 0 ≤ k < nb →
  match new_location nb k with
  | loc_Exact => k = 0
  | loc_Inexact Lt => 0 < k ∧ 2 * k < nb
  | loc_Inexact Eq => 0 < k ∧ 2 * k = nb
  | loc_Inexact Gt => nb < 2 * k
  end.
Proof.
  intros Hnb Hk. unfold new_location, new_location_even, new_location_odd.
  destruct (Z.even nb) eqn:Heven; destruct (Z.eqb_spec k 0) as [|Hk0]; try done.
  - destruct (Z.compare_spec (2 * k) nb); lia.
  - assert (nb ≠ 2 * k) as Hne.
    { intros ->. by rewrite Z.even_mul in Heven. }
    destruct (Z.compare_spec (2 * k + 1) nb); lia.
Qed.

(** A quotient with its remainder is located by the remainder. *)
Lemma located_quotient x q r d e :
  0 < d → 0 ≤ r < d → (x * IZR d = (IZR d * IZR q + IZR r) * b2 e)%R →
  located x q e (new_location d r).
Proof.
  intros Hd Hr Hx. pose proof (new_location_spec d r Hd Hr) as Hl.
  pose proof (b2_pos e) as Hw.
  assert (0 < IZR d)%R as HD by by apply IZR_lt.
  assert (x = (IZR q + IZR r / IZR d) * b2 e)%R as ->.
  { apply (Rmult_eq_reg_r (IZR d)); [|lra]. rewrite Hx. field. lra. }
  assert (0 <= IZR r / IZR d < 1)%R as Hρ.
  { split.
    - apply Rmult_le_reg_r with (IZR d); [done|].
      replace (IZR r / IZR d * IZR d)%R with (IZR r) by (field; lra).
      rewrite Rmult_0_l. apply IZR_le. lia.
    - apply Rmult_lt_reg_r with (IZR d); [done|].
      replace (IZR r / IZR d * IZR d)%R with (IZR r) by (field; lra).
      rewrite Rmult_1_l. apply IZR_lt. lia. }
  assert (∀ a b : Z, a * r < b * d → (IZR a * (IZR r / IZR d) < IZR b)%R) as Hlt.
  { intros a b Hab. apply Rmult_lt_reg_r with (IZR d); [done|].
    replace (IZR a * (IZR r / IZR d) * IZR d)%R with (IZR a * IZR r)%R by (field; lra).
    rewrite <- !mult_IZR. by apply IZR_lt. }
  assert (∀ a b : Z, b * d < a * r → (IZR b < IZR a * (IZR r / IZR d))%R) as Hgt.
  { intros a b Hab. apply Rmult_lt_reg_r with (IZR d); [done|].
    replace (IZR a * (IZR r / IZR d) * IZR d)%R with (IZR a * IZR r)%R by (field; lra).
    rewrite <- !mult_IZR. by apply IZR_lt. }
  destruct (new_location d r) as [|[]]; simpl.
  - subst r. replace (0 / IZR d)%R with 0%R by (field; lra). ring.
  - destruct Hl as [Hr0 Hr2].
    assert (IZR r / IZR d = / 2)%R as ->; [|done].
    rewrite <- Hr2, mult_IZR. field. apply not_0_IZR. lia.
  - destruct Hl as [Hr0 Hr2].
    pose proof (Hlt 2 1 ltac:(lia)). pose proof (Hgt 1 0 ltac:(lia)). nra.
  - pose proof (Hgt 2 1 ltac:(lia)). nra.
Qed.

Lemma Zdigits2_ge m n : 0 ≤ n → 2 ^ n ≤ m → n + 1 ≤ Zdigits2 m.
Proof.
  intros Hn Hm. pose proof (Z.pow_pos_nonneg 2 n ltac:(lia) Hn).
  pose proof (Zdigits2_spec m ltac:(lia)) as [_ Hh].
  pose proof (Zdigits2_pos m ltac:(lia)).
  assert (2 ^ n < 2 ^ Zdigits2 m) as Hp by lia.
  apply Z.pow_lt_mono_r_iff in Hp; lia.
Qed.

(** The quotient of two numbers of the format. *)
Lemma div_rounding_input m1 e1 m2 e2 q e' l :
  0 < m1 → 0 < m2 →
  SFdiv_core_binary prec emax m1 e1 m2 e2 = (q, e', l) →
  rounding_input prec emax (IZR m1 * b2 e1 / (IZR m2 * b2 e2)) q e' l.
Proof.
  intros H1 H2. unfold SFdiv_core_binary.
  set (t := Zdigits2 m1 + e1 - (Zdigits2 m2 + e2)).
  set (e0 := Z.min (fexp t) (e1 - e2)).
  set (s := e1 - e2 - e0).
  assert (0 ≤ s) as Hs by (unfold s, e0; lia).
  assert (match s with Z.pos _ => Z.shiftl m1 s | 0 => m1 | Z.neg _ => 0 end
          = m1 * 2 ^ s) as ->.
  { destruct s as [|p|p] eqn:Hp; [lia| |lia]. by rewrite Z.shiftl_mul_pow2. }
  pose proof (Z.pow_pos_nonneg 2 s ltac:(lia) Hs) as Hpow.
  pose proof (Z_div_mod (m1 * 2 ^ s) m2 ltac:(lia)) as Hdiv.
  destruct (Z.div_eucl (m1 * 2 ^ s) m2) as [q0 r0]. destruct Hdiv as [Hdiv Hr].
  intros [= <- <- <-].
  assert (0 ≤ q0) as Hq by nia.
  split_and!; [done| |].
  - apply located_quotient; [done|done|].
    pose proof (b2_pos e2). pose proof (b2_pos e0).
    assert (0 < IZR m2)%R by by apply IZR_lt.
    rewrite <- mult_IZR, <- plus_IZR, <- Hdiv, mult_IZR, <- b2_IZR by done.
    replace e1 with (s + e0 + e2) by (unfold s; lia). rewrite !b2_add.
    field. lra.
  - destruct (Z.le_gt_cases e0 emin) as [He|He].
    { pose proof (fexp_ge_emin (Zdigits2 q0 + e0)). lia. }
    (* a normal quotient has all its digits *)
    pose proof (Zdigits2_spec m1 H1) as [Hl1 _].
    pose proof (Zdigits2_spec m2 H2) as [_ Hh2].
    pose proof (Zdigits2_pos m1 H1). pose proof (Zdigits2_pos m2 H2).
    assert (Zdigits2 m2 - Zdigits2 m1 + prec ≤ s) as Hs'.
    { unfold s, e0, t, SpecFloat.fexp in *. lia. }
    assert (2 ^ (prec - 1) ≤ q0) as Hq0.
    { assert (2 ^ (Zdigits2 m1 - 1 + s) ≤ m1 * 2 ^ s) as Hm.
      { rewrite Z.pow_add_r by lia. nia. }
      assert (2 ^ (Zdigits2 m1 - 1 + s)
              = 2 ^ Zdigits2 m2 * 2 ^ (Zdigits2 m1 - 1 + s - Zdigits2 m2)) as Hsplit.
      { rewrite <- Z.pow_add_r by lia. f_equal. lia. }
      assert (2 ^ (prec - 1) ≤ 2 ^ (Zdigits2 m1 - 1 + s - Zdigits2 m2)) as Hp
        by (apply Z.pow_le_mono_r; lia).
      pose proof (Z.pow_pos_nonneg 2 (Zdigits2 m2) ltac:(lia) ltac:(lia)).
      nia. }
    pose proof (Zdigits2_ge q0 (prec - 1) ltac:(lia) Hq0).
    unfold SpecFloat.fexp. lia.
Qed.

(** The square root of a number of the format. *)
Lemma sqrt_rounding_input m e q e' l :
  0 < m →
  SFsqrt_core_binary prec emax m e = (q, e', l) →
  rounding_input prec emax (sqrt (IZR m * b2 e)) q e' l.
Proof.
  intros Hm. unfold SFsqrt_core_binary.
  set (t := Z.div2 (Zdigits2 m + e + 1)).
  set (e0 := Z.min (fexp t) (Z.div2 e)).
  set (s := e - 2 * e0).
  pose proof (Z.div2_odd e) as Hdiv2.
  assert (0 ≤ s) as Hs.
  { unfold s, e0. destruct (Z.odd e); simpl in Hdiv2; lia. }
  assert (match s with Z.pos _ => Z.shiftl m s | 0 => m | Z.neg _ => 0 end
          = m * 2 ^ s) as ->.
  { destruct s as [|p|p] eqn:Hp; [lia| |lia]. by rewrite Z.shiftl_mul_pow2. }
  pose proof (Z.pow_pos_nonneg 2 s ltac:(lia) Hs) as Hpow.
  pose proof (Z.sqrtrem_spec (m * 2 ^ s) ltac:(lia)) as Hsq.
  destruct (Z.sqrtrem (m * 2 ^ s)) as [q0 r0]. destruct Hsq as [Hsq Hr].
  intros [= <- <- <-].
  assert (0 < q0) as Hq by nia.
  split_and!; [lia| |].
  - pose proof (b2_pos e0) as Hw.
    assert (0 < IZR q0)%R as HQ by by apply IZR_lt.
    assert (0 <= IZR r0)%R as HR by (apply IZR_le; lia).
    assert (IZR m * b2 e = (IZR q0 * IZR q0 + IZR r0) * (b2 e0 * b2 e0))%R as ->.
    { rewrite <- mult_IZR, <- plus_IZR, <- Hsq, mult_IZR, <- b2_IZR by done.
      replace e with (s + e0 + e0) at 1 by (unfold s; lia). rewrite !b2_add. ring. }
    rewrite sqrt_mult by nra. rewrite (sqrt_square (b2 e0)) by lra.
    set (y := sqrt (IZR q0 * IZR q0 + IZR r0)).
    assert (0 <= y)%R as Hy by apply sqrt_pos.
    assert (y * y = IZR q0 * IZR q0 + IZR r0)%R as Hyy by (apply sqrt_sqrt; nra).
    destruct (Z.eqb_spec r0 0) as [->|Hr0].
    + simpl. f_equal. unfold y. rewrite Rplus_0_r. apply sqrt_square. lra.
    + assert (1 <= IZR r0)%R by (apply IZR_le; lia).
      destruct (Z.leb_spec r0 q0) as [Hle|Hgt]; simpl.
      * assert (IZR r0 <= IZR q0)%R by by apply IZR_le.
        assert (IZR q0 < y < IZR q0 + / 2)%R; [split; nra|nra].
      * assert (IZR q0 + 1 <= IZR r0)%R by (rewrite <- plus_IZR; apply IZR_le; lia).
        assert (IZR r0 <= 2 * IZR q0)%R by (rewrite <- mult_IZR; apply IZR_le; lia).
        assert (IZR q0 + / 2 < y < IZR q0 + 1)%R; [split; nra|nra].
  - destruct (Z.le_gt_cases e0 emin) as [He|He].
    { pose proof (fexp_ge_emin (Zdigits2 q0 + e0)). lia. }
    pose proof (Zdigits2_spec m Hm) as [Hl1 _].
    pose proof (Zdigits2_pos m Hm).
    pose proof (Z.div2_odd (Zdigits2 m + e + 1)) as Hdt. fold t in Hdt.
    assert (2 * prec - 2 ≤ Zdigits2 m - 1 + s) as Hs'.
    { unfold s, e0, SpecFloat.fexp in *.
      destruct (Z.odd (Zdigits2 m + e + 1)); simpl in Hdt; lia. }
    assert (2 ^ (prec - 1) ≤ q0) as Hq0.
    { assert (2 ^ (Zdigits2 m - 1 + s) ≤ m * 2 ^ s) as Hm'.
      { rewrite Z.pow_add_r by lia. nia. }
      assert (2 ^ (prec - 1) * 2 ^ (prec - 1) ≤ 2 ^ (Zdigits2 m - 1 + s)) as Hp.
      { rewrite <- Z.pow_add_r by lia. apply Z.pow_le_mono_r; lia. }
      pose proof (Z.pow_pos_nonneg 2 (prec - 1) ltac:(lia) ltac:(lia)).
      nia. }
    pose proof (Zdigits2_ge q0 (prec - 1) ltac:(lia) Hq0).
    unfold SpecFloat.fexp. lia.
Qed.
End rounding.

(** *** Binary64: the operations of the curve are monotone *)

Lemma prec_pos : 0 < prec.
Proof. reflexivity. Qed.

Lemma emax_prec : 3 ≤ emax + prec.
Proof. vm_compute. discriminate. Qed.

Lemma SFleb_zero s x : sf_nonneg x = true → SFleb (S754_zero s) x = true.
Proof. by destruct x as [?|[]| |[] ? ?]. Qed.

Lemma SF64_round_mono x1 x2 m1 e1 l1 m2 e2 l2 :
  rounding_input prec emax x1 m1 e1 l1 → rounding_input prec emax x2 m2 e2 l2 →
  (x1 <= x2)%R →
  SFleb (binary_round_aux prec emax false m1 e1 l1)
    (binary_round_aux prec emax false m2 e2 l2) = true.
Proof. apply binary_round_aux_mono. apply prec_pos. Qed.

Lemma SF64_leb_value a b :
  valid_binary a = true → valid_binary b = true →
  sf_nonneg a = true → sf_finite a = true →
  sf_nonneg b = true → sf_finite b = true →
  SFleb a b = true → (SF2R a <= SF2R b)%R.
Proof. apply SFleb_value. Qed.

Lemma binary_round_aux_nonneg mx ex lx :
  0 ≤ mx → sf_nonneg (binary_round_aux prec emax false mx ex lx) = true.
Proof.
  intros Hm. pose proof (binary_round_aux_sign prec emax false mx ex lx Hm) as Hs.
  by destruct (binary_round_aux _ _ _ _ _ _) as [[]|[]| |[] ? ?].
Qed.

Lemma SFdiv_finite_nonneg x my ey :
  sf_nonneg x = true → sf_finite x = true →
  sf_nonneg (SF64div x (S754_finite false my ey)) = true.
Proof.
  destruct x as [[]|[]| |[] mx ex]; try done. intros _ _.
  unfold SF64div, SFdiv. simpl xorb.
  destruct (SFdiv_core_binary prec emax (Z.pos mx) ex (Z.pos my) ey)
    as [[q g] l] eqn:C.
  apply binary_round_aux_nonneg.
  by destruct (div_rounding_input prec emax prec_pos emax_prec
                 (Z.pos mx) ex (Z.pos my) ey q g l eq_refl eq_refl C).
Qed.

(** Division by a positive number. *)
Lemma SF64div_mono s1 s2 n :
  valid_binary s1 = true → valid_binary s2 = true → valid_binary n = true →
  sf_nonneg s1 = true → sf_finite s1 = true →
  sf_nonneg s2 = true → sf_finite s2 = true → sf_pos n = true →
  SFleb s1 s2 = true → SFleb (SF64div s1 n) (SF64div s2 n) = true.
Proof.
  intros V1 V2 Vn N1 F1 N2 F2 Pn Hle.
  pose proof (SF64_leb_value _ _ V1 V2 N1 F1 N2 F2 Hle) as Hval.
  destruct n as [|[]| |[] mn en]; try done.
  { destruct s1 as [?|?| |[] ? ?], s2 as [?|?| |[] ? ?]; done. }
  destruct s1 as [z1|?| |[] m1 e1]; try done.
  { apply SFleb_zero. by apply SFdiv_finite_nonneg. }
  destruct s2 as [z2|?| |[] m2 e2]; try done.
  unfold SF64div, SFdiv. simpl xorb.
  destruct (SFdiv_core_binary prec emax (Z.pos m1) e1 (Z.pos mn) en)
    as [[q1 g1] l1] eqn:C1.
  destruct (SFdiv_core_binary prec emax (Z.pos m2) e2 (Z.pos mn) en)
    as [[q2 g2] l2] eqn:C2.
  eapply SF64_round_mono.
  - eapply (div_rounding_input prec emax prec_pos emax_prec); [| |exact C1]; done.
  - eapply (div_rounding_input prec emax prec_pos emax_prec); [| |exact C2]; done.
  - rewrite !SF2R_finite in Hval. pose proof (SF2R_pos mn en) as Hn.
    rewrite SF2R_finite in Hn. unfold Rdiv.
    apply Rmult_le_compat_r; [|done]. apply Rlt_le. by apply Rinv_0_lt_compat.
Qed.

(** The square root. *)
Lemma SF64sqrt_mono q1 q2 :
  valid_binary q1 = true → valid_binary q2 = true →
  sf_nonneg q1 = true → sf_finite q1 = true →
  sf_nonneg q2 = true → sf_finite q2 = true →
  SFleb q1 q2 = true → SFleb (SF64sqrt q1) (SF64sqrt q2) = true.
Proof.
  intros V1 V2 N1 F1 N2 F2 Hle.
  pose proof (SF64_leb_value _ _ V1 V2 N1 F1 N2 F2 Hle) as Hval.
  destruct q1 as [z1|?| |[] m1 e1]; try done.
  { apply SFleb_zero. by apply SFsqrt_nonneg. }
  destruct q2 as [z2|?| |[] m2 e2]; try done.
  unfold SF64sqrt, SFsqrt.
  destruct (SFsqrt_core_binary prec emax (Z.pos m1) e1) as [[r1 g1] l1] eqn:C1.
  destruct (SFsqrt_core_binary prec emax (Z.pos m2) e2) as [[r2 g2] l2] eqn:C2.
  eapply SF64_round_mono.
  - eapply (sqrt_rounding_input prec emax prec_pos emax_prec); [|exact C1]; done.
  - eapply (sqrt_rounding_input prec emax prec_pos emax_prec); [|exact C2]; done.
  - rewrite !SF2R_finite in Hval. by apply sqrt_le_1_alt.
Qed.

(** Multiplication by a number that is not negative. *)
Lemma SF64mul_mono a r1 r2 :
  valid_binary a = true → valid_binary r1 = true → valid_binary r2 = true →
  sf_nonneg a = true → sf_finite a = true →
  sf_nonneg r1 = true → sf_finite r1 = true →
  sf_nonneg r2 = true → sf_finite r2 = true →
  SFleb r1 r2 = true → SFleb (SF64mul a r1) (SF64mul a r2) = true.
Proof.
  intros Va V1 V2 Na Fa N1 F1 N2 F2 Hle.
  pose proof (SF64_leb_value _ _ V1 V2 N1 F1 N2 F2 Hle) as Hval.
  destruct a as [za|?| |[] ma ea]; try done.
  { destruct r1 as [?|?| |[] ? ?], r2 as [?|?| |[] ? ?]; done. }
  destruct r1 as [z1|?| |[] m1 e1]; try done.
  { apply SFleb_zero. by apply SFmul_nonneg. }
  destruct r2 as [z2|?| |[] m2 e2]; try done.
  unfold SF64mul, SFmul. simpl xorb.
  pose proof (valid_canonical prec emax _ _ _ Va) as Ca.
  pose proof (valid_canonical prec emax _ _ _ V1) as C1.
  pose proof (valid_canonical prec emax _ _ _ V2) as C2.
  eapply SF64_round_mono.
  - by apply (mul_rounding_input prec emax emax_prec).
  - by apply (mul_rounding_input prec emax emax_prec).
  - rewrite !SF2R_finite in Hval. pose proof (SF2R_pos ma ea) as Hn.
    rewrite SF2R_finite in Hn. nra.
Qed.

Lemma SFsqrt_finite_inv q : sf_finite (SF64sqrt q) = true → sf_finite q = true.
Proof. by destruct q as [?|[]| |[] ? ?]. Qed.

Lemma SFdiv_finite_inv s n :
  sf_pos n = true → sf_finite (SF64div s n) = true → sf_finite s = true.
Proof. by destruct s as [?|?| |? ? ?], n as [?|[]| |[] ? ?]. Qed.

Lemma SFmul_nonneg_finite x y :
  sf_nonneg x = true → sf_finite (SF64mul x y) = true → sf_finite x = true.
Proof. by destruct x as [?|[]| |[] ? ?], y as [?|?| |? ? ?]. Qed.

(** The factor [sqrt(sqrt(2*0.6))*ustar]. *)
Lemma mld_factor_nonneg (c ustar : float) :
  PrimFloat.leb 0 c = true → PrimFloat.leb 0 ustar = true →
  PrimFloat.is_finite (c * ustar) = true → PrimFloat.leb 0 (c * ustar) = true.
Proof.
  rewrite !leb_0_nonneg, is_finite_spec, mul_spec. intros Hc Hu Hfin.
  destruct (SFmul_nonneg_or_nan _ _ Hc Hu) as [|Hnan]; [done|].
  by rewrite Hnan in Hfin.
Qed.

(** One value of the curve, for a factor [a] that is finite: it is 0
    where [s] is 0, not negative where [s] is not, and it grows with
    [s]. *)
Lemma mld_binary64_zero (a N0 s : float) :
  PrimFloat.is_finite a = true → PrimFloat.ltb 0 N0 = true →
  PrimFloat.eqb s 0 = true → PrimFloat.eqb (a * PrimFloat.sqrt (s / N0)) 0 = true.
Proof.
  rewrite is_finite_spec, ltb_0_pos. intros Ha HN [s0 Hs]%eqb_0_zero.
  apply eqb_0_zero. rewrite mul_spec, sqrt_spec, div_spec, Hs.
  destruct (SFdiv_zero s0 _ HN) as [s1 ->].
  change (SF64sqrt (S754_zero s1)) with (S754_zero s1).
  by apply SFmul_zero.
Qed.

Lemma mld_quotient_class (N0 s : float) :
  PrimFloat.ltb 0 N0 = true → PrimFloat.leb 0 s = true →
  PrimFloat.is_finite (PrimFloat.sqrt (s / N0)) = true →
  sf_finite (Prim2SF s) = true ∧
  sf_nonneg (Prim2SF (s / N0)) = true ∧ sf_finite (Prim2SF (s / N0)) = true ∧
  sf_nonneg (Prim2SF (PrimFloat.sqrt (s / N0))) = true ∧
  sf_finite (Prim2SF (PrimFloat.sqrt (s / N0))) = true.
Proof.
  rewrite ltb_0_pos, leb_0_nonneg, is_finite_spec. intros HN Hs Hfin.
  assert (sf_finite (Prim2SF (s / N0)) = true) as Hq.
  { apply SFsqrt_finite_inv. by rewrite <- sqrt_spec. }
  assert (sf_nonneg (Prim2SF (s / N0)) = true) as Hq0.
  { rewrite div_spec in Hq |- *.
    destruct (SFdiv_nonneg _ _ Hs HN) as [|Hnan]; [done|]. by rewrite Hnan in Hq. }
  split_and!; try done.
  - apply (SFdiv_finite_inv _ _ HN). by rewrite <- div_spec.
  - rewrite sqrt_spec. by apply SFsqrt_nonneg.
Qed.

Lemma mld_binary64_nonneg (a N0 s : float) :
  PrimFloat.leb 0 a = true → PrimFloat.is_finite a = true →
  PrimFloat.ltb 0 N0 = true → PrimFloat.leb 0 s = true →
  PrimFloat.is_finite (PrimFloat.sqrt (s / N0)) = true →
  PrimFloat.leb 0 (a * PrimFloat.sqrt (s / N0)) = true.
Proof.
  intros Ha Hfa HN Hs Hfin.
  destruct (mld_quotient_class N0 s HN Hs Hfin) as (_ & _ & _ & Hr0 & Hr).
  rewrite leb_0_nonneg in Ha |- *. rewrite is_finite_spec in Hfa.
  rewrite mul_spec. by apply SFmul_nonneg.
Qed.

Lemma mld_binary64_mono (a N0 s1 s2 : float) :
  PrimFloat.leb 0 a = true → PrimFloat.is_finite a = true →
  PrimFloat.ltb 0 N0 = true →
  PrimFloat.leb 0 s1 = true → PrimFloat.leb 0 s2 = true →
  PrimFloat.is_finite (PrimFloat.sqrt (s1 / N0)) = true →
  PrimFloat.is_finite (PrimFloat.sqrt (s2 / N0)) = true →
  PrimFloat.leb s1 s2 = true →
  PrimFloat.leb (a * PrimFloat.sqrt (s1 / N0)) (a * PrimFloat.sqrt (s2 / N0)) = true.
Proof.
  intros Ha Hfa HN Hs1 Hs2 Hf1 Hf2 Hle.
  destruct (mld_quotient_class N0 s1 HN Hs1 Hf1) as (Fs1 & Nq1 & Fq1 & Nr1 & Fr1).
  destruct (mld_quotient_class N0 s2 HN Hs2 Hf2) as (Fs2 & Nq2 & Fq2 & Nr2 & Fr2).
  rewrite leb_0_nonneg in Ha, Hs1, Hs2. rewrite ltb_0_pos in HN.
  rewrite is_finite_spec in Hfa. rewrite FloatAxioms.leb_spec in Hle.
  assert (SFleb (Prim2SF (s1 / N0)) (Prim2SF (s2 / N0)) = true) as Hq.
  { rewrite !div_spec. apply SF64div_mono; try done; apply Prim2SF_valid. }
  assert (SFleb (Prim2SF (PrimFloat.sqrt (s1 / N0)))
            (Prim2SF (PrimFloat.sqrt (s2 / N0))) = true) as Hr.
  { rewrite !sqrt_spec. apply SF64sqrt_mono; try done; apply Prim2SF_valid. }
  rewrite FloatAxioms.leb_spec, !mul_spec.
  apply SF64mul_mono; try done; apply Prim2SF_valid.
Qed.



(** ** Trees in the store *)

Lemma dict_set_assoc_set k v d : dict_set k v d = assoc_set k v d.
Proof. induction d as [|[k' v'] d IH]; simpl; [done|]. by rewrite IH. Qed.

Lemma dict_get_key_index {V} k (d : list (subscript * V)) :
  dict_get k d = key_index k d.*1 ≫= λ n, d.*2 !! n.
Proof.
  induction d as [|[k' v'] d IH]; [done|].
  cbn [dict_get fmap list_fmap fst snd key_index]. case_decide; [done|].
  rewrite IH. by destruct (key_index k _).
Qed.

Lemma key_index_lt k keys n : key_index k keys = Some n → (n < length keys)%nat.
Proof.
  revert n. induction keys as [|k' keys IH]; intros n; simpl; [done|].
  case_decide; [intros [= <-]; lia|].
  destruct (key_index k keys) as [m|]; simpl; [|done].
  intros [= <-]. specialize (IH m eq_refl). lia.
Qed.

Lemma assoc_set_key_index {V} k (w : V) (d : list (subscript * V)) :
  match key_index k d.*1 with
  | Some n => (assoc_set k w d).*1 = d.*1 ∧ (assoc_set k w d).*2 = <[n := w]> d.*2
  | None => assoc_set k w d = d ++ [(k, w)]
  end.
Proof.
  induction d as [|[k' v'] d IH]; [done|].
  cbn [key_index assoc_set fmap list_fmap fst]. case_decide as Hk.
  - by subst.
  - destruct (key_index k _) as [n|]; cbn [fmap option_fmap option_map].
    + destruct IH as [H1 H2]. split.
      * cbn [fmap list_fmap fst]. f_equal. exact H1.
      * cbn [fmap list_fmap snd]. simpl. f_equal. exact H2.
    + cbn [app]. f_equal. exact IH.
Qed.

Lemma repr_all_length h ts vs fp : repr_all h ts vs fp → length ts = length vs.
Proof. induction 1; simpl; congruence. Qed.

(** Only the objects of the tree matter. *)
Lemma repr_frame_mutual h :
  (∀ t v fp, repr h t v fp →
     ∀ h', (∀ l, l ∈ fp → h' !! l = h !! l) → repr h' t v fp) ∧
  (∀ ts vs fp, repr_all h ts vs fp →
     ∀ h', (∀ l, l ∈ fp → h' !! l = h !! l) → repr_all h' ts vs fp).
Proof.
  apply repr_mutual.
  - intros t v Hs h' _. by constructor.
  - intros t l o fp Ho Hshape _ IH Hl h' Hsame. econstructor; [|done| |done].
    + rewrite Hsame; [done|]. set_solver.
    + apply IH. intros l' Hl'. apply Hsame. set_solver.
  - intros h' _. constructor.
  - intros t v ts vs fp1 fp2 _ IH1 _ IH2 Hdisj h' Hsame. constructor; [| |done].
    + apply IH1. intros l Hl. apply Hsame. set_solver.
    + apply IH2. intros l Hl. apply Hsame. set_solver.
Qed.

Lemma repr_frame h h' t v fp :
  repr h t v fp → (∀ l, l ∈ fp → h' !! l = h !! l) → repr h' t v fp.
Proof. intros Hr. by apply (proj1 (repr_frame_mutual h)). Qed.

Lemma repr_all_frame h h' ts vs fp :
  repr_all h ts vs fp → (∀ l, l ∈ fp → h' !! l = h !! l) → repr_all h' ts vs fp.
Proof. intros Hr. by apply (proj2 (repr_frame_mutual h)). Qed.

Lemma repr_lt_mutual h :
  (∀ t v fp, repr h t v fp → ∀ l, l ∈ fp → (l < length h)%nat) ∧
  (∀ ts vs fp, repr_all h ts vs fp → ∀ l, l ∈ fp → (l < length h)%nat).
Proof.
  apply repr_mutual.
  - intros t v _ l Hl. set_solver.
  - intros t l o fp Ho _ _ IH _ l' [->%elem_of_singleton|Hl']%elem_of_union.
    + by eapply lookup_lt_Some.
    + by apply IH.
  - intros l Hl. set_solver.
  - intros t v ts vs fp1 fp2 _ IH1 _ IH2 _ l [Hl|Hl]%elem_of_union; auto.
Qed.

Lemma repr_lt h t v fp l : repr h t v fp → l ∈ fp → (l < length h)%nat.
Proof. intros Hr. by apply (proj1 (repr_lt_mutual h) _ _ _ Hr). Qed.

Lemma repr_all_lt h ts vs fp l : repr_all h ts vs fp → l ∈ fp → (l < length h)%nat.
Proof. intros Hr. by apply (proj2 (repr_lt_mutual h) _ _ _ Hr). Qed.

Lemma repr_scalar_inv h t v fp w :
  repr h t v fp → scalar_of t = Some w → v = w ∧ fp = ∅.
Proof.
  destruct 1 as [t v Hs|t l o fp Ho Hshape _ _].
  - intros Hw. split; [congruence|done].
  - destruct t, o; simpl in *; done.
Qed.

(** A component and the rest: the component can be replaced. *)
Lemma repr_all_lookup h ts vs fp n t :
  repr_all h ts vs fp → ts !! n = Some t →
  ∃ v fpc fpr,
    vs !! n = Some v ∧ repr h t v fpc ∧ fp = fpc ∪ fpr ∧ fpc ## fpr ∧
    ∀ h' t' v' fpc',
      (∀ l, l ∈ fpr → h' !! l = h !! l) → repr h' t' v' fpc' → fpc' ## fpr →
      repr_all h' (<[n := t']> ts) (<[n := v']> vs) (fpc' ∪ fpr).
Proof.
  intros Hr. revert n. induction Hr as [|t0 v0 ts vs fp1 fp2 H0 Hr IH Hdisj];
    intros n Hn; [done|].
  destruct n as [|n]; simpl in Hn.
  - injection Hn as ->. exists v0, fp1, fp2. split_and!; try done.
    intros h' t' v' fpc' Hsame Hnew Hd. simpl. constructor; [done| |done].
    by eapply repr_all_frame.
  - destruct (IH n Hn) as (v & fpc & fpr & Hv & Hc & -> & Hcr & Hrep).
    exists v, fpc, (fp1 ∪ fpr). split_and!; try done.
    + set_solver.
    + set_solver.
    + intros h' t' v' fpc' Hsame Hnew Hd. simpl.
      replace (fpc' ∪ (fp1 ∪ fpr)) with (fp1 ∪ (fpc' ∪ fpr)) by set_solver.
      constructor.
      * eapply repr_frame; [done|]. intros l Hl. apply Hsame. set_solver.
      * apply Hrep; [|done|set_solver]. intros l Hl. apply Hsame. set_solver.
      * set_solver.
Qed.

Lemma repr_all_lookup_None h ts vs fp n :
  repr_all h ts vs fp → ts !! n = None → vs !! n = None.
Proof.
  intros Hr Hn. apply lookup_ge_None. apply lookup_ge_None in Hn.
  by rewrite <- (repr_all_length _ _ _ _ Hr).
Qed.

Lemma repr_all_snoc h ts vs fp t v fpv :
  repr_all h ts vs fp → repr h t v fpv → fp ## fpv →
  repr_all h (ts ++ [t]) (vs ++ [v]) (fp ∪ fpv).
Proof.
  induction 1 as [|t0 v0 ts vs fp1 fp2 H0 Hr IH Hdisj]; intros Hv Hd; simpl.
  - replace (∅ ∪ fpv) with (fpv ∪ (∅ : gset loc)) by set_solver.
    constructor; [done|constructor|set_solver].
  - replace (fp1 ∪ fp2 ∪ fpv) with (fp1 ∪ (fp2 ∪ fpv)) by set_solver.
    constructor; [done|apply IH; [done|set_solver]|set_solver].
Qed.

Lemma repr_ref_inv h t l fp :
  repr h t (VRef l) fp →
  ∃ o fp', h !! l = Some o ∧ shape t o ∧
           repr_all h (children t) (refs_of o) fp' ∧ l ∉ fp' ∧ fp = {[l]} ∪ fp'.
Proof.
  inversion 1 as [t' v' Hs|t' l' o fp' Ho Hshape Hall Hl]; subst.
  - by destruct t.
  - by exists o, fp'.
Qed.

Lemma repr_val_inv h t v fp :
  repr h t v fp →
  (scalar_of t = Some v ∧ fp = ∅) ∨
  (∃ l o fp', v = VRef l ∧ scalar_of t = None ∧ h !! l = Some o ∧ shape t o ∧
              repr_all h (children t) (refs_of o) fp' ∧ l ∉ fp' ∧ fp = {[l]} ∪ fp').
Proof.
  destruct 1 as [t v Hs|t l o fp Ho Hshape Hall Hl]; [by left|right].
  exists l, o, fp. split_and!; try done. by destruct t, o.
Qed.

(** A character of a string is a string, and no item of a string can be
    assigned. *)
Lemma tree_getitem_scalar t s c :
  is_Some (scalar_of t) → tree_getitem t s = Ok c →
  ∃ str i ch, t = PStr str ∧ s = Index i ∧ str_getitem str i = Some ch ∧ c = PStr ch.
Proof.
  intros [v Hv] Hget. destruct t as [| | | |str| |]; try done.
  destruct s as [k|i]; [done|]. simpl in Hget.
  destruct (str_getitem str i) as [ch|] eqn:Hch; [|done].
  injection Hget as <-. by exists str, i, ch.
Qed.

Lemma tree_assign_scalar path : ∀ t k rhs,
  is_Some (scalar_of t) → ¬ is_Ok (tree_assign t path k rhs).
Proof.
  induction path as [|s path IH]; intros t k rhs Ht [t' Hrun]; simpl in Hrun.
  - destruct Ht as [v Hv]. by destruct t.
  - destruct (tree_getitem t s) as [c|e] eqn:Hget; [|done]. simpl in Hrun.
    destruct (tree_getitem_scalar _ _ _ Ht Hget) as (str & i & ch & _ & _ & _ & ->).
    destruct (tree_assign (PStr ch) path k rhs) as [c'|e] eqn:Hc; [|done].
    apply (IH (PStr ch) k rhs); [by eexists|by eexists].
Qed.

(** The component at a subscript, and what replacing it gives in a
    dictionary or a list. *)
Lemma repr_getitem_ctx h t v fp s c :
  repr h t v fp → tree_getitem t s = Ok c →
  ∃ vc fpc,
    getitem h v s = Ok vc ∧ repr h c vc fpc ∧ fpc ⊆ fp ∧
    (scalar_of t = None →
     ∀ h' c' fpc' (X : gset loc),
       (∀ l, l ∈ fp → l ∉ fpc → h' !! l = h !! l) →
       repr h' c' vc fpc' → fpc' ⊆ fpc ∪ X → X ## fp →
       ∃ t', tree_setitem t s c' = Ok t' ∧
             ∃ fp', repr h' t' v fp' ∧ fp' ⊆ fp ∪ X).
Proof.
  intros Hr Hget.
  destruct (repr_val_inv _ _ _ _ Hr)
    as [[Hs ->]|(l & o & fp' & -> & _ & Ho & Hshape & Hall & Hl & ->)].
  { destruct (tree_getitem_scalar t s c) as (str & i & ch & -> & -> & Hch & ->);
      [by eexists|done|].
    injection Hs as <-. exists (VStr ch), ∅. split_and!.
    - simpl. by rewrite Hch.
    - by constructor.
    - done.
    - done. }
  assert (∀ n c0, children t !! n = Some c0 →
            ∃ vc fpc, refs_of o !! n = Some vc ∧ repr h c0 vc fpc ∧
              fpc ⊆ {[l]} ∪ fp' ∧
              ∀ h' c' fpc' (X : gset loc),
                (∀ l0, l0 ∈ {[l]} ∪ fp' → l0 ∉ fpc → h' !! l0 = h !! l0) →
                repr h' c' vc fpc' → fpc' ⊆ fpc ∪ X → X ## {[l]} ∪ fp' →
                ∃ fp'', repr_all h' (<[n := c']> (children t)) (refs_of o) fp'' ∧
                        l ∉ fp'' ∧ fp'' ⊆ fp' ∪ X ∧ h' !! l = Some o) as Hctx.
  { intros n c0 Hn.
    destruct (repr_all_lookup _ _ _ _ _ _ Hall Hn)
      as (vc & fpc & fpr & Hvc & Hc & -> & Hdisj & Hrep).
    exists vc, fpc. split_and!; [done|done|set_solver|].
    intros h' c' fpc' X Hsame Hc' Hsub HX.
    exists (fpc' ∪ fpr). split_and!.
    - rewrite <- (list_insert_id (refs_of o) n vc) by done.
      apply Hrep; [|done|set_solver].
      intros l0 Hl0. apply Hsame; set_solver.
    - set_solver.
    - set_solver.
    - rewrite Hsame; [done|set_solver|set_solver]. }
  destruct t as [| | | | |items|elems], o as [d|vs]; try done; simpl in Hshape, Hctx.
  - (* a dictionary *)
    rename s into k. simpl in Hget.
    rewrite dict_get_key_index in Hget.
    destruct (key_index k items.*1) as [n|] eqn:Hn; simpl in Hget; [|done].
    destruct (items.*2 !! n) as [c0|] eqn:Hc0; [|done]. injection Hget as ->.
    destruct (Hctx n c Hc0) as (vc & fpc & Hvc & Hc & Hsub & Hrep).
    exists vc, fpc. split_and!; [|done|done|].
    + simpl. rewrite Ho. rewrite dict_get_key_index, Hshape, Hn. simpl.
      by rewrite Hvc.
    + intros _ h' c' fpc' X Hsame Hc' Hsub' HX.
      destruct (Hrep h' c' fpc' X Hsame Hc' Hsub' HX) as (fp'' & Hall' & Hl' & Hsub'' & Ho').
      eexists. split; [reflexivity|].
      pose proof (assoc_set_key_index k c' items) as Hset. rewrite Hn in Hset.
      destruct Hset as [Hkeys Hvals].
      exists ({[l]} ∪ fp''). split; [|set_solver].
      econstructor; [exact Ho'| | |done].
      * simpl. by rewrite Hkeys.
      * simpl. by rewrite Hvals.
  - (* a list *)
    destruct s as [k|i]; simpl in Hget; [done|].
    unfold list_getitem in Hget.
    destruct (py_index i (length elems)) as [n|] eqn:Hn; simpl in Hget; [|done].
    destruct (elems !! n) as [c0|] eqn:Hc0; [|done]. injection Hget as ->.
    destruct (Hctx n c Hc0) as (vc & fpc & Hvc & Hc & Hsub & Hrep).
    exists vc, fpc. split_and!; [|done|done|].
    + pose proof (repr_all_length _ _ _ _ Hall) as Hlen. simpl in Hlen.
      simpl. rewrite Ho. unfold list_getitem. rewrite <- Hlen, Hn. simpl.
      by rewrite Hvc.
    + intros _ h' c' fpc' X Hsame Hc' Hsub' HX.
      destruct (Hrep h' c' fpc' X Hsame Hc' Hsub' HX) as (fp'' & Hall' & Hl' & Hsub'' & Ho').
      simpl. rewrite Hn. eexists. split; [reflexivity|].
      exists ({[l]} ∪ fp''). split; [|set_solver].
      econstructor; [exact Ho'|done|exact Hall'|done].
Qed.

(** A lookup that fails on the tree fails in the store, with the same
    exception. *)
Lemma repr_getitem_Raise h t v fp s e :
  repr h t v fp → tree_getitem t s = Raise e → getitem h v s = Raise e.
Proof.
  intros Hr Hget.
  destruct (repr_val_inv _ _ _ _ Hr)
    as [[Hs _]|(l & o & fp' & -> & _ & Ho & Hshape & Hall & Hl & ->)].
  { destruct t; try done; injection Hs as <-;
      destruct s; cbn [tree_getitem getitem] in *; try congruence.
    destruct (str_getitem _ _); congruence. }
  destruct t as [| | | | |items|elems], o as [d|vs]; try done;
    simpl in Hshape, Hall.
  - rename s into k. simpl in Hget |- *. rewrite Ho.
    rewrite dict_get_key_index in Hget. rewrite dict_get_key_index, Hshape.
    destruct (key_index k items.*1) as [n|] eqn:Hn; simpl in *; [|congruence].
    destruct (items.*2 !! n) as [c0|] eqn:Hc0; [done|].
    rewrite (repr_all_lookup_None _ _ _ _ _ Hall Hc0). congruence.
  - pose proof (repr_all_length _ _ _ _ Hall) as Hlen.
    destruct s as [k|i]; simpl in Hget |- *; rewrite Ho; [congruence|].
    unfold list_getitem in *. rewrite <- Hlen.
    destruct (py_index i (length elems)) as [n|] eqn:Hn; simpl in *; [|congruence].
    destruct (elems !! n) as [c0|] eqn:Hc0; [done|].
    rewrite (repr_all_lookup_None _ _ _ _ _ Hall Hc0). congruence.
Qed.

Lemma repr_getpath h path : ∀ t v fp,
  repr h t v fp →
  match tree_get t path with
  | Ok c => ∃ vc fpc, getpath h v path = Ok vc ∧ repr h c vc fpc ∧ fpc ⊆ fp
  | Raise e => getpath h v path = Raise e
  end.
Proof.
  induction path as [|s path IH]; intros t v fp Hr; simpl.
  - by exists v, fp.
  - destruct (tree_getitem t s) as [c|e] eqn:Hget; simpl.
    + destruct (repr_getitem_ctx _ _ _ _ _ _ Hr Hget) as (vc & fpc & -> & Hc & Hsub & _).
      simpl. specialize (IH _ _ _ Hc).
      destruct (tree_get c path) as [c'|e]; [|done].
      destruct IH as (vc' & fpc' & ? & ? & ?). exists vc', fpc'. split_and!; try done.
      set_solver.
    + by rewrite (repr_getitem_Raise _ _ _ _ _ _ Hr Hget).
Qed.

Lemma py_index_lt i n m : py_index i n = Some m → (m < n)%nat.
Proof.
  unfold py_index.
  destruct (Z.leb_spec 0 i), (Z.ltb_spec i (Z.of_nat n)); simpl;
    try (intros [= <-]; lia);
    destruct (Z.ltb_spec i 0), (Z.leb_spec (- Z.of_nat n) i); simpl;
    try done; intros [= <-]; lia.
Qed.

(** Storing a component: the same exception, or the tree with the
    component stored. *)
Lemma repr_setitem h t v fp k rhs vr fpr :
  repr h t v fp → repr h rhs vr fpr → fp ## fpr →
  match tree_setitem t k rhs with
  | Ok t' =>
      ∃ h', setitem h v k vr = Ok h' ∧ length h' = length h ∧
            (∀ l, l ∉ fp → h' !! l = h !! l) ∧
            ∃ fp', repr h' t' v fp' ∧ fp' ⊆ fp ∪ fpr
  | Raise e => setitem h v k vr = Raise e
  end.
Proof.
  intros Hr Hrhs Hdisj.
  destruct (repr_val_inv _ _ _ _ Hr)
    as [[Hs _]|(l & o & fp' & -> & _ & Ho & Hshape & Hall & Hl & ->)].
  { destruct t; simpl in *; try done; injection Hs as <-; by destruct k. }
  pose proof (lookup_lt_Some _ _ _ Ho) as Hlt.
  assert (∀ o', ∀ l0, l0 ∉ ({[l]} ∪ fp' : gset loc) → <[l := o']> h !! l0 = h !! l0)
    as Hout.
  { intros o' l0 Hl0. apply list_lookup_insert_ne. set_solver. }
  assert (∀ o' ts vs fpx, repr_all h ts vs fpx → l ∉ fpx →
            repr_all (<[l := o']> h) ts vs fpx) as Hfr_all.
  { intros o' ts vs fpx Hx Hlx. eapply repr_all_frame; [done|].
    intros l0 Hl0. apply list_lookup_insert_ne. set_solver. }
  assert (∀ o', repr (<[l := o']> h) rhs vr fpr) as Hfr_rhs.
  { intros o'. eapply repr_frame; [done|].
    intros l0 Hl0. apply list_lookup_insert_ne. set_solver. }
  destruct t as [| | | | |items|elems], o as [d|vs]; try done;
    simpl in Hshape, Hall.
  - (* a dictionary *)
    simpl. rewrite Ho.
    eexists. split; [reflexivity|]. rewrite length_insert.
    split; [done|]. split; [apply Hout|].
    rewrite dict_set_assoc_set.
    pose proof (assoc_set_key_index k rhs items) as Hti.
    pose proof (assoc_set_key_index k vr d) as Htd. rewrite Hshape in Htd.
    destruct (key_index k items.*1) as [n|] eqn:Hn.
    + destruct Hti as [Hk1 Hv1], Htd as [Hk2 Hv2].
      destruct (lookup_lt_is_Some_2 items.*2 n) as [c0 Hc0].
      { apply key_index_lt in Hn. rewrite length_fmap in Hn. by rewrite length_fmap. }
      destruct (repr_all_lookup _ _ _ _ _ _ Hall Hc0)
        as (vc & fpc & fprest & Hvc & Hc & -> & Hcr & Hrep).
      exists ({[l]} ∪ (fpr ∪ fprest)). split; [|set_solver].
      econstructor.
      * by apply list_lookup_insert_eq.
      * simpl. congruence.
      * simpl. rewrite Hv1, Hv2. apply Hrep; [|apply Hfr_rhs|set_solver].
        intros l0 Hl0. apply list_lookup_insert_ne. set_solver.
      * set_solver.
    + rewrite Hti, Htd.
      exists ({[l]} ∪ (fp' ∪ fpr)). split; [|set_solver].
      econstructor.
      * by apply list_lookup_insert_eq.
      * simpl. rewrite !fmap_app. simpl. congruence.
      * simpl. rewrite !fmap_app. simpl. apply repr_all_snoc.
        -- by apply Hfr_all.
        -- apply Hfr_rhs.
        -- set_solver.
      * set_solver.
  - (* a list *)
    pose proof (repr_all_length _ _ _ _ Hall) as Hlen.
    destruct k as [k|i]; simpl; rewrite Ho; [done|]. rewrite <- Hlen.
    destruct (py_index i (length elems)) as [n|] eqn:Hn; [|done].
    eexists. split; [reflexivity|]. rewrite length_insert.
    split; [done|]. split; [apply Hout|].
    destruct (lookup_lt_is_Some_2 elems n) as [c0 Hc0]; [by eapply py_index_lt|].
    destruct (repr_all_lookup _ _ _ _ _ _ Hall Hc0)
      as (vc & fpc & fprest & Hvc & Hc & -> & Hcr & Hrep).
    exists ({[l]} ∪ (fpr ∪ fprest)). split; [|set_solver].
    econstructor.
    + by apply list_lookup_insert_eq.
    + done.
    + simpl. apply Hrep; [|apply Hfr_rhs|set_solver].
      intros l0 Hl0. apply list_lookup_insert_ne. set_solver.
    + set_solver.
Qed.

(** The nested assignment [v[s1]...[sn][k] = vr] on a tree in the store:
    it raises what the assignment on the tree raises, or leaves the tree
    that assignment gives, and touches no object outside the tree. *)
Lemma repr_assign h path : ∀ t v fp k rhs vr fpr,
  repr h t v fp → repr h rhs vr fpr → fp ## fpr →
  match tree_assign t path k rhs with
  | Ok t' =>
      ∃ c h', getpath h v path = Ok c ∧ setitem h c k vr = Ok h' ∧
              length h' = length h ∧ (∀ l, l ∉ fp → h' !! l = h !! l) ∧
              ∃ fp', repr h' t' v fp' ∧ fp' ⊆ fp ∪ fpr
  | Raise e => result_bind (getpath h v path) (λ c, setitem h c k vr) = Raise e
  end.
Proof.
  induction path as [|s path IH]; intros t v fp k rhs vr fpr Hr Hrhs Hdisj; simpl.
  - pose proof (repr_setitem _ _ _ _ k _ _ _ Hr Hrhs Hdisj) as Hset.
    destruct (tree_setitem t k rhs) as [t'|e]; [|done].
    destruct Hset as (h' & ? & ? & ? & ?). by exists v, h'.
  - destruct (tree_getitem t s) as [c|e] eqn:Hget; simpl.
    + destruct (repr_getitem_ctx _ _ _ _ _ _ Hr Hget)
        as (vc & fpc & -> & Hc & Hsub & Hrep). simpl.
      assert (fpc ## fpr) as Hdisj' by set_solver.
      specialize (IH _ _ _ k _ _ _ Hc Hrhs Hdisj').
      destruct (tree_assign c path k rhs) as [c'|e] eqn:Hassign; simpl; [|done].
      destruct IH as (cont & h' & Hpath & Hset & Hlen & Hsame & fpc' & Hc' & Hsub').
      assert (scalar_of t = None) as Hnode.
      { destruct (scalar_of t) as [v0|] eqn:Hv0; [exfalso|done].
        destruct (tree_getitem_scalar t s c) as (str & i & ch & _ & _ & _ & ->);
          [by eexists|done|].
        eapply (tree_assign_scalar path (PStr ch)); by eexists. }
      destruct (Hrep Hnode h' c' fpc' fpr) as (t' & -> & fp' & Ht' & Hfp');
        [|done|done|set_solver|].
      { intros l _ Hl. by apply Hsame. }
      exists cont, h'. split_and!; try done.
      * intros l Hl. apply Hsame. set_solver.
      * by exists fp'.
    + by rewrite (repr_getitem_Raise _ _ _ _ _ _ Hr Hget).
Qed.

(** *** Literals *)

Lemma repr_all_assoc_set h items d fp k t v fpv :
  d.*1 = items.*1 → repr_all h items.*2 d.*2 fp → repr h t v fpv → fp ## fpv →
  ∃ fp', (assoc_set k v d).*1 = (assoc_set k t items).*1 ∧
         repr_all h (assoc_set k t items).*2 (assoc_set k v d).*2 fp' ∧
         fp' ⊆ fp ∪ fpv.
Proof.
  intros Hkeys Hall Hv Hdisj.
  pose proof (assoc_set_key_index k t items) as Hti.
  pose proof (assoc_set_key_index k v d) as Htd. rewrite Hkeys in Htd.
  destruct (key_index k items.*1) as [n|] eqn:Hn.
  - destruct Hti as [Hk1 Hv1], Htd as [Hk2 Hv2].
    destruct (lookup_lt_is_Some_2 items.*2 n) as [c0 Hc0].
    { apply key_index_lt in Hn. rewrite length_fmap in Hn. by rewrite length_fmap. }
    destruct (repr_all_lookup _ _ _ _ _ _ Hall Hc0)
      as (vc & fpc & fprest & Hvc & Hc & -> & Hcr & Hrep).
    exists (fpv ∪ fprest). split_and!; [congruence| |set_solver].
    rewrite Hv1, Hv2. apply Hrep; [done|done|set_solver].
  - rewrite Hti, Htd. exists (fp ∪ fpv). split_and!; [|by rewrite !fmap_app; apply repr_all_snoc|done].
    rewrite !fmap_app. simpl. congruence.
Qed.

(** What evaluating a literal leaves in the store. *)
Lemma grows_repr_all h h' ts vs fp :
  grows h h' → repr_all h ts vs fp → repr_all h' ts vs fp.
Proof.
  intros Hg Hr. eapply repr_all_frame; [done|]. intros l Hl.
  apply (grows_old _ _ Hg). by eapply repr_all_lt.
Qed.

Lemma grows_repr h h' t v fp : grows h h' → repr h t v fp → repr h' t v fp.
Proof.
  intros Hg Hr. eapply repr_frame; [done|]. intros l Hl.
  apply (grows_old _ _ Hg). by eapply repr_lt.
Qed.

Lemma repr_fresh_val h t v fp : repr h t v fp → fresh_val 0 (length h) v.
Proof.
  intros Hr l ->. destruct (repr_ref_inv _ _ _ _ Hr) as (o & fp' & Ho & _).
  apply lookup_lt_Some in Ho. lia.
Qed.

Lemma repr_all_fresh_val h ts vs fp :
  repr_all h ts vs fp → Forall (fresh_val 0 (length h)) vs.
Proof.
  induction 1; constructor; [by eapply repr_fresh_val|done].
Qed.

Lemma Forall_alloc_ok_items (its : list (subscript * pyvalue)) :
  Forall (λ kt, alloc_ok kt.2) its.
Proof. apply Forall_forall. intros kt _. apply alloc_grows. Qed.

Lemma Forall_alloc_ok (es : list pyvalue) : Forall alloc_ok es.
Proof. apply Forall_forall. intros kt _. apply alloc_grows. Qed.

Lemma alloc_items_repr its :
  Forall (λ kt, alloc_repr_at kt.2) its →
  ∀ acc h d h' acct fpacc,
    alloc_items alloc its acc h = (d, h') →
    acc.*1 = acct.*1 → repr_all h acct.*2 acc.*2 fpacc →
    grows h h' ∧
    ∃ fp, d.*1 = (normalize_items normalize its acct).*1 ∧
          repr_all h' (normalize_items normalize its acct).*2 d.*2 fp ∧
          ∀ l, l ∈ fp → l ∈ fpacc ∨ (length h ≤ l < length h')%nat.
Proof.
  induction 1 as [|[k t] its Ht Hits IH]; intros acc h d h' acct fpacc Heq Hkeys Hacc.
  - simpl in Heq. injection Heq as <- <-. split; [apply grows_refl|].
    exists fpacc. split_and!; [done|done|by left].
  - assert (grows h h') as Hgrows.
    { eapply (alloc_items_ok _ (Forall_alloc_ok_items _) _ _ _ _ 0%nat Heq); [lia|].
      by eapply repr_all_fresh_val. }
    split; [done|]. simpl in Heq.
    destruct (alloc t h) as [v h1] eqn:Hal. simpl in Ht.
    destruct (Ht _ _ _ Hal) as (fpv & Hv & Hfresh).
    destruct (alloc_grows t _ _ _ Hal) as [Hg _].
    pose proof (grows_length _ _ Hg) as Hlen.
    destruct (repr_all_assoc_set h1 acct acc fpacc k (normalize t) v fpv)
      as (fp1 & Hk1 & Hall1 & Hsub1); [done|by eapply grows_repr_all|done| |].
    { apply elem_of_disjoint. intros l Hl1 Hl2.
      pose proof (repr_all_lt _ _ _ _ _ Hacc Hl1). specialize (Hfresh _ Hl2). lia. }
    rewrite <- dict_set_assoc_set in Hk1, Hall1.
    destruct (IH _ _ _ _ _ _ Heq Hk1 Hall1) as (Hg' & fp & Hk & Hall & Hfp).
    pose proof (grows_length _ _ Hg') as Hlen'.
    exists fp. split_and!; [done|done|].
    intros l Hl. destruct (Hfp _ Hl) as [Hl1|Hl1]; [|right; lia].
    apply Hsub1 in Hl1. apply elem_of_union in Hl1 as [Hl1|Hl1]; [by left|].
    right. specialize (Hfresh _ Hl1). lia.
Qed.

Lemma alloc_elems_repr es :
  Forall alloc_repr_at es →
  ∀ h vs h',
    alloc_elems alloc es h = (vs, h') →
    grows h h' ∧
    ∃ fp, repr_all h' (normalize <$> es) vs fp ∧
          ∀ l, l ∈ fp → (length h ≤ l < length h')%nat.
Proof.
  induction 1 as [|t es Ht Hes IH]; intros h vs h' Heq.
  - simpl in Heq. injection Heq as <- <-. split; [apply grows_refl|].
    exists ∅. split; [constructor|set_solver].
  - assert (grows h h') as Hgrows.
    { by eapply (alloc_elems_ok _ (Forall_alloc_ok _)). }
    split; [done|]. simpl in Heq.
    destruct (alloc t h) as [v h1] eqn:Hal.
    destruct (alloc_elems alloc es h1) as [vs' h2] eqn:Hes'.
    injection Heq as <- <-.
    destruct (Ht _ _ _ Hal) as (fpv & Hv & Hfresh).
    destruct (alloc_grows t _ _ _ Hal) as [Hg _].
    destruct (IH _ _ _ Hes') as (Hg' & fp & Hall & Hfp).
    pose proof (grows_length _ _ Hg). pose proof (grows_length _ _ Hg').
    exists (fpv ∪ fp). split.
    + rewrite fmap_cons. constructor; [by eapply grows_repr|done|].
      apply elem_of_disjoint. intros l Hl1 Hl2.
      specialize (Hfresh _ Hl1). specialize (Hfp _ Hl2). lia.
    + intros l [Hl|Hl]%elem_of_union; [specialize (Hfresh _ Hl)|specialize (Hfp _ Hl)]; lia.
Qed.

Lemma alloc_repr t : alloc_repr_at t.
Proof.
  induction t as [| | | | |items IH|elems IH] using pyvalue_nested_ind;
    intros h v h' Heq; simpl in Heq;
    try (injection Heq as <- <-; exists ∅; split; [by constructor|set_solver]).
  - destruct (alloc_items alloc items [] h) as [d h1] eqn:Hits.
    injection Heq as <- <-.
    destruct (alloc_items_repr _ IH [] h d h1 [] ∅ Hits eq_refl) as (Hg & fp & Hk & Hall & Hfp).
    { constructor. }
    pose proof (grows_length _ _ Hg) as Hlen.
    exists ({[length h1]} ∪ fp). split.
    + simpl. econstructor.
      * by apply list_lookup_middle.
      * simpl. exact Hk.
      * simpl. eapply repr_all_frame; [exact Hall|].
        intros l Hl. apply lookup_app_l. by eapply repr_all_lt.
      * intros Hl. apply (repr_all_lt _ _ _ _ _ Hall) in Hl. lia.
    + rewrite length_app. simpl.
      intros l [->%elem_of_singleton|Hl]%elem_of_union; [lia|].
      destruct (Hfp _ Hl) as [?|?]; [set_solver|lia].
  - destruct (alloc_elems alloc elems h) as [vs h1] eqn:Hes.
    injection Heq as <- <-.
    destruct (alloc_elems_repr _ IH h vs h1 Hes) as (Hg & fp & Hall & Hfp).
    pose proof (grows_length _ _ Hg) as Hlen.
    exists ({[length h1]} ∪ fp). split.
    + simpl. econstructor.
      * by apply list_lookup_middle.
      * done.
      * simpl. eapply repr_all_frame; [exact Hall|].
        intros l Hl. apply lookup_app_l. by eapply repr_all_lt.
      * intros Hl. apply (repr_all_lt _ _ _ _ _ Hall) in Hl. lia.
    + rewrite length_app. simpl.
      intros l [->%elem_of_singleton|Hl]%elem_of_union; [lia|].
      specialize (Hfp _ Hl). lia.
Qed.

(** *** [copy.deepcopy] of a tree *)


Lemma deepcopy_rec_repr_mutual h :
  (∀ t v fp, repr h t v fp →
     ∀ fuel, copies_tree repr (λ memo h1, deepcopy_rec fuel memo h1 v) h t fp) ∧
  (∀ ts vs fp, repr_all h ts vs fp →
     ∀ fuel, copies_tree repr_all
               (λ memo h1, copy_vals (deepcopy_rec fuel) vs memo h1) h ts fp).
Proof.
  apply repr_mutual.
  - (* a scalar *)
    intros t v Hs fuel memo h1 v' memo' h1' _ _ Heq.
    assert (deepcopy_rec fuel memo h1 v = Ok (v, memo, h1)) as Heq'.
    { destruct t; simpl in Hs; try done; injection Hs as <-; by destruct fuel. }
    rewrite Heq' in Heq. injection Heq as <- <- <-.
    exists ∅. split_and!; [by constructor|set_solver|done|done|set_solver].
  - (* a dictionary or a list *)
    intros t l o fp Ho Hshape Hall IH Hl fuel memo h1 v' memo' h1' Hsame Hmemo Heq.
    assert (memo !! l = None) as Hmiss.
    { apply not_elem_of_dom. set_solver. }
    destruct fuel as [|fuel]; simpl in Heq; rewrite Hmiss in Heq; [done|].
    rewrite Hsame, Ho in Heq by set_solver.
    pose proof (repr_all_length _ _ _ _ Hall) as Hlen.
    assert (∀ o0 l0, l0 ∈ fp → (h1 ++ [o0]) !! l0 = h !! l0) as Hsame'.
    { intros o0 l0 Hl0. rewrite lookup_app_l.
      - apply Hsame. set_solver.
      - apply lookup_lt_is_Some. rewrite Hsame by set_solver.
        apply lookup_lt_is_Some. by eapply repr_all_lt. }
    assert (dom (<[l := length h1]> memo) ## fp) as Hmemo'.
    { rewrite dom_insert_L. set_solver. }
    destruct o as [d|es]; simpl in Heq.
    + destruct (copy_vals (deepcopy_rec fuel) d.*2 (<[l:=length h1]> memo)
                  (h1 ++ [ODict []])) as [[[vs m1] hh]|] eqn:Hvs;
        simpl in Heq; [|done].
      injection Heq as <- <- <-.
      destruct (IH fuel _ _ _ _ _ (Hsame' _) Hmemo' Hvs)
        as (fp' & Hall' & Hfresh & Hold & Hlen' & Hdom).
      rewrite length_app in Hfresh, Hold, Hlen'. simpl in Hfresh, Hold, Hlen'.
      pose proof (repr_all_length _ _ _ _ Hall') as Hlenvs.
      destruct t as [| | | | |items|elems]; try done. simpl in Hshape, Hlen, Hlenvs.
      repeat rewrite length_fmap in Hlen. repeat rewrite length_fmap in Hlenvs.
      exists ({[length h1]} ∪ fp'). split_and!.
      * econstructor.
        -- apply list_lookup_insert_eq. lia.
        -- simpl. rewrite fst_zip; [done|]. rewrite length_fmap. lia.
        -- simpl. rewrite snd_zip by (rewrite length_fmap; lia).
           eapply repr_all_frame; [exact Hall'|].
           intros l0 Hl0. apply list_lookup_insert_ne. specialize (Hfresh _ Hl0). lia.
        -- intros Hin. specialize (Hfresh _ Hin). lia.
      * rewrite length_insert.
        intros l0 [->%elem_of_singleton|Hl0]%elem_of_union; [lia|].
        specialize (Hfresh _ Hl0). lia.
      * intros l0 Hl0. rewrite list_lookup_insert_ne by lia.
        rewrite Hold by lia. by apply lookup_app_l.
      * rewrite length_insert. lia.
      * rewrite Hdom, dom_insert_L. set_solver.
    + destruct (copy_vals (deepcopy_rec fuel) es (<[l:=length h1]> memo)
                  (h1 ++ [OList []])) as [[[vs m1] hh]|] eqn:Hvs;
        simpl in Heq; [|done].
      injection Heq as <- <- <-.
      destruct (IH fuel _ _ _ _ _ (Hsame' _) Hmemo' Hvs)
        as (fp' & Hall' & Hfresh & Hold & Hlen' & Hdom).
      rewrite length_app in Hfresh, Hold, Hlen'. simpl in Hfresh, Hold, Hlen'.
      destruct t as [| | | | |items|elems]; try done.
      exists ({[length h1]} ∪ fp'). split_and!.
      * econstructor.
        -- apply list_lookup_insert_eq. lia.
        -- done.
        -- simpl. eapply repr_all_frame; [exact Hall'|].
           intros l0 Hl0. apply list_lookup_insert_ne. specialize (Hfresh _ Hl0). lia.
        -- intros Hin. specialize (Hfresh _ Hin). lia.
      * rewrite length_insert.
        intros l0 [->%elem_of_singleton|Hl0]%elem_of_union; [lia|].
        specialize (Hfresh _ Hl0). lia.
      * intros l0 Hl0. rewrite list_lookup_insert_ne by lia.
        rewrite Hold by lia. by apply lookup_app_l.
      * rewrite length_insert. lia.
      * rewrite Hdom, dom_insert_L. set_solver.
  - (* no component *)
    intros fuel memo h1 v' memo' h1' _ _ [= <- <- <-].
    exists ∅. split_and!; [constructor|set_solver|done|done|set_solver].
  - (* a component and the rest *)
    intros t v ts vs fp1 fp2 Hr IH1 Hall IH2 Hdisj fuel memo h1 v' memo' h1'
      Hsame Hmemo Heq. simpl in Heq.
    destruct (deepcopy_rec fuel memo h1 v) as [[[v1 memo1] h1a]|] eqn:Hv;
      simpl in Heq; [|done].
    destruct (copy_vals (deepcopy_rec fuel) vs memo1 h1a) as [[[vs2 memo2] h2]|] eqn:Hvs;
      simpl in Heq; [|done].
    injection Heq as <- <- <-.
    assert (dom memo ## fp1) as Hm1 by set_solver.
    assert (∀ l, l ∈ fp1 → h1 !! l = h !! l) as Hs1
      by (intros l Hl; apply Hsame; set_solver).
    destruct (IH1 fuel memo h1 _ _ _ Hs1 Hm1 Hv)
      as (fp1' & Hr1 & Hfresh1 & Hold1 & Hlen1 & Hdom1).
    assert (∀ l, l ∈ fp1 ∪ fp2 → (l < length h1)%nat) as Hin.
    { intros l Hl. apply lookup_lt_is_Some. rewrite Hsame by done.
      apply lookup_lt_is_Some. apply elem_of_union in Hl as [Hl|Hl].
      - by eapply repr_lt.
      - by eapply repr_all_lt. }
    assert (dom memo1 ## fp2) as Hm2 by (rewrite Hdom1; set_solver).
    assert (∀ l, l ∈ fp2 → h1a !! l = h !! l) as Hs2.
    { intros l Hl. rewrite Hold1 by (apply Hin; set_solver). apply Hsame. set_solver. }
    destruct (IH2 fuel memo1 h1a _ _ _ Hs2 Hm2 Hvs)
      as (fp2' & Hr2 & Hfresh2 & Hold2 & Hlen2 & Hdom2).
    exists (fp1' ∪ fp2'). split_and!.
    + constructor; [|done|].
      * eapply repr_frame; [exact Hr1|]. intros l Hl. apply Hold2.
        specialize (Hfresh1 _ Hl). lia.
      * apply elem_of_disjoint. intros l Hl1 Hl2.
        specialize (Hfresh1 _ Hl1). specialize (Hfresh2 _ Hl2). lia.
    + intros l [Hl|Hl]%elem_of_union;
        [specialize (Hfresh1 _ Hl)|specialize (Hfresh2 _ Hl)]; lia.
    + intros l Hl. rewrite Hold2 by lia. by apply Hold1.
    + lia.
    + rewrite Hdom2, Hdom1. set_solver.
Qed.

Lemma deepcopy_repr h t v fp c h' :
  repr h t v fp → deepcopy h v = Ok (c, h') →
  ∃ fp', repr h' t c fp' ∧ ∀ l, l ∈ fp' → (length h ≤ l < length h')%nat.
Proof.
  intros Hr Heq. unfold deepcopy in Heq.
  destruct (deepcopy_rec (S (length h)) ∅ h v) as [[[v' memo'] h1]|] eqn:Hrec;
    simpl in Heq; [|done].
  injection Heq as <- <-.
  assert (dom (∅ : gmap loc loc) ## fp) as Hm by set_solver.
  destruct (proj1 (deepcopy_rec_repr_mutual h) _ _ _ Hr (S (length h)) ∅ h
              v' memo' h1 (λ _ _, eq_refl) Hm Hrec) as (fp' & Hr' & Hfresh & _).
  by exists fp'.
Qed.

Lemma deepcopy_rec_tree_returns_mutual h :
  (∀ t v fp, repr h t v fp →
     copy_tree_returns (λ fuel memo h1, deepcopy_rec fuel memo h1 v) h fp) ∧
  (∀ ts vs fp, repr_all h ts vs fp →
     copy_tree_returns (λ fuel memo h1, copy_vals (deepcopy_rec fuel) vs memo h1) h fp).
Proof.
  apply repr_mutual.
  - intros t v Hs fuel memo h1 _ _ _. exists (v, memo, h1).
    destruct t; simpl in Hs; try done; injection Hs as <-; by destruct fuel.
  - intros t l o fp Ho Hshape Hall IH Hl fuel memo h1 Hsame Hmemo Hfuel.
    assert (memo !! l = None) as Hmiss.
    { apply not_elem_of_dom. set_solver. }
    rewrite size_union, size_singleton in Hfuel by set_solver.
    destruct fuel as [|fuel]; [lia|]. simpl. rewrite Hmiss.
    rewrite Hsame, Ho by set_solver.
    assert (∀ o0 l0, l0 ∈ fp → (h1 ++ [o0]) !! l0 = h !! l0) as Hsame'.
    { intros o0 l0 Hl0. rewrite lookup_app_l.
      - apply Hsame. set_solver.
      - apply lookup_lt_is_Some. rewrite Hsame by set_solver.
        apply lookup_lt_is_Some. by eapply repr_all_lt. }
    assert (dom (<[l := length h1]> memo) ## fp) as Hmemo'.
    { rewrite dom_insert_L. set_solver. }
    destruct o as [d|es]; simpl in *.
    + destruct (IH fuel _ _ (Hsame' (ODict [])) Hmemo' ltac:(lia)) as [[[vs m1] hh] ->].
      simpl. by eexists.
    + destruct (IH fuel _ _ (Hsame' (OList [])) Hmemo' ltac:(lia)) as [[[vs m1] hh] ->].
      simpl. by eexists.
  - intros fuel memo h1 _ _ _. by eexists.
  - intros t v ts vs fp1 fp2 Hr IH1 Hall IH2 Hdisj fuel memo h1 Hsame Hmemo Hfuel.
    assert (dom memo ## fp1) as Hm1 by set_solver.
    assert (∀ l, l ∈ fp1 → h1 !! l = h !! l) as Hs1
      by (intros l Hl; apply Hsame; set_solver).
    assert (size fp1 ≤ size (fp1 ∪ fp2))%nat as Hsz1
      by (apply subseteq_size; set_solver).
    assert (size fp2 ≤ size (fp1 ∪ fp2))%nat as Hsz2
      by (apply subseteq_size; set_solver).
    destruct (IH1 fuel memo h1 Hs1 Hm1 ltac:(lia)) as [[[v1 memo1] h1a] Hv].
    simpl. rewrite Hv. simpl.
    destruct (proj1 (deepcopy_rec_repr_mutual h) _ _ _ Hr fuel memo h1 _ _ _ Hs1 Hm1 Hv)
      as (fp1' & Hr1 & Hfresh1 & Hold1 & Hlen1 & Hdom1).
    assert (∀ l, l ∈ fp1 ∪ fp2 → (l < length h1)%nat) as Hin.
    { intros l Hl. apply lookup_lt_is_Some. rewrite Hsame by done.
      apply lookup_lt_is_Some. apply elem_of_union in Hl as [Hl|Hl].
      - by eapply repr_lt.
      - by eapply repr_all_lt. }
    assert (dom memo1 ## fp2) as Hm2 by (rewrite Hdom1; set_solver).
    assert (∀ l, l ∈ fp2 → h1a !! l = h !! l) as Hs2.
    { intros l Hl. rewrite Hold1 by (apply Hin; set_solver). apply Hsame. set_solver. }
    destruct (IH2 fuel memo1 h1a Hs2 Hm2 ltac:(lia)) as [[[vs2 memo2] h2] ->].
    simpl. by eexists.
Qed.

(** A set of addresses of a store is no larger than the store. *)
Lemma size_below (fp : gset loc) (n : nat) :
  (∀ l, l ∈ fp → (l < n)%nat) → (size fp ≤ n)%nat.
Proof.
  intros Hlt.
  assert (fp ⊆ list_to_set (seq 0 n)) as Hsub.
  { intros l Hl. apply elem_of_list_to_set, elem_of_seq. specialize (Hlt _ Hl). lia. }
  apply subseteq_size in Hsub.
  rewrite size_list_to_set, length_seq in Hsub by apply NoDup_seq. done.
Qed.

Lemma deepcopy_tree h t v fp :
  repr h t v fp →
  ∃ c h' fp', deepcopy h v = Ok (c, h') ∧ repr h' t c fp' ∧
              (∀ l, l ∈ fp' → (length h ≤ l < length h')%nat) ∧
              (∀ l, (l < length h)%nat → h' !! l = h !! l) ∧
              (length h ≤ length h')%nat.
Proof.
  intros Hr.
  assert (dom (∅ : gmap loc loc) ## fp) as Hm by set_solver.
  assert (size fp < S (length h))%nat as Hfuel.
  { apply Nat.lt_succ_r, size_below. intros l. by eapply repr_lt. }
  destruct (proj1 (deepcopy_rec_tree_returns_mutual h) _ _ _ Hr (S (length h)) ∅ h
              (λ _ _, eq_refl) Hm Hfuel) as [[[c memo'] h'] Hrec].
  destruct (proj1 (deepcopy_rec_repr_mutual h) _ _ _ Hr (S (length h)) ∅ h
              c memo' h' (λ _ _, eq_refl) Hm Hrec) as (fp' & Hr' & Hfresh & Hold & Hlen & _).
  exists c, h', fp'. unfold deepcopy. rewrite Hrec. done.
Qed.

(** *** Assignments followed on a tree *)

Lemma split_last_snoc {A} (l : list A) x : split_last (l ++ [x]) = Some (l, x).
Proof. unfold split_last. by rewrite reverse_snoc, reverse_involutive. Qed.

Lemma split_last_cons {A} (x y : A) l :
  split_last (x :: y :: l) =
  match split_last (y :: l) with
  | Some (p, k) => Some (x :: p, k)
  | None => None
  end.
Proof.
  destruct (exists_last (l := y :: l)) as (l' & z & Heq); [done|].
  rewrite Heq. change (x :: l' ++ [z]) with ((x :: l') ++ [z]).
  by rewrite !split_last_snoc.
Qed.

Lemma split_last_is_Some {A} (x : A) l : ∃ p k, split_last (x :: l) = Some (p, k) ∧ x :: l = p ++ [k].
Proof.
  destruct (exists_last (l := x :: l)) as (l' & z & Heq); [done|].
  exists l', z. by rewrite Heq, split_last_snoc.
Qed.

Lemma tree_store_single t k rhs : tree_store t [k] rhs = tree_setitem t k rhs.
Proof. done. Qed.

Lemma tree_store_cons t s s2 r rhs :
  tree_store t (s :: s2 :: r) rhs =
  result_bind (tree_getitem t s) (λ c,
  result_bind (tree_store c (s2 :: r) rhs) (λ c', tree_setitem t s c')).
Proof.
  unfold tree_store. rewrite split_last_cons.
  destruct (split_last_is_Some s2 r) as (p & k & -> & _). done.
Qed.

Lemma dict_get_assoc_set {V} k k' (v : V) d :
  dict_get k (assoc_set k' v d) = if decide (k = k') then Some v else dict_get k d.
Proof.
  induction d as [|[k0 v0] d IH]; simpl.
  - by case_decide.
  - destruct (decide (k' = k0)) as [->|Hne]; simpl.
    + destruct (decide (k = k0)); done.
    + rewrite IH. destruct (decide (k = k0)) as [->|]; [|done].
      by rewrite decide_False by done.
Qed.

(** Reading the item that was stored, and another key. *)
Lemma tree_getitem_setitem t s c t' :
  tree_setitem t s c = Ok t' → tree_getitem t' s = Ok c.
Proof.
  destruct t as [| | | | |items|elems]; try done.
  - intros [= <-]. simpl. by rewrite dict_get_assoc_set, decide_True.
  - destruct s as [k|i]; [done|]. simpl.
    destruct (py_index i (length elems)) as [n|] eqn:Hn; [|done].
    intros [= <-]. simpl. unfold list_getitem. rewrite length_insert, Hn. simpl.
    rewrite list_lookup_insert_eq; [done|]. by eapply py_index_lt.
Qed.

Lemma tree_getitem_setitem_ne t k c t' k' :
  tree_setitem t (Key k) c = Ok t' → k' ≠ k →
  tree_getitem t' (Key k') = tree_getitem t (Key k').
Proof.
  destruct t as [| | | | |items|elems]; simpl; try done.
  intros [= <-] Hne. simpl. rewrite dict_get_assoc_set.
  by rewrite decide_False by congruence.
Qed.

Lemma tree_store_Ok_getitem t s r rhs t' :
  tree_store t (s :: r) rhs = Ok t' →
  ∃ c', tree_setitem t s c' = Ok t' ∧
        match r with
        | [] => c' = rhs
        | _ => ∃ c, tree_getitem t s = Ok c ∧ tree_store c r rhs = Ok c'
        end.
Proof.
  destruct r as [|s2 r].
  - rewrite tree_store_single. intros H. exists rhs. split; [exact H|reflexivity].
  - rewrite tree_store_cons. destruct (tree_getitem t s) as [c|]; simpl; [|done].
    destruct (tree_store c (s2 :: r) rhs) as [c'|] eqn:Hc'; simpl; [|done].
    intros H. exists c'. split; [exact H|]. exists c. split; [reflexivity|exact Hc'].
Qed.

(** [after_store] is right. *)
Lemma after_store_agrees target : ∀ q rhs a t t',
  tree_store t target rhs = Ok t' → agrees t q a →
  agrees t' q (after_store q target rhs a).
Proof.
  induction target as [|k target IH]; intros q rhs a t t' Hst Ha; [done|].
  destruct (tree_store_Ok_getitem _ _ _ _ _ Hst) as (c' & Hset & Hc').
  destruct q as [|s q].
  - destruct a as [[sub|]| |]; simpl in *; try done.
    + injection Ha as <-. done.
    + destruct t as [| | | | |items|elems]; try done.
      * by injection Hset as <-.
      * destruct k as [kk|i]; [done|]. simpl in Hset.
        destruct (py_index i (length elems)); [|done]. by injection Hset as <-.
  - cbn [after_store]. case_decide as Hk.
    + subst s. destruct target as [|s2 target].
      * subst c'. simpl. by rewrite (tree_getitem_setitem _ _ _ _ Hset).
      * destruct Hc' as (c & Hc & Hst').
        assert (agrees c q a) as Ha'.
        { destruct a as [r| |]; [| |done]; simpl in *; by rewrite Hc in Ha. }
        pose proof (IH q rhs a c c' Hst' Ha') as Hres.
        destruct (after_store q (s2 :: target) rhs a) as [r| |]; [| |done];
          simpl in *; by rewrite (tree_getitem_setitem _ _ _ _ Hset).
    + destruct s as [ks|], k as [kk|]; try done.
      destruct a as [r| |]; [| |done]; simpl in *;
        (rewrite (tree_getitem_setitem_ne _ _ _ _ ks Hset); [done|congruence]).
Qed.

(** ** The run notebooks on a tree *)

(** ** Statements on a configuration that is a tree *)

Lemma cfg_setitem_tree path k rhs σ t fp :
  repr (store σ) t (cfg σ) fp →
  match tree_assign t path k (normalize rhs) with
  | Ok t' =>
      ∃ h' fp', cfg_setitem path k rhs σ = Ok (tt, set_store h' σ) ∧
                repr h' t' (cfg σ) fp' ∧
                (∀ l, l ∈ fp' → l ∈ fp ∨ (length (store σ) ≤ l)%nat) ∧
                (∀ l, (l < length (store σ))%nat → l ∉ fp → h' !! l = store σ !! l) ∧
                (length (store σ) ≤ length h')%nat
  | Raise e => cfg_setitem path k rhs σ = Raise e
  end.
Proof.
  intros Hr. unfold cfg_setitem.
  destruct (alloc rhs (store σ)) as [vr h1] eqn:Hal.
  destruct (alloc_repr rhs _ _ _ Hal) as (fpr & Hrr & Hfresh).
  destruct (alloc_grows rhs _ _ _ Hal) as [Hg _].
  pose proof (grows_repr _ _ _ _ _ Hg Hr) as Hr1.
  assert (fp ## fpr) as Hdisj.
  { apply elem_of_disjoint. intros l Hl1 Hl2.
    pose proof (repr_lt _ _ _ _ _ Hr Hl1). specialize (Hfresh _ Hl2). lia. }
  pose proof (repr_assign h1 path t (cfg σ) fp k (normalize rhs) vr fpr Hr1 Hrr Hdisj)
    as Has.
  destruct (tree_assign t path k (normalize rhs)) as [t'|e].
  - destruct Has as (c & h' & Hget & Hset & Hlen & Hout & fp' & Hr' & Hsub).
    exists h', fp'. rewrite Hget. simpl. rewrite Hset. simpl. split_and!; try done.
    + intros l Hl. apply Hsub in Hl. apply elem_of_union in Hl as [Hl|Hl]; [by left|].
      right. specialize (Hfresh _ Hl). lia.
    + intros l Hl Hnot. rewrite Hout by done. by apply (grows_old _ _ Hg).
    + rewrite Hlen. apply (grows_length _ _ Hg).
  - destruct (getpath h1 (cfg σ) path) as [c|]; simpl in *; [|congruence].
    destruct (setitem h1 c k vr); simpl in *; [done|congruence].
Qed.

Lemma cfg_set_tree target rhs σ t fp :
  repr (store σ) t (cfg σ) fp →
  match tree_store t target (normalize rhs) with
  | Ok t' =>
      ∃ h' fp', cfg_set target rhs σ = Ok (tt, set_store h' σ) ∧
                repr h' t' (cfg σ) fp' ∧
                (∀ l, l ∈ fp' → l ∈ fp ∨ (length (store σ) ≤ l)%nat) ∧
                (∀ l, (l < length (store σ))%nat → l ∉ fp → h' !! l = store σ !! l) ∧
                (length (store σ) ≤ length h')%nat
  | Raise e => cfg_set target rhs σ = Raise e
  end.
Proof.
  intros Hr. unfold tree_store, cfg_set.
  destruct (split_last target) as [[path k]|]; [|done].
  by apply cfg_setitem_tree.
Qed.

Lemma Forall2_after_store t t' target rhs Q cur :
  tree_store t target rhs = Ok t' → Forall2 (agrees t) Q cur →
  Forall2 (agrees t') Q (zip_with (λ q a, after_store q target rhs a) Q cur).
Proof.
  intros Hst. induction 1; simpl; constructor; [|done].
  by eapply after_store_agrees.
Qed.

Lemma tracked_cfg_set Q cur es ls target rhs :
  triple (tracked Q cur es ls) (cfg_set target rhs)
    (λ _, tracked Q (zip_with (λ q a, after_store q target (normalize rhs) a) Q cur)
            es ls).
Proof.
  intros σ [] σ' (Hls & t & fp & Hr & Hcur & Hes) Heq.
  pose proof (cfg_set_tree target rhs σ t fp Hr) as H.
  destruct (tree_store t target (normalize rhs)) as [t'|e] eqn:Hst; [|congruence].
  destruct H as (h' & fp' & Heq' & Hr' & Hfp' & Hout & Hlen).
  assert (σ' = set_store h' σ) as -> by congruence.
  split; [done|]. exists t', fp'. split_and!; [done|by apply (Forall2_after_store t)|].
  intros e He. destruct (Hes e He) as (ts & fps & Hall & Hdisj & Hag).
  exists ts, fps. simpl. split_and!; [|..|done].
  - eapply repr_all_frame; [exact Hall|]. intros l Hl. apply Hout.
    + by eapply repr_all_lt.
    + set_solver.
  - apply elem_of_disjoint. intros l Hl1 Hl2.
    destruct (Hfp' _ Hl1) as [Hl|Hl]; [set_solver|].
    pose proof (repr_all_lt _ _ _ _ _ Hall Hl2). lia.
Qed.

Lemma tracked_append Q cur es ls :
  triple (tracked Q cur (Some es) ls) cfgs_append_deepcopy
    (λ _, tracked Q cur (Some (es ++ [cur])) ls).
Proof.
  intros σ [] σ' (Hls & t & fp & Hr & Hcur & Hes) Heq.
  destruct (Hes es eq_refl) as (ts & fps & Hall & Hdisj & Hag).
  destruct (deepcopy_tree _ _ _ _ Hr) as (c & h' & fp' & Hdc & Hr' & Hfresh & Hold & Hlen).
  unfold cfgs_append_deepcopy in Heq. rewrite Hdc in Heq. simpl in Heq.
  injection Heq as <-.
  split; [done|]. exists t, fp. simpl. split_and!; [|done|].
  - eapply repr_frame; [exact Hr|]. intros l Hl. apply Hold. by eapply repr_lt.
  - intros e [= <-]. exists (ts ++ [t]), (fps ∪ fp'). split_and!.
    + apply repr_all_snoc; [|done|].
      * eapply repr_all_frame; [exact Hall|]. intros l Hl. apply Hold.
        by eapply repr_all_lt.
      * apply elem_of_disjoint. intros l Hl1 Hl2.
        pose proof (repr_all_lt _ _ _ _ _ Hall Hl1). specialize (Hfresh _ Hl2). lia.
    + apply disjoint_union_r. split; [done|].
      apply elem_of_disjoint. intros l Hl1 Hl2.
      pose proof (repr_lt _ _ _ _ _ Hr Hl1). specialize (Hfresh _ Hl2). lia.
    + apply Forall2_app; [done|]. by constructor.
Qed.

Lemma tracked_labels_append Q cur es ls s :
  triple (tracked Q cur es (Some ls)) (labels_append s)
    (λ _, tracked Q cur es (Some (ls ++ [s]))).
Proof.
  intros σ [] σ' (Hls & Ht) [= <-]. split; [|done].
  intros l [= <-]. simpl. by rewrite (Hls ls eq_refl).
Qed.

Lemma tracked_cfgs_reset Q cur es ls :
  triple (tracked Q cur es ls) cfgs_reset (λ _, tracked Q cur (Some []) ls).
Proof.
  intros σ [] σ' (Hls & t & fp & Hr & Hcur & _) [= <-]. split; [done|].
  exists t, fp. split_and!; [done..|]. intros e [= <-].
  exists [], ∅. simpl. split_and!; [constructor|set_solver|constructor].
Qed.

Lemma tracked_labels_reset Q cur es ls :
  triple (tracked Q cur es ls) labels_reset (λ _, tracked Q cur es (Some [])).
Proof.
  intros σ [] σ' (Hls & Ht) [= <-]. split; [|done]. by intros l [= <-].
Qed.

Lemma tracked_environ_get Q cur es ls k :
  triple (tracked Q cur es ls) (environ_get k) (λ _, tracked Q cur es ls).
Proof.
  intros σ v σ' Ht. unfold environ_get.
  destruct (dict_get k (environ σ)); [|done]. by intros [= _ <-].
Qed.

Section calls.
Variable G : gotmtool.

Lemma any_Model (P : state → Prop) name env_file :
  triple P (Model G name env_file) (λ _ _, True).
Proof. done. Qed.

Lemma any_build (P : state → Prop) :
  triple P (time_magic (build G)) (λ _ _, True).
Proof. done. Qed.

Lemma tracked_init_config (P : state → Prop) Q :
  triple P (init_config G) (λ _, tracked Q ((λ _, Unknown) <$> Q) None None).
Proof.
  intros σ [] σ' _ Heq. unfold init_config in Heq.
  destruct (Model_init_config G) as [d|]; simpl in Heq; [|done].
  destruct (alloc d (store σ)) as [c h] eqn:Hal. injection Heq as <-.
  destruct (alloc_repr d _ _ _ Hal) as (fp & Hr & _).
  split; [done|]. exists (normalize d), fp. simpl. split_and!; [done| |done].
  apply Forall2_fmap_r, Forall_Forall2_diag, Forall_forall. done.
Qed.

Lemma tracked_run_batch Q cur es ls n :
  triple (tracked Q cur es ls) (time_magic (run_batch G n))
    (λ _ σ, tracked Q cur es ls σ ∧
            last (calls σ) = Some (CallRunBatch (cfgs σ) (labels σ) n)).
Proof.
  intros σ [] σ' Ht Heq. unfold time_magic, run_batch in Heq.
  destruct (Model_run_batch G _ _ _ _); injection Heq as <-;
    (split; [done|]); simpl; by rewrite last_snoc.
Qed.
End calls.

(** What is known of the entries can be read from the store. *)
Lemma agrees_reads h t v fp Q e :
  repr h t v fp → Forall2 (agrees t) Q e →
  Forall2 (reads_if h v) Q (stated <$> e).
Proof.
  intros Hr. induction 1 as [|q a Q e Ha _ IH]; simpl; constructor; [|done].
  destruct a as [[c|]| |]; simpl; try done. simpl in Ha.
  pose proof (repr_getpath h q t v fp Hr) as Hget. rewrite Ha in Hget.
  destruct Hget as (vc & fpc & Hget & Hc & _). by exists vc, fpc.
Qed.

Lemma agrees_reads_all h ts vs fps Q es :
  repr_all h ts vs fps → Forall2 (λ t a, Forall2 (agrees t) Q a) ts es →
  Forall2 (λ c row, Forall2 (reads_if h c) Q row) vs ((λ e : list known, stated <$> e) <$> es).
Proof.
  intros Hall. revert es.
  induction Hall as [|t v ts vs fp1 fp2 Hr Hall IH Hdisj]; intros es Hes.
  - inversion Hes; subst. constructor.
  - inversion Hes as [|? a ? es' Ha Hes']; subst. simpl. constructor; [|by apply IH].
    by eapply agrees_reads.
Qed.

Lemma tracked_reads Q cur es ls σ :
  tracked Q cur (Some es) (Some ls) σ →
  labels σ = ls ∧
  Forall2 (λ c row, Forall2 (reads_if (store σ) c) Q row) (cfgs σ) ((λ e : list known, stated <$> e) <$> es).
Proof.
  intros (Hls & t & fp & Hr & Hcur & Hes). split; [by apply Hls|].
  destruct (Hes es eq_refl) as (ts & fps & Hall & _ & Hag).
  by eapply agrees_reads_all.
Qed.

Lemma tracked_cfg_set_eq Q cur cur' es ls target rhs :
  cur' = zip_with (λ q a, after_store q target (normalize rhs) a) Q cur →
  triple (tracked Q cur es ls) (cfg_set target rhs) (λ _, tracked Q cur' es ls).
Proof. intros ->. apply tracked_cfg_set. Qed.

Lemma tracked_append_eq Q cur es es' ls :
  es' = es ++ [cur] →
  triple (tracked Q cur (Some es) ls) cfgs_append_deepcopy
    (λ _, tracked Q cur (Some es') ls).
Proof. intros ->. apply tracked_append. Qed.

Lemma tracked_labels_append_eq Q cur es ls ls' s :
  ls' = ls ++ [s] →
  triple (tracked Q cur es (Some ls)) (labels_append s)
    (λ _, tracked Q cur es (Some ls')).
Proof. intros ->. apply tracked_labels_append. Qed.

Lemma tracked_init_config_eq G (P : state → Prop) Q cur :
  cur = (λ _, Unknown) <$> Q →
  triple P (init_config G) (λ _, tracked Q cur None None).
Proof. intros ->. apply tracked_init_config. Qed.

Lemma tracked_change Q cur cur' es es' ls ls' σ :
  tracked Q cur es ls σ → cur = cur' → es = es' → ls = ls' →
  tracked Q cur' es' ls' σ.
Proof. by intros H <- <- <-. Qed.

Lemma scalar_of_inj t t' v : scalar_of t = Some v → scalar_of t' = Some v → t = t'.
Proof. destruct t, t'; simpl; congruence. Qed.

Lemma fst_snd_eq {A B} (l k : list (A * B)) : l.*1 = k.*1 → l.*2 = k.*2 → l = k.
Proof.
  revert k. induction l as [|[a b] l IH]; intros [|[a' b'] k]; simpl; try done.
  intros [= -> H1] [= -> H2]. f_equal. by apply IH.
Qed.

(** A value of the store is at most one tree. *)
Lemma repr_functional_mutual h :
  (∀ t v fp, repr h t v fp → ∀ t' fp', repr h t' v fp' → t = t') ∧
  (∀ ts vs fp, repr_all h ts vs fp → ∀ ts' fp', repr_all h ts' vs fp' → ts = ts').
Proof.
  apply repr_mutual.
  - intros t v Hs t' fp' Hr'.
    destruct (repr_val_inv _ _ _ _ Hr')
      as [[Hs' _]|(l & o & fp0 & -> & _)].
    + by eapply scalar_of_inj.
    + destruct t; simpl in Hs; congruence.
  - intros t l o fp Ho Hshape Hall IH Hl t' fp' Hr'.
    destruct (repr_ref_inv _ _ _ _ Hr') as (o' & fp0 & Ho' & Hshape' & Hall' & _).
    assert (o' = o) as -> by congruence.
    specialize (IH _ _ Hall').
    destruct t as [| | | | |items|elems], o as [d|es]; simpl in Hshape; try done;
      destruct t' as [| | | | |items'|elems']; simpl in Hshape'; try done;
      simpl in IH.
    + f_equal. apply fst_snd_eq; congruence.
    + by f_equal.
  - intros ts' fp' Hr'. by inversion Hr'.
  - intros t v ts vs fp1 fp2 Hr IH1 Hall IH2 Hdisj ts' fp' Hr'.
    inversion Hr' as [|t0 ? ts0 ? fpa fpb Hr0 Hall0]; subst.
    f_equal; [by eapply IH1|by eapply IH2].
Qed.

Lemma repr_functional h t t' v fp fp' : repr h t v fp → repr h t' v fp' → t = t'.
Proof. intros Hr. by apply (proj1 (repr_functional_mutual h) _ _ _ Hr). Qed.

(** Reading a tree from the store. *)
Lemma reads_tree_get h t v fp q u :
  repr h t v fp → reads h v q u ↔ tree_get t q = Ok u.
Proof.
  intros Hr. pose proof (repr_getpath h q t v fp Hr) as Hget. split.
  - intros (w & fpw & Hw & Hu).
    destruct (tree_get t q) as [c|e]; [|congruence].
    destruct Hget as (vc & fpc & Hvc & Hc & _).
    assert (vc = w) as -> by congruence. f_equal. by eapply repr_functional.
  - intros Hu. rewrite Hu in Hget. destruct Hget as (vc & fpc & Hvc & Hc & _).
    by exists vc, fpc.
Qed.

Lemma raises_tree_get h t v fp q e :
  repr h t v fp → getpath h v q = Raise e ↔ tree_get t q = Raise e.
Proof.
  intros Hr. pose proof (repr_getpath h q t v fp Hr) as Hget. split.
  - intros Hq. destruct (tree_get t q) as [c|e']; [|congruence].
    destruct Hget as (vc & fpc & Hvc & _). congruence.
  - intros Hq. by rewrite Hq in Hget.
Qed.

Lemma after_store_same target rhs a :
  target ≠ [] → after_store target target rhs a = Known (Ok rhs).
Proof.
  induction target as [|k target IH]; [done|]. intros _.
  cbn [after_store]. rewrite decide_True by done.
  destruct target as [|s2 target]; [done|]. by apply IH.
Qed.

Lemma after_store_diverge q target rhs a :
  diverge q target → after_store q target rhs a = a.
Proof.
  intros (p & ka & kb & r1 & r2 & -> & -> & Hne).
  induction p as [|s p IH]; cbn [app after_store].
  - rewrite decide_False by congruence. done.
  - rewrite decide_True by done.
    destruct (p ++ Key kb :: r2) as [|s2 l] eqn:Heq; [by destruct p|]. exact IH.
Qed.

Lemma cfg_set_Ok_tree target rhs σ σ' t fp :
  repr (store σ) t (cfg σ) fp → cfg_set target rhs σ = Ok (tt, σ') →
  ∃ t' fp', tree_store t target (normalize rhs) = Ok t' ∧
            repr (store σ') t' (cfg σ') fp'.
Proof.
  intros Hr Heq. pose proof (cfg_set_tree target rhs σ t fp Hr) as H.
  destruct (tree_store t target (normalize rhs)) as [t'|e]; [|congruence].
  destruct H as (h' & fp' & Heq' & Hr' & _).
  assert (σ' = set_store h' σ) as -> by congruence. by exists t', fp'.
Qed.

Lemma init_config_tree G σ σ' :
  init_config G σ = Ok (tt, σ') →
  ∃ d fp, Model_init_config G = Ok d ∧
          repr (store σ') (normalize d) (cfg σ') fp ∧
          (∀ l, l ∈ fp → (length (store σ) ≤ l)%nat) ∧
          (∀ l, (l < length (store σ))%nat → store σ' !! l = store σ !! l) ∧
          cfgs σ' = cfgs σ ∧ labels σ' = labels σ ∧ environ σ' = environ σ.
Proof.
  intros Heq. unfold init_config in Heq.
  destruct (Model_init_config G) as [d|]; simpl in Heq; [|done].
  destruct (alloc d (store σ)) as [c h] eqn:Hal. injection Heq as <-.
  destruct (alloc_repr d _ _ _ Hal) as (fp & Hr & Hfresh).
  destruct (alloc_grows d _ _ _ Hal) as [Hg _].
  exists d, fp. simpl. split_and!; try done.
  - intros l Hl. specialize (Hfresh _ Hl). lia.
  - apply (grows_old _ _ Hg).
Qed.

(** On the sample: the configuration [init_config] leaves is a tree. *)
Lemma sample_configured_tree :
  ∃ fp, repr (store Sample.configured) (normalize Sample.config)
          (cfg Sample.configured) fp.
Proof.
  assert (init_config Sample.tool initial = Ok (tt, Sample.configured)) as Heq
    by (vm_compute; reflexivity).
  destruct (init_config_tree _ _ _ Heq) as (d & fp & Hd & Hr & _).
  injection Hd as <-. by exists fp.
Qed.

(** Property X9: a nested assignment [cfg[s1]...[sn] = rhs], with at
    least one subscript, on a configuration that is a tree does what the
    assignment does on the nested value.  It raises the same exception
    (the [KeyError] of the first key, a string or an integer, that a
    dictionary on the way does not have; [TypeError] for a subscript on a
    number, a truth value or [None], for a string as the subscript of a
    list or of a string, and for the assignment to an item of a string;
    [IndexError] for an index out of the range of a list or of a string),
    or it returns and [cfg] is the tree with the item replaced or added,
    an integer subscript on a dictionary being a key like any other, made
    of objects of the old tree and of new ones; no object outside the old
    tree is changed, and [cfg], [cfgs] and [labels] are the same
    values. *)
Theorem cfg_set_on_tree (target : list subscript) (rhs : pyvalue) (σ : state)
    (t : pyvalue) (fp : gset loc) :
  target ≠ [] →
  repr (store σ) t (cfg σ) fp →
  match tree_store t target (normalize rhs) with
  | Ok t' =>
      ∃ σ' fp', cfg_set target rhs σ = Ok (tt, σ') ∧
                repr (store σ') t' (cfg σ') fp' ∧
                (∀ l, l ∈ fp' → l ∈ fp ∨ (length (store σ) ≤ l)%nat) ∧
                (∀ l, (l < length (store σ))%nat → l ∉ fp →
                      store σ' !! l = store σ !! l) ∧
                cfg σ' = cfg σ ∧ cfgs σ' = cfgs σ ∧ labels σ' = labels σ
  | Raise e => cfg_set target rhs σ = Raise e
  end.
Proof.
  intros _ Hr. pose proof (cfg_set_tree target rhs σ t fp Hr) as H.
  destruct (tree_store t target (normalize rhs)) as [t'|e]; [|done].
  destruct H as (h' & fp' & Heq' & Hr' & Hfp' & Hout & _).
  by exists (set_store h' σ), fp'.
Qed.

(** Property X10: reading after an assignment.  After
    [cfg[s1]...[sn] = rhs] has returned on a configuration that is a tree,
    reading [cfg[s1]...[sn]] gives [rhs]; and reading any chain of
    subscripts that parts from [s1, ..., sn] at a dictionary key gives
    what it gave before: the same value, or the same exception. *)
Theorem cfg_set_read_back (target : list subscript) (rhs : pyvalue)
    (σ σ' : state) (t : pyvalue) (fp : gset loc) :
  repr (store σ) t (cfg σ) fp → cfg_set target rhs σ = Ok (tt, σ') →
  reads (store σ') (cfg σ') target (normalize rhs) ∧
  ∀ q, diverge q target →
    (∀ u, reads (store σ) (cfg σ) q u → reads (store σ') (cfg σ') q u) ∧
    (∀ e, getpath (store σ) (cfg σ) q = Raise e →
          getpath (store σ') (cfg σ') q = Raise e).
Proof.
  intros Hr Heq.
  destruct (cfg_set_Ok_tree _ _ _ _ _ _ Hr Heq) as (t' & fp' & Hst & Hr').
  assert (target ≠ []) as Hne.
  { intros ->. unfold cfg_set in Heq. simpl in Heq. done. }
  split.
  - apply (reads_tree_get _ _ _ _ _ _ Hr').
    pose proof (after_store_agrees target target (normalize rhs) Unknown t t' Hst I) as Ha.
    by rewrite after_store_same in Ha.
  - intros q Hq.
    assert (tree_get t' q = tree_get t q) as Hsame.
    { pose proof (after_store_agrees target q (normalize rhs) (Known (tree_get t q))
                    t t' Hst eq_refl) as Ha.
      by rewrite after_store_diverge in Ha. }
    split.
    + intros u Hu. apply (reads_tree_get _ _ _ _ _ _ Hr'). rewrite Hsame.
      by apply (reads_tree_get _ _ _ _ _ _ Hr).
    + intros e He. apply (raises_tree_get _ _ _ _ _ _ Hr'). rewrite Hsame.
      by apply (raises_tree_get _ _ _ _ _ _ Hr).
Qed.

(** Property X11: [cfgs.append(copy.deepcopy(cfg))] on a configuration
    that is a tree always returns.  The entry appended is the same tree,
    built from objects added to the store only; the objects the store had
    keep their content, so [cfg] is still the tree it was; and reading the
    entry at any chain of subscripts gives what reading [cfg] gave, the
    same value or the same exception. *)
Theorem append_copies_tree (σ : state) (t : pyvalue) (fp : gset loc) :
  repr (store σ) t (cfg σ) fp →
  ∃ σ' c fp',
    cfgs_append_deepcopy σ = Ok (tt, σ') ∧ cfgs σ' = cfgs σ ++ [c] ∧
    repr (store σ') t c fp' ∧
    (∀ l, l ∈ fp' → (length (store σ) ≤ l < length (store σ'))%nat) ∧
    (∀ l, (l < length (store σ))%nat → store σ' !! l = store σ !! l) ∧
    repr (store σ') t (cfg σ') fp ∧
    cfg σ' = cfg σ ∧ labels σ' = labels σ ∧
    ∀ q, (∀ u, reads (store σ') c q u ↔ reads (store σ) (cfg σ) q u) ∧
         (∀ e, getpath (store σ') c q = Raise e ↔
               getpath (store σ) (cfg σ) q = Raise e).
Proof.
  intros Hr.
  destruct (deepcopy_tree _ _ _ _ Hr) as (c & h' & fp' & Hdc & Hr' & Hfresh & Hold & Hlen).
  exists (set_cfgs (cfgs σ ++ [c]) (set_store h' σ)), c, fp'.
  unfold cfgs_append_deepcopy. rewrite Hdc. simpl. split_and!; try done.
  - eapply repr_frame; [exact Hr|]. intros l Hl. apply Hold. by eapply repr_lt.
  - intros q. split.
    + intros u. rewrite (reads_tree_get _ _ _ _ _ _ Hr'), (reads_tree_get _ _ _ _ _ _ Hr).
      done.
    + intros e.
      rewrite (raises_tree_get _ _ _ _ _ _ Hr'), (raises_tree_get _ _ _ _ _ _ Hr).
      done.
Qed.

(** The first cell that assigns to [cfg] starts with [cfg['title'] = ...]
    and [cfg['location']['name'] = ...]. *)
Lemma needs_location (σ : state) t fp v1 v2 (rest : M unit) e :
  repr (store σ) t (cfg σ) fp →
  tree_get t at["location"] = Raise e →
  (cfg_set at["title"] (PStr v1) ;; cfg_set at["location"; "name"] (PStr v2) ;; rest) σ
  = Raise e.
Proof.
  intros Hr He.
  pose proof (cfg_set_tree at["title"] (PStr v1) σ t fp Hr) as H1.
  rewrite tree_store_single in H1.
  destruct (tree_setitem t "title" (normalize (PStr v1))) as [t1|e1] eqn:Hset.
  - destruct H1 as (h1 & fp1 & Heq1 & Hr1 & _).
    rewrite (bind_step _ _ _ _ _ Heq1).
    apply bind_Raise.
    pose proof (cfg_set_tree at["location"; "name"] (PStr v2) (set_store h1 σ) t1 fp1 Hr1)
      as H2.
    rewrite tree_store_cons in H2.
    rewrite (tree_getitem_setitem_ne _ _ _ _ "location" Hset) in H2 by done.
    simpl in He. destruct (tree_getitem t "location") as [c|e']; simpl in *; [done|].
    congruence.
  - apply bind_Raise. rewrite H1.
    destruct t; simpl in *; try congruence.
Qed.

(** Property X12: the run notebooks need the section [location] in the
    default configuration.  When the model is created, built or not, and
    reading [['location']] from the document that [init_config] returns
    raises [e] ([KeyError('location')] when the key is missing,
    [TypeError] when the document is not a dictionary), each of the three
    run notebooks raises [e], and it does so in the part before the call
    of [run_batch]. *)
Theorem notebook_needs_location (nb : notebook_id) (G : gotmtool) (σ0 : state)
    (env : list (string * string)) (d : pyvalue) (e : exn) :
  Model_new G (model_name nb) environ_file = Ok env →
  Model_init_config G = Ok d →
  tree_get (normalize d) at["location"] = Raise e →
  before_run_batch nb G σ0 = Raise e ∧ notebook nb G σ0 = Raise e.
Proof.
  intros HM HI He.
  assert (∀ (front : M unit) (rest : M unit),
            (∀ σ t fp, repr (store σ) t (cfg σ) fp →
                       tree_get t at["location"] = Raise e → front σ = Raise e) →
            (Model G (model_name nb) environ_file ;; time_magic (build G) ;;
             init_config G ;; front ;; rest) σ0 = Raise e) as Hrun.
  { intros front rest Hfront.
    assert (Model G (model_name nb) environ_file σ0
            = Ok (tt, set_environ env (log (CallModel (model_name nb) environ_file) σ0)))
      as H2 by (unfold Model; by rewrite HM).
    rewrite (bind_step _ _ _ _ _ H2).
    set (σ2 := set_environ env _).
    destruct (time_magic_returns (build G) σ2) as [σ4 H4].
    rewrite (bind_step _ _ _ _ _ H4).
    destruct (init_config G σ4) as [[[] σ5]|e5] eqn:H5.
    - rewrite (bind_step _ _ _ _ _ H5).
      destruct (init_config_tree _ _ _ H5) as (d' & fp & Hd & Hr & _).
      assert (d' = d) as -> by congruence.
      apply bind_Raise. by eapply Hfront.
    - unfold init_config in H5. rewrite HI in H5. simpl in H5.
      by destruct (alloc d _). }
  assert (before_run_batch nb G σ0 = Raise e) as Hbefore.
  { destruct nb; unfold before_run_batch; unfold model_name, environ_file in Hrun.
    - unfold Entrainment.prepare, Entrainment.assemble,
        Entrainment.cell2, Entrainment.cell4, Entrainment.cell5.
      apply Hrun. intros σ t fp Hr Ht. unfold Entrainment.cell6.
      by eapply needs_location.
    - unfold EntrainmentKC04.prepare,
        EntrainmentKC04.assemble, EntrainmentKC04.cell2, EntrainmentKC04.cell4,
        EntrainmentKC04.cell5.
      apply Hrun. intros σ t fp Hr Ht. unfold EntrainmentKC04.cell6.
      by eapply needs_location.
    - unfold OsmosisWinterKC04.prepare,
        OsmosisWinterKC04.assemble, OsmosisWinterKC04.cell2,
        OsmosisWinterKC04.cell4, OsmosisWinterKC04.cell5.
      apply Hrun. intros σ t fp Hr Ht. unfold OsmosisWinterKC04.cell6.
      by eapply needs_location. }
  split; [exact Hbefore|]. rewrite notebook_eq. by apply bind_Raise.
Qed.

(** ** The settings of the batches *)

(** Running a cell statement by statement, following the settings [Q]. *)
Ltac track_cell Q :=
  cbv beta zeta;
  lazymatch goal with
  | |- triple _ (_ ≫= _) _ => eapply triple_bind; [track_cell Q|intros ?; track_cell Q]
  | |- triple _ (for_each (_ :: _) _) _ =>
      eapply triple_for_each_cons; [track_cell Q|track_cell Q]
  | |- triple _ (for_each [] _) _ => apply triple_for_each_nil
  | |- triple _ (cfg_set _ _) _ =>
      eapply tracked_cfg_set_eq; vm_compute; reflexivity
  | |- triple _ cfgs_append_deepcopy _ =>
      eapply tracked_append_eq; vm_compute; reflexivity
  | |- triple _ (labels_append _) _ =>
      eapply tracked_labels_append_eq; vm_compute; reflexivity
  | |- triple _ cfgs_reset _ => apply tracked_cfgs_reset
  | |- triple _ labels_reset _ => apply tracked_labels_reset
  | |- triple _ (environ_get _) _ => apply tracked_environ_get
  | |- triple _ (Model _ _ _) _ => apply any_Model
  | |- triple _ (time_magic (build _)) _ => apply any_build
  | |- triple _ (init_config _) _ =>
      eapply (tracked_init_config_eq _ _ Q); vm_compute; reflexivity
  | |- triple _ (time_magic (run_batch _ _)) _ => apply tracked_run_batch
  end.

Ltac unfold_notebook :=
  unfold Entrainment.notebook, Entrainment.prepare, Entrainment.assemble,
    Entrainment.cell2, Entrainment.cell4, Entrainment.cell5, Entrainment.cell6,
    Entrainment.cell7, Entrainment.cell8, Entrainment.cell9,
    EntrainmentKC04.notebook, EntrainmentKC04.prepare,
    EntrainmentKC04.assemble,
    EntrainmentKC04.cell2, EntrainmentKC04.cell4, EntrainmentKC04.cell5,
    EntrainmentKC04.cell6, EntrainmentKC04.cell7, EntrainmentKC04.cell8,
    EntrainmentKC04.cell9, EntrainmentKC04.cell10,
    EntrainmentKC04.e6list, EntrainmentKC04.c4list,
    OsmosisWinterKC04.notebook, OsmosisWinterKC04.prepare,
    OsmosisWinterKC04.assemble,
    OsmosisWinterKC04.cell2, OsmosisWinterKC04.cell4, OsmosisWinterKC04.cell5,
    OsmosisWinterKC04.cell6, OsmosisWinterKC04.cell7, OsmosisWinterKC04.cell8,
    OsmosisWinterKC04.cell9, OsmosisWinterKC04.cell10, OsmosisWinterKC04.cell11,
    OsmosisWinterKC04.cell12, OsmosisWinterKC04.cell13,
    OsmosisWinterKC04.configure_KC04_MY, OsmosisWinterKC04.configure_KC04_k_omega.

(** A run notebook that returns leaves the settings [Q] of its entries as
    in [table], and the labels [ls]. *)
Ltac track_notebook Q :=
  eapply triple_weaken;
  [unfold_notebook; track_cell Q
  |intros ? H; exact H
  |let s := fresh "s" in
   let Ht := fresh "Ht" in
   let Hlast := fresh "Hlast" in
   let Hl := fresh "Hl" in
   let Hrows := fresh "Hrows" in
   intros [] s [Ht Hlast]; apply tracked_reads in Ht as [Hl Hrows];
   split; [exact Hlast|]; split;
   [rewrite Hl; vm_compute; reflexivity
   |lazymatch goal with
    | |- Forall2 _ _ ?table =>
        lazymatch type of Hrows with
        | Forall2 _ _ ?big =>
            assert (big = table) as <- by (vm_compute; reflexivity)
        end
    end; exact Hrows]].

Lemma triple_returns {S} (m : stx S unit) (Q : S → Prop) :
  triple (λ _, True) m (λ _, Q) → ∀ σ0 σ, m σ0 = Ok (tt, σ) → Q σ.
Proof. intros H σ0 σ Hrun. exact (H σ0 tt σ I Hrun). Qed.

(** Property X14: the batch of [run_Entrainment-KC04.ipynb].  When the
    notebook returns, its last call is [run_batch] with [cfgs], [labels]
    and four processes, and the ten configurations read as in
    [kc04_table], the label at each position naming the parameter of the
    entry at that position: [turbulence.my.e6] is 1.0, 4.0, 6.0, 7.0 in
    the entries of the first loop; [turbulence.generic.cpsi4] is 0.15,
    0.3, 0.555, 1.2 in those of the second loop, which still carry the
    [e6 = 7.0] the first loop ended with; the last two entries have the
    Stokes drift methods ['off'], [e6 = 4.0], and the first of them the
    [cpsi4 = 1.2] the second loop ended with. *)
Theorem kc04_batch_settings (G : gotmtool) (σ0 σ : state) :
  EntrainmentKC04.notebook G σ0 = Ok (tt, σ) →
  last (calls σ) = Some (CallRunBatch (cfgs σ) (labels σ) 4) ∧
  labels σ =
    ["KC04-MY-e6-1.0"; "KC04-MY-e6-4.0"; "KC04-MY-e6-6.0"; "KC04-MY-e6-7.0";
     "KC04-k-omega-c4-0.150"; "KC04-k-omega-c4-0.300";
     "KC04-k-omega-c4-0.555"; "KC04-k-omega-c4-1.200";
     "KC04-MY-NS"; "KC04-k-omega-NS"] ∧
  Forall2 (λ c row, Forall2 (reads_if (store σ) c) kc04_settings row)
    (cfgs σ) kc04_table.
Proof.
  revert σ0 σ. apply triple_returns.
  track_notebook kc04_settings.
Qed.

(** Property X15: the batch of the OSMOSIS notebook.  When the notebook
    returns, its last call is [run_batch] with [cfgs], [labels] and two
    processes, and the four configurations read as in [osmosis_table]:
    Mellor-Yamada and k-omega with the Stokes drift methods
    ['exponential'] and ['us'], then the same two with the methods
    ['off']; [e6] is 4.0 in all four, and [cpsi4] is 0.15 in all but the
    first, where it is what [init_config] gave. *)
Theorem osmosis_batch_settings (G : gotmtool) (σ0 σ : state) :
  OsmosisWinterKC04.notebook G σ0 = Ok (tt, σ) →
  last (calls σ) = Some (CallRunBatch (cfgs σ) (labels σ) 2) ∧
  labels σ = ["KC04-MY"; "KC04-k-omega"; "KC04-MY-NS"; "KC04-k-omega-NS"] ∧
  Forall2 (λ c row, Forall2 (reads_if (store σ) c) kc04_settings row)
    (cfgs σ) osmosis_table.
Proof.
  revert σ0 σ. apply triple_returns.
  track_notebook kc04_settings.
Qed.

Lemma Forall2_all_same {A B} (P : A → B → Prop) (l : list A) (k : list B) b :
  Forall2 P l k → k = replicate (length k) b → Forall (λ a, P a b) l.
Proof.
  induction 1 as [|a b' l k Hab _ IH]; simpl; [constructor|].
  intros [= -> Hk]. constructor; [done|by apply IH].
Qed.

(** Property X17: the section [output].  When a run notebook returns,
    every configuration of its batch has as [cfg['output']] exactly the
    nested value cell 6 builds, one output file [gotm_out] with its seven
    settings and the one-element list [variables], whatever the default
    configuration had there; and the batch has as many configurations as
    labels. *)
Theorem output_section_rebuilt (nb : notebook_id) (G : gotmtool) (σ0 σ : state) :
  notebook nb G σ0 = Ok (tt, σ) →
  length (cfgs σ) = length (batch_labels nb) ∧
  Forall (λ c, reads (store σ) c at["output"] (output_section nb)) (cfgs σ).
Proof.
  intros Hrun.
  assert (Forall2 (λ c row, Forall2 (reads_if (store σ) c) [at["output"]] row)
            (cfgs σ)
            (replicate (length (batch_labels nb)) [Some (output_section nb)]))
    as Hrows.
  { revert σ0 σ Hrun. apply triple_returns.
    destruct nb;
      (eapply triple_weaken;
       [unfold notebook; unfold_notebook; track_cell [at["output"]]
       |intros ? H; exact H
       |intros [] s [Ht _]; apply tracked_reads in Ht as [_ Hrows];
        lazymatch goal with
        | |- Forall2 _ _ ?table =>
            lazymatch type of Hrows with
            | Forall2 _ _ ?big =>
                assert (big = table) as <- by (vm_compute; reflexivity)
            end
        end; exact Hrows]). }
  split.
  - apply Forall2_length in Hrows. by rewrite length_replicate in Hrows.
  - eapply Forall_impl.
    + eapply (Forall2_all_same _ _ _ _ Hrows). by rewrite length_replicate.
    + intros c Hc. by inversion Hc.
Qed.

(** *** The forcing files of the OSMOSIS notebook *)

Lemma triple_with_environ {A} e φ (P : state → Prop) (m : M A) Q :
  triple P m Q → keeps_environ m →
  triple (with_environ e φ P) m (λ a, with_environ e φ (Q a)).
Proof.
  intros Hm Hk σ a σ' (He & Hφ & HP) Heq. split_and!; [|done|by eapply Hm].
  rewrite <- He. by eapply Hk.
Qed.

Lemma keeps_environ_cfg_set target rhs : keeps_environ (cfg_set target rhs).
Proof.
  intros σ a σ'. unfold cfg_set. destruct (split_last target) as [[path k]|]; [|done].
  unfold cfg_setitem. destruct (alloc rhs (store σ)) as [v h1].
  destruct (getpath h1 (cfg σ) path) as [c|]; simpl; [|done].
  destruct (setitem h1 c k v); simpl; [|done]. by intros [= _ <-].
Qed.

Lemma keeps_environ_append : keeps_environ cfgs_append_deepcopy.
Proof.
  intros σ a σ'. unfold cfgs_append_deepcopy.
  destruct (deepcopy (store σ) (cfg σ)) as [[c h']|]; simpl; [|done].
  by intros [= _ <-].
Qed.

Lemma keeps_environ_labels_append s : keeps_environ (labels_append s).
Proof. by intros σ a σ' [= _ <-]. Qed.

Lemma keeps_environ_cfgs_reset : keeps_environ cfgs_reset.
Proof. by intros σ a σ' [= _ <-]. Qed.

Lemma keeps_environ_labels_reset : keeps_environ labels_reset.
Proof. by intros σ a σ' [= _ <-]. Qed.

Lemma keeps_environ_build G : keeps_environ (time_magic (build G)).
Proof.
  intros σ a σ'. unfold time_magic, build.
  by destruct (Model_build G); intros [= _ <-].
Qed.

Lemma keeps_environ_init_config G : keeps_environ (init_config G).
Proof.
  intros σ a σ'. unfold init_config. destruct (Model_init_config G); simpl; [|done].
  destruct (alloc _ _). by intros [= _ <-].
Qed.

Lemma keeps_environ_run_batch G n : keeps_environ (time_magic (run_batch G n)).
Proof.
  intros σ a σ'. unfold time_magic, run_batch.
  by destruct (Model_run_batch G _ _ _ _); intros [= _ <-].
Qed.

Lemma Model_environ G (P : state → Prop) name env_file :
  triple P (Model G name env_file)
    (λ _, with_environ (environ_of G name env_file)
            (Model_new G name env_file = Ok (environ_of G name env_file))
            (λ _, True)).
Proof.
  intros σ a σ' _. unfold Model, environ_of.
  destruct (Model_new G name env_file) as [e|]; simpl; [|done].
  by intros [= _ <-].
Qed.

(** [v = m.environ[k]] and what follows. *)
Lemma triple_environ_get {B} e φ (P : state → Prop) k d (f : string → M B) R :
  d = default "" (dict_get k e) →
  triple (with_environ e (φ ∧ is_Some (dict_get k e)) P) (f d) R →
  triple (with_environ e φ P) (environ_get k ≫= f) R.
Proof.
  intros -> Hf σ b σ' (He & Hφ & HP) Heq.
  unfold mbind, stx_bind, environ_get in Heq. rewrite He in Heq.
  destruct (dict_get k e) as [v|] eqn:Hk; [|done]. simpl in Hf.
  eapply Hf; [|exact Heq]. by split_and!.
Qed.

Ltac track_environ Q Hdatadir :=
  cbv beta zeta; try rewrite <- Hdatadir;
  lazymatch goal with
  | |- triple _ (environ_get _ ≫= _) _ =>
      eapply triple_environ_get; [eassumption|track_environ Q Hdatadir]
  | |- triple _ (_ ≫= _) _ =>
      eapply triple_bind; [track_environ Q Hdatadir|intros ?; track_environ Q Hdatadir]
  | |- triple _ (cfg_set _ _) _ =>
      eapply triple_with_environ;
      [eapply tracked_cfg_set_eq; vm_compute; reflexivity
      |apply keeps_environ_cfg_set]
  | |- triple _ cfgs_append_deepcopy _ =>
      eapply triple_with_environ;
      [eapply tracked_append_eq; vm_compute; reflexivity|apply keeps_environ_append]
  | |- triple _ (labels_append _) _ =>
      eapply triple_with_environ;
      [eapply tracked_labels_append_eq; vm_compute; reflexivity
      |apply keeps_environ_labels_append]
  | |- triple _ cfgs_reset _ =>
      eapply triple_with_environ;
      [apply tracked_cfgs_reset|apply keeps_environ_cfgs_reset]
  | |- triple _ labels_reset _ =>
      eapply triple_with_environ;
      [apply tracked_labels_reset|apply keeps_environ_labels_reset]
  | |- triple _ (Model _ _ _) _ => apply Model_environ
  | |- triple _ (time_magic (build _)) _ =>
      eapply triple_with_environ; [apply any_build|apply keeps_environ_build]
  | |- triple _ (init_config _) _ =>
      eapply triple_with_environ;
      [eapply (tracked_init_config_eq _ _ Q); vm_compute; reflexivity
      |apply keeps_environ_init_config]
  | |- triple _ (time_magic (run_batch _ _)) _ =>
      eapply triple_with_environ;
      [apply tracked_run_batch|apply keeps_environ_run_batch]
  end.

Lemma reads_if_Some h c Q ts :
  Forall2 (reads_if h c) Q (Some <$> ts) → Forall2 (reads h c) Q ts.
Proof.
  revert Q. induction ts as [|t ts IH]; intros Q H; inversion H; subst;
    constructor; auto.
Qed.

(** Property X16: the forcing files of the OSMOSIS notebook.  When the
    notebook returns, [m.environ] is what [Model] returned and has the key
    ['gotmdir_data'], and in every configuration of the batch the ten
    forcing files are files of the directory
    [dirname(dirname(m.environ['gotmdir_data'])) + '/OSMOSIS-Winter'],
    the two components of the momentum flux being columns 1 and 2 of one
    file and the three series of the Stokes drift columns 1, 2 and 3 of
    another. *)
Theorem osmosis_forcing_files (G : gotmtool) (σ0 σ : state) :
  OsmosisWinterKC04.notebook G σ0 = Ok (tt, σ) →
  Model_new G "OSMOSIS-Winter-KC04" "../gotmtool/.gotm_env.yaml" = Ok (environ σ) ∧
  ∃ gotmdir_data,
    dict_get "gotmdir_data" (environ σ) = Some gotmdir_data ∧
    let datadir := dirname (dirname gotmdir_data) +:+ "/OSMOSIS-Winter" in
    Forall (λ c, Forall2 (reads (store σ) c) osmosis_forcing (osmosis_files datadir))
      (cfgs σ).
Proof.
  remember (default "" (dict_get "gotmdir_data"
                          (environ_of G "OSMOSIS-Winter-KC04"
                             "../gotmtool/.gotm_env.yaml"))) as d eqn:Hd.
  remember (dirname (dirname d) +:+ "/OSMOSIS-Winter") as datadir eqn:Hdatadir.
  revert σ0 σ. apply triple_returns.
  eapply triple_weaken; [|intros ? H; exact H|].
  - unfold_notebook. track_environ osmosis_forcing Hdatadir.
  - intros [] s (He & (HM & Hk) & Ht & _). simpl in He.
    apply tracked_reads in Ht as [_ Hrows].
    rewrite He. split; [exact HM|].
    destruct Hk as [v Hv]. rewrite Hv in Hd. simpl in Hd. subst v.
    exists d. split; [done|]. cbv zeta. rewrite <- Hdatadir.
    lazymatch type of Hrows with
    | Forall2 _ _ ?big =>
        assert (big = replicate 4 (Some <$> osmosis_files datadir)) as Hbig
          by (vm_compute; reflexivity)
    end.
    rewrite Hbig in Hrows. clear Hbig.
    eapply Forall_impl.
    + eapply (Forall2_all_same _ _ _ _ Hrows). reflexivity.
    + intros c Hc. by apply reads_if_Some.
Qed.

(** ** When the run notebooks return *)

Lemma returns_bind {S A B} (P : S → Prop) (Q : A → S → Prop) (R : B → S → Prop)
    (m : stx S A) (f : A → stx S B) :
  returns P m Q → (∀ a, returns (Q a) (f a) R) → returns P (m ≫= f) R.
Proof.
  intros Hm Hf σ HP. destruct (Hm σ HP) as (a & σ1 & Heq & HQ).
  destruct (Hf a σ1 HQ) as (b & σ2 & Heq' & HR).
  exists b, σ2. split; [|done]. by rewrite (bind_step _ _ _ _ _ Heq).
Qed.

Lemma returns_for_each_cons {S A} (P Q R : S → Prop) (x : A) xs
    (body : A → stx S unit) :
  returns P (body x) (λ _, Q) → returns Q (for_each xs body) (λ _, R) →
  returns P (for_each (x :: xs) body) (λ _, R).
Proof. intros Hx Hxs. simpl. eapply returns_bind; [exact Hx|by intros []]. Qed.

Lemma returns_for_each_nil {S A} (P : S → Prop) (body : A → stx S unit) :
  returns P (for_each [] body) (λ _, P).
Proof. intros σ HP. by exists tt, σ. Qed.

(** A statement that cannot raise returns into what it ensures. *)
Lemma returns_triple {S A} (P : S → Prop) (m : stx S A) (Q : A → S → Prop) :
  triple P m Q → (∀ σ, P σ → is_Ok (m σ)) → returns P m Q.
Proof.
  intros Ht Hok σ HP. destruct (Hok σ HP) as [[a σ'] Heq].
  exists a, σ'. split; [done|]. by eapply Ht.
Qed.

Lemma returns_with_environ {A} e φ (P : state → Prop) (m : M A) Q :
  returns P m (λ _, Q) → keeps_environ m →
  returns (with_environ e φ P) m (λ _, with_environ e φ Q).
Proof.
  intros Hm Hk σ (He & Hφ & HP). destruct (Hm σ HP) as (a & σ' & Heq & HQ).
  exists a, σ'. split; [done|]. split_and!; [|done..].
  rewrite <- He. by eapply Hk.
Qed.

Lemma tree_setitem_again t s c c' :
  scalar_of t = None → tree_getitem t s = Ok c → is_Ok (tree_setitem t s c').
Proof.
  destruct t as [| | | | |items|elems]; try done; intros _.
  - intros _. by eexists.
  - destruct s as [k|i]; [done|]. simpl.
    unfold list_getitem. destruct (py_index i (length elems)); simpl; [|done].
    intros _. by eexists.
Qed.

Lemma tree_get_scalar path : ∀ t c,
  is_Some (scalar_of t) → tree_get t path = Ok c → is_Some (scalar_of c).
Proof.
  induction path as [|s path IH]; intros t c Ht Hget; simpl in Hget.
  - by injection Hget as <-.
  - destruct (tree_getitem t s) as [c0|] eqn:Hc0; [|done]. simpl in Hget.
    destruct (tree_getitem_scalar _ _ _ Ht Hc0) as (str & i & ch & _ & _ & _ & ->).
    apply (IH (PStr ch)); [by eexists|done].
Qed.

Lemma tree_assign_Ok path : ∀ t items k rhs,
  tree_get t path = Ok (PDict items) → is_Ok (tree_assign t path (Key k) rhs).
Proof.
  induction path as [|s path IH]; intros t items k rhs Hget; simpl in *.
  - injection Hget as ->. by eexists.
  - destruct (tree_getitem t s) as [c|] eqn:Hc; simpl in *; [|done].
    destruct (IH _ _ k rhs Hget) as [c' ->]. simpl.
    eapply tree_setitem_again; [|done].
    destruct (scalar_of t) as [v|] eqn:Hv; [exfalso|done].
    destruct (tree_getitem_scalar t s c) as (str & i & ch & _ & _ & _ & ->);
      [by eexists|done|].
    by destruct (tree_get_scalar path (PStr ch) (PDict items)) as [? ?];
      [by eexists|done|].
Qed.

Lemma holds_dict_agrees t q a :
  holds_dict a = true → agrees t q a → ∃ items, tree_get t q = Ok (PDict items).
Proof.
  destruct a as [[[]|]|[]|]; simpl; try done.
  - intros _ ->. by eexists.
  - intros _. destruct (tree_get t q) as [[]|]; try done. by eexists.
Qed.

Lemma storable_Ok Q cur target t rhs :
  storable Q cur target = true → Forall2 (agrees t) Q cur →
  is_Ok (tree_store t target rhs).
Proof.
  unfold storable, tree_store. intros Hs Hag.
  destruct (split_last target) as [[path [k|i]]|]; try done.
  apply existsb_exists in Hs as ([q a] & Hin & Hqa).
  apply andb_true_iff in Hqa as [Hq Ha]. apply bool_decide_eq_true in Hq.
  simpl in *. subst q.
  apply list_elem_of_In, elem_of_lookup_zip_with_1 in Hin
    as (i & q' & a' & [= <- <-] & Hq & Ha').
  pose proof (Forall2_lookup_lr _ _ _ _ _ _ Hag Hq Ha') as Hagree.
  destruct (holds_dict_agrees _ _ _ Ha Hagree) as [items Hget].
  by eapply tree_assign_Ok.
Qed.

Lemma returns_cfg_set Q cur cur' es ls target rhs :
  storable Q cur target = true →
  cur' = zip_with (λ q a, after_store q target (normalize rhs) a) Q cur →
  returns (tracked Q cur es ls) (cfg_set target rhs) (λ _, tracked Q cur' es ls).
Proof.
  intros Hs Hcur. apply returns_triple; [by apply tracked_cfg_set_eq|].
  intros σ (_ & t & fp & Hr & Hag & _).
  destruct (storable_Ok _ _ _ _ (normalize rhs) Hs Hag) as [t' Ht'].
  pose proof (cfg_set_tree target rhs σ t fp Hr) as H. rewrite Ht' in H.
  destruct H as (h' & fp' & Heq & _). by eexists.
Qed.

Lemma returns_append Q cur es es' ls :
  es' = es ++ [cur] →
  returns (tracked Q cur (Some es) ls) cfgs_append_deepcopy
    (λ _, tracked Q cur (Some es') ls).
Proof.
  intros Hes. apply returns_triple; [by apply tracked_append_eq|].
  intros σ (_ & t & fp & Hr & _).
  destruct (deepcopy_tree _ _ _ _ Hr) as (c & h' & fp' & Hdc & _).
  unfold cfgs_append_deepcopy. rewrite Hdc. by eexists.
Qed.

Lemma returns_labels_append Q cur es ls ls' s :
  ls' = ls ++ [s] →
  returns (tracked Q cur es (Some ls)) (labels_append s)
    (λ _, tracked Q cur es (Some ls')).
Proof.
  intros Hls. apply returns_triple; [by apply tracked_labels_append_eq|].
  intros σ _. by eexists.
Qed.

Lemma returns_cfgs_reset Q cur es ls :
  returns (tracked Q cur es ls) cfgs_reset (λ _, tracked Q cur (Some []) ls).
Proof.
  apply returns_triple; [by apply tracked_cfgs_reset|]. intros σ _. by eexists.
Qed.

Lemma returns_labels_reset Q cur es ls :
  returns (tracked Q cur es ls) labels_reset (λ _, tracked Q cur es (Some [])).
Proof.
  apply returns_triple; [by apply tracked_labels_reset|]. intros σ _. by eexists.
Qed.

Lemma returns_environ_get {B} e φ (P : state → Prop) k d (f : string → M B) R :
  dict_get k e = Some d →
  returns (with_environ e φ P) (f d) R →
  returns (with_environ e φ P) (environ_get k ≫= f) R.
Proof.
  intros Hd Hf σ HP. destruct (Hf σ HP) as (b & σ' & Heq & HR).
  exists b, σ'. split; [|done].
  unfold mbind, stx_bind, environ_get. destruct HP as (-> & _). by rewrite Hd.
Qed.

Section calls.
Variable G : gotmtool.

Lemma returns_Model (P : state → Prop) name env_file e :
  Model_new G name env_file = Ok e →
  returns P (Model G name env_file) (λ _, with_environ e True (λ _, True)).
Proof.
  intros HM σ _. unfold Model. rewrite HM. by eexists _, _.
Qed.

Lemma returns_build (P : state → Prop) :
  returns P (time_magic (build G)) (λ _ _, True).
Proof.
  intros σ _. destruct (time_magic_returns (build G) σ) as [σ' ->].
  by eexists _, _.
Qed.

Lemma returns_init_config (P : state → Prop) Q cur d :
  Model_init_config G = Ok d → Forall2 (agrees (normalize d)) Q cur →
  returns P (init_config G) (λ _, tracked Q cur None None).
Proof.
  intros HI Hag σ _.
  destruct (init_config G σ) as [[[] σ']|e] eqn:Heq.
  - exists tt, σ'. split; [done|].
    destruct (init_config_tree _ _ _ Heq) as (d' & fp & Hd & Hr & _).
    assert (d' = d) as -> by congruence.
    split; [done|]. by exists (normalize d), fp.
  - unfold init_config in Heq. rewrite HI in Heq. simpl in Heq.
    by destruct (alloc d _).
Qed.

Lemma returns_run_batch (P : state → Prop) n :
  returns P (time_magic (run_batch G n)) (λ _ _, True).
Proof.
  intros σ _. destruct (time_magic_returns (run_batch G n) σ) as [σ' ->].
  by eexists _, _.
Qed.
End calls.

Ltac run_through :=
  cbv beta zeta;
  lazymatch goal with
  | |- returns _ (environ_get _ ≫= _) _ =>
      eapply returns_environ_get; [eassumption|run_through]
  | |- returns _ (_ ≫= _) _ =>
      eapply returns_bind; [run_through|intros ?; run_through]
  | |- returns _ (for_each (_ :: _) _) _ =>
      eapply returns_for_each_cons; [run_through|run_through]
  | |- returns _ (for_each [] _) _ => apply returns_for_each_nil
  | |- returns _ (cfg_set _ _) _ =>
      eapply returns_with_environ;
      [eapply returns_cfg_set; vm_compute; reflexivity
      |apply keeps_environ_cfg_set]
  | |- returns _ cfgs_append_deepcopy _ =>
      eapply returns_with_environ;
      [eapply returns_append; vm_compute; reflexivity|apply keeps_environ_append]
  | |- returns _ (labels_append _) _ =>
      eapply returns_with_environ;
      [eapply returns_labels_append; vm_compute; reflexivity
      |apply keeps_environ_labels_append]
  | |- returns _ cfgs_reset _ =>
      eapply returns_with_environ;
      [apply returns_cfgs_reset|apply keeps_environ_cfgs_reset]
  | |- returns _ labels_reset _ =>
      eapply returns_with_environ;
      [apply returns_labels_reset|apply keeps_environ_labels_reset]
  | |- returns _ (Model _ _ _) _ => eapply returns_Model; eassumption
  | |- returns _ (time_magic (build _)) _ =>
      eapply returns_with_environ;
      [apply returns_build|apply keeps_environ_build]
  | |- returns _ (init_config _) _ =>
      eapply returns_with_environ;
      [eapply returns_init_config; eassumption|apply keeps_environ_init_config]
  | |- returns _ (time_magic (run_batch _ _)) _ =>
      eapply returns_with_environ;
      [apply returns_run_batch|apply keeps_environ_run_batch]
  end.

Lemma sections_agree t (S C : list (list subscript)) :
  Forall (λ q, ∃ items, tree_get t q = Ok (PDict items)) S →
  Forall2 (agrees t) (S ++ C)
    (((λ _, DictIff true) <$> S) ++ ((λ _, Unknown) <$> C)).
Proof.
  intros HS. apply Forall2_app.
  - apply Forall2_fmap_r, Forall_Forall2_diag. eapply Forall_impl; [exact HS|].
    intros q [items Hq]. simpl. by rewrite Hq.
  - apply Forall2_fmap_r, Forall_Forall2_diag, Forall_forall. done.
Qed.

(** Property X18: when a run notebook runs through.  If the model is
    created, [init_config] returns a document in which every chain of
    [sections] leads to a dictionary, and [m.environ] has the key
    ['gotmdir_data'] in the case of the OSMOSIS notebook, then the
    notebook returns, from any state: no assignment to [cfg] raises and
    every copy is made, and what [build] or [run_batch] raise under
    [%%time] does not end the run. *)
Theorem notebook_runs_through (nb : notebook_id) (G : gotmtool) (σ0 : state)
    (env : list (string * string)) (d : pyvalue) :
  Model_new G (model_name nb) environ_file = Ok env →
  Model_init_config G = Ok d →
  Forall (λ q, ∃ items, tree_get (normalize d) q = Ok (PDict items)) (sections nb) →
  (nb = OsmosisWinterKC04_ipynb → is_Some (dict_get "gotmdir_data" env)) →
  ∃ σ, notebook nb G σ0 = Ok (tt, σ).
Proof.
  intros HM HI HS HE.
  pose proof (sections_agree _ _ output_sections HS) as Hag.
  assert (∃ Q, returns (λ _, True) (notebook nb G) Q) as [Q Hret].
  { destruct nb; unfold model_name, environ_file, nproc in *.
    - eexists. unfold notebook. unfold_notebook. run_through.
    - eexists. unfold notebook. unfold_notebook. run_through.
    - destruct (HE eq_refl) as [gotmdir_data Hdata].
      eexists. unfold notebook. unfold_notebook. run_through. }
  destruct (Hret σ0 I) as ([] & σ & Heq & _). by exists σ.
Qed.

(** On the sample: the OSMOSIS notebook. *)
Lemma notebook_runs_through_witness :
  ∃ σ, notebook OsmosisWinterKC04_ipynb Sample.tool initial = Ok (tt, σ).
Proof.
  apply (notebook_runs_through OsmosisWinterKC04_ipynb Sample.tool initial
           [("gotmdir_data", "/home/user/gotm/data")] Sample.config).
  - reflexivity.
  - reflexivity.
  - apply Forall_forall. intros q Hq.
    repeat (apply elem_of_cons in Hq as [->|Hq]; [by eexists|]).
    by apply elem_of_nil in Hq.
  - intros _. by eexists.
Defined.

(** *** The sections are needed *)

Lemma tree_assign_parent path : ∀ t k rhs t',
  tree_assign t path (Key k) rhs = Ok t' → is_dict (tree_get t path) = true.
Proof.
  induction path as [|s path IH]; intros t k rhs t' Heq; simpl in *.
  - by destruct t.
  - destruct (tree_getitem t s) as [c|]; simpl in *; [|done].
    destruct (tree_assign c path k rhs) as [c'|] eqn:Hc; simpl in *; [|done].
    by eapply IH.
Qed.

Lemma learned_true Q cur target rhs t t' :
  tree_store t target rhs = Ok t' → Forall2 (agrees t) Q cur →
  Forall (λ b, b = true) (learned Q cur target).
Proof.
  unfold tree_store, learned. intros Hst Hag.
  destruct (split_last target) as [[path [k|i]]|]; try constructor.
  apply tree_assign_parent in Hst.
  apply Forall_forall. intros b Hb.
  apply list_elem_of_omap in Hb as ([q a] & Hin & Hqa). simpl in Hqa.
  destruct a as [r|b'|]; try done.
  case_decide as Hq; [|done]. injection Hqa as ->. subst q.
  apply elem_of_lookup_zip_with_1 in Hin as (i & q' & a' & [= <- <-] & Hq & Ha').
  pose proof (Forall2_lookup_lr _ _ _ _ _ _ Hag Hq Ha') as Hagree.
  simpl in Hagree. congruence.
Qed.

Lemma triple_with_facts {A} fs (P : state → Prop) (m : M A) Q :
  triple P m (λ _, Q) → triple (with_facts fs P) m (λ _, with_facts fs Q).
Proof. intros Hm σ a σ' [Hfs HP] Heq. split; [done|]. by eapply Hm. Qed.

Lemma learning_cfg_set Q cur cur' fs fs' es ls target rhs :
  fs' = learned Q cur target ++ fs →
  cur' = zip_with (λ q a, after_store q target (normalize rhs) a) Q cur →
  triple (with_facts fs (tracked Q cur es ls)) (cfg_set target rhs)
    (λ _, with_facts fs' (tracked Q cur' es ls)).
Proof.
  intros -> Hcur σ [] σ' [Hfs Ht] Heq. split.
  - apply Forall_app. split; [|done].
    destruct Ht as (_ & t & fp & Hr & Hag & _).
    destruct (cfg_set_Ok_tree _ _ _ _ _ _ Hr Heq) as (t' & fp' & Hst & _).
    by eapply learned_true.
  - by eapply (tracked_cfg_set_eq _ _ _ _ _ _ _ Hcur).
Qed.

Lemma learning_init_config G (P : state → Prop) Q cur d :
  Model_init_config G = Ok d → Forall2 (agrees (normalize d)) Q cur →
  triple P (init_config G) (λ _, with_facts [] (tracked Q cur None None)).
Proof.
  intros HI Hag σ [] σ' _ Heq. split; [constructor|].
  destruct (init_config_tree _ _ _ Heq) as (d' & fp & Hd & Hr & _).
  assert (d' = d) as -> by congruence.
  split; [done|]. by exists (normalize d), fp.
Qed.

Ltac learn_cell :=
  cbv beta zeta;
  lazymatch goal with
  | |- triple _ (_ ≫= _) _ => eapply triple_bind; [learn_cell|intros ?; learn_cell]
  | |- triple _ (for_each (_ :: _) _) _ =>
      eapply triple_for_each_cons; [learn_cell|learn_cell]
  | |- triple _ (for_each [] _) _ => apply triple_for_each_nil
  | |- triple _ (cfg_set _ _) _ =>
      eapply learning_cfg_set; vm_compute; reflexivity
  | |- triple _ cfgs_append_deepcopy _ =>
      eapply triple_with_facts; eapply tracked_append_eq; vm_compute; reflexivity
  | |- triple _ (labels_append _) _ =>
      eapply triple_with_facts; eapply tracked_labels_append_eq; vm_compute;
      reflexivity
  | |- triple _ cfgs_reset _ => eapply triple_with_facts; apply tracked_cfgs_reset
  | |- triple _ labels_reset _ => eapply triple_with_facts; apply tracked_labels_reset
  | |- triple _ (environ_get _) _ =>
      eapply triple_with_facts; apply tracked_environ_get
  | |- triple _ (Model _ _ _) _ => apply any_Model
  | |- triple _ (time_magic (build _)) _ => apply any_build
  | |- triple _ (init_config _) _ => eapply learning_init_config; eassumption
  | |- triple _ (time_magic (run_batch _ _)) _ =>
      eapply triple_with_facts; eapply triple_weaken;
      [apply tracked_run_batch|intros ? H; exact H|intros ? ? [H _]; exact H]
  end.

(** The list [bs] has the length [n]: its elements, one by one. *)
Ltac explode bs H :=
  repeat (destruct bs as [|? bs]; [discriminate H|]);
  destruct bs; [|discriminate H].

Lemma agree_by_dict t (S C : list (list subscript)) :
  Forall2 (agrees t) (S ++ C)
    ((DictIff <$> ((λ q, is_dict (tree_get t q)) <$> S)) ++ ((λ _, Unknown) <$> C)).
Proof.
  apply Forall2_app.
  - rewrite <- list_fmap_compose.
    apply Forall2_fmap_r, Forall_Forall2_diag, Forall_forall. done.
  - apply Forall2_fmap_r, Forall_Forall2_diag, Forall_forall. done.
Qed.

Lemma init_config_returned nb G σ0 σ :
  notebook nb G σ0 = Ok (tt, σ) → is_Ok (Model_init_config G).
Proof.
  rewrite notebook_eq. intros Hrun.
  apply bind_Ok in Hrun as ([] & σ1 & Hrun & _).
  destruct (before_run_batch_eq nb G) as [rest Heq]. rewrite Heq in Hrun.
  apply bind_Ok in Hrun as ([] & σ2 & _ & Hrun).
  apply bind_Ok in Hrun as ([] & σ3 & _ & Hrun).
  apply bind_Ok in Hrun as ([] & σ4 & Hrun & _).
  unfold init_config in Hrun.
  destruct (Model_init_config G) as [d|]; [by eexists|done].
Qed.

(** Property X19: the sections are needed.  When a run notebook returns,
    [init_config] returned a document in which every chain of [sections]
    leads to a dictionary; with a section missing, or other than a
    dictionary, the notebook raises. *)
Theorem notebook_needs_sections (nb : notebook_id) (G : gotmtool) (σ0 σ : state) :
  notebook nb G σ0 = Ok (tt, σ) →
  ∃ d, Model_init_config G = Ok d ∧
       Forall (λ q, ∃ items, tree_get (normalize d) q = Ok (PDict items))
         (sections nb).
Proof.
  intros Hrun. destruct (init_config_returned _ _ _ _ Hrun) as [d HI].
  exists d. split; [done|].
  pose proof (agree_by_dict (normalize d) (sections nb) output_sections) as Hag.
  remember ((λ q, is_dict (tree_get (normalize d) q)) <$> sections nb) as bs eqn:Hbs.
  enough (Forall (λ b, b = true) bs) as Hall.
  { rewrite Hbs in Hall. apply Forall_fmap in Hall.
    eapply Forall_impl; [exact Hall|]. intros q Hq. simpl in Hq.
    destruct (tree_get (normalize d) q) as [[]|]; try done. by eexists. }
  assert (length bs = length (sections nb)) as Hlen
    by (by rewrite Hbs, length_fmap).
  clear Hbs. revert σ0 σ Hrun. apply triple_returns.
  destruct nb; vm_compute in Hlen; explode bs Hlen;
    (eapply triple_weaken;
     [unfold notebook; unfold_notebook; learn_cell
     |intros ? H; exact H
     |intros [] s [Hfs _];
      repeat (apply Forall_cons_1 in Hfs as [? Hfs]);
      repeat (apply Forall_cons; split; [assumption|]); apply Forall_nil_2]).
Qed.

(** On the sample: the sections of [run_Entrainment-KC04.ipynb]. *)
Lemma notebook_needs_sections_witness :
  ∃ d, Model_init_config Sample.tool = Ok d ∧
       Forall (λ q, ∃ items, tree_get (normalize d) q = Ok (PDict items))
         (sections EntrainmentKC04_ipynb).
Proof.
  apply (notebook_needs_sections EntrainmentKC04_ipynb Sample.tool initial
           (Sample.final EntrainmentKC04_ipynb)).
  vm_compute. reflexivity.
Defined.

(** ** The first entry of the batch of [run_Entrainment.ipynb] *)

(** The first entry is copied before the notebook sets [langmuir_method]:
    it reads there as the document of [init_config] does. *)
Lemma first_entry_default (G : gotmtool) (σ0 σ : state) (d : pyvalue) :
  Model_init_config G = Ok d →
  Entrainment.notebook G σ0 = Ok (tt, σ) →
  ∃ c0, head (cfgs σ) = Some c0 ∧
    match tree_get (normalize d)
            at["cvmix"; "surface_layer"; "kpp"; "langmuir_method"] with
    | Ok u =>
        reads (store σ) c0 at["cvmix"; "surface_layer"; "kpp"; "langmuir_method"] u
    | Raise e =>
        getpath (store σ) c0 at["cvmix"; "surface_layer"; "kpp"; "langmuir_method"]
        = Raise e
    end.
Proof.
  intros HI.
  remember (tree_get (normalize d)
              at["cvmix"; "surface_layer"; "kpp"; "langmuir_method"]) as r eqn:Hr.
  assert (Forall2 (agrees (normalize d))
            [at["cvmix"; "surface_layer"; "kpp"; "langmuir_method"]] [Known r])
    as Hag.
  { constructor; [by rewrite Hr|constructor]. }
  revert σ0 σ. apply triple_returns.
  eapply triple_weaken; [unfold_notebook; learn_cell|intros ? H; exact H|].
  intros [] s [_ (_ & t & fp & _ & _ & Hes)].
  destruct (Hes _ eq_refl) as (ts & fps & Hall & _ & Hrows).
  apply Forall2_cons_inv_r in Hrows as (t0 & ts' & Hrow0 & _ & ->).
  apply Forall2_cons_1 in Hrow0 as [H0 _]. simpl in H0.
  inversion Hall as [|? c0 ? cs fp1 fp2 Hc0 _ _ Heq1 Heq2]; subst.
  exists c0. split; [done|].
  destruct (tree_get (normalize d) _) as [u|e] eqn:Hd.
  - by apply (reads_tree_get _ _ _ _ _ _ Hc0).
  - by apply (raises_tree_get _ _ _ _ _ _ Hc0).
Qed.

(** Property X13: the batch of [run_Entrainment.ipynb].  When the notebook
    returns, from any state and with any [gotmtool], its last call is
    [run_batch(configs=cfgs, labels=labels, nproc=4)], the labels are the
    four scheme names, and the four configurations read as in
    [entrainment_table]: the first has [turb_method] ['second_order'], the
    other three have ['cvmix'] with the [langmuir_method] ['none'],
    ['lwf16'] and ['lf17'], and all four keep [tke_method] ['tke'] and
    [len_scale_method] ['gls'].  The first entry has the
    [langmuir_method] of the default configuration: reading it gives the
    value that the document [init_config] returned has at
    [cvmix.surface_layer.kpp.langmuir_method], or raises what reading the
    document there raises. *)
Theorem entrainment_batch_settings (G : gotmtool) (σ0 σ : state) :
  Entrainment.notebook G σ0 = Ok (tt, σ) →
  last (calls σ) = Some (CallRunBatch (cfgs σ) (labels σ) 4) ∧
  labels σ = ["GLS-C01A"; "KPP-CVMix"; "KPPLT-VR12"; "KPPLT-LF17"] ∧
  Forall2 (λ c row, Forall2 (reads_if (store σ) c) entrainment_settings row)
    (cfgs σ) entrainment_table ∧
  ∃ d c0, Model_init_config G = Ok d ∧ head (cfgs σ) = Some c0 ∧
    match tree_get (normalize d)
            at["cvmix"; "surface_layer"; "kpp"; "langmuir_method"] with
    | Ok u =>
        reads (store σ) c0 at["cvmix"; "surface_layer"; "kpp"; "langmuir_method"] u
    | Raise e =>
        getpath (store σ) c0 at["cvmix"; "surface_layer"; "kpp"; "langmuir_method"]
        = Raise e
    end.
Proof.
  intros Hrun.
  assert (last (calls σ) = Some (CallRunBatch (cfgs σ) (labels σ) 4) ∧
          labels σ = ["GLS-C01A"; "KPP-CVMix"; "KPPLT-VR12"; "KPPLT-LF17"] ∧
          Forall2 (λ c row, Forall2 (reads_if (store σ) c) entrainment_settings row)
            (cfgs σ) entrainment_table) as (Hlast & Hls & Hrows).
  { revert σ0 σ Hrun. apply triple_returns.
    track_notebook entrainment_settings. }
  split_and!; [done..|].
  destruct (init_config_returned Entrainment_ipynb G σ0 σ Hrun) as [d HI].
  destruct (first_entry_default G σ0 σ d HI Hrun) as (c0 & Hc0 & Hread).
  by exists d, c0.
Qed.

(** On the sample: the default configuration has the [langmuir_method]
    ['none'], and so has the first entry. *)
Lemma entrainment_batch_settings_witness :
  let σ := Sample.final Entrainment_ipynb in
  last (calls σ) = Some (CallRunBatch (cfgs σ) (labels σ) 4) ∧
  labels σ = ["GLS-C01A"; "KPP-CVMix"; "KPPLT-VR12"; "KPPLT-LF17"] ∧
  Forall2 (λ c row, Forall2 (reads_if (store σ) c) entrainment_settings row)
    (cfgs σ) entrainment_table ∧
  ∃ d c0, Model_init_config Sample.tool = Ok d ∧ head (cfgs σ) = Some c0 ∧
    match tree_get (normalize d)
            at["cvmix"; "surface_layer"; "kpp"; "langmuir_method"] with
    | Ok u =>
        reads (store σ) c0 at["cvmix"; "surface_layer"; "kpp"; "langmuir_method"] u
    | Raise e =>
        getpath (store σ) c0 at["cvmix"; "surface_layer"; "kpp"; "langmuir_method"]
        = Raise e
    end.
Proof.
  apply (entrainment_batch_settings Sample.tool initial).
  vm_compute. reflexivity.
Defined.

(** ** From entry to entry *)

Lemma same_off_refl T t : same_off T t t.
Proof. by intros q _. Qed.

Lemma same_off_store T t1 t t' target rhs :
  same_off T t1 t → tree_store t target rhs = Ok t' →
  same_off (target :: T) t1 t'.
Proof.
  intros Hsame Hst q Hq. apply Forall_cons_1 in Hq as [Hq HT].
  rewrite (Hsame q HT).
  pose proof (after_store_agrees target q rhs (Known (tree_get t q)) t t' Hst eq_refl)
    as Ha.
  rewrite after_store_diverge in Ha by done. by symmetry.
Qed.

Lemma same_off_reads T h t1 t2 c1 c2 fp1 fp2 :
  repr h t1 c1 fp1 → repr h t2 c2 fp2 → same_off T t1 t2 →
  reads_same_off T h c1 c2.
Proof.
  intros H1 H2 Hsame q Hq. specialize (Hsame q Hq). split.
  - intros u. rewrite (reads_tree_get _ _ _ _ _ _ H1), (reads_tree_get _ _ _ _ _ _ H2).
    by rewrite Hsame.
  - intros e.
    rewrite (raises_tree_get _ _ _ _ _ _ H1), (raises_tree_get _ _ _ _ _ _ H2).
    by rewrite Hsame.
Qed.

(** An assignment to [cfg] and the entries of the batch. *)
Lemma cfg_set_batch target rhs σ σ' t fp ts fps :
  repr (store σ) t (cfg σ) fp → repr_all (store σ) ts (cfgs σ) fps → fp ## fps →
  cfg_set target rhs σ = Ok (tt, σ') →
  ∃ t' fp', tree_store t target (normalize rhs) = Ok t' ∧
            repr (store σ') t' (cfg σ') fp' ∧
            repr_all (store σ') ts (cfgs σ') fps ∧ fp' ## fps.
Proof.
  intros Hr Hall Hdisj Heq.
  pose proof (cfg_set_tree target rhs σ t fp Hr) as H.
  destruct (tree_store t target (normalize rhs)) as [t'|e] eqn:Hst; [|congruence].
  destruct H as (h' & fp' & Heq' & Hr' & Hfp' & Hout & Hlen).
  assert (σ' = set_store h' σ) as -> by congruence.
  exists t', fp'. simpl. split_and!; [done|done| |].
  - eapply repr_all_frame; [exact Hall|]. intros l Hl. apply Hout.
    + by eapply repr_all_lt.
    + set_solver.
  - apply elem_of_disjoint. intros l Hl1 Hl2.
    destruct (Hfp' _ Hl1) as [Hl|Hl]; [set_solver|].
    pose proof (repr_all_lt _ _ _ _ _ Hall Hl2). lia.
Qed.

Lemma append_batch σ σ' t fp ts fps :
  repr (store σ) t (cfg σ) fp → repr_all (store σ) ts (cfgs σ) fps → fp ## fps →
  cfgs_append_deepcopy σ = Ok (tt, σ') →
  ∃ fps', repr (store σ') t (cfg σ') fp ∧
          repr_all (store σ') (ts ++ [t]) (cfgs σ') fps' ∧ fp ## fps'.
Proof.
  intros Hr Hall Hdisj Heq.
  destruct (deepcopy_tree _ _ _ _ Hr) as (c & h' & fp' & Hdc & Hr' & Hfresh & Hold & Hlen).
  unfold cfgs_append_deepcopy in Heq. rewrite Hdc in Heq. simpl in Heq.
  injection Heq as <-. exists (fps ∪ fp'). simpl. split_and!.
  - eapply repr_frame; [exact Hr|]. intros l Hl. apply Hold. by eapply repr_lt.
  - apply repr_all_snoc; [|done|].
    + eapply repr_all_frame; [exact Hall|]. intros l Hl. apply Hold.
      by eapply repr_all_lt.
    + apply elem_of_disjoint. intros l Hl1 Hl2.
      pose proof (repr_all_lt _ _ _ _ _ Hall Hl1). specialize (Hfresh _ Hl2). lia.
  - apply disjoint_union_r. split; [done|].
    apply elem_of_disjoint. intros l Hl1 Hl2.
    pose proof (repr_lt _ _ _ _ _ Hr Hl1). specialize (Hfresh _ Hl2). lia.
Qed.

Lemma stepped_cfg_set n pend pend' steps target rhs :
  pend' = target :: pend →
  triple (stepped n pend steps) (cfg_set target rhs) (λ _, stepped n pend' steps).
Proof.
  intros -> σ [] σ' (t & fp & ts & fps & Hr & Hall & Hdisj & Hn & Hlen & Hlast & Hsteps) Heq.
  destruct (cfg_set_batch _ _ _ _ _ _ _ _ Hr Hall Hdisj Heq)
    as (t' & fp' & Hst & Hr' & Hall' & Hdisj').
  exists t', fp', ts, fps. split_and!; try done.
  intros tl Htl. eapply same_off_store; [by apply Hlast|exact Hst].
Qed.

Lemma stepped_append n pend steps steps' :
  steps' = match n with O => steps | S _ => steps ++ [pend] end →
  triple (stepped n pend steps) cfgs_append_deepcopy (λ _, stepped (S n) [] steps').
Proof.
  intros -> σ [] σ' (t & fp & ts & fps & Hr & Hall & Hdisj & Hn & Hlen & Hlast & Hsteps) Heq.
  destruct (append_batch _ _ _ _ _ _ Hr Hall Hdisj Heq) as (fps' & Hr' & Hall' & Hdisj').
  exists t, fp, (ts ++ [t]), fps'. split_and!; try done.
  - rewrite length_app. simpl. lia.
  - destruct n; [done|]. rewrite length_app. simpl in *. lia.
  - intros tl Htl. rewrite last_snoc in Htl. injection Htl as <-. apply same_off_refl.
  - intros i T a b HT Ha Hb.
    destruct n as [|n].
    { destruct steps; [|done]. by rewrite lookup_nil in HT. }
    simpl in Hlen.
    assert (i < S n)%nat as Hi.
    { apply lookup_lt_Some in HT. rewrite length_app in HT. simpl in HT. lia. }
    rewrite lookup_app_l in Ha by lia.
    destruct (decide (i = n)) as [->|Hne].
    + rewrite lookup_app_r in Hb by lia.
      replace (S n - length ts)%nat with 0%nat in Hb by lia. injection Hb as <-.
      rewrite lookup_app_r in HT by lia.
      replace (n - length steps)%nat with 0%nat in HT by lia. injection HT as <-.
      apply Hlast. rewrite last_lookup, Hn. exact Ha.
    + rewrite lookup_app_l in Hb by lia. rewrite lookup_app_l in HT by lia.
      by apply (Hsteps i T a b).
Qed.

Lemma stepped_labels_append n pend steps s :
  triple (stepped n pend steps) (labels_append s) (λ _, stepped n pend steps).
Proof. by intros σ [] σ' Hs [= <-]. Qed.

Lemma stepped_labels_reset n pend steps :
  triple (stepped n pend steps) labels_reset (λ _, stepped n pend steps).
Proof. by intros σ [] σ' Hs [= <-]. Qed.

Lemma stepped_cfgs_reset Q cur es ls :
  triple (tracked Q cur es ls) cfgs_reset (λ _, stepped 0 [] []).
Proof.
  intros σ [] σ' (_ & t & fp & Hr & _) [= <-].
  exists t, fp, [], ∅. simpl. split_and!; try done. constructor.
Qed.

Lemma stepped_run_batch G k n pend steps :
  triple (stepped n pend steps) (time_magic (run_batch G k))
    (λ _, stepped n pend steps).
Proof.
  intros σ [] σ' Hs. unfold time_magic, run_batch.
  by destruct (Model_run_batch G _ _ _ _); intros [= <-].
Qed.

(** What the steps say of the entries in the store. *)
Lemma stepped_reads n pend steps σ :
  stepped n pend steps σ →
  length (cfgs σ) = n ∧
  ∀ i T a b, steps !! i = Some T → cfgs σ !! i = Some a → cfgs σ !! S i = Some b →
             reads_same_off T (store σ) a b.
Proof.
  intros (t & fp & ts & fps & Hr & Hall & Hdisj & Hn & Hlen & Hlast & Hsteps).
  split; [by rewrite <- (repr_all_length _ _ _ _ Hall)|].
  intros i T a b HT Ha Hb.
  destruct (lookup_lt_is_Some_2 ts i) as [ta Hta].
  { rewrite (repr_all_length _ _ _ _ Hall). by eapply lookup_lt_Some. }
  destruct (lookup_lt_is_Some_2 ts (S i)) as [tb Htb].
  { rewrite (repr_all_length _ _ _ _ Hall). by eapply lookup_lt_Some. }
  destruct (repr_all_lookup _ _ _ _ _ _ Hall Hta) as (va & fpa & _ & Hva & Hra & _).
  destruct (repr_all_lookup _ _ _ _ _ _ Hall Htb) as (vb & fpb & _ & Hvb & Hrb & _).
  assert (va = a) as -> by congruence. assert (vb = b) as -> by congruence.
  eapply same_off_reads; [exact Hra|exact Hrb|]. by eapply Hsteps.
Qed.

(** Running a cell statement by statement, following the steps of the
    batch once [cfgs] is reset. *)
Ltac step_cell :=
  cbv beta zeta;
  lazymatch goal with
  | |- triple _ (_ ≫= _) _ => eapply triple_bind; [step_cell|intros ?; step_cell]
  | |- triple _ (for_each (_ :: _) _) _ =>
      eapply triple_for_each_cons; [step_cell|step_cell]
  | |- triple _ (for_each [] _) _ => apply triple_for_each_nil
  | |- triple (stepped _ _ _) (cfg_set _ _) _ =>
      eapply stepped_cfg_set; reflexivity
  | |- triple (stepped _ _ _) cfgs_append_deepcopy _ =>
      eapply stepped_append; cbn [app]; reflexivity
  | |- triple (stepped _ _ _) (labels_append _) _ => apply stepped_labels_append
  | |- triple (stepped _ _ _) labels_reset _ => apply stepped_labels_reset
  | |- triple (stepped _ _ _) (time_magic (run_batch _ _)) _ => apply stepped_run_batch
  | |- triple _ cfgs_reset _ => apply stepped_cfgs_reset
  | |- triple _ (cfg_set _ _) _ =>
      eapply tracked_cfg_set_eq; vm_compute; reflexivity
  | |- triple _ (environ_get _) _ => apply tracked_environ_get
  | |- triple _ (Model _ _ _) _ => apply any_Model
  | |- triple _ (time_magic (build _)) _ => apply any_build
  | |- triple _ (init_config _) _ =>
      eapply (tracked_init_config_eq _ _ []); vm_compute; reflexivity
  end.

(** Property X20: from entry to entry in [run_Entrainment.ipynb].  When
    the notebook returns, two entries that follow each other in [cfgs]
    differ at most under the subscripts assigned between their appends:
    the first two under [turb_method] and [langmuir_method], the three
    KPP entries under [langmuir_method] only.  Reading both at any chain
    of subscripts that parts from these at a dictionary key gives the
    same value, or the same exception. *)
Theorem entrainment_entries_differ (G : gotmtool) (σ0 σ : state) :
  Entrainment.notebook G σ0 = Ok (tt, σ) →
  length (cfgs σ) = 4%nat ∧
  ∀ i T a b, entrainment_steps !! i = Some T →
    cfgs σ !! i = Some a → cfgs σ !! S i = Some b →
    reads_same_off T (store σ) a b.
Proof.
  revert σ0 σ. apply triple_returns.
  eapply triple_weaken; [unfold_notebook; step_cell|intros ? H; exact H|].
  intros [] σ Hs. exact (stepped_reads _ _ _ _ Hs).
Qed.

(** Property X21: the two sweeps of [run_Entrainment-KC04.ipynb] change
    the swept parameter only.  When the notebook returns, the entries of
    the first loop differ from one to the next at most under
    [turbulence.my.e6], and those of the second loop at most under
    [turbulence.generic.cpsi4]: at every chain of subscripts that parts
    from that one at a dictionary key, both read the same value or raise
    the same exception. *)
Theorem kc04_sweeps_differ (G : gotmtool) (σ0 σ : state) :
  EntrainmentKC04.notebook G σ0 = Ok (tt, σ) →
  length (cfgs σ) = 10%nat ∧
  ∀ i target a b, (i, target) ∈ kc04_sweeps →
    cfgs σ !! i = Some a → cfgs σ !! S i = Some b →
    reads_same_off [target] (store σ) a b.
Proof.
  revert σ0 σ. apply triple_returns.
  eapply triple_weaken; [unfold_notebook; step_cell|intros ? H; exact H|].
  intros [] σ Hs. destruct (stepped_reads _ _ _ _ Hs) as [Hlen Hsteps].
  split; [exact Hlen|]. intros i target a b Hin.
  apply (Hsteps i [target] a b).
  unfold kc04_sweeps in Hin.
  repeat (apply elem_of_cons in Hin as [[= -> ->]|Hin]; [reflexivity|]).
  by apply elem_of_nil in Hin.
Qed.

(** On the sample. *)
Lemma entrainment_entries_differ_witness :
  let σ := Sample.final Entrainment_ipynb in
  length (cfgs σ) = 4%nat ∧
  ∀ i T a b, entrainment_steps !! i = Some T →
    cfgs σ !! i = Some a → cfgs σ !! S i = Some b →
    reads_same_off T (store σ) a b.
Proof.
  apply (entrainment_entries_differ Sample.tool initial).
  vm_compute. reflexivity.
Defined.

(** On the sample: the ten entries. *)
Lemma kc04_sweeps_differ_witness :
  let σ := Sample.final EntrainmentKC04_ipynb in
  length (cfgs σ) = 10%nat ∧
  ∀ i target a b, (i, target) ∈ kc04_sweeps →
    cfgs σ !! i = Some a → cfgs σ !! S i = Some b →
    reads_same_off [target] (store σ) a b.
Proof.
  apply (kc04_sweeps_differ Sample.tool initial).
  vm_compute. reflexivity.
Defined.

(** ** The cases of the plot notebook *)

(* ================= properties ================= *)

(** The labels of a run notebook that returns, from any state. *)
Lemma run_labels nb G σ0 σ :
  notebook nb G σ0 = Ok (tt, σ) → labels σ = batch_labels nb.
Proof.
  revert σ0 σ. apply triple_returns.
  destruct nb;
    (eapply triple_weaken;
     [unfold notebook; unfold_notebook; track_cell (@nil (list subscript))
     |intros ? H; exact H
     |intros [] s [(Hl & _) _]; rewrite (Hl _ eq_refl); vm_compute; reflexivity]).
Qed.

(** Property X22: the cases of the plot notebook are runs of the run
    notebooks.  The two cases the second cell links from
    [../Entrainment] are labels of the batch of [run_Entrainment.ipynb],
    and every other case name it builds, with ['{:.1f}'] on its own
    [e6list], is a label of the batch of [run_Entrainment-KC04.ipynb]. *)
Theorem plot_cases_are_run_labels {T} `{Num T} (E : plot_env T)
    (G1 G2 : gotmtool) (s1 σ1 s2 σ2 : state) (τ0 τ : @Plot.state T) :
  Entrainment.notebook G1 s1 = Ok (tt, σ1) →
  EntrainmentKC04.notebook G2 s2 = Ok (tt, σ2) →
  Plot.cell2 E τ0 = Ok (tt, τ) →
  Forall (λ case, if bool_decide (case ∈ ["KPP-CVMix"; "KPPLT-LF17"])
                 then case ∈ labels σ1 else case ∈ labels σ2)
    (Plot.casenames τ).
Proof.
  intros H1 H2 Hp.
  rewrite (run_labels Entrainment_ipynb _ _ _ H1).
  rewrite (run_labels EntrainmentKC04_ipynb _ _ _ H2).
  rewrite cell2_eq in Hp. apply bind_Ok in Hp as ([] & τ1 & Hstyles & Hlinks).
  apply cell2_links_Ok in Hlinks as ->.
  destruct (cell2_styles_spec τ0) as (τ' & Hstyles' & Hcases & _).
  assert (τ' = τ1) as -> by congruence. rewrite Hcases.
  unfold all_cases. repeat (apply Forall_cons; split; [vm_compute; set_solver|]).
  apply Forall_nil_2.
Qed.

(** On the sample: the seven cases. *)
Lemma plot_cases_are_run_labels_witness :
  Forall (λ case, if bool_decide (case ∈ ["KPP-CVMix"; "KPPLT-LF17"])
                 then case ∈ labels (Sample.final Entrainment_ipynb)
                 else case ∈ labels (Sample.final EntrainmentKC04_ipynb))
    (Plot.casenames Sample.styled).
Proof.
  apply (plot_cases_are_run_labels Sample.plot_tool Sample.tool Sample.tool
           initial _ initial _ Plot.initial); vm_compute; reflexivity.
Defined.

(** ** The properties on the sample *)

(** On the sample: an assignment that returns, one under a missing key,
    one under a string, [cfg[0] = 'x'], which adds the key [0], and
    [cfg['title'][0] = 'x'], which reads the string and cannot assign to
    its item. *)
Lemma cfg_set_on_tree_witness :
  is_Ok (cfg_set at["turbulence"; "turb_method"] (PStr "cvmix") Sample.configured) ∧
  cfg_set at["kpp"; "langmuir_method"] (PStr "lf17") Sample.configured
  = Raise (KeyError "kpp") ∧
  cfg_set at["title"; "language"] (PStr "en") Sample.configured = Raise TypeError ∧
  is_Ok (cfg_set [Index 0] (PStr "x") Sample.configured) ∧
  cfg_set [Key "title"; Index 0] (PStr "x") Sample.configured = Raise TypeError.
Proof.
  destruct sample_configured_tree as [fp Hr]. split_and!.
  - destruct (cfg_set_on_tree at["turbulence"; "turb_method"] (PStr "cvmix")
                Sample.configured _ fp ltac:(done) Hr) as (σ' & fp' & Heq & _).
    by exists (tt, σ').
  - exact (cfg_set_on_tree at["kpp"; "langmuir_method"] (PStr "lf17")
             Sample.configured _ fp ltac:(done) Hr).
  - exact (cfg_set_on_tree at["title"; "language"] (PStr "en")
             Sample.configured _ fp ltac:(done) Hr).
  - destruct (cfg_set_on_tree [Index 0] (PStr "x")
                Sample.configured _ fp ltac:(done) Hr) as (σ' & fp' & Heq & _).
    by exists (tt, σ').
  - exact (cfg_set_on_tree [Key "title"; Index 0] (PStr "x")
             Sample.configured _ fp ltac:(done) Hr).
Defined.

(** On the sample: the scheme is read back, and the setting of another
    section is as before. *)
Lemma cfg_set_read_back_witness :
  reads (store sample_cvmix) (cfg sample_cvmix)
    at["turbulence"; "turb_method"] (PStr "cvmix") ∧
  reads (store sample_cvmix) (cfg sample_cvmix)
    at["cvmix"; "surface_layer"; "kpp"; "langmuir_method"] (PStr "none").
Proof.
  destruct sample_configured_tree as [fp Hr].
  destruct (cfg_set_read_back at["turbulence"; "turb_method"] (PStr "cvmix")
              Sample.configured sample_cvmix _ fp Hr) as [H1 H2].
  - vm_compute. reflexivity.
  - split; [exact H1|].
    apply (H2 at["cvmix"; "surface_layer"; "kpp"; "langmuir_method"]).
    + exists [], "cvmix", "turbulence",
        at["surface_layer"; "kpp"; "langmuir_method"], at["turb_method"].
      by split_and!.
    + by apply (reads_tree_get _ _ _ _ _ _ Hr).
Defined.

(** On the sample: the first entry has the scheme of [cfg]. *)
Lemma append_copies_tree_witness :
  ∃ c, cfgs Sample.copied = [c] ∧
       reads (store Sample.copied) c at["turbulence"; "turb_method"]
         (PStr "second_order").
Proof.
  destruct sample_configured_tree as [fp Hr].
  destruct (append_copies_tree Sample.configured _ fp Hr)
    as (σ' & c & fp' & Heq & Hc & Hr' & _).
  assert (Sample.copied = σ') as -> by (unfold Sample.copied; by rewrite Heq).
  exists c. split; [exact Hc|]. by apply (reads_tree_get _ _ _ _ _ _ Hr').
Defined.

(** On a default configuration that has a title only. *)
Lemma notebook_needs_location_witness :
  before_run_batch Entrainment_ipynb bare_tool initial = Raise (KeyError "location") ∧
  notebook Entrainment_ipynb bare_tool initial = Raise (KeyError "location").
Proof.
  apply (notebook_needs_location Entrainment_ipynb bare_tool initial []
           (PDict [(Key "title", PStr "")])); reflexivity.
Defined.

(** On the sample: the ten entries. *)
Lemma kc04_batch_settings_witness :
  let σ := Sample.final EntrainmentKC04_ipynb in
  last (calls σ) = Some (CallRunBatch (cfgs σ) (labels σ) 4) ∧
  labels σ =
    ["KC04-MY-e6-1.0"; "KC04-MY-e6-4.0"; "KC04-MY-e6-6.0"; "KC04-MY-e6-7.0";
     "KC04-k-omega-c4-0.150"; "KC04-k-omega-c4-0.300";
     "KC04-k-omega-c4-0.555"; "KC04-k-omega-c4-1.200";
     "KC04-MY-NS"; "KC04-k-omega-NS"] ∧
  Forall2 (λ c row, Forall2 (reads_if (store σ) c) kc04_settings row)
    (cfgs σ) kc04_table.
Proof.
  apply (kc04_batch_settings Sample.tool initial).
  vm_compute. reflexivity.
Defined.

(** On the sample: the four entries. *)
Lemma osmosis_batch_settings_witness :
  let σ := Sample.final OsmosisWinterKC04_ipynb in
  last (calls σ) = Some (CallRunBatch (cfgs σ) (labels σ) 2) ∧
  labels σ = ["KC04-MY"; "KC04-k-omega"; "KC04-MY-NS"; "KC04-k-omega-NS"] ∧
  Forall2 (λ c row, Forall2 (reads_if (store σ) c) kc04_settings row)
    (cfgs σ) osmosis_table.
Proof.
  apply (osmosis_batch_settings Sample.tool initial).
  vm_compute. reflexivity.
Defined.

(** On the sample: the four entries of [run_Entrainment.ipynb]. *)
Lemma output_section_rebuilt_witness :
  let σ := Sample.final Entrainment_ipynb in
  length (cfgs σ) = 4%nat ∧
  Forall (λ c, reads (store σ) c at["output"] (output_section Entrainment_ipynb))
    (cfgs σ).
Proof.
  apply (output_section_rebuilt Entrainment_ipynb Sample.tool initial).
  vm_compute. reflexivity.
Defined.

(** On the sample: the files of [/home/user/OSMOSIS-Winter]. *)
Lemma osmosis_forcing_files_witness :
  let σ := Sample.final OsmosisWinterKC04_ipynb in
  Model_new Sample.tool "OSMOSIS-Winter-KC04" "../gotmtool/.gotm_env.yaml"
  = Ok (environ σ) ∧
  ∃ gotmdir_data,
    dict_get "gotmdir_data" (environ σ) = Some gotmdir_data ∧
    let datadir := dirname (dirname gotmdir_data) +:+ "/OSMOSIS-Winter" in
    Forall (λ c, Forall2 (reads (store σ) c) osmosis_forcing (osmosis_files datadir))
      (cfgs σ).
Proof.
  apply (osmosis_forcing_files Sample.tool initial).
  vm_compute. reflexivity.
Defined.

(** On the sample, the data directory is [/home/user/OSMOSIS-Winter]. *)
Example sample_datadir :
  dirname (dirname "/home/user/gotm/data") +:+ "/OSMOSIS-Winter"
  = "/home/user/OSMOSIS-Winter".
Proof. vm_compute. reflexivity. Qed.
